(** * Prometheus exposition parsing and distribution aggregates

    A shallow embedding of the metrics core of the dashboard: the exposition
    parsers ([parsePrometheusMetrics], [parsePrometheusMetricsWithMetadata]),
    metric discovery, the histogram / counter / summary aggregations and the
    bounded snapshot history.

    Conventions of the embedding.
    - A JavaScript string is a [string]: a sequence of code units below 256.
      Whitespace, line terminators and every character class of the source
      are given for that range.
    - A JavaScript number is a primitive [float] (IEEE 754 binary64), with
      [parseFloat] and [Number.prototype.toString] written out after
      ECMA-262.
    - A plain object used as a dictionary is an insertion-ordered association
      list of its own properties ([jsobj]).  The members it inherits from
      [Object.prototype] are not in the list: the list stands for the object
      as long as no key read or written is one of their names ([own_name]),
      and the properties of code that keys a plain object by a label value
      are stated for such keys.  A [Map] is an insertion-ordered association
      list, a [Set] an insertion-ordered duplicate-free list.
    - Regular expressions are terms of [regex], run by a backtracking matcher
      with ordered alternatives and greedy stars, as the host engine does. *)

From Stdlib Require Import ZArith Lia List Bool Ascii String Floats DecimalString.
From Stdlib Require Import Sorting.Sorted Sorting.Permutation.
Import ListNotations.

Set Implicit Arguments.

Local Open Scope string_scope.

(* ================================================================== *)
(** * Characters and strings *)
(* ================================================================== *)

Definition code (c : ascii) : N := N_of_ascii c.

Definition in_range (lo hi : N) (c : ascii) : bool :=
  (N.leb lo (code c) && N.leb (code c) hi)%bool.

Definition is_digit (c : ascii) : bool := in_range 48 57 c.
Definition is_lower (c : ascii) : bool := in_range 97 122 c.
Definition is_upper (c : ascii) : bool := in_range 65 90 c.
Definition is_alpha (c : ascii) : bool := is_lower c || is_upper c.

Definition is_char (a : ascii) (c : ascii) : bool := Ascii.eqb c a.

(** Membership in a literal set of characters, as in [[...]]. *)
Fixpoint one_of (set : string) (c : ascii) : bool :=
  match set with
  | EmptyString => false
  | String a rest => Ascii.eqb c a || one_of rest c
  end.

Definition LF : ascii := ascii_of_N 10.
Definition CR : ascii := ascii_of_N 13.
Definition backslash : ascii := ascii_of_N 92.
Definition dquote : ascii := ascii_of_N 34.

(** WhiteSpace and LineTerminator code points below 256: TAB, LF, VT, FF, CR,
    SP and NBSP.  This is the set of [\s] and of [String.prototype.trim]. *)
Definition is_space (c : ascii) : bool :=
  in_range 9 13 c || N.eqb (code c) 32 || N.eqb (code c) 160.

(** The characters [.] matches: everything but a line terminator. *)
Definition is_dot (c : ascii) : bool :=
  negb (N.eqb (code c) 10 || N.eqb (code c) 13).

(** Whether the head of [s] satisfies [p]. *)
Definition head_is (p : ascii -> bool) (s : string) : bool :=
  match s with
  | String c _ => p c
  | EmptyString => false
  end.

Definition str1 (c : ascii) : string := String c EmptyString.

Definition is_empty (s : string) : bool :=
  match s with EmptyString => true | _ => false end.

Fixpoint rev_onto (s acc : string) : string :=
  match s with
  | EmptyString => acc
  | String c s' => rev_onto s' (String c acc)
  end.

Definition srev (s : string) : string := rev_onto s EmptyString.

Fixpoint drop_while (p : ascii -> bool) (s : string) : string :=
  match s with
  | EmptyString => EmptyString
  | String c s' => if p c then drop_while p s' else s
  end.

Fixpoint take_while (p : ascii -> bool) (s : string) : string :=
  match s with
  | EmptyString => EmptyString
  | String c s' => if p c then String c (take_while p s') else EmptyString
  end.

Fixpoint sdrop (n : nat) (s : string) : string :=
  match n, s with
  | O, _ => s
  | S n', String _ s' => sdrop n' s'
  | S _, EmptyString => EmptyString
  end.

Fixpoint stake (n : nat) (s : string) : string :=
  match n, s with
  | O, _ => EmptyString
  | S n', String c s' => String c (stake n' s')
  | S _, EmptyString => EmptyString
  end.

(** [String.prototype.trim]. *)
Definition trim (s : string) : string :=
  srev (drop_while is_space (srev (drop_while is_space s))).

(** [s.startsWith(p)]. *)
Fixpoint startsWith (p s : string) : bool :=
  match p, s with
  | EmptyString, _ => true
  | String a p', String b s' => Ascii.eqb a b && startsWith p' s'
  | String _ _, EmptyString => false
  end.

(** [s.endsWith(p)]. *)
Definition endsWith (p s : string) : bool := startsWith (srev p) (srev s).

(** [text.split('\n')]: always at least one piece. *)
Fixpoint split_on (sep : ascii) (s : string) : list string :=
  match s with
  | EmptyString => [EmptyString]
  | String c s' =>
      if Ascii.eqb c sep then EmptyString :: split_on sep s'
      else match split_on sep s' with
           | x :: xs => String c x :: xs
           | [] => [str1 c]
           end
  end.

(** [s.replace(pat, rep)] with a string pattern: the first occurrence only. *)
Fixpoint replace_first (pat rep s : string) : string :=
  if startsWith pat s then rep ++ sdrop (String.length pat) s
  else match s with
       | EmptyString => EmptyString
       | String c s' => String c (replace_first pat rep s')
       end.

(** [s.replaceAll(pat, rep)] for a pattern of two code units [a b]: every
    occurrence, found left to right, without overlap. *)
Fixpoint replaceAll2 (a b : ascii) (rep : string) (s : string) : string :=
  match s with
  | EmptyString => EmptyString
  | String c s' =>
      match s' with
      | String d s'' =>
          if Ascii.eqb c a && Ascii.eqb d b then rep ++ replaceAll2 a b rep s''
          else String c (replaceAll2 a b rep s')
      | EmptyString => s
      end
  end.

(** [parts.join(sep)]. *)
Fixpoint join (sep : string) (l : list string) : string :=
  match l with
  | [] => EmptyString
  | [x] => x
  | x :: rest => x ++ sep ++ join sep rest
  end.

(** Code-unit order, the order of [Array.prototype.sort()] without a
    comparator on an array of strings. *)
Fixpoint str_ltb (a b : string) : bool :=
  match a, b with
  | EmptyString, EmptyString => false
  | EmptyString, String _ _ => true
  | String _ _, EmptyString => false
  | String x a', String y b' =>
      if N.ltb (code x) (code y) then true
      else if N.ltb (code y) (code x) then false
      else str_ltb a' b'
  end.

(* ================================================================== *)
(** * Regular expressions *)
(* ================================================================== *)

Inductive regex : Type :=
| Emp                                   (* the empty pattern *)
| Chr (p : ascii -> bool)               (* one character of a class *)
| Seq (a b : regex)
| Alt (a b : regex)                     (* [a|b], [a] tried first *)
| Star (a : regex)                      (* greedy [a*] *)
| Group (i : nat) (a : regex)           (* capture group number [i] *)
| Bol                                   (* [^] *)
| Eol.                                  (* [$] *)

Definition Plus (a : regex) : regex := Seq a (Star a).
Definition Opt (a : regex) : regex := Alt a Emp.

Fixpoint Lit (s : string) : regex :=
  match s with
  | EmptyString => Emp
  | String c s' => Seq (Chr (is_char c)) (Lit s')
  end.

Fixpoint seqs (l : list regex) : regex :=
  match l with
  | [] => Emp
  | [r] => r
  | r :: rest => Seq r (seqs rest)
  end.

Definition caps : Type := list (nat * string).

Fixpoint get_cap (i : nat) (cs : caps) : option string :=
  match cs with
  | [] => None
  | (j, t) :: rest => if Nat.eqb i j then Some t else get_cap i rest
  end.

(** The outcome of a successful match: what is left of the subject after the
    match, and the captures. *)
Definition mresult : Type := (string * caps)%type.
Definition cont : Type := string -> caps -> option mresult.

(** The iterations of a greedy star over a pattern whose matcher is [body]:
    one more iteration is tried first, then leaving the star.  An iteration
    that consumes nothing is refused, as in ECMA-262, so [S (length s)]
    rounds are enough for a subject [s]. *)
Fixpoint star_loop (body : string -> caps -> cont -> option mresult)
  (k : cont) (n : nat) (s : string) (cs : caps) : option mresult :=
  match n with
  | O => k s cs
  | S n' =>
      match body s cs
              (fun s' cs' =>
                 if Nat.ltb (String.length s') (String.length s)
                 then star_loop body k n' s' cs' else None) with
      | Some x => Some x
      | None => k s cs
      end
  end.

Section Matcher.
  (** Length of the whole subject, so that [^] can tell the start. *)
Variable len0 : nat.

  (** Backtracking matcher in continuation-passing style.  [rmatch r s cs k]
      matches [r] at the head of [s] and hands what is left to [k]; when [k]
      fails, the next alternative of [r] is tried. *)
Fixpoint rmatch (r : regex) (s : string) (cs : caps) (k : cont)
    : option mresult :=
    match r with
    | Emp => k s cs
    | Chr p =>
        match s with
        | String c s' => if p c then k s' cs else None
        | EmptyString => None
        end
    | Seq a b => rmatch a s cs (fun s' cs' => rmatch b s' cs' k)
    | Alt a b =>
        match rmatch a s cs k with
        | Some x => Some x
        | None => rmatch b s cs k
        end
    | Star a => star_loop (rmatch a) k (S (String.length s)) s cs
    | Group i a =>
        rmatch a s cs
          (fun s' cs' =>
             k s' ((i, stake (String.length s - String.length s') s) :: cs'))
    | Bol => if Nat.eqb (String.length s) len0 then k s cs else None
    | Eol => match s with EmptyString => k s cs | _ => None end
    end.

  (** Leftmost match at or after the head of [s]: the suffix where the match
      starts, the rest after it, and the captures. *)
Fixpoint search (r : regex) (s : string) : option (string * mresult) :=
    match rmatch r s [] (fun s' cs' => Some (s', cs')) with
    | Some res => Some (s, res)
    | None =>
        match s with
        | EmptyString => None
        | String _ s' => search r s'
        end
    end.

  (** The loop [while ((m = re.exec(str)) !== null)] over a global regex:
      each search resumes where the previous match ended.  [None] stands for
      a loop that does not end (out of fuel). *)
Fixpoint exec_loop (fuel : nat) (r : regex) (s : string)
    : option (list caps) :=
    match fuel with
    | O => None
    | S f =>
        match search r s with
        | None => Some []
        | Some (_, (rest, cs)) =>
            match exec_loop f r rest with
            | Some l => Some (cs :: l)
            | None => None
            end
        end
    end.
End Matcher.

(** [str.match(re)] for a regex without the [g] flag: the captures of the
    leftmost match, or [None] for [null]. *)
Definition regex_match (r : regex) (s : string) : option caps :=
  match search (String.length s) r s with
  | Some (_, (_, cs)) => Some cs
  | None => None
  end.

(** All the matches of a global regex over [s], in order. *)
Definition exec_all (r : regex) (s : string) : option (list caps) :=
  exec_loop (String.length s) (S (String.length s)) r s.

(** ** What a pattern matches

    [matches len0 r s s'] : [r] matches the head of [s] and leaves [s'], in a
    subject of [len0] characters.  Captures and the order of the alternatives
    are left out; the matcher only ever succeeds on such a pair. *)
Inductive matches (len0 : nat) : regex -> string -> string -> Prop :=
| m_emp : forall s, matches len0 Emp s s
| m_chr : forall p c s, p c = true -> matches len0 (Chr p) (String c s) s
| m_seq : forall a b s s' s'',
    matches len0 a s s' -> matches len0 b s' s'' ->
    matches len0 (Seq a b) s s''
| m_alt_l : forall a b s s', matches len0 a s s' -> matches len0 (Alt a b) s s'
| m_alt_r : forall a b s s', matches len0 b s s' -> matches len0 (Alt a b) s s'
| m_star_nil : forall a s, matches len0 (Star a) s s
| m_star_cons : forall a s s' s'',
    matches len0 a s s' -> String.length s' < String.length s ->
    matches len0 (Star a) s' s'' -> matches len0 (Star a) s s''
| m_group : forall i a s s', matches len0 a s s' -> matches len0 (Group i a) s s'
| m_bol : forall s, String.length s = len0 -> matches len0 Bol s s
| m_eol : matches len0 Eol EmptyString EmptyString.

(** Every class of [r] lies within [q]. *)
Fixpoint classes_within (q : ascii -> bool) (r : regex) : Prop :=
  match r with
  | Chr p => forall c, p c = true -> q c = true
  | Seq a b | Alt a b => classes_within q a /\ classes_within q b
  | Star a | Group _ a => classes_within q a
  | Emp | Bol | Eol => True
  end.

(** ** The regular expressions of the parsers *)

(** [[a-zA-Z_:]] and [[a-zA-Z0-9_:]]. *)
Definition name_start (c : ascii) : bool := is_alpha c || one_of "_:" c.
Definition name_char (c : ascii) : bool := name_start c || is_digit c.

(** [[a-zA-Z_]] and [[a-zA-Z0-9_]]. *)
Definition label_start (c : ascii) : bool := is_alpha c || one_of "_" c.
Definition label_char (c : ascii) : bool := label_start c || is_digit c.

(** [[0-9eE.+\-NaNInf]]. *)
Definition value_char (c : ascii) : bool := is_digit c || one_of "eE.+-NaNInf" c.

Definition not_rbrace (c : ascii) : bool := negb (one_of "}" c).

(** The class of the characters other than the double quote and the
    backslash. *)
Definition plain_char (c : ascii) : bool :=
  negb (Ascii.eqb c dquote || Ascii.eqb c backslash).

Definition any_char (c : ascii) : bool := true.

Definition metric_name_re : regex := Seq (Chr name_start) (Star (Chr name_char)).

(** The part of the data pattern after the optional label block. *)
Definition data_tail : regex :=
  seqs [ Plus (Chr is_space);
         Group 3 (Plus (Chr value_char));
         Opt (seqs [Plus (Chr is_space); Group 4 (Plus (Chr is_digit))]);
         Eol ].

(** The data-line pattern: [^], group 1 a metric name, optionally [{], group 2
    a greedy star over the characters other than [}], and [}]; then [\s+],
    group 3 [[0-9eE.+\-NaNInf]+], optionally [\s+] and group 4 [[0-9]+]; [$]. *)
Definition dataRegex : regex :=
  seqs [ Bol;
         Group 1 metric_name_re;
         Opt (seqs [Lit "{"; Group 2 (Star (Chr not_rbrace)); Lit "}"]);
         Plus (Chr is_space);
         Group 3 (Plus (Chr value_char));
         Opt (seqs [Plus (Chr is_space); Group 4 (Plus (Chr is_digit))]);
         Eol ].

(** The global label pattern: group 1 is [[a-zA-Z_][a-zA-Z0-9_]*], then [=],
    a double quote, group 2 a greedy star over (a character other than the
    double quote and the backslash, or a backslash followed by any character
    that [.] matches), and the closing double quote. *)
Definition labelRegex : regex :=
  seqs [ Group 1 (Seq (Chr label_start) (Star (Chr label_char)));
         Chr (is_char "="%char);
         Chr (is_char dquote);
         Group 2 (Star (Alt (Chr plain_char)
                            (Seq (Chr (is_char backslash)) (Chr is_dot))));
         Chr (is_char dquote) ].

(** The HELP pattern: [^#\s*HELP\s+], group 1 a metric name, [\s+], group 2
    a greedy star over [.], and [$]. *)
Definition helpRegex : regex :=
  seqs [ Bol; Lit "#"; Star (Chr is_space); Lit "HELP"; Plus (Chr is_space);
         Group 1 metric_name_re; Plus (Chr is_space);
         Group 2 (Star (Chr is_dot)); Eol ].

(** Lower-casing of one code unit and of a string ([toLowerCase] on A-Z). *)
Definition lower (c : ascii) : ascii :=
  if is_upper c then ascii_of_N (code c + 32) else c.

Fixpoint toLowerCase (s : string) : string :=
  match s with
  | EmptyString => EmptyString
  | String c s' => String (lower c) (toLowerCase s')
  end.

(** A literal under the [i] flag. *)
Fixpoint LitI (s : string) : regex :=
  match s with
  | EmptyString => Emp
  | String c s' =>
      Seq (Chr (fun x => Ascii.eqb (lower x) (lower c))) (LitI s')
  end.

(** The TYPE pattern, under the [i] flag: [^#\s*TYPE\s+], group 1 a metric
    name, [\s+], group 2 [counter|gauge|histogram|summary|untyped], [$]. *)
Definition typeRegex : regex :=
  seqs [ Bol; Lit "#"; Star (Chr is_space); LitI "TYPE"; Plus (Chr is_space);
         Group 1 metric_name_re; Plus (Chr is_space);
         Group 2 (Alt (LitI "counter")
                 (Alt (LitI "gauge")
                 (Alt (LitI "histogram")
                 (Alt (LitI "summary") (LitI "untyped")))));
         Eol ].

(* ================================================================== *)
(** * Numbers *)
(* ================================================================== *)

(** A JavaScript number is an IEEE 754 binary64 value. *)
Definition num : Type := float.

Definition fzero : num := PrimFloat.zero.
Definition fNaN : num := PrimFloat.nan.
Definition Infinity : num := PrimFloat.infinity.
Definition negInfinity : num := PrimFloat.neg_infinity.

(** [Number.isNaN]. *)
Definition isNaN (x : num) : bool := PrimFloat.is_nan x.

(** [Number.isFinite]. *)
Definition isFinite (x : num) : bool :=
  negb (PrimFloat.is_nan x || PrimFloat.is_infinity x).

(** ToBoolean of a number: [+0], [-0] and [NaN] are falsy. *)
Definition truthy (x : num) : bool :=
  negb (PrimFloat.is_nan x || PrimFloat.eqb x fzero).

(** [x || 0] for a number [x]. *)
Definition orZero (x : num) : num := if truthy x then x else fzero.

(** [o || 0] where [o] is the outcome of a property read: [undefined] is
    falsy as well. *)
Definition optOrZero (o : option num) : num :=
  match o with
  | Some x => orZero x
  | None => fzero
  end.

(** [a > b] and [a < b]. *)
Definition gt (a b : num) : bool := PrimFloat.ltb b a.
Definition lt (a b : num) : bool := PrimFloat.ltb a b.

(** [a === b] on numbers. *)
Definition num_eq (a b : num) : bool := PrimFloat.eqb a b.

Definition is_neg_zero (x : num) : bool :=
  match PrimFloat.classify x with
  | NZero => true
  | _ => false
  end.

(** [Math.max(a, b)]: [NaN] when either argument is, [+0] above [-0]. *)
Definition Math_max (a b : num) : num :=
  if PrimFloat.is_nan a || PrimFloat.is_nan b then fNaN
  else if PrimFloat.ltb a b then b
  else if PrimFloat.ltb b a then a
  else if is_neg_zero a then b else a.

(** ** The value of a number

    Every finite binary64 number is an integer multiple of 2^-1074.
    [scaled x] is that integer: the exact value of [x] in units of 2^-1074
    (0 for an infinity or NaN).  [rank] extends it to the infinities, which
    it puts beyond every finite number, so that the order of two numbers
    that are not NaN is the order of their ranks. *)
Definition SFscaled (x : spec_float) : Z :=
  match x with
  | S754_finite s m e => cond_Zopp s (Zpos m * 2 ^ (e - emin))
  | _ => 0%Z
  end.

Definition SFrank (x : spec_float) : Z :=
  match x with
  | S754_infinity s => cond_Zopp s (2 ^ 2100)
  | _ => SFscaled x
  end.

Definition scaled (x : num) : Z := SFscaled (Prim2SF x).
Definition rank (x : num) : Z := SFrank (Prim2SF x).

(** ** Decimal text to number *)

Definition digit_value (c : ascii) : Z := Z.of_N (code c) - 48.

Fixpoint digits_value (acc : Z) (s : string) : Z :=
  match s with
  | EmptyString => acc
  | String c s' => digits_value (10 * acc + digit_value c) s'
  end.

(** The number nearest to [m * 10^e] (ties to even), for [0 <= m], with the
    sign [neg]: the rounding of a decimal literal (ECMA-262, StringToNumber
    and [parseFloat]). *)
Definition round_decimal (neg : bool) (m e : Z) : num :=
  match m with
  | Z0 => if neg then PrimFloat.neg_zero else PrimFloat.zero
  | Zpos _ =>
      if Z.leb 0 e
      then SF2Prim (binary_normalize prec emax
                      (cond_Zopp neg (m * 10 ^ e)) 0 false)
      else
        let '(q, e', l) :=
          SFdiv_core_binary prec emax m 0 (10 ^ (- e)) 0 in
        SF2Prim (binary_round_aux prec emax neg q e' l)
  | Zneg _ => fNaN
  end.

(** An optional sign at the head of [s]: whether it is [-], and the rest. *)
Definition read_sign (s : string) : bool * string :=
  match s with
  | String c r =>
      if Ascii.eqb c "+"%char then (false, r)
      else if Ascii.eqb c "-"%char then (true, r)
      else (false, s)
  | EmptyString => (false, s)
  end.

(** The exponent part [e|E] [+|-]? digits at the head of [s], or 0 when [s]
    does not start with a complete one. *)
Definition read_exponent (s : string) : Z :=
  match s with
  | String c r =>
      if one_of "eE" c then
        let '(eneg, r1) := read_sign r in
        let ed := take_while is_digit r1 in
        if is_empty ed then 0%Z else cond_Zopp eneg (digits_value 0 ed)
      else 0%Z
  | EmptyString => 0%Z
  end.

(** [Number.parseFloat]: leading white space is skipped, the longest prefix
    that is a StrDecimalLiteral is read, and [NaN] results when there is
    none. *)
Definition parseFloat (s : string) : num :=
  let s0 := drop_while is_space s in
  let '(neg, s1) := read_sign s0 in
  if startsWith "Infinity" s1 then (if neg then negInfinity else Infinity)
  else
    let ip := take_while is_digit s1 in
    let s2 := drop_while is_digit s1 in
    let '(fp, s3) :=
      match s2 with
      | String c r =>
          if Ascii.eqb c "."%char
          then (take_while is_digit r, drop_while is_digit r)
          else (EmptyString, s2)
      | EmptyString => (EmptyString, s2)
      end in
    if is_empty ip && is_empty fp then fNaN
    else round_decimal neg (digits_value 0 (ip ++ fp))
           (read_exponent s3 - Z.of_nat (String.length fp)).

(** ** Number to decimal text *)

(** A positive finite number as a fraction of positive integers. *)
Definition frac_of (m : positive) (e : Z) : Z * Z :=
  if Z.leb 0 e then (Zpos m * 2 ^ e, 1)%Z else (Zpos m, 2 ^ (- e))%Z.

(** [x >= 10^n], for [x = xn / xd]. *)
Definition ge_pow10 (xn xd n : Z) : bool :=
  if Z.leb 0 n then Z.leb (10 ^ n * xd) xn else Z.leb xd (xn * 10 ^ (- n)).

(** The least [n] at or above [n0] with [x < 10^n]. *)
Fixpoint find_mag (fuel : nat) (xn xd n : Z) : Z :=
  match fuel with
  | O => n
  | S f => if ge_pow10 xn xd n then find_mag f xn xd (n + 1) else n
  end.

(** [floor (x / 10^p)]. *)
Definition floor_scaled (xn xd p : Z) : Z :=
  if Z.leb 0 p then (xn / (xd * 10 ^ p))%Z else ((xn * 10 ^ (- p)) / xd)%Z.

(** Order of [2 x] and [c * 10^p]. *)
Definition cmp_twice (xn xd c p : Z) : comparison :=
  if Z.leb 0 p then Z.compare (2 * xn) (c * 10 ^ p * xd)
  else Z.compare (2 * xn * 10 ^ (- p)) (c * xd).

(** The digits [s] and the exponent [n] of ECMA-262 Number::toString for a
    positive finite [x]: the least number of digits [k] for which some
    [s * 10^(n-k)] with [10^(k-1) <= s < 10^k] rounds to [x]; among those the
    [s] nearest to [x]. *)
Fixpoint shortest_digits (fuel : nat) (x : num) (xn xd n0 k : Z) : Z * Z :=
  let p := (n0 - k)%Z in
  let lo := floor_scaled xn xd p in
  let hi := (lo + 1)%Z in
  let lo_ok := PrimFloat.eqb (round_decimal false lo p) x in
  let hi_ok := PrimFloat.eqb (round_decimal false hi p) x in
  let pick_hi := if Z.eqb hi (10 ^ k) then (10 ^ (k - 1), n0 + 1)%Z else (hi, n0) in
  match fuel with
  | O => (lo, n0)
  | S f =>
      if lo_ok && hi_ok then
        match cmp_twice xn xd (2 * lo + 1) p with
        | Lt => (lo, n0)
        | Gt => pick_hi
        | Eq => if Z.even lo then (lo, n0) else pick_hi
        end
      else if lo_ok then (lo, n0)
      else if hi_ok then pick_hi
      else shortest_digits f x xn xd n0 (k + 1)
  end.

Definition digits_of (z : Z) : string :=
  NilZero.string_of_uint (N.to_uint (Z.to_N z)).

Fixpoint zeros (n : nat) : string :=
  match n with
  | O => EmptyString
  | S n' => String "0"%char (zeros n')
  end.

(** The text of a positive finite number from its digits [ds] (there are [k]
    of them) and its exponent [n]. *)
Definition format_digits (ds : string) (n : Z) : string :=
  let k := Z.of_nat (String.length ds) in
  if Z.leb k n && Z.leb n 21 then ds ++ zeros (Z.to_nat (n - k))
  else if Z.ltb 0 n && Z.leb n 21 then
    stake (Z.to_nat n) ds ++ "." ++ sdrop (Z.to_nat n) ds
  else if Z.ltb (-6) n && Z.leb n 0 then
    "0." ++ zeros (Z.to_nat (- n)) ++ ds
  else
    let e := (n - 1)%Z in
    let es := (if Z.ltb e 0 then "-" else "+") ++ digits_of (Z.abs e) in
    if Z.eqb k 1 then ds ++ "e" ++ es
    else stake 1 ds ++ "." ++ sdrop 1 ds ++ "e" ++ es.

(** [Number.prototype.toString()], also the text of a number in a template
    literal. *)
Definition toString (x : num) : string :=
  match Prim2SF x with
  | S754_nan => "NaN"
  | S754_zero _ => "0"
  | S754_infinity s => if s then "-Infinity" else "Infinity"
  | S754_finite s m e =>
      let '(xn, xd) := frac_of m e in
      let n0 := find_mag 640 xn xd (-324) in
      let '(d, n) := shortest_digits 17 (PrimFloat.abs x) xn xd n0 1 in
      (if s then "-" else "") ++ format_digits (digits_of d) n
  end.

(* ================================================================== *)
(** * Objects, maps, sets and arrays *)
(* ================================================================== *)

(** The own properties of a plain object, in the order of their creation. *)
Definition jsobj (V : Type) : Type := list (string * V).

(** [o[k]]: [None] stands for [undefined]. *)
Fixpoint obj_get {V : Type} (k : string) (o : jsobj V) : option V :=
  match o with
  | [] => None
  | (k', v) :: rest => if String.eqb k k' then Some v else obj_get k rest
  end.

(** [o[k] = v]: an existing property keeps its place. *)
Fixpoint obj_set {V : Type} (k : string) (v : V) (o : jsobj V) : jsobj V :=
  match o with
  | [] => [(k, v)]
  | (k', v') :: rest =>
      if String.eqb k k' then (k, v) :: rest else (k', v') :: obj_set k v rest
  end.

Fixpoint all_chars (p : ascii -> bool) (s : string) : bool :=
  match s with
  | EmptyString => true
  | String c s' => p c && all_chars p s'
  end.

(** A property name that is an array index: the canonical decimal text of an
    integer below 2^32 - 1.  Such keys are enumerated first, in ascending
    numeric order. *)
Definition is_array_index (s : string) : bool :=
  match s with
  | EmptyString => false
  | String c r =>
      all_chars is_digit s
      && (negb (Ascii.eqb c "0"%char) || is_empty r)
      && Z.ltb (digits_value 0 s) 4294967295
  end.

Fixpoint insert_index {V : Type} (e : string * V) (l : jsobj V) : jsobj V :=
  match l with
  | [] => [e]
  | e' :: rest =>
      if Z.ltb (digits_value 0 (fst e)) (digits_value 0 (fst e'))
      then e :: l else e' :: insert_index e rest
  end.

(** [Object.entries(o)]: array-index keys in ascending order, then the other
    keys in the order of their creation. *)
Definition obj_entries {V : Type} (o : jsobj V) : list (string * V) :=
  (fold_right insert_index [] (filter (fun e => is_array_index (fst e)) o)
   ++ filter (fun e => negb (is_array_index (fst e))) o)%list.

(** [Object.keys(o)]. *)
Definition obj_keys {V : Type} (o : jsobj V) : list string :=
  map fst (obj_entries o).

(** [set.add(x)] on a [Set] of strings. *)
Definition set_add (x : string) (l : list string) : list string :=
  if existsb (String.eqb x) l then l else (l ++ [x])%list.

(** Stable insertion: [x] goes after every element it must follow. *)
Fixpoint insert_by {A : Type} (after : A -> A -> bool) (x : A) (l : list A)
  : list A :=
  match l with
  | [] => [x]
  | y :: rest => if after x y then y :: insert_by after x rest else x :: l
  end.

Definition sort_by {A : Type} (after : A -> A -> bool) (l : list A) : list A :=
  fold_right (insert_by after) [] l.

(** [arr.sort(cmp)]: the sort is stable, [a] follows [b] when [cmp(a, b) > 0],
    and a [NaN] outcome counts as 0.  For a comparator that is a consistent
    order the result is the one ECMA-262 fixes.  Where the comparator is not
    one, as when differences of keys are NaN for some pairs only, ECMA-262
    leaves the order to the host and this list is one of the orders allowed:
    what is stated about an order is stated for keys that are not NaN. *)
Definition js_sort {A : Type} (cmp : A -> A -> num) (l : list A) : list A :=
  sort_by (fun a b => gt (cmp a b) fzero) l.

(** [arr.sort()] on strings: code-unit order. *)
Definition sort_strings (l : list string) : list string :=
  sort_by (fun a b => str_ltb b a) l.

(** [arr.map((x, idx) => f(x, idx))]. *)
Fixpoint mapi_from {A B : Type} (f : A -> nat -> B) (i : nat) (l : list A)
  : list B :=
  match l with
  | [] => []
  | x :: rest => f x i :: mapi_from f (S i) rest
  end.

Definition mapi {A B : Type} (f : A -> nat -> B) (l : list A) : list B :=
  mapi_from f 0 l.

(** [arr.slice(-n)] for a positive [n]: the last [n] elements. *)
Definition slice_last {A : Type} (n : nat) (l : list A) : list A :=
  skipn (List.length l - n) l.

(* ================================================================== *)
(** * The exposition parsers *)
(* ================================================================== *)

Record Sample : Type := mkSample { labels : jsobj string; value : num }.

(** The [Map] from metric name to its samples. *)
Definition Metrics : Type := list (string * list Sample).

(** [metrics.get(name)]. *)
Definition metrics_get (name : string) (m : Metrics) : option (list Sample) :=
  obj_get name m.

(** [if (!metrics.has(name)) metrics.set(name, []); metrics.get(name).push(s)] *)
Fixpoint metrics_push (name : string) (s : Sample) (m : Metrics) : Metrics :=
  match m with
  | [] => [(name, [s])]
  | (n, l) :: rest =>
      if String.eqb name n then (n, (l ++ [s])%list) :: rest
      else (n, l) :: metrics_push name s rest
  end.

(** The three [replaceAll] calls on a captured label value, in the order of
    the source: backslash-quote, then backslash-backslash, then
    backslash-n. *)
Definition unescape (v : string) : string :=
  replaceAll2 backslash "n"%char (str1 LF)
    (replaceAll2 backslash backslash (str1 backslash)
       (replaceAll2 backslash dquote (str1 dquote) v)).

(** The value of a sample from its token. *)
Definition parse_value (valueStr : string) : num :=
  let v := parseFloat valueStr in
  if isNaN v then
    if String.eqb valueStr "+Inf" || String.eqb valueStr "Inf" then Infinity
    else if String.eqb valueStr "-Inf" then negInfinity
    else fzero
  else v.

(** [labels[k] = v] for the captures of one pair.  A string assigned to
    [__proto__] reaches the setter the object inherits, which ignores it:
    the object is left as it is. *)
Definition add_label (lbls : jsobj string) (m : caps) : jsobj string :=
  match get_cap 1 m, get_cap 2 m with
  | Some k, Some v =>
      if String.eqb k "__proto__" then lbls else obj_set k (unescape v) lbls
  | _, _ => lbls
  end.

(** The labels of a data line from the optional capture of its label block.
    [None] stands for an [exec] loop that does not end. *)
Definition parse_labels (labelStr : option string) : option (jsobj string) :=
  match labelStr with
  | None => Some []
  | Some s =>
      if is_empty s then Some []
      else match exec_all labelRegex s with
           | Some ms => Some (fold_left add_label ms [])
           | None => None
           end
  end.

(** The body of [if (match)]: one sample appended under the metric name. *)
Definition data_line (trimmed : string) (metrics : Metrics) : option Metrics :=
  match regex_match dataRegex trimmed with
  | Some cs =>
      match get_cap 1 cs, get_cap 3 cs with
      | Some name, Some valueStr =>
          let v := parse_value valueStr in
          match parse_labels (get_cap 2 cs) with
          | Some lbls => Some (metrics_push name (mkSample lbls v) metrics)
          | None => None
          end
      | _, _ => Some metrics
      end
  | None => Some metrics
  end.

Fixpoint parse_lines (lines : list string) (metrics : Metrics)
  : option Metrics :=
  match lines with
  | [] => Some metrics
  | line :: rest =>
      let trimmed := trim line in
      if is_empty trimmed || startsWith "#" trimmed
      then parse_lines rest metrics
      else match data_line trimmed metrics with
           | Some metrics' => parse_lines rest metrics'
           | None => None
           end
  end.

(** [parsePrometheusMetrics(text)].  [None] stands for a call that does not
    return. *)
Definition parsePrometheusMetrics (text : string) : option Metrics :=
  parse_lines (split_on LF text) [].

(** ** The parser with HELP/TYPE metadata *)

Record Meta : Type := mkMeta { help : string; mtype : string }.

Definition Metadata : Type := list (string * Meta).

(** [if (!metadata.has(name)) metadata.set(name, {help: '', type: 'untyped'})]
    followed by one assignment to a field of [metadata.get(name)]. *)
Fixpoint meta_update (name : string) (f : Meta -> Meta) (md : Metadata)
  : Metadata :=
  match md with
  | [] => [(name, f (mkMeta "" "untyped"))]
  | (n, e) :: rest =>
      if String.eqb name n then (n, f e) :: rest
      else (n, e) :: meta_update name f rest
  end.

Definition meta_line (trimmed : string) (st : Metrics * Metadata)
  : option (Metrics * Metadata) :=
  let '(metrics, metadata) := st in
  match regex_match helpRegex trimmed with
  | Some cs =>
      match get_cap 1 cs, get_cap 2 cs with
      | Some name, Some h =>
          Some (metrics,
                meta_update name (fun e => mkMeta h (mtype e)) metadata)
      | _, _ => Some st
      end
  | None =>
      match regex_match typeRegex trimmed with
      | Some cs =>
          match get_cap 1 cs, get_cap 2 cs with
          | Some name, Some t =>
              Some (metrics,
                    meta_update name
                      (fun e => mkMeta (help e) (toLowerCase t)) metadata)
          | _, _ => Some st
          end
      | None =>
          if startsWith "#" trimmed then Some st
          else match data_line trimmed metrics with
               | Some metrics' => Some (metrics', metadata)
               | None => None
               end
      end
  end.

Fixpoint parse_lines_meta (lines : list string) (st : Metrics * Metadata)
  : option (Metrics * Metadata) :=
  match lines with
  | [] => Some st
  | line :: rest =>
      let trimmed := trim line in
      if is_empty trimmed then parse_lines_meta rest st
      else match meta_line trimmed st with
           | Some st' => parse_lines_meta rest st'
           | None => None
           end
  end.

(** [parsePrometheusMetricsWithMetadata(text)]: [{ metrics, metadata }]. *)
Definition parsePrometheusMetricsWithMetadata (text : string)
  : option (Metrics * Metadata) :=
  parse_lines_meta (split_on LF text) ([], []).

(* ================================================================== *)
(** * Discovery and aggregation *)
(* ================================================================== *)

(** [labels[k] || fallback] for a string-valued label: [undefined] and the
    empty string are falsy.  This is the read of an own property: for a [k]
    that is a name of [Object.prototype] and no label of the sample, the
    source reads the inherited member instead ([own_name]). *)
Definition label_or (k : string) (lbls : jsobj string) (fallback : string)
  : string :=
  match obj_get k lbls with
  | Some v => if is_empty v then fallback else v
  | None => fallback
  end.

(** [s.labels.quantile !== undefined]. *)
Definition has_quantile (s : Sample) : bool :=
  match obj_get "quantile" (labels s) with
  | Some _ => true
  | None => false
  end.

(** [getGroupKey(labels, groupBy)]; [None] is a [null] or [undefined]
    [groupBy], and an empty one is falsy too. *)
Definition getGroupKey (lbls : jsobj string) (groupBy : option string)
  : string :=
  match groupBy with
  | None => "All"
  | Some g =>
      if is_empty g then "All"
      else if String.eqb g "method + path" then
        let m := label_or "method" lbls "" in
        let p := label_or "path" lbls "" in
        if negb (is_empty m) && negb (is_empty p) then m ++ " " ++ p
        else if negb (is_empty m) then m
        else if negb (is_empty p) then p
        else "Other"
      else label_or g lbls "Other"
  end.

Record Discovered : Type := mkDiscovered {
  histograms : list string;
  summaries : list string;
  counters : list string
}.

Definition discover_step (acc : list string * list string * list string)
  (entry : string * list Sample) : list string * list string * list string :=
  let '(hs, ss, cs) := acc in
  let '(name, series) := entry in
  if endsWith "_bucket" name
  then (set_add (replace_first "_bucket" "" name) hs, ss, cs)
  else if existsb has_quantile series then (hs, set_add name ss, cs)
  else (hs, ss, set_add name cs).

(** [discoverDistributions(metrics)]. *)
Definition discoverDistributions (metrics : Metrics) : Discovered :=
  let '(hs, ss, cs) := fold_left discover_step metrics ([], [], []) in
  mkDiscovered (sort_strings hs) (sort_strings ss) (sort_strings cs).

(** ** Histogram buckets *)

(** [groups[gk][le] = (groups[gk][le] || 0) + v], creating [groups[gk]] when
    it is missing.  Own properties: as the source does for a [gk] and an
    [le] that are no names of [Object.prototype] ([own_name]); for such a
    name the source finds the inherited member instead of a missing one. *)
Definition bump2 (gk k : string) (v : num) (groups : jsobj (jsobj num))
  : jsobj (jsobj num) :=
  let g := match obj_get gk groups with Some g => g | None => [] end in
  obj_set gk (obj_set k (PrimFloat.add (optOrZero (obj_get k g)) v) g) groups.

(** [groups[gk] = (groups[gk] || 0) + v].  Own properties: as the source
    does for a [gk] that is no name of [Object.prototype] ([own_name]); for
    such a name the source adds to the inherited member, and stores a text
    or nothing. *)
Definition bump (gk : string) (v : num) (groups : jsobj num) : jsobj num :=
  obj_set gk (PrimFloat.add (optOrZero (obj_get gk groups)) v) groups.

(** [groups[gk][k] || 0], for own properties: [gk] and [k] are no names of
    [Object.prototype] ([own_name]). *)
Definition cell (groups : jsobj (jsobj num)) (gk k : string) : num :=
  match obj_get gk groups with
  | Some g => optOrZero (obj_get k g)
  | None => fzero
  end.

(** The body of the [forEach] that accumulates the bucket series: samples
    whose [le] is missing or empty are skipped. *)
Definition hist_step (key_of : jsobj string -> string)
  (acc : jsobj (jsobj num) * list string) (item : Sample)
  : jsobj (jsobj num) * list string :=
  let '(groups, allLe) := acc in
  match obj_get "le" (labels item) with
  | None => acc
  | Some le =>
      if is_empty le then acc
      else (bump2 (key_of (labels item)) le (value item) groups,
            set_add le allLe)
  end.

Definition leNum (l : string) : num :=
  if String.eqb l "+Inf" then Infinity else parseFloat l.

Definition leStr (x : num) : string :=
  if num_eq x Infinity then "+Inf" else toString x.

(** [sortedLe] and [sortedLeStr]. *)
Definition sorted_le (allLe : list string) : list num :=
  js_sort (fun a b => PrimFloat.sub a b) (map leNum allLe).

(** A property of a chart row holds a string or a number. *)
Inductive jsval : Type :=
| VStr (s : string)
| VNum (x : num).

(** A chart row.  Its fixed fields ([range], [le], [sortIndex], or [name])
    and its columns, one per group, are properties of one object: a group
    named like a fixed field replaces that field. *)
Definition Row : Type := jsobj jsval.

(** [r[k]] when it is a number, and when it is a string. *)
Definition row_num (k : string) (r : Row) : option num :=
  match obj_get k r with
  | Some (VNum x) => Some x
  | _ => None
  end.

Definition row_str (k : string) (r : Row) : option string :=
  match obj_get k r with
  | Some (VStr s) => Some s
  | _ => None
  end.

(** An array index as a number. *)
Definition num_of_index (i : nat) : num :=
  PrimFloat.of_uint63 (Uint63.of_Z (Z.of_nat i)).

(** The exclusive value of group [gk] at index [idx]. *)
Definition exclusive (groups : jsobj (jsobj num)) (leStrs : list string)
  (idx : nat) (gk : string) : num :=
  let currVal := cell groups gk (nth idx leStrs "") in
  let prevVal :=
    match idx with
    | O => fzero
    | S i => cell groups gk (nth i leStrs "")
    end in
  Math_max fzero (PrimFloat.sub currVal prevVal).

(** The [forEach] that sets the column of every group in [row]. *)
Definition exclusive_cols (groups : jsobj (jsobj num)) (leStrs : list string)
  (idx : nat) (row : Row) : Row :=
  fold_left (fun row gk => obj_set gk (VNum (exclusive groups leStrs idx gk)) row)
    (obj_keys groups) row.

Definition range_label (first_prefix unit : string) (leStrs : list string)
  (leVal : num) (idx : nat) : string :=
  let leS := nth idx leStrs "" in
  let prevLeLabel := match idx with O => "0" | S i => nth i leStrs "" end in
  if num_eq leVal Infinity then "> " ++ prevLeLabel ++ unit
  else match idx with
       | O => first_prefix ++ leS ++ unit
       | S _ => prevLeLabel ++ "-" ++ leS ++ unit
       end.

(** The rows before filtering; [with_index] tells whether the row carries a
    [sortIndex] field. *)
Definition hist_rows (first_prefix unit : string) (with_index : bool)
  (groups : jsobj (jsobj num)) (les : list num) : list Row :=
  let leStrs := map leStr les in
  mapi (fun leVal idx =>
          exclusive_cols groups leStrs idx
            ([("range", VStr (range_label first_prefix unit leStrs leVal idx));
              ("le", VNum leVal)]
             ++ (if with_index then [("sortIndex", VNum (num_of_index idx))]
                 else []))%list) les.

(** [r[k] > 0] for a group [k].  The property is a number, since the column
    of every group has been set in [r]; [undefined > 0] is false. *)
Definition col_gt0 (r : Row) (k : string) : bool :=
  match row_num k r with
  | Some v => gt v fzero
  | None => false
  end.

(** [computeHistogramData(metrics, baseName, groupBy)]: [{ data, keys }]. *)
Definition computeHistogramData (metrics : Metrics) (baseName : string)
  (groupBy : option string) : list Row * list string :=
  match metrics_get (baseName ++ "_bucket") metrics with
  | None => ([], [])
  | Some series =>
      let '(groups, allLe) :=
        fold_left (hist_step (fun l => getGroupKey l groupBy)) series ([], []) in
      let rows := hist_rows "< " "s" true groups (sorted_le allLe) in
      (filter (fun r => existsb (col_gt0 r) (obj_keys groups)) rows,
       obj_keys groups)
  end.

(** ** Counter and gauge breakdown *)

Definition by_value_desc (a b : string * num) : num :=
  PrimFloat.sub (snd b) (snd a).

(** [computeCounterBreakdown(metrics, metricName, groupBy)]: rows
    [{ name, value }]. *)
Definition computeCounterBreakdown (metrics : Metrics) (metricName : string)
  (groupBy : option string) : list (string * num) :=
  match metrics_get metricName metrics with
  | None => []
  | Some series =>
      let groups :=
        fold_left (fun groups item =>
                     bump (getGroupKey (labels item) groupBy) (value item)
                          groups) series [] in
      js_sort by_value_desc (obj_entries groups)
  end.

(** ** Widget data *)

Record Config : Type := mkConfig { groupBy : option string }.

(** A row [{ name, value }] of an ungrouped summary; [isAvg] is a property
    of the leading row only, where it is true: its absence is [false]. *)
Record QRow : Type := mkQRow { qname : string; qvalue : num; isAvg : bool }.

Inductive WidgetData : Type :=
| WEmpty
| WHistogram (data : list Row) (keys : list string)
| WSummaryGrouped (data : list Row) (keys : list string) (avg sum count : num)
| WBar (data : list (string * num))
| WSummary (data : list QRow) (avg sum count : num)
| WSingle (v : num).

(** [series.reduce((acc, s) => acc + s.value, 0)]. *)
Definition sum_values (series : list Sample) : num :=
  fold_left (fun acc s => PrimFloat.add acc (value s)) series fzero.

(** [c > 0 ? s / c : 0]. *)
Definition ratio (s c : num) : num :=
  if gt c fzero then PrimFloat.div s c else fzero.

(** The effective grouping label of a widget. *)
Definition widget_groupBy (config : Config) : option string :=
  match groupBy config with
  | Some g => if is_empty g || String.eqb g "none" then None else Some g
  | None => None
  end.

(** [groupSums] and [groupCounts]: totals per [labels[groupBy] || 'Other']. *)
Definition group_totals (g : string) (series : list Sample) : jsobj num :=
  fold_left (fun acc item => bump (label_or g (labels item) "Other")
                                  (value item) acc) series [].

(** [groupAvgs]: empty unless both series exist; one entry per key of
    [groupSums]. *)
Definition group_avgs (g : string) (sumSeries countSeries : option (list Sample))
  : jsobj num :=
  match sumSeries, countSeries with
  | Some ss, Some cs =>
      let groupSums := group_totals g ss in
      let groupCounts := group_totals g cs in
      fold_left (fun avgs gKey =>
                   obj_set gKey
                     (ratio (optOrZero (obj_get gKey groupSums))
                            (optOrZero (obj_get gKey groupCounts))) avgs)
        (obj_keys groupSums) []
  | _, _ => []
  end.

(** The [quantile] label as the source reads it: [undefined] prints as the
    text [undefined] when it is parsed. *)
Definition quantile_of (s : Sample) : string :=
  match obj_get "quantile" (labels s) with
  | Some q => q
  | None => "undefined"
  end.

(** The row name [P<quantile * 100>]. *)
Definition pct_key (q : string) : string :=
  "P" ++ toString (PrimFloat.mul (parseFloat q) 100%float).

Definition quantile_step (g : string)
  (acc : jsobj (jsobj num) * list string) (item : Sample)
  : jsobj (jsobj num) * list string :=
  let '(groups, allQ) := acc in
  let q := quantile_of item in
  (bump2 (label_or g (labels item) "Other") q (value item) groups,
   set_add q allQ).

Definition by_quantile (a b : string) : num :=
  PrimFloat.sub (parseFloat a) (parseFloat b).

Definition quantile_row (groups : jsobj (jsobj num)) (groupKeys : list string)
  (q : string) : Row :=
  fold_left (fun row gKey => obj_set gKey (VNum (cell groups gKey q)) row)
    groupKeys [("name", VStr (pct_key q))].

(** [row[gKey] > 0 && Number.isFinite(row[gKey])]; [Number.isFinite] is
    false on what is not a number. *)
Definition col_pos_finite (r : Row) (k : string) : bool :=
  match row_num k r with
  | Some v => gt v fzero && isFinite v
  | None => false
  end.

Definition avg_row (groupAvgs : jsobj num) (groupKeys : list string) : Row :=
  fold_left (fun row gKey =>
               obj_set gKey (VNum (optOrZero (obj_get gKey groupAvgs))) row)
    groupKeys [("name", VStr "Avg")].

Definition bar_of (groups : jsobj num) : WidgetData :=
  WBar (js_sort by_value_desc (obj_entries groups)).

(** [quantileGroups[pctKey] = Math.max(quantileGroups[pctKey] || 0, q.value)] *)
Definition quantile_max_step (acc : jsobj num) (q : Sample) : jsobj num :=
  let pctKey := pct_key (quantile_of q) in
  obj_set pctKey (Math_max (optOrZero (obj_get pctKey acc)) (value q)) acc.

(** [parseFloat(a[0].slice(1)) - parseFloat(b[0].slice(1))]. *)
Definition by_percentile (a b : string * num) : num :=
  PrimFloat.sub (parseFloat (sdrop 1 (fst a))) (parseFloat (sdrop 1 (fst b))).

Section WidgetData.
(** The text before the bound in the first bucket label of a widget.  In the
    source it is made of the three characters U+00E2, U+2030 and U+00A4; the
    second one is no code unit below 256, so the text is a variable: what is
    proved holds for every text, that one included. *)
Variable le_glyph : string.

(** [r.le !== Infinity]. *)
Definition le_not_infinity (r : Row) : bool :=
  match obj_get "le" r with
  | Some (VNum x) => negb (num_eq x Infinity)
  | _ => true
  end.

(** The histogram branch of [computeWidgetData]. *)
Definition widget_histogram (metrics : Metrics) (metricName : string)
  (gb : option string) : WidgetData :=
  match metrics_get (metricName ++ "_bucket") metrics with
  | None => WEmpty
  | Some series =>
      let key_of := fun l =>
        match gb with Some g => label_or g l "Other" | None => "All" end in
      let '(groups, allLe) := fold_left (hist_step key_of) series ([], []) in
      let rows := hist_rows (le_glyph ++ " ") "" false groups (sorted_le allLe) in
      WHistogram (filter le_not_infinity rows) (obj_keys groups)
  end.

(** The part of the summary branch under [if (groupBy)]: [None] when control
    falls through to the ungrouped code. *)
Definition widget_summary_grouped (g : string)
  (quantiles : list Sample) (sumSeries countSeries : option (list Sample))
  (avg sum count : num) : option WidgetData :=
  let groupAvgs := group_avgs g sumSeries countSeries in
  match quantiles with
  | _ :: _ =>
      let '(groups, allQ) := fold_left (quantile_step g) quantiles ([], []) in
      let groupKeys := obj_keys groups in
      let sortedQuantiles := js_sort by_quantile allQ in
      let quantileData :=
        filter (fun row => existsb (col_pos_finite row) groupKeys)
          (map (quantile_row groups groupKeys) sortedQuantiles) in
      match quantileData, obj_keys groupAvgs with
      | [], _ :: _ => Some (bar_of groupAvgs)
      | _, _ =>
          Some (WSummaryGrouped (avg_row groupAvgs groupKeys :: quantileData)
                  groupKeys avg sum count)
      end
  | [] =>
      match obj_keys groupAvgs with
      | _ :: _ => Some (bar_of groupAvgs)
      | [] => None
      end
  end.

(** The summary branch of [computeWidgetData]. *)
Definition widget_summary (metrics : Metrics) (metricName : string)
  (gb : option string) : WidgetData :=
  let series := metrics_get metricName metrics in
  let sumSeries := metrics_get (metricName ++ "_sum") metrics in
  let countSeries := metrics_get (metricName ++ "_count") metrics in
  let quantiles :=
    match series with Some l => filter has_quantile l | None => [] end in
  let sum := match sumSeries with Some l => sum_values l | None => fzero end in
  let count := match countSeries with Some l => sum_values l | None => fzero end in
  let avg := ratio sum count in
  match series, sumSeries, countSeries with
  | None, None, None => WEmpty
  | _, _, _ =>
      let ungrouped :=
        match quantiles with
        | _ :: _ =>
            let quantileGroups := fold_left quantile_max_step quantiles [] in
            WSummary
              (mkQRow "Avg" avg true
               :: map (fun e => mkQRow (fst e) (snd e) false)
                    (js_sort by_percentile (obj_entries quantileGroups)))
              avg sum count
        | [] => WSingle avg
        end in
      match gb with
      | Some g =>
          match widget_summary_grouped g quantiles sumSeries countSeries
                  avg sum count with
          | Some w => w
          | None => ungrouped
          end
      | None => ungrouped
      end
  end.

(** The counter and gauge branch of [computeWidgetData]. *)
Definition widget_counter (metrics : Metrics) (metricName : string)
  (gb : option string) : WidgetData :=
  match metrics_get metricName metrics with
  | None => WEmpty
  | Some series =>
      match gb with
      | Some g => bar_of (group_totals g series)
      | None => WSingle (sum_values series)
      end
  end.

(** [computeWidgetData(metrics, metricName, metricType, config)]. *)
Definition computeWidgetData (metrics : Metrics) (metricName metricType : string)
  (config : Config) : WidgetData :=
  let gb := widget_groupBy config in
  if String.eqb metricType "histogram" then widget_histogram metrics metricName gb
  else if String.eqb metricType "summary" then widget_summary metrics metricName gb
  else widget_counter metrics metricName gb.
End WidgetData.

(* ================================================================== *)
(** * Snapshot history *)
(* ================================================================== *)

Record Snapshot : Type := mkSnapshot { timestamp : Z; metrics_of : Metrics }.

Definition History : Type := list Snapshot.

(** The updater of [fetchMetrics]. *)
Definition fetch_append (prev : History) (s : Snapshot) : History :=
  let newHistory := (prev ++ [s])%list in
  if Nat.ltb 60 (List.length newHistory) then slice_last 60 newHistory
  else newHistory.

(** The updater of [handleManualParse]. *)
Definition manual_append (prev : History) (s : Snapshot) : History :=
  slice_last 60 (prev ++ [s])%list.

(** The history starts empty ([useState([])]) and changes only through the
    two updaters. *)
Inductive reachable : History -> Prop :=
| reach_init : reachable []
| reach_fetch : forall h s, reachable h -> reachable (fetch_append h s)
| reach_manual : forall h s, reachable h -> reachable (manual_append h s).

(* ================================================================== *)
(** * Notions used to state the properties *)
(* ================================================================== *)

(** ** Names a plain object inherits

    The names of the members of [Object.prototype].  A plain object answers
    a read of one of them with the inherited member when it has no such
    property of its own, and a number or a string assigned to [__proto__] is
    ignored.  A key that is none of them is read and written as an own
    property, which is what the association lists hold. *)
Definition prototype_names : list string :=
  ["constructor"; "__defineGetter__"; "__defineSetter__"; "hasOwnProperty";
   "__lookupGetter__"; "__lookupSetter__"; "isPrototypeOf";
   "propertyIsEnumerable"; "toString"; "valueOf"; "__proto__";
   "toLocaleString"].

Definition own_name (k : string) : bool :=
  negb (existsb (String.eqb k) prototype_names).

(** The grouping label, when there is one, is no inherited name. *)
Definition own_grouping (groupBy : option string) : Prop :=
  match groupBy with
  | Some g => own_name g = true
  | None => True
  end.

(** The key [key_of] gives to every sample of the series is no inherited
    name. *)
Definition own_keys (key_of : Sample -> string) (series : list Sample)
  : Prop :=
  forall s, In s series -> own_name (key_of s) = true.

(** A text to stand for [le_glyph] in the examples. *)
Definition ascii_le_glyph : string := "<=".

(** [s] has no line feed, so it is one line of a text. *)
Definition one_line (s : string) : Prop :=
  all_chars (fun c => negb (Ascii.eqb c LF)) s = true.

(** Every sample of a snapshot satisfies [P]. *)
Definition all_samples (P : Sample -> Prop) (m : Metrics) : Prop :=
  Forall (fun e => Forall P (snd e)) m.

(** The sample [s] holds the value read from the value token of a data line
    among [lines]. *)
Definition from_data_line (lines : list string) (s : Sample) : Prop :=
  exists line cs tok,
    In line lines
    /\ regex_match dataRegex (trim line) = Some cs
    /\ get_cap 3 cs = Some tok
    /\ value s = parse_value tok.

(** The snapshot [m] holds the sample [s] under the name [name]. *)
Definition stored (name : string) (s : Sample) (m : Metrics) : Prop :=
  exists series, metrics_get name m = Some series /\ In s series.

(** The value the parsers store for a token that [parseFloat] rejects. *)
Definition fallback_value (tok : string) : num :=
  if String.eqb tok "+Inf" || String.eqb tok "Inf" then Infinity
  else if String.eqb tok "-Inf" then negInfinity
  else fzero.

(** A well-formed metric name: [[a-zA-Z_:][a-zA-Z0-9_:]*]. *)
Definition valid_name (s : string) : bool :=
  match s with
  | String c r => name_start c && all_chars name_char r
  | EmptyString => false
  end.

(** A non-empty string of characters of the class [p]. *)
Definition nonempty_all (p : ascii -> bool) (s : string) : bool :=
  negb (is_empty s) && all_chars p s.

(** Whether [c] occurs in [s]. *)
Fixpoint has_char (c : ascii) (s : string) : bool :=
  match s with
  | EmptyString => false
  | String d s' => Ascii.eqb d c || has_char c s'
  end.

(** ** The exposition text of a sample

    The repository has no serializer; the round trip of the specification is
    stated against this one, which writes the text format the parser reads:
    the name, the labels between braces as [key=value] pairs with the value
    between double quotes, and the value.  In a label value the backslash,
    the double quote and the line feed are written as backslash-backslash,
    backslash-quote and backslash-n, the three escapes the parser decodes. *)
Fixpoint escape_label_value (v : string) : string :=
  match v with
  | EmptyString => EmptyString
  | String c v' =>
      (if Ascii.eqb c backslash then String backslash (str1 backslash)
       else if Ascii.eqb c dquote then String backslash (str1 dquote)
       else if Ascii.eqb c LF then String backslash "n"
       else str1 c) ++ escape_label_value v'
  end.

Definition serialize_label (kv : string * string) : string :=
  fst kv ++ "=" ++ str1 dquote ++ escape_label_value (snd kv) ++ str1 dquote.

Definition serialize_value (x : num) : string :=
  if isNaN x then "NaN"
  else if num_eq x Infinity then "+Inf"
  else if num_eq x negInfinity then "-Inf"
  else toString x.

Definition serialize_sample (name : string) (s : Sample) : string :=
  name
  ++ match labels s with
     | [] => ""
     | l => "{" ++ join "," (map serialize_label l) ++ "}"
     end
  ++ " " ++ serialize_value (value s).

(** The text of a label value between the passes of the decoding: once
    the escaped quotes are restored, and once the escaped backslashes are. *)
Fixpoint escape_no_quote (v : string) : string :=
  match v with
  | EmptyString => EmptyString
  | String c v' =>
      (if Ascii.eqb c backslash then String backslash (str1 backslash)
       else if Ascii.eqb c LF then String backslash "n"
       else str1 c) ++ escape_no_quote v'
  end.

Fixpoint escape_line_feed (v : string) : string :=
  match v with
  | EmptyString => EmptyString
  | String c v' =>
      (if Ascii.eqb c LF then String backslash "n" else str1 c)
      ++ escape_line_feed v'
  end.

(** Whether a backslash stands right before a letter n in [v]. *)
Fixpoint has_backslash_n (v : string) : bool :=
  match v with
  | EmptyString => false
  | String c v' =>
      (Ascii.eqb c backslash && head_is (is_char "n") v')
      || has_backslash_n v'
  end.

(** ** Totals

    The total the aggregations keep per key: each step is
    [(acc || 0) + v], starting from an absent entry. *)
Definition js_total (vals : list num) : num :=
  fold_left (fun acc v => PrimFloat.add (orZero acc) v) vals fzero.

(** The plain left-to-right sum [0 + v1 + v2 + ...]. *)
Definition plain_sum (vals : list num) : num :=
  fold_left PrimFloat.add vals fzero.

(** No partial sum of [vals] is NaN (a NaN arises only from adding the two
    infinities of opposite signs, or from a NaN value). *)
Definition sums_defined (vals : list num) : Prop :=
  forall n, isNaN (plain_sum (firstn n vals)) = false.

(** The values of the samples of [series] whose key is [k], in order. *)
Definition values_of (key_of : Sample -> string) (k : string)
  (series : list Sample) : list num :=
  map value (filter (fun s => String.eqb (key_of s) k) series).

(** The maximum the ungrouped summary keeps per percentile: each step is
    [Math.max(acc || 0, v)], starting from an absent entry. *)
Definition js_max (vals : list num) : num :=
  fold_left (fun acc v => Math_max (orZero acc) v) vals fzero.

(** [r] is the greatest of 0 and the numbers [vals]: it is a number, it is
    not below 0 nor below any of them, and it equals 0 or one of them. *)
Definition is_max_with_zero (r : num) (vals : list num) : Prop :=
  isNaN r = false
  /\ PrimFloat.leb fzero r = true
  /\ (forall v, In v vals -> PrimFloat.leb v r = true)
  /\ (PrimFloat.eqb r fzero = true
      \/ exists v, In v vals /\ PrimFloat.eqb r v = true).

(** The accumulations of the source have one shape,
    [o[key] = op(o[key] || 0, v)], with [op] the addition or [Math.max]. *)
Definition upd (op : num -> num -> num) (gk : string) (v : num)
  (g : jsobj num) : jsobj num :=
  obj_set gk (op (optOrZero (obj_get gk g)) v) g.

Definition upd_all (op : num -> num -> num) (key_of : Sample -> string)
  (series : list Sample) (g : jsobj num) : jsobj num :=
  fold_left (fun g item => upd op (key_of item) (value item) g) series g.

Definition js_fold (op : num -> num -> num) (vals : list num) : num :=
  fold_left (fun acc v => op (orZero acc) v) vals fzero.

(** One accumulation step on an entry that may be absent. *)
Definition upd_step (op : num -> num -> num) (o : option num) (v : num)
  : option num :=
  Some (op (optOrZero o) v).

(** The accumulation of a series into per-key totals: the [forEach] loops of
    the form [groups[key] = (groups[key] || 0) + item.value]. *)
Definition bump_all (key_of : Sample -> string) (series : list Sample)
  (g : jsobj num) : jsobj num :=
  fold_left (fun g item => bump (key_of item) (value item) g) series g.

(** Rows in descending order of their value. *)
Definition descending (rows : list (string * num)) : Prop :=
  Sorted (fun a b => PrimFloat.leb (snd b) (snd a) = true) rows.

(** ** Notions for the summary widget *)

Definition series_or_empty (o : option (list Sample)) : list Sample :=
  match o with
  | Some l => l
  | None => []
  end.

(** The group of a sample of a summary family under the grouping label
    [g]. *)
Definition summary_group (g : string) (s : Sample) : string :=
  label_or g (labels s) "Other".

(** The average of group [k]: the total of the group in the sum series over
    its total in the count series when the latter is greater than 0, and 0
    otherwise; a quotient that is NaN or zero shows as 0. *)
Definition group_avg (g : string) (sumSeries countSeries : option (list Sample))
  (k : string) : num :=
  orZero
    (ratio
       (js_total (values_of (summary_group g) k (series_or_empty sumSeries)))
       (js_total (values_of (summary_group g) k (series_or_empty countSeries)))).

(** The percentile key of a quantile sample, and the number printed in a
    row name after its first letter. *)
Definition percentile_key (q : Sample) : string := pct_key (quantile_of q).
Definition percentile (name : string) : num := parseFloat (sdrop 1 name).

(** Rows in ascending order of the number in their name. *)
Definition ascending_percentiles (rows : list QRow) : Prop :=
  Sorted (fun a b => PrimFloat.leb (percentile (qname a))
                                   (percentile (qname b)) = true) rows.

(** ** Notions for the bucket chart *)

(** The [le] label the bucket loop reads from a sample: present and not
    empty. *)
Definition le_of (s : Sample) : option string :=
  match obj_get "le" (labels s) with
  | Some le => if is_empty le then None else Some le
  | None => None
  end.

(** A canonical bound: the text of a finite number as [toString] prints it,
    or [+Inf]. *)
Definition canonical_le (l : string) : bool :=
  String.eqb (leStr (leNum l)) l
  && (isFinite (leNum l) || String.eqb l "+Inf").

(** The values of the bucket samples of group [g] with bound [le], in
    order. *)
Definition bucket_values (key_of : jsobj string -> string) (g le : string)
  (series : list Sample) : list num :=
  map value
    (filter (fun s => match le_of s with
                      | Some l => String.eqb l le
                                  && String.eqb (key_of (labels s)) g
                      | None => false
                      end) series).

(** The cumulative value of group [g] at the bound [le]: the total of its
    samples, 0 when there is none. *)
Definition cumulative (groupBy : option string) (series : list Sample)
  (g le : string) : num :=
  orZero (js_total (bucket_values (fun l => getGroupKey l groupBy) g le series)).

(** [max(0, cumulative(i) - cumulative(i-1))] along the bounds [les], with
    [cumulative(-1) = 0]. *)
Definition exclusive_value (groupBy : option string) (series : list Sample)
  (les : list num) (g : string) (i : nat) : num :=
  let cum j := cumulative groupBy series g (leStr (nth j les fzero)) in
  Math_max fzero
    (PrimFloat.sub (cum i) (match i with O => fzero | S j => cum j end)).

(** A count: an integer from 0 to 2^53 - 1, held exactly. *)
Definition is_count (x : num) : bool :=
  isFinite x && (0 <=? scaled x)%Z && (scaled x <? 2 ^ 1127)%Z
  && (scaled x mod 2 ^ 1074 =? 0)%Z.

(** The exact value of column [g] of a row, in units of 2^-1074, and the
    exact sum of a column over the rows with a finite bound. *)
Definition column (g : string) (r : Row) : Z :=
  match row_num g r with
  | Some v => scaled v
  | None => 0%Z
  end.

(** [r.le] is a finite number. *)
Definition finite_le (r : Row) : bool :=
  match row_num "le" r with
  | Some x => isFinite x
  | None => false
  end.

Definition finite_rows_sum (g : string) (data : list Row) : Z :=
  fold_right Z.add 0%Z (map (column g) (filter finite_le data)).

(** [groups[gk][k]] before the default is applied. *)
Definition cell_opt (groups : jsobj (jsobj num)) (gk k : string)
  : option num :=
  match obj_get gk groups with
  | Some g => obj_get k g
  | None => None
  end.

(** [l] is the bound of a bucket sample, [g] the group of one. *)
Definition le_label (series : list Sample) (l : string) : Prop :=
  exists s, In s series /\ le_of s = Some l.

Definition group_key (groupBy : option string) (series : list Sample)
  (g : string) : Prop :=
  exists s l, In s series /\ le_of s = Some l
              /\ getGroupKey (labels s) groupBy = g.

(** The cumulative values of group [g] are counts that do not decrease as
    the bound grows. *)
Definition monotone_counts (groupBy : option string) (series : list Sample)
  (g : string) : Prop :=
  (forall l, le_label series l ->
             is_count (cumulative groupBy series g l) = true)
  /\ (forall l1 l2,
         le_label series l1 -> le_label series l2 ->
         PrimFloat.leb (leNum l1) (leNum l2) = true ->
         PrimFloat.leb (cumulative groupBy series g l1)
                       (cumulative groupBy series g l2) = true).

(** [lmax] is the largest finite bound of the series. *)
Definition largest_finite_le (series : list Sample) (lmax : string) : Prop :=
  le_label series lmax
  /\ isFinite (leNum lmax) = true
  /\ forall l, le_label series l -> isFinite (leNum l) = true ->
               PrimFloat.leb (leNum l) (leNum lmax) = true.

(** The rows the chart keeps: some column is greater than 0. *)
Definition positive_row (keys : list string) (r : Row) : bool :=
  existsb (col_gt0 r) keys.

(** ** The scope of the grouped charts

    The names a grouped chart reads or writes on a plain object, which are
    to be no inherited names. *)

(** The bucket chart of a series: the grouping label and the group of every
    bucket sample. *)
Definition bucket_own_names (groupBy : option string) (series : list Sample)
  : Prop :=
  own_grouping groupBy
  /\ forall g, group_key groupBy series g -> own_name g = true.

(** The grouped summary of [metricName] by the label [g]: the label, the
    quantile labels, and the group of every sample of the three series. *)
Definition summary_own_names (metrics : Metrics) (metricName g : string)
  : Prop :=
  own_name g = true
  /\ own_keys quantile_of
       (filter has_quantile (series_or_empty (metrics_get metricName metrics)))
  /\ own_keys (summary_group g)
       (filter has_quantile (series_or_empty (metrics_get metricName metrics)))
  /\ own_keys (summary_group g)
       (series_or_empty (metrics_get (metricName ++ "_sum") metrics))
  /\ own_keys (summary_group g)
       (series_or_empty (metrics_get (metricName ++ "_count") metrics)).

(* ================================================================== *)
(** * More of the dashboard core

    The functions around the ones above: the rate distribution and the
    summary chart of the overview, the catalog of metrics with the entry a
    widget shows, the placing of a new widget on the grid, single values and
    the memory breakdown.  The conventions are the same.  In addition,
    [localeCompare] is a variable, since its order is the host's, and the
    positions and sizes of the grid are integers, since they count cells. *)
(* ================================================================== *)

Set Implicit Arguments.

(** ** What a pattern matches, with its captures

    [cmatches len0 r s cs s' cs'] : [r] matches the head of [s] and leaves
    [s'], turning the captures [cs] into [cs']: a group records the text its
    body has matched, in front of the captures made before. *)
Inductive cmatches (len0 : nat)
  : regex -> string -> caps -> string -> caps -> Prop :=
| cm_emp : forall s cs, cmatches len0 Emp s cs s cs
| cm_chr : forall p c s cs,
    p c = true -> cmatches len0 (Chr p) (String c s) cs s cs
| cm_seq : forall a b s cs s1 cs1 s2 cs2,
    cmatches len0 a s cs s1 cs1 -> cmatches len0 b s1 cs1 s2 cs2 ->
    cmatches len0 (Seq a b) s cs s2 cs2
| cm_alt_l : forall a b s cs s1 cs1,
    cmatches len0 a s cs s1 cs1 -> cmatches len0 (Alt a b) s cs s1 cs1
| cm_alt_r : forall a b s cs s1 cs1,
    cmatches len0 b s cs s1 cs1 -> cmatches len0 (Alt a b) s cs s1 cs1
| cm_star_nil : forall a s cs, cmatches len0 (Star a) s cs s cs
| cm_star_cons : forall a s cs s1 cs1 s2 cs2,
    cmatches len0 a s cs s1 cs1 -> String.length s1 < String.length s ->
    cmatches len0 (Star a) s1 cs1 s2 cs2 ->
    cmatches len0 (Star a) s cs s2 cs2
| cm_group : forall i a s cs s1 cs1,
    cmatches len0 a s cs s1 cs1 ->
    cmatches len0 (Group i a) s cs s1
      ((i, stake (String.length s - String.length s1) s) :: cs1)
| cm_bol : forall s cs, String.length s = len0 -> cmatches len0 Bol s cs s cs
| cm_eol : forall cs, cmatches len0 Eol EmptyString cs EmptyString cs.

(** A well-formed label name: [[a-zA-Z_][a-zA-Z0-9_]*]. *)
Definition valid_label_name (s : string) : bool :=
  match s with
  | String c r => label_start c && all_chars label_char r
  | EmptyString => false
  end.

(** The metric types a TYPE line can give, and the default. *)
Definition metric_types : list string :=
  ["counter"; "gauge"; "histogram"; "summary"; "untyped"].

(** A pattern without capture groups. *)
Fixpoint no_groups (r : regex) : bool :=
  match r with
  | Emp | Chr _ | Bol | Eol => true
  | Seq a b | Alt a b => no_groups a && no_groups b
  | Star a => no_groups a
  | Group _ _ => false
  end.

(** ** What a parsed snapshot looks like *)

(** The label names of a sample are well formed and distinct. *)
Definition well_formed_sample (s : Sample) : Prop :=
  NoDup (map fst (labels s))
  /\ Forall (fun kv => valid_label_name (fst kv) = true) (labels s).

(** The metric names of a snapshot are well formed and distinct, and every
    metric has at least one sample. *)
Definition well_formed_snapshot (m : Metrics) : Prop :=
  NoDup (map fst m)
  /\ Forall (fun e => valid_name (fst e) = true
                      /\ snd e <> []
                      /\ Forall well_formed_sample (snd e)) m.

(** The names of a metadata catalog are well formed and distinct, and every
    type is one of the five lower-case types. *)
Definition well_formed_metadata (md : Metadata) : Prop :=
  NoDup (map fst md)
  /\ Forall (fun e => valid_name (fst e) = true
                      /\ In (mtype (snd e)) metric_types) md.

(** ** Rate distribution *)

(** An entry of [rates], and a row of the result. *)
Record RateEntry : Type := mkRateEntry {
  rate_le : num;
  rate_of : num;
  rate_label : string
}.

Record RateRow : Type := mkRateRow {
  rr_range : string;
  rr_count : num;
  rr_le : num
}.

(** [getBuckets(metrics)]: the total per [le] label of the samples of
    [metricName] that [filterFn] keeps; a sample without a [le] label, or
    with an empty one, is skipped. *)
Definition getBuckets (metricName : string) (filterFn : Sample -> bool)
  (metrics : Metrics) : jsobj num :=
  let series := match metrics_get metricName metrics with
                | Some l => l
                | None => []
                end in
  fold_left (fun buckets item =>
               match obj_get "le" (labels item) with
               | None => buckets
               | Some le =>
                   if is_empty le then buckets
                   else bump le (value item) buckets
               end)
    (filter filterFn series) [].

(** The number written [0.001] in the source. *)
Definition rate_threshold : num := 0x1.0624dd2f1a9fcp-10%float.

(** [currBuckets[le]]: a number, or [undefined], which is NaN in the
    subtraction. *)
Definition bucket_value (buckets : jsobj num) (le : string) : num :=
  match obj_get le buckets with
  | Some x => x
  | None => fNaN
  end.

(** The entries of [rates], in the order of the keys of [currBuckets]. *)
Definition rate_entries (currBuckets prevBuckets : jsobj num)
  (timeDiff : num) : list RateEntry :=
  map (fun le =>
         let curr := bucket_value currBuckets le in
         let prev := optOrZero (obj_get le prevBuckets) in
         mkRateEntry (leNum le)
           (Math_max fzero (PrimFloat.div (PrimFloat.sub curr prev) timeDiff))
           le)
      (obj_keys currBuckets).

(** The row of the bucket at index [idx] of the sorted [rates]. *)
Definition rate_row (rates : list RateEntry) (bucket : RateEntry)
  (idx : nat) : RateRow :=
  let prevRate := match idx with
                  | O => fzero
                  | S i => match nth_error rates i with
                           | Some e => rate_of e
                           | None => fNaN
                           end
                  end in
  let exclusiveRate := PrimFloat.sub (rate_of bucket) prevRate in
  let prevLeLabel := match idx with
                     | O => "0"
                     | S i => match nth_error rates i with
                              | Some e => rate_label e
                              | None => "undefined"
                              end
                     end in
  let rangeLabel :=
    if num_eq (rate_le bucket) Infinity then "> " ++ prevLeLabel ++ "s"
    else match idx with
         | O => "< " ++ rate_label bucket ++ "s"
         | S _ => prevLeLabel ++ "-" ++ rate_label bucket ++ "s"
         end in
  mkRateRow rangeLabel (Math_max fzero exclusiveRate) (rate_le bucket).

(** [computeRateDistribution(currMetrics, prevMetrics, metricName, filterFn,
    timeDiff)]; [None] is a snapshot that is [null] or [undefined]. *)
Definition computeRateDistribution (currMetrics prevMetrics : option Metrics)
  (metricName : string) (filterFn : Sample -> bool) (timeDiff : num)
  : list RateRow :=
  match currMetrics, prevMetrics with
  | Some curr, Some prev =>
      if PrimFloat.leb timeDiff fzero then []
      else
        let currBuckets := getBuckets metricName filterFn curr in
        let prevBuckets := getBuckets metricName filterFn prev in
        let rates :=
          js_sort (fun a b => PrimFloat.sub (rate_le a) (rate_le b))
            (rate_entries currBuckets prevBuckets timeDiff) in
        filter (fun b => negb (num_eq (rr_le b) Infinity)
                         && gt (rr_count b) rate_threshold)
          (mapi (rate_row rates) rates)
  | _, _ => []
  end.

(** The [le] labels of the samples of [metricName] that [filterFn] keeps. *)
Definition selected_le (metricName : string) (filterFn : Sample -> bool)
  (metrics : Metrics) (le : string) : Prop :=
  exists series s,
    metrics_get metricName metrics = Some series
    /\ In s series /\ filterFn s = true /\ le_of s = Some le.

(** Ascending order of numbers none of which is NaN. *)
Definition num_le (a b : num) : Prop :=
  isNaN a = false /\ isNaN b = false /\ PrimFloat.leb a b = true.

(** ** The summary chart of the overview *)

(** The series name of a sample: its labels other than [quantile], each as
    [key: value], joined by a comma and a space; [Global] when there is
    none.  [otherLabels] is the rest of the destructuring, with the
    properties in the order they are enumerated. *)
Definition summary_key (lbls : jsobj string) : string :=
  let otherLabels :=
    filter (fun e => negb (String.eqb (fst e) "quantile")) (obj_entries lbls) in
  let labelParts :=
    map (fun e => fst e ++ ": " ++ snd e) (obj_entries otherLabels) in
  match labelParts with
  | [] => "Global"
  | _ :: _ => join ", " labelParts
  end.

(** [groups[key].max]. *)
Definition max_of (g : jsobj num) : num :=
  match obj_get "max" g with
  | Some m => m
  | None => fNaN
  end.

(** One round of the loop over the quantile samples.  The object of a
    series starts as [{ max: 0 }] and takes the quantiles as further
    properties, so a quantile labelled [max] shares the property. *)
Definition summary_step (acc : jsobj (jsobj num) * list string)
  (item : Sample) : jsobj (jsobj num) * list string :=
  let '(groups, allQuantiles) := acc in
  let quantile := quantile_of item in
  let key := summary_key (labels item) in
  let g0 := match obj_get key groups with
            | Some g => g
            | None => [("max", fzero)]
            end in
  let g1 := obj_set quantile (value item) g0 in
  let g2 := if gt (value item) (max_of g1)
            then obj_set "max" (value item) g1
            else g1 in
  (obj_set key g2 groups, set_add quantile allQuantiles).

(** [b[1].max - a[1].max]. *)
Definition by_max_desc (a b : string * jsobj num) : num :=
  PrimFloat.sub (max_of (snd b)) (max_of (snd a)).

(** [computeSummaryData(metrics, name)]: the pair of [data] and [keys].
    Every series name of [topSeries] is a property of [groups]. *)
Definition computeSummaryData (metrics : Metrics) (name : string)
  : list Row * list string :=
  match metrics_get name metrics with
  | None => ([], [])
  | Some series =>
      let quantiles := filter has_quantile series in
      let '(groups, allQuantiles) := fold_left summary_step quantiles ([], []) in
      let sortedQuantiles := js_sort by_quantile allQuantiles in
      let topSeries :=
        map fst (firstn 5 (js_sort by_max_desc (obj_entries groups))) in
      (map (quantile_row groups topSeries) sortedQuantiles, topSeries)
  end.

(** The value of the last sample of the series [k] with the quantile [q]. *)
Definition last_value (k q : string) (series : list Sample) : option num :=
  fold_left (fun acc s =>
               if has_quantile s
                  && String.eqb (summary_key (labels s)) k
                  && String.eqb (quantile_of s) q
               then Some (value s) else acc)
    series None.

(** [q] is the quantile label of a sample, [k] the series name of a sample
    with a quantile. *)
Definition quantile_label (series : list Sample) (q : string) : Prop :=
  exists s, In s series /\ obj_get "quantile" (labels s) = Some q.

Definition series_name (series : list Sample) (k : string) : Prop :=
  exists s, In s series /\ has_quantile s = true
            /\ summary_key (labels s) = k.

(** The greatest value of the samples of the series [k], and 0 when none is
    above 0: what [groups[k].max] follows. *)
Definition series_max (k : string) (series : list Sample) : num :=
  fold_left (fun m s =>
               if has_quantile s
                  && String.eqb (summary_key (labels s)) k
                  && gt (value s) m
               then value s else m)
    series fzero.

(** The two accumulations on the samples that have a quantile: one round
    of [last_value] and one of [series_max]. *)
Definition last_step (k q : string) (acc : option num) (s : Sample)
  : option num :=
  if String.eqb (summary_key (labels s)) k && String.eqb (quantile_of s) q
  then Some (value s) else acc.

Definition max_step (k : string) (m : num) (s : Sample) : num :=
  if String.eqb (summary_key (labels s)) k && gt (value s) m
  then value s else m.

(** The object of the series [k], when there is one, has [m] as its
    [max]; when there is none [m] is 0. *)
Definition max_known (k : string) (groups : jsobj (jsobj num)) (m : num)
  : Prop :=
  (forall g, obj_get k groups = Some g -> obj_get "max" g = Some m)
  /\ (obj_get k groups = None -> m = fzero).

(** ** The catalog of metrics *)

(** An entry of the catalog, and a group of entries under a prefix. *)
Record CatalogItem : Type := mkCatalogItem {
  ci_name : string;
  ci_help : string;
  ci_type : string;
  ci_labels : list string
}.

Record CatalogGroup : Type := mkCatalogGroup {
  group_prefix : string;
  group_metrics : list CatalogItem
}.

(** The [Map] from prefix to entries. *)
Definition Catalog : Type := list (string * list CatalogItem).

(** [map.has(name)]. *)
Definition map_has {V : Type} (name : string) (m : list (string * V)) : bool :=
  match obj_get name m with
  | Some _ => true
  | None => false
  end.

(** The base name of a metric: [_bucket] is removed, and [_count] or [_sum]
    when the metadata knows the name without it. *)
Definition catalog_base_name (metadata : Metadata) (name : string) : string :=
  if endsWith "_bucket" name then replace_first "_bucket" "" name
  else if endsWith "_count" name
          && map_has (replace_first "_count" "" name) metadata
       then replace_first "_count" "" name
  else if endsWith "_sum" name
          && map_has (replace_first "_sum" "" name) metadata
       then replace_first "_sum" "" name
  else name.

(** [metadata.get(baseName) || metadata.get(name) || { help: '', type:
    'untyped' }]. *)
Definition catalog_meta (metadata : Metadata) (baseName name : string) : Meta :=
  match obj_get baseName metadata with
  | Some m => m
  | None => match obj_get name metadata with
            | Some m => m
            | None => mkMeta "" "untyped"
            end
  end.

(** [actualType]. *)
Definition catalog_type (meta : Meta) (metrics : Metrics) (baseName : string)
  : string :=
  if String.eqb (mtype meta) "untyped" then
    if map_has (baseName ++ "_bucket") metrics then "histogram"
    else if match metrics_get baseName metrics with
            | Some series => existsb has_quantile series
            | None => false
            end
         then "summary"
         else mtype meta
  else mtype meta.

Definition two_part_prefixes : list string :=
  ["go"; "http"; "storage"; "task"; "service"; "qc"; "influxdb"].

(** [prefix]: the first part of the name, or the first two for some first
    parts. *)
Definition catalog_prefix (baseName : string) : string :=
  match split_on "_" baseName with
  | p0 :: p1 :: _ =>
      if existsb (String.eqb p0) two_part_prefixes then p0 ++ "_" ++ p1
      else p0
  | [p0] => p0
  | [] => "undefined"
  end.

(** [labelSet]: the label names of the series other than [le] and
    [quantile], each once, in the order they are met. *)
Definition catalog_labels (series : list Sample) : list string :=
  fold_left (fun labelSet s =>
               fold_left (fun labelSet k =>
                            if negb (String.eqb k "le")
                               && negb (String.eqb k "quantile")
                            then set_add k labelSet else labelSet)
                 (obj_keys (labels s)) labelSet)
    series [].

(** [metrics.get(baseName) || metrics.get(`${baseName}_bucket`) || []]. *)
Definition catalog_series (metrics : Metrics) (baseName : string)
  : list Sample :=
  match metrics_get baseName metrics with
  | Some series => series
  | None => match metrics_get (baseName ++ "_bucket") metrics with
            | Some series => series
            | None => []
            end
  end.

(** [if (!catalog.has(prefix)) catalog.set(prefix, []);
    catalog.get(prefix).push(item)]. *)
Fixpoint catalog_push (prefix : string) (item : CatalogItem) (c : Catalog)
  : Catalog :=
  match c with
  | [] => [(prefix, [item])]
  | (p, items) :: rest =>
      if String.eqb prefix p then (p, (items ++ [item])%list) :: rest
      else (p, items) :: catalog_push prefix item rest
  end.

(** The entry made for a metric name. *)
Definition catalog_item (metadata : Metadata) (metrics : Metrics)
  (name : string) : CatalogItem :=
  let baseName := catalog_base_name metadata name in
  let meta := catalog_meta metadata baseName name in
  mkCatalogItem baseName (help meta) (catalog_type meta metrics baseName)
    (catalog_labels (catalog_series metrics baseName)).

(** One round of the loop over the names of [metrics]. *)
Definition catalog_step (metadata : Metadata) (metrics : Metrics)
  (acc : Catalog * list string) (entry : string * list Sample)
  : Catalog * list string :=
  let '(catalog, processedNames) := acc in
  let name := fst entry in
  let baseName := catalog_base_name metadata name in
  if existsb (String.eqb baseName) processedNames then acc
  else (catalog_push (catalog_prefix baseName)
          (catalog_item metadata metrics name) catalog,
        set_add baseName processedNames).

Section BuildCatalog.
(** [a.localeCompare(b)], as the host gives it. *)
Variable localeCompare : string -> string -> num.

(** [buildMetricsCatalog(metadata, metrics)]. *)
Definition buildMetricsCatalog (metadata : Metadata) (metrics : Metrics)
  : list CatalogGroup :=
  let '(catalog, _) :=
    fold_left (catalog_step metadata metrics) metrics ([], []) in
  js_sort (fun a b => localeCompare (group_prefix a) (group_prefix b))
    (map (fun e =>
            mkCatalogGroup (fst e)
              (js_sort (fun a b => localeCompare (ci_name a) (ci_name b))
                 (snd e)))
       catalog).
End BuildCatalog.

(** The names of all entries of a catalog. *)
Definition catalog_names (groups : list CatalogGroup) : list string :=
  flat_map (fun g => map ci_name (group_metrics g)) groups.

(** [k] is a label name of a sample of the series. *)
Definition label_name_of (series : list Sample) (k : string) : Prop :=
  exists s, In s series /\ In k (obj_keys (labels s)).

(** The entries of the [Map] from prefix to entries. *)
Definition in_catalog (c : Catalog) (p : string) (it : CatalogItem) : Prop :=
  exists items, In (p, items) c /\ In it items.

(** The names of the entries of the map, prefix after prefix. *)
Definition raw_names (c : Catalog) : list string :=
  flat_map (fun e => map ci_name (snd e)) c.

(** A comparator for examples: code-unit order. *)
Definition code_unit_compare (a b : string) : num :=
  if str_ltb a b then (-1)%float
  else if str_ltb b a then 1%float else fzero.

(** What the loop keeps true of the map and of the set of names: the names
    of the entries are the names of the set, each once; the prefixes are
    distinct and none is without an entry; an entry is the one made for a
    name of the snapshot and lies under the prefix of its name. *)
Definition catalog_inv (metadata : Metadata) (metrics : Metrics)
  (st : Catalog * list string) : Prop :=
  NoDup (snd st)
  /\ Permutation (raw_names (fst st)) (snd st)
  /\ NoDup (map fst (fst st))
  /\ Forall (fun e => snd e <> []) (fst st)
  /\ forall p it,
       in_catalog (fst st) p it ->
       (exists name, In name (map fst metrics)
                     /\ it = catalog_item metadata metrics name)
       /\ p = catalog_prefix (ci_name it).

(** ** Placing a new widget on the grid *)

(** An item of the layout.  Positions and sizes are whole numbers of grid
    cells, as the grid keeps them, so they are integers here; the key
    [`${col},${row}`] of a cell is the pair of its column and row. *)
Record LayoutItem : Type := mkLayoutItem {
  item_x : Z;
  item_y : Z;
  item_w : Z;
  item_h : Z
}.

Definition cols : Z := 12.

(** The values of [v] in [for (let v = lo; v < hi; v++)]. *)
Definition zrange (lo hi : Z) : list Z :=
  map (fun i => (lo + Z.of_nat i)%Z) (seq 0 (Z.to_nat (hi - lo))).

Definition cell_eqb (a b : Z * Z) : bool :=
  Z.eqb (fst a) (fst b) && Z.eqb (snd a) (snd b).

(** [occupied.has(cell)] and [occupied.add(cell)]. *)
Definition cell_has (c : Z * Z) (occupied : list (Z * Z)) : bool :=
  existsb (cell_eqb c) occupied.

Definition cell_add (c : Z * Z) (occupied : list (Z * Z)) : list (Z * Z) :=
  if cell_has c occupied then occupied else (occupied ++ [c])%list.

(** [getOccupiedCells(items)]. *)
Definition getOccupiedCells (items : list LayoutItem) : list (Z * Z) :=
  fold_left (fun occupied item =>
    fold_left (fun occupied row =>
      fold_left (fun occupied col => cell_add (col, row) occupied)
        (zrange (item_x item) (item_x item + item_w item)) occupied)
      (zrange (item_y item) (item_y item + item_h item)) occupied)
    items [].

(** [canPlace(x, y, w, h, occupied)]. *)
Definition canPlace (x y w h : Z) (occupied : list (Z * Z)) : bool :=
  if (x + w >? cols)%Z then false
  else forallb (fun row =>
                  forallb (fun col => negb (cell_has (col, row) occupied))
                    (zrange x (x + w)))
         (zrange y (y + h)).

(** [maxY]. *)
Definition layout_maxY (items : list LayoutItem) : Z :=
  fold_left (fun max item => Z.max max (item_y item + item_h item)) items 0%Z.

(** The positions the two loops of [findPosition] visit, in order. *)
Definition scan_order (w h maxY : Z) : list (Z * Z) :=
  flat_map (fun y => map (fun x => (x, y)) (zrange 0 (cols - w + 1)))
    (zrange 0 (maxY + h + 1)).

(** [findPosition(items, w, h)]: the pair of [x] and [y]. *)
Definition findPosition (items : list LayoutItem) (w h : Z) : Z * Z :=
  let occupied := getOccupiedCells items in
  let maxY := layout_maxY items in
  match find (fun p => canPlace (fst p) (snd p) w h occupied)
          (scan_order w h maxY) with
  | Some p => p
  | None => (0%Z, maxY)
  end.

(** The cell at column [col] and row [row] belongs to [item]. *)
Definition covers (item : LayoutItem) (col row : Z) : Prop :=
  (item_x item <= col < item_x item + item_w item)%Z
  /\ (item_y item <= row < item_y item + item_h item)%Z.

(** A [w] by [h] widget at [(x, y)] shares a cell with an item. *)
Definition overlaps (items : list LayoutItem) (x y w h : Z) : Prop :=
  exists item col row,
    In item items /\ covers item col row
    /\ (x <= col < x + w)%Z /\ (y <= row < y + h)%Z.

(** ** Single values and the memory breakdown *)

(** [Object.entries(labelFilters).every(([k, v]) => item.labels[k] === v)]. *)
Definition label_filter (labelFilters : jsobj string) (item : Sample) : bool :=
  forallb (fun kv => match obj_get (fst kv) (labels item) with
                     | Some v => String.eqb v (snd kv)
                     | None => false
                     end)
    (obj_entries labelFilters).

(** [getMetricValue(metrics, name, labelFilters)]. *)
Definition getMetricValue (metrics : Metrics) (name : string)
  (labelFilters : jsobj string) : num :=
  match metrics_get name metrics with
  | None => fzero
  | Some metricSeries => sum_values (filter (label_filter labelFilters) metricSeries)
  end.

(** [a || b] on numbers. *)
Definition orElse (a b : num) : num := if truthy a then a else b.

(** A slice of the pie chart. *)
Record Slice : Type := mkSlice {
  slice_name : string;
  slice_value : num;
  slice_color : string
}.

Record MemstatsBreakdown : Type := mkMemstatsBreakdown {
  heapAlloc : num;
  heapIdle : num;
  heapInuse : num;
  heapSys : num;
  stackInuse : num;
  gcSys : num;
  sysTotal : num;
  allocTotal : num;
  nextGC : num;
  heapUsedPercent : num;
  memoryPressure : num;
  breakdownData : list Slice
}.

(** [computeGoMemstatsBreakdown(metrics)]; [None] is [null], as an argument
    ([null] or [undefined]) and as a result. *)
Definition computeGoMemstatsBreakdown (metrics : option Metrics)
  : option MemstatsBreakdown :=
  match metrics with
  | None => None
  | Some metrics =>
      let heapAlloc :=
        orElse (getMetricValue metrics "go_memstats_heap_alloc_bytes" [])
               (getMetricValue metrics "go_memstats_alloc_bytes" []) in
      let heapIdle := getMetricValue metrics "go_memstats_heap_idle_bytes" [] in
      let heapInuse := getMetricValue metrics "go_memstats_heap_inuse_bytes" [] in
      let heapSys := getMetricValue metrics "go_memstats_heap_sys_bytes" [] in
      let stackInuse := getMetricValue metrics "go_memstats_stack_inuse_bytes" [] in
      let mspanInuse := getMetricValue metrics "go_memstats_mspan_inuse_bytes" [] in
      let mcacheInuse := getMetricValue metrics "go_memstats_mcache_inuse_bytes" [] in
      let buckHashSys := getMetricValue metrics "go_memstats_buck_hash_sys_bytes" [] in
      let gcSys := getMetricValue metrics "go_memstats_gc_sys_bytes" [] in
      let otherSys := getMetricValue metrics "go_memstats_other_sys_bytes" [] in
      let sysTotal := getMetricValue metrics "go_memstats_sys_bytes" [] in
      let allocTotal := getMetricValue metrics "go_memstats_alloc_bytes" [] in
      let nextGC := getMetricValue metrics "go_memstats_next_gc_bytes" [] in
      let breakdownData :=
        filter (fun item => gt (slice_value item) fzero)
          [ mkSlice "Heap In-Use" (orElse heapInuse (orElse heapAlloc fzero))
              "#8b5cf6";
            mkSlice "Heap Idle" (orZero heapIdle) "#c4b5fd";
            mkSlice "Stack" (orZero stackInuse) "#10b981";
            mkSlice "GC Metadata" (orZero gcSys) "#f59e0b";
            mkSlice "MSpan/MCache"
              (PrimFloat.add (orZero mspanInuse) (orZero mcacheInuse)) "#06b6d4";
            mkSlice "Other"
              (PrimFloat.add (orZero buckHashSys) (orZero otherSys)) "#94a3b8" ] in
      let heapUsedPercent :=
        if gt heapSys fzero
        then PrimFloat.mul (PrimFloat.div (orElse heapInuse heapAlloc) heapSys)
               100%float
        else fzero in
      let memoryPressure :=
        if gt sysTotal fzero
        then PrimFloat.mul (PrimFloat.div allocTotal sysTotal) 100%float
        else fzero in
      Some (mkMemstatsBreakdown heapAlloc heapIdle heapInuse heapSys stackInuse
              gcSys sysTotal allocTotal nextGC heapUsedPercent memoryPressure
              breakdownData)
  end.

(** The names of the slices, in the order of the source. *)
Definition slice_names : list string :=
  ["Heap In-Use"; "Heap Idle"; "Stack"; "GC Metadata"; "MSpan/MCache"; "Other"].

(** [l1] is [l2] with some elements left out. *)
Inductive sublist {A : Type} : list A -> list A -> Prop :=
| sub_nil : sublist [] []
| sub_skip : forall x l1 l2, sublist l1 l2 -> sublist l1 (x :: l2)
| sub_keep : forall x l1 l2, sublist l1 l2 -> sublist (x :: l1) (x :: l2).

(** ** The entry a widget shows *)

(** What [metricMeta] is: an entry of the catalog, or the object the
    metadata holds, which has a [help] and a [type] only.  The object made
    when neither has the name has the four fields of an entry. *)
Inductive MetricMeta : Type :=
| MetaEntry (it : CatalogItem)
| MetaOnly (m : Meta).

(** The loop over the groups: the first entry called [metricName]. *)
Fixpoint find_entry (catalog : list CatalogGroup) (metricName : string)
  : option CatalogItem :=
  match catalog with
  | [] => None
  | group :: rest =>
      match find (fun m => String.eqb (ci_name m) metricName)
              (group_metrics group) with
      | Some found => Some found
      | None => find_entry rest metricName
      end
  end.

(** [metricMeta] of a widget on [metricName]. *)
Definition metricMeta (catalog : list CatalogGroup) (metadata : Metadata)
  (metricName : string) : MetricMeta :=
  match find_entry catalog metricName with
  | Some found => MetaEntry found
  | None =>
      match obj_get metricName metadata with
      | Some m => MetaOnly m
      | None => MetaEntry (mkCatalogItem metricName "" "untyped" [])
      end
  end.

(** [metricMeta.type]. *)
Definition meta_type (mm : MetricMeta) : string :=
  match mm with
  | MetaEntry it => ci_type it
  | MetaOnly m => mtype m
  end.

Unset Implicit Arguments.

(* ================================================================== *)
(** * Properties of numbers *)
(* ================================================================== *)

(** The comparisons and the sign of a difference, from the specification of
    binary64 in [SpecFloat]. *)

Local Open Scope Z_scope.

Lemma digits2_pos_bounds (m : positive) :
  2 ^ (Zpos (digits2_pos m) - 1) <= Zpos m < 2 ^ Zpos (digits2_pos m).
Proof.
  induction m as [m IH|m IH|]; cbn [digits2_pos].
  - rewrite Pos2Z.inj_succ.
    replace (Z.succ (Zpos (digits2_pos m)) - 1) with (Zpos (digits2_pos m))
      by lia.
    rewrite Z.pow_succ_r by lia.
    replace (2 ^ Zpos (digits2_pos m))
      with (2 * 2 ^ (Zpos (digits2_pos m) - 1)) in *
      by (rewrite <- Z.pow_succ_r by lia; f_equal; lia).
    lia.
  - rewrite Pos2Z.inj_succ.
    replace (Z.succ (Zpos (digits2_pos m)) - 1) with (Zpos (digits2_pos m))
      by lia.
    rewrite Z.pow_succ_r by lia.
    replace (2 ^ Zpos (digits2_pos m))
      with (2 * 2 ^ (Zpos (digits2_pos m) - 1)) in *
      by (rewrite <- Z.pow_succ_r by lia; f_equal; lia).
    lia.
  - cbn. lia.
Qed.

Lemma shr_1_m (mrs : shr_record) :
  0 <= shr_m mrs -> shr_m (shr_1 mrs) = shr_m mrs / 2.
Proof.
  destruct mrs as [m r s]. cbn [shr_m]. intros Hm.
  destruct m as [|p|p]; [reflexivity| |lia].
  destruct p as [p|p|]; cbn [shr_1 shr_m].
  - rewrite (Pos2Z.inj_xI p). apply Z.div_unique with (r := 1); lia.
  - rewrite (Pos2Z.inj_xO p). apply Z.div_unique with (r := 0); lia.
  - reflexivity.
Qed.

Lemma iter_shr_m (p : positive) :
  forall mrs, 0 <= shr_m mrs ->
              shr_m (iter_pos shr_1 p mrs) = shr_m mrs / 2 ^ Zpos p.
Proof.
  induction p as [p IH|p IH|]; intros mrs Hm; cbn [iter_pos].
  - assert (H1 : 0 <= shr_m (shr_1 mrs))
      by (rewrite shr_1_m by assumption; apply Z.div_pos; lia).
    assert (H2 : 0 <= shr_m (iter_pos shr_1 p (shr_1 mrs)))
      by (rewrite IH by assumption; apply Z.div_pos; lia).
    rewrite IH by assumption. rewrite IH by assumption.
    rewrite shr_1_m by assumption.
    rewrite !Z.div_div by lia. f_equal.
    rewrite (Pos2Z.inj_xI p), Z.pow_add_r by lia.
    replace (2 * Zpos p) with (Zpos p + Zpos p) by lia.
    rewrite Z.pow_add_r by lia. lia.
  - assert (H2 : 0 <= shr_m (iter_pos shr_1 p mrs))
      by (rewrite IH by assumption; apply Z.div_pos; lia).
    rewrite IH by assumption. rewrite IH by assumption.
    rewrite !Z.div_div by lia. f_equal.
    rewrite (Pos2Z.inj_xO p).
    replace (2 * Zpos p) with (Zpos p + Zpos p) by lia.
    rewrite Z.pow_add_r by lia. lia.
  - rewrite shr_1_m by assumption. reflexivity.
Qed.

Lemma shr_record_of_loc_m (m : Z) (l : location) :
  shr_m (shr_record_of_loc m l) = m.
Proof. destruct l as [|[| |]]; reflexivity. Qed.

(** Shifting a positive mantissa at an exponent that is not below [emin]
    leaves a positive mantissa. *)
Lemma shr_fexp_pos (m e : Z) (l : location) :
  0 < m -> emin <= e ->
  0 < shr_m (fst (shr_fexp prec emax m e l))
  /\ emin <= snd (shr_fexp prec emax m e l).
Proof.
  intros Hm He. unfold shr_fexp, shr.
  destruct m as [|p|p]; try lia. cbn [Zdigits2].
  pose proof (digits2_pos_bounds p) as Hd.
  set (d := Zpos (digits2_pos p)) in *.
  assert (Hd1 : 1 <= d) by (unfold d; lia).
  unfold fexp.
  destruct (Z.max (d + e - prec) (emin) - e) as [|n|n] eqn:En;
    cbn [fst snd]; rewrite ?shr_record_of_loc_m; try (split; lia).
  rewrite iter_shr_m by (rewrite shr_record_of_loc_m; lia).
  rewrite shr_record_of_loc_m.
  assert (Hn : Zpos n <= d - 1) by (unfold prec in *; lia).
  split; [|lia].
  apply Z.div_str_pos. split; [lia|].
  apply Z.le_trans with (2 ^ (d - 1)); [|lia].
  apply Z.pow_le_mono_r; lia.
Qed.

Lemma round_nearest_even_ge (m : Z) (l : location) :
  m <= round_nearest_even m l.
Proof.
  destruct l as [|[| |]]; cbn [round_nearest_even]; try lia.
  destruct (Z.even m); lia.
Qed.

(** Rounding a non-zero mantissa at an exponent that is not below [emin]
    never gives zero nor NaN, and keeps the sign. *)
Lemma binary_round_aux_sign (s : bool) (m e : Z) (l : location) :
  0 < m -> emin <= e ->
  (exists m' e', binary_round_aux prec emax s m e l = S754_finite s m' e')
  \/ binary_round_aux prec emax s m e l = S754_infinity s.
Proof.
  intros Hm He. unfold binary_round_aux.
  destruct (shr_fexp_pos m e l Hm He) as [H1 H2].
  destruct (shr_fexp prec emax m e l) as [mrs' e'] eqn:E1. cbn [fst snd] in *.
  pose proof (round_nearest_even_ge (shr_m mrs') (loc_of_shr_record mrs')) as Hr.
  set (m1 := round_nearest_even (shr_m mrs') (loc_of_shr_record mrs')) in *.
  assert (Hm1 : 0 < m1) by lia.
  destruct (shr_fexp_pos m1 e' loc_Exact Hm1 H2) as [H3 H4].
  destruct (shr_fexp prec emax m1 e' loc_Exact) as [mrs'' e''] eqn:E2.
  cbn [fst snd] in *.
  destruct (shr_m mrs'') as [|p|p]; try lia.
  destruct (Z.leb e'' (emax - prec)); [left; eauto|right; reflexivity].
Qed.

Lemma binary_round_sign (s : bool) (m : positive) (e : Z) :
  emin <= e ->
  (exists m' e', binary_round prec emax s m e = S754_finite s m' e')
  \/ binary_round prec emax s m e = S754_infinity s.
Proof.
  intros He. unfold binary_round.
  destruct (shl_align m e (fexp prec emax (Zpos (digits2_pos m) + e)))
    as [mz ez] eqn:E.
  apply binary_round_aux_sign; [lia|].
  unfold shl_align in E.
  destruct (fexp prec emax (Zpos (digits2_pos m) + e) - e) eqn:D;
    injection E as <- <-; try lia.
  unfold fexp. lia.
Qed.

(** ** The order of the specification *)

Lemma SFcompare_antisym (x y : spec_float) :
  SFcompare y x = option_map CompOpp (SFcompare x y).
Proof.
  destruct x as [sx|sx| |sx mx ex], y as [sy|sy| |sy my ey];
    cbn [SFcompare option_map]; try reflexivity;
    try (destruct sx; reflexivity); try (destruct sy; reflexivity);
    try (destruct sx, sy; reflexivity).
  destruct sx, sy; cbn [CompOpp]; try reflexivity.
  - rewrite (Z.compare_antisym ex ey).
    destruct (Z.compare ex ey); cbn [CompOpp]; try reflexivity.
    now rewrite (Pos.compare_cont_antisym mx my Eq).
  - rewrite (Z.compare_antisym ex ey).
    destruct (Z.compare ex ey); cbn [CompOpp]; try reflexivity.
    now rewrite (Pos.compare_cont_antisym mx my Eq).
Qed.

Lemma SFcompare_refl (x : spec_float) :
  x <> S754_nan -> SFcompare x x = Some Eq.
Proof.
  destruct x as [sx|sx| |sx mx ex]; cbn [SFcompare]; try reflexivity;
    try (destruct sx; reflexivity); [congruence|].
  intros _. rewrite Z.compare_refl.
  change (Pos.compare_cont Eq mx mx) with (Pos.compare mx mx).
  rewrite Pos.compare_refl. now destruct sx.
Qed.

Lemma SFcompare_none (x y : spec_float) :
  SFcompare x y = None <-> x = S754_nan \/ y = S754_nan.
Proof.
  destruct x as [sx|sx| |sx mx ex], y as [sy|sy| |sy my ey];
    cbn [SFcompare]; split; intros H; try discriminate H; auto;
    destruct H as [H|H]; discriminate H.
Qed.

Lemma finite_valid_bounds (s : bool) (m : positive) (e : Z) :
  valid_binary (S754_finite s m e) = true ->
  emin <= e
  /\ Zpos (digits2_pos m) <= prec
  /\ (emin < e -> Zpos (digits2_pos m) = prec).
Proof.
  cbn [SpecFloat.valid_binary]. unfold bounded, canonical_mantissa, fexp.
  intros H. apply andb_prop in H as [H _]. apply Z.eqb_eq in H.
  unfold SpecFloat.emin, prec, emax in *. lia.
Qed.

Lemma finite_valid_emax (s : bool) (m : positive) (e : Z) :
  valid_binary (S754_finite s m e) = true -> e <= emax - prec.
Proof.
  cbn [SpecFloat.valid_binary]. unfold bounded.
  intros H. apply andb_prop in H as [_ H]. now apply Z.leb_le in H.
Qed.

Lemma pos_iter_xO (m d : positive) :
  Zpos (Pos.iter xO m d) = Zpos m * 2 ^ Zpos d.
Proof.
  induction d as [|d IH] using Pos.peano_ind.
  - cbn. lia.
  - rewrite Pos.iter_succ, (Pos2Z.inj_xO (Pos.iter xO m d)), IH.
    rewrite Pos2Z.inj_succ, Z.pow_succ_r by lia. lia.
Qed.

Lemma shl_align_fst (m : positive) (e ez : Z) :
  ez <= e -> Zpos (fst (shl_align m e ez)) = Zpos m * 2 ^ (e - ez).
Proof.
  intros H. unfold shl_align.
  destruct (ez - e) as [|d|d] eqn:D; cbn [fst]; try lia.
  - replace (e - ez) with 0 by lia. cbn. lia.
  - rewrite pos_iter_xO. f_equal. f_equal. lia.
Qed.

(** The order of two finite numbers is the order of their mantissas once
    they are aligned on the smaller exponent. *)
Lemma aligned_compare (mx : positive) (ex : Z) (my : positive) (ey : Z)
      (sx sy : bool) :
  valid_binary (S754_finite sx mx ex) = true ->
  valid_binary (S754_finite sy my ey) = true ->
  Z.compare (Zpos mx * 2 ^ (ex - Z.min ex ey))
            (Zpos my * 2 ^ (ey - Z.min ex ey))
  = match Z.compare ex ey with
    | Lt => Lt
    | Gt => Gt
    | Eq => Pos.compare_cont Eq mx my
    end.
Proof.
  intros Hx Hy.
  apply finite_valid_bounds in Hx as (Hx1 & Hx2 & Hx3).
  apply finite_valid_bounds in Hy as (Hy1 & Hy2 & Hy3).
  pose proof (digits2_pos_bounds mx) as Bx.
  pose proof (digits2_pos_bounds my) as By.
  destruct (Z.compare_spec ex ey) as [E|E|E].
  - subst ey. rewrite Z.min_id, Z.sub_diag. cbn [Z.pow].
    rewrite !Z.mul_1_r. reflexivity.
  - rewrite Z.min_l, Z.sub_diag by lia. cbn [Z.pow]. rewrite Z.mul_1_r.
    apply Z.compare_lt_iff.
    rewrite (Hy3 ltac:(lia)) in By.
    assert (P : 2 ^ 1 <= 2 ^ (ey - ex)) by (apply Z.pow_le_mono_r; lia).
    assert (Q : Zpos mx < 2 ^ prec).
    { apply Z.lt_le_trans with (2 ^ Zpos (digits2_pos mx)); [lia|].
      apply Z.pow_le_mono_r; lia. }
    replace (2 ^ prec) with (2 ^ (prec - 1) * 2 ^ 1) in Q
      by (rewrite <- Z.pow_add_r by (unfold prec; lia); f_equal; lia).
    nia.
  - rewrite Z.min_r, Z.sub_diag by lia. cbn [Z.pow]. rewrite Z.mul_1_r.
    apply Z.compare_gt_iff.
    rewrite (Hx3 ltac:(lia)) in Bx.
    assert (P : 2 ^ 1 <= 2 ^ (ex - ey)) by (apply Z.pow_le_mono_r; lia).
    assert (Q : Zpos my < 2 ^ prec).
    { apply Z.lt_le_trans with (2 ^ Zpos (digits2_pos my)); [lia|].
      apply Z.pow_le_mono_r; lia. }
    replace (2 ^ prec) with (2 ^ (prec - 1) * 2 ^ 1) in Q
      by (rewrite <- Z.pow_add_r by (unfold prec; lia); f_equal; lia).
    nia.
Qed.

(** ** The sign of a difference *)

Lemma normalize_sign (M e : Z) :
  emin <= e ->
  SFltb (S754_zero false) (binary_normalize prec emax M e false) = Z.ltb 0 M
  /\ SFltb (binary_normalize prec emax M e false) (S754_zero false) = Z.ltb M 0.
Proof.
  intros He. destruct M as [|m|m]; cbn [binary_normalize].
  - split; reflexivity.
  - destruct (binary_round_sign false m e He) as [(m' & e' & ->)| ->];
      split; reflexivity.
  - destruct (binary_round_sign true m e He) as [(m' & e' & ->)| ->];
      split; reflexivity.
Qed.

Lemma SFsub_finite_sign (sx : bool) (mx : positive) (ex : Z)
      (sy : bool) (my : positive) (ey : Z) :
  valid_binary (S754_finite sx mx ex) = true ->
  valid_binary (S754_finite sy my ey) = true ->
  let x := S754_finite sx mx ex in
  let y := S754_finite sy my ey in
  SFltb (S754_zero false) (SFsub prec emax x y) = SFltb y x
  /\ SFltb (SFsub prec emax x y) (S754_zero false) = SFltb x y.
Proof.
  intros Hx Hy x y.
  pose proof (aligned_compare mx ex my ey sx sy Hx Hy) as Hc.
  pose proof (finite_valid_bounds _ _ _ Hx) as (Hx1 & _).
  pose proof (finite_valid_bounds _ _ _ Hy) as (Hy1 & _).
  unfold x, y. cbn [SFsub].
  rewrite !shl_align_fst by lia.
  set (X := Zpos mx * 2 ^ (ex - Z.min ex ey)) in *.
  set (Y := Zpos my * 2 ^ (ey - Z.min ex ey)) in *.
  assert (HX : 0 < X) by (unfold X; apply Z.mul_pos_pos; [lia|];
                          apply Z.pow_pos_nonneg; lia).
  assert (HY : 0 < Y) by (unfold Y; apply Z.mul_pos_pos; [lia|];
                          apply Z.pow_pos_nonneg; lia).
  destruct (normalize_sign (cond_Zopp sx X - cond_Zopp sy Y) (Z.min ex ey)
              ltac:(lia)) as [-> ->].
  unfold SFltb. rewrite (SFcompare_antisym (S754_finite sx mx ex)
                           (S754_finite sy my ey)).
  cbn [SFcompare option_map].
  revert Hc.
  destruct sx, sy; cbn [cond_Zopp CompOpp];
    destruct (Z.compare ex ey); cbn [CompOpp];
    try destruct (Pos.compare_cont Eq mx my); cbn [CompOpp];
    intros Hc;
    rewrite ?Z.compare_eq_iff, ?Z.compare_lt_iff, ?Z.compare_gt_iff in Hc;
    split; (apply Z.ltb_lt || apply Z.ltb_ge); lia.
Qed.

Lemma SFsub_sign (x y : spec_float) :
  valid_binary x = true -> valid_binary y = true ->
  x <> S754_nan -> y <> S754_nan ->
  SFltb (S754_zero false) (SFsub prec emax x y) = SFltb y x
  /\ SFltb (SFsub prec emax x y) (S754_zero false) = SFltb x y.
Proof.
  intros Hx Hy Nx Ny.
  destruct x as [sx|sx| |sx mx ex], y as [sy|sy| |sy my ey];
    try congruence;
    try (now apply SFsub_finite_sign);
    try (destruct sx, sy; split; reflexivity);
    try (destruct sx; split; reflexivity);
    try (destruct sy; split; reflexivity).
Qed.

(** ** Numbers *)

Lemma isNaN_spec (x : num) : isNaN x = false <-> Prim2SF x <> S754_nan.
Proof.
  unfold isNaN, PrimFloat.is_nan. rewrite eqb_spec. unfold SFeqb.
  split.
  - intros H E. rewrite E in H. discriminate H.
  - intros H. now rewrite (SFcompare_refl _ H).
Qed.

(** The sign of [a - b] tells the order of [a] and [b], for numbers that are
    not NaN: this is what makes a comparator [a - b] a consistent order. *)
Lemma sub_sign (a b : num) :
  isNaN a = false -> isNaN b = false ->
  gt (PrimFloat.sub a b) fzero = PrimFloat.ltb b a
  /\ lt (PrimFloat.sub a b) fzero = PrimFloat.ltb a b.
Proof.
  intros Ha Hb. apply isNaN_spec in Ha, Hb.
  unfold gt, lt. rewrite !ltb_spec, sub_spec.
  change (Prim2SF fzero) with (S754_zero false).
  apply SFsub_sign; auto using Prim2SF_valid.
Qed.

Lemma ltb_leb (a b : num) : PrimFloat.ltb a b = true -> PrimFloat.leb a b = true.
Proof.
  rewrite ltb_spec, leb_spec. unfold SFltb, SFleb.
  now destruct (SFcompare (Prim2SF a) (Prim2SF b)) as [[| |]|].
Qed.

Lemma not_ltb_leb (a b : num) :
  isNaN a = false -> isNaN b = false ->
  PrimFloat.ltb a b = false -> PrimFloat.leb b a = true.
Proof.
  intros Ha Hb. apply isNaN_spec in Ha, Hb.
  rewrite ltb_spec, leb_spec. unfold SFltb, SFleb.
  rewrite (SFcompare_antisym (Prim2SF a) (Prim2SF b)).
  destruct (SFcompare (Prim2SF a) (Prim2SF b)) as [[| |]|] eqn:E;
    cbn; try congruence.
  apply SFcompare_none in E. tauto.
Qed.

(** ** Sums never produce the negative zero *)

Lemma SFadd_neg_zero (x y : spec_float) :
  valid_binary x = true -> valid_binary y = true ->
  SFadd prec emax x y = S754_zero true ->
  x = S754_zero true /\ y = S754_zero true.
Proof.
  intros Hx Hy.
  destruct x as [sx|sx| |sx mx ex], y as [sy|sy| |sy my ey]; cbn [SFadd];
    try discriminate;
    try (destruct sx, sy;
         solve [discriminate | intros _; split; reflexivity]).
  pose proof (finite_valid_bounds _ _ _ Hx) as (Hx1 & _).
  pose proof (finite_valid_bounds _ _ _ Hy) as (Hy1 & _).
  destruct (cond_Zopp sx (Zpos (fst (shl_align mx ex (Z.min ex ey))))
            + cond_Zopp sy (Zpos (fst (shl_align my ey (Z.min ex ey)))))
    as [|m|m]; cbn [binary_normalize]; try discriminate.
  - destruct (binary_round_sign false m (Z.min ex ey) ltac:(lia))
      as [(m' & e' & ->)| ->]; discriminate.
  - destruct (binary_round_sign true m (Z.min ex ey) ltac:(lia))
      as [(m' & e' & ->)| ->]; discriminate.
Qed.

Lemma is_neg_zero_spec (x : num) :
  is_neg_zero x = true <-> Prim2SF x = S754_zero true.
Proof.
  unfold is_neg_zero. rewrite classify_spec. unfold SF64classify.
  destruct (Prim2SF x) as [s|s| |s m e]; cbn [SFclassify].
  - destruct s; split; congruence.
  - destruct s; split; congruence.
  - split; congruence.
  - destruct s; destruct (Z.eqb _ _); split; congruence.
Qed.

Lemma add_not_neg_zero (a b : num) :
  is_neg_zero a = false -> is_neg_zero (PrimFloat.add a b) = false.
Proof.
  intros Ha. destruct (is_neg_zero (PrimFloat.add a b)) eqn:E; [|reflexivity].
  apply is_neg_zero_spec in E. rewrite add_spec in E.
  apply SFadd_neg_zero in E as [E _]; auto using Prim2SF_valid.
  apply is_neg_zero_spec in E. congruence.
Qed.

Lemma orZero_id (x : num) :
  isNaN x = false -> is_neg_zero x = false -> orZero x = x.
Proof.
  intros Hn Hz. unfold orZero, truthy. unfold isNaN in Hn. rewrite Hn.
  cbn [orb]. destruct (PrimFloat.eqb x fzero) eqn:E; [|reflexivity].
  cbn [negb]. apply Prim2SF_inj.
  rewrite eqb_spec in E. change (Prim2SF fzero) with (S754_zero false) in *.
  unfold SFeqb in E.
  destruct (Prim2SF x) as [s|s| |s m e] eqn:P; cbn [SFcompare] in E;
    try discriminate E; try (destruct s; discriminate E).
  destruct s; [|reflexivity].
  apply is_neg_zero_spec in P. congruence.
Qed.

Lemma orZero_zero : orZero fzero = fzero.
Proof. reflexivity. Qed.


(** ** The order of numbers is the order of their ranks *)

Lemma scaled_finite_bounds (s : bool) (m : positive) (e : Z) :
  valid_binary (S754_finite s m e) = true ->
  0 < Zpos m * 2 ^ (e - emin) < 2 ^ 2100.
Proof.
  intros H. pose proof (finite_valid_bounds _ _ _ H) as (H1 & H2 & _).
  pose proof (finite_valid_emax _ _ _ H) as H3.
  pose proof (digits2_pos_bounds m) as B.
  assert (P : 0 < 2 ^ (e - emin)) by (apply Z.pow_pos_nonneg; lia).
  split; [apply Z.mul_pos_pos; lia|].
  assert (Q : Zpos m < 2 ^ prec).
  { apply Z.lt_le_trans with (2 ^ Zpos (digits2_pos m)); [lia|].
    apply Z.pow_le_mono_r; lia. }
  assert (R : 2 ^ (e - emin) <= 2 ^ (emax - prec - emin))
    by (apply Z.pow_le_mono_r; lia).
  apply Z.lt_le_trans with (2 ^ prec * 2 ^ (emax - prec - emin)).
  - apply Z.le_lt_trans with (Zpos m * 2 ^ (emax - prec - emin)).
    + apply Z.mul_le_mono_nonneg_l; lia.
    + apply Z.mul_lt_mono_pos_r; [|exact Q].
      apply Z.pow_pos_nonneg; unfold prec, emax, SpecFloat.emin; lia.
  - rewrite <- Z.pow_add_r by (unfold prec, emax, SpecFloat.emin; lia).
    apply Z.pow_le_mono_r; unfold prec, emax, SpecFloat.emin; lia.
Qed.

Lemma Zcompare_mul_pos_r (x y k : Z) :
  0 < k -> Z.compare (x * k) (y * k) = Z.compare x y.
Proof.
  intros Hk. destruct (Z.compare_spec x y) as [E|E|E].
  - subst. apply Z.compare_refl.
  - apply Z.compare_lt_iff. nia.
  - apply Z.compare_gt_iff. nia.
Qed.

Lemma aligned_rank (mx : positive) (ex : Z) (my : positive) (ey : Z)
      (sx sy : bool) :
  valid_binary (S754_finite sx mx ex) = true ->
  valid_binary (S754_finite sy my ey) = true ->
  Z.compare (Zpos mx * 2 ^ (ex - emin)) (Zpos my * 2 ^ (ey - emin))
  = match Z.compare ex ey with
    | Lt => Lt
    | Gt => Gt
    | Eq => Pos.compare_cont Eq mx my
    end.
Proof.
  intros Hx Hy. rewrite <- (aligned_compare mx ex my ey sx sy Hx Hy).
  pose proof (finite_valid_bounds _ _ _ Hx) as (Hx1 & _).
  pose proof (finite_valid_bounds _ _ _ Hy) as (Hy1 & _).
  set (ez := Z.min ex ey).
  assert (K : 0 < 2 ^ (ez - emin)) by (apply Z.pow_pos_nonneg; unfold ez; lia).
  replace (ex - emin) with ((ex - ez) + (ez - emin)) by lia.
  replace (ey - emin) with ((ey - ez) + (ez - emin)) by lia.
  rewrite !Z.pow_add_r by (unfold ez; lia).
  rewrite !Z.mul_assoc. now rewrite Zcompare_mul_pos_r by exact K.
Qed.

Ltac solve_compare :=
  match goal with
  | |- Some ?c = Some ?d => apply (f_equal Some); solve_compare
  | |- Eq = Z.compare _ _ => symmetry; apply Z.compare_eq_iff; lia
  | |- Lt = Z.compare _ _ => symmetry; apply Z.compare_lt_iff; lia
  | |- Gt = Z.compare _ _ => symmetry; apply Z.compare_gt_iff; lia
  end.

Lemma SFcompare_rank (x y : spec_float) :
  valid_binary x = true -> valid_binary y = true ->
  x <> S754_nan -> y <> S754_nan ->
  SFcompare x y = Some (Z.compare (SFrank x) (SFrank y)).
Proof.
  intros Hx Hy Nx Ny.
  assert (Big : 0 < 2 ^ 2100) by (apply Z.pow_pos_nonneg; lia).
  destruct x as [sx|sx| |sx mx ex], y as [sy|sy| |sy my ey];
    try congruence; cbn [SFcompare SFrank SFscaled];
    try pose proof (scaled_finite_bounds _ _ _ Hx);
    try pose proof (scaled_finite_bounds _ _ _ Hy).
  1-8: try destruct sx; try destruct sy; cbn [cond_Zopp]; solve_compare.
  pose proof (aligned_rank mx ex my ey sx sy Hx Hy) as Hc.
  destruct sx, sy; cbn [cond_Zopp]; try solve_compare; f_equal.
  - rewrite Z.compare_opp.
    rewrite (Z.compare_antisym (Zpos mx * 2 ^ (ex - emin))
               (Zpos my * 2 ^ (ey - emin))), Hc.
    now destruct (Z.compare ex ey).
  - now rewrite Hc.
Qed.

Lemma ltb_rank (a b : num) :
  isNaN a = false -> isNaN b = false ->
  PrimFloat.ltb a b = Z.ltb (rank a) (rank b).
Proof.
  intros Ha Hb. apply isNaN_spec in Ha, Hb.
  rewrite ltb_spec. unfold SFltb, rank.
  rewrite SFcompare_rank by auto using Prim2SF_valid.
  unfold Z.ltb. now destruct (Z.compare _ _).
Qed.

Lemma leb_rank (a b : num) :
  isNaN a = false -> isNaN b = false ->
  PrimFloat.leb a b = Z.leb (rank a) (rank b).
Proof.
  intros Ha Hb. apply isNaN_spec in Ha, Hb.
  rewrite leb_spec. unfold SFleb, rank.
  rewrite SFcompare_rank by auto using Prim2SF_valid.
  unfold Z.leb. now destruct (Z.compare _ _).
Qed.

Lemma eqb_rank (a b : num) :
  isNaN a = false -> isNaN b = false ->
  PrimFloat.eqb a b = Z.eqb (rank a) (rank b).
Proof.
  intros Ha Hb. apply isNaN_spec in Ha, Hb.
  rewrite eqb_spec. unfold SFeqb, rank.
  rewrite SFcompare_rank by auto using Prim2SF_valid.
  destruct (Z.compare_spec (SFrank (Prim2SF a)) (SFrank (Prim2SF b)))
    as [E|E|E]; symmetry;
    [now apply Z.eqb_eq|apply Z.eqb_neq; lia|apply Z.eqb_neq; lia].
Qed.

Lemma rank_zero : rank fzero = 0.
Proof. reflexivity. Qed.

Lemma isNaN_zero : isNaN fzero = false.
Proof. reflexivity. Qed.

Local Close Scope Z_scope.

Lemma fold_total_plain (vals : list num) :
  forall acc,
    is_neg_zero acc = false ->
    (forall n, isNaN (fold_left PrimFloat.add (firstn n vals) acc) = false) ->
    fold_left (fun a v => PrimFloat.add (orZero a) v) vals acc
    = fold_left PrimFloat.add vals acc.
Proof.
  induction vals as [|v vals IH]; intros acc Hz Hn; cbn [fold_left];
    [reflexivity|].
  rewrite (orZero_id acc (Hn 0%nat) Hz).
  apply IH; [now apply add_not_neg_zero|].
  intros n. exact (Hn (S n)).
Qed.

(** The total kept per key is the plain sum whenever no partial sum is
    NaN. *)
Lemma js_total_plain (vals : list num) :
  sums_defined vals -> js_total vals = plain_sum vals.
Proof.
  intros H. unfold js_total, plain_sum. apply fold_total_plain;
    [reflexivity|exact H].
Qed.

Local Open Scope Z_scope.

(** ** Truthiness, maximum and ratio *)

Lemma isNaN_SF (x : num) :
  isNaN x = match Prim2SF x with S754_nan => true | _ => false end.
Proof.
  destruct (isNaN x) eqn:E.
  - destruct (Prim2SF x) eqn:P; try reflexivity;
      assert (N : Prim2SF x <> S754_nan) by (rewrite P; discriminate);
      apply isNaN_spec in N; congruence.
  - apply isNaN_spec in E. now destruct (Prim2SF x).
Qed.

Lemma truthy_SF (x : num) :
  truthy x = match Prim2SF x with
             | S754_nan | S754_zero _ => false
             | _ => true
             end.
Proof.
  unfold truthy. fold (isNaN x). rewrite isNaN_SF, eqb_spec.
  change (Prim2SF fzero) with (S754_zero false). unfold SFeqb.
  destruct (Prim2SF x) as [s|s| |s m e]; cbn [SFcompare orb negb];
    try reflexivity; now destruct s.
Qed.

Lemma gt0_SF (x : num) :
  gt x fzero = match Prim2SF x with
               | S754_finite false _ _ | S754_infinity false => true
               | _ => false
               end.
Proof.
  unfold gt. rewrite ltb_spec.
  change (Prim2SF fzero) with (S754_zero false). unfold SFltb.
  destruct (Prim2SF x) as [s|s| |s m e]; cbn [SFcompare];
    try reflexivity; now destruct s.
Qed.

Lemma lt0_SF (x : num) :
  lt x fzero = match Prim2SF x with
               | S754_finite true _ _ | S754_infinity true => true
               | _ => false
               end.
Proof.
  unfold lt. rewrite ltb_spec.
  change (Prim2SF fzero) with (S754_zero false). unfold SFltb.
  destruct (Prim2SF x) as [s|s| |s m e]; cbn [SFcompare];
    try reflexivity; now destruct s.
Qed.

Lemma orZero_cases (x : num) :
  (truthy x = true /\ orZero x = x) \/ (truthy x = false /\ orZero x = fzero).
Proof. unfold orZero. destruct (truthy x); auto. Qed.

Lemma orZero_not_nan (x : num) : isNaN (orZero x) = false.
Proof.
  destruct (orZero_cases x) as [[H ->]|[_ ->]]; [|reflexivity].
  rewrite truthy_SF in H. rewrite isNaN_SF. now destruct (Prim2SF x).
Qed.

Lemma orZero_rank (x : num) : isNaN x = false -> rank (orZero x) = rank x.
Proof.
  intros Hn. destruct (orZero_cases x) as [[_ ->]|[H ->]]; [reflexivity|].
  rewrite truthy_SF in H. rewrite isNaN_SF in Hn. unfold rank.
  change (Prim2SF fzero) with (S754_zero false).
  destruct (Prim2SF x); try discriminate; reflexivity.
Qed.

Lemma gt0_orZero (x : num) : gt (orZero x) fzero = gt x fzero.
Proof.
  destruct (orZero_cases x) as [[_ ->]|[H ->]]; [reflexivity|].
  rewrite truthy_SF in H. rewrite (gt0_SF x).
  destruct (Prim2SF x) as [s|s| |s m e]; try discriminate; reflexivity.
Qed.

Lemma gt0_truthy (x : num) : gt x fzero = true -> truthy x = true.
Proof.
  rewrite gt0_SF, truthy_SF.
  destruct (Prim2SF x) as [s|s| |s m e]; try discriminate; reflexivity.
Qed.

(** A falsy numerator gives a falsy quotient by a positive denominator. *)
Lemma div_falsy (s c : num) :
  truthy s = false -> gt c fzero = true -> truthy (PrimFloat.div s c) = false.
Proof.
  rewrite !truthy_SF, gt0_SF, div_spec. unfold SF64div.
  destruct (Prim2SF s) as [ss|ss| |ss ms es]; try discriminate;
    destruct (Prim2SF c) as [sc|sc| |sc mc ec]; try discriminate;
    try (destruct sc; discriminate); reflexivity.
Qed.

Lemma ratio_orZero (s c : num) :
  orZero (ratio (orZero s) (orZero c)) = orZero (ratio s c).
Proof.
  unfold ratio. rewrite gt0_orZero.
  destruct (gt c fzero) eqn:G; [|reflexivity].
  destruct (orZero_cases c) as [[_ ->]|[H _]];
    [|rewrite (gt0_truthy _ G) in H; discriminate].
  destruct (orZero_cases s) as [[_ ->]|[H ->]]; [reflexivity|].
  pose proof (div_falsy s c H G) as F1.
  pose proof (div_falsy fzero c eq_refl G) as F2.
  unfold orZero. now rewrite F1, F2.
Qed.

Lemma ratio_zero (c : num) : orZero (ratio fzero c) = fzero.
Proof.
  unfold ratio. destruct (gt c fzero) eqn:G; [|reflexivity].
  pose proof (div_falsy fzero c eq_refl G) as F.
  unfold orZero. now rewrite F.
Qed.

(** [Math.max] of two numbers that are not NaN is one of them, the one of
    greater rank. *)
Lemma Math_max_spec (a b : num) :
  isNaN a = false -> isNaN b = false ->
  isNaN (Math_max a b) = false
  /\ rank (Math_max a b) = Z.max (rank a) (rank b)
  /\ (Math_max a b = a \/ Math_max a b = b).
Proof.
  intros Ha Hb. unfold Math_max. unfold isNaN in Ha, Hb. rewrite Ha, Hb.
  cbn [orb]. fold (isNaN a) in Ha. fold (isNaN b) in Hb.
  rewrite (ltb_rank a b Ha Hb), (ltb_rank b a Hb Ha).
  destruct (Z.ltb_spec (rank a) (rank b)) as [L|L].
  { repeat split; auto. lia. }
  destruct (Z.ltb_spec (rank b) (rank a)) as [L'|L'].
  { repeat split; auto. lia. }
  destruct (is_neg_zero a); repeat split; auto; lia.
Qed.

(** [Math.max(0, x)] is never negative. *)
Lemma Math_max_zero_not_neg (x : num) : lt (Math_max fzero x) fzero = false.
Proof.
  destruct (isNaN x) eqn:Hx.
  - unfold Math_max. unfold isNaN in Hx. rewrite Hx.
    rewrite orb_true_r. reflexivity.
  - destruct (Math_max_spec fzero x isNaN_zero Hx) as (Hn & Hr & _).
    unfold lt. rewrite (ltb_rank _ _ Hn isNaN_zero), Hr.
    apply Z.ltb_ge. change (rank fzero) with 0%Z. lia.
Qed.

Lemma fold_Zmax_spec (l : list Z) :
  forall a : Z,
    (a <= fold_left Z.max l a)%Z
    /\ Forall (fun x => (x <= fold_left Z.max l a)%Z) l
    /\ (fold_left Z.max l a = a \/ In (fold_left Z.max l a) l).
Proof.
  induction l as [|x l IH]; intros a; cbn [fold_left].
  - repeat split; auto; lia.
  - destruct (IH (Z.max a x)) as (I1 & I2 & I3).
    split; [lia|]. split; [constructor; [lia|exact I2]|].
    destruct I3 as [I3|I3]; [|right; now right].
    rewrite I3. destruct (Z.max_spec a x) as [[_ ->]|[_ ->]]; auto.
    right. now left.
Qed.

(** The accumulation [acc := Math.max(acc || 0, v)] ranks as the greatest of
    the start and the values. *)
Lemma fold_max_rank (vals : list num) :
  Forall (fun v => isNaN v = false) vals ->
  forall acc,
    isNaN acc = false ->
    let r := fold_left (fun a v => Math_max (orZero a) v) vals acc in
    isNaN r = false
    /\ rank r = fold_left Z.max (map rank vals) (rank acc).
Proof.
  induction 1 as [|v vals Hv Hvals IH]; intros acc Ha;
    cbn [fold_left map]; [auto|].
  destruct (Math_max_spec (orZero acc) v (orZero_not_nan acc) Hv)
    as (Hn & Hm & _).
  rewrite (orZero_rank acc Ha) in Hm.
  specialize (IH (Math_max (orZero acc) v) Hn). cbv zeta in IH.
  destruct IH as [I1 I2]. split; [exact I1|]. now rewrite I2, Hm.
Qed.

Lemma js_max_is_max (vals : list num) :
  Forall (fun v => isNaN v = false) vals ->
  is_max_with_zero (js_max vals) vals.
Proof.
  intros Hv. unfold is_max_with_zero, js_max.
  destruct (fold_max_rank vals Hv fzero isNaN_zero) as [Hn Hr].
  cbv zeta in Hn, Hr. change (rank fzero) with 0%Z in Hr.
  set (r := fold_left (fun a v => Math_max (orZero a) v) vals fzero) in *.
  destruct (fold_Zmax_spec (map rank vals) 0%Z) as (F1 & F2 & F3).
  rewrite <- Hr in F1, F2, F3.
  split; [exact Hn|]. split.
  { rewrite (leb_rank _ _ isNaN_zero Hn). apply Z.leb_le. exact F1. }
  split.
  { intros v Hin. rewrite Forall_forall in Hv, F2.
    rewrite (leb_rank _ _ (Hv _ Hin) Hn). apply Z.leb_le.
    apply F2. now apply in_map. }
  destruct F3 as [F3|F3].
  - left. rewrite (eqb_rank _ _ Hn isNaN_zero). apply Z.eqb_eq. exact F3.
  - right. apply in_map_iff in F3 as (v & Ev & Hin). exists v.
    split; [exact Hin|]. rewrite Forall_forall in Hv.
    rewrite (eqb_rank _ _ Hn (Hv _ Hin)). apply Z.eqb_eq. congruence.
Qed.
(* ================================================================== *)
(** * Exact differences of counts *)
(* ================================================================== *)


Lemma digits2_pos_unique (m : positive) (k : Z) :
  2 ^ (k - 1) <= Zpos m < 2 ^ k -> Zpos (digits2_pos m) = k.
Proof.
  intros [L U]. pose proof (digits2_pos_bounds m) as [L' U'].
  assert (Hk : 0 < k).
  { destruct (Z.ltb_spec 0 k) as [|Hk]; [assumption|exfalso].
    assert (2 ^ k <= 1).
    { destruct (Z.eq_dec k 0) as [->|]; [simpl; lia|].
      rewrite Z.pow_neg_r; lia. }
    lia. }
  set (d := Zpos (digits2_pos m)) in *.
  assert (0 < d) by (unfold d; lia).
  destruct (Z.lt_trichotomy d k) as [H1|[H1|H1]]; [exfalso|assumption|exfalso].
  - assert (2 ^ d <= 2 ^ (k - 1)) by (apply Z.pow_le_mono_r; lia). lia.
  - assert (2 ^ k <= 2 ^ (d - 1)) by (apply Z.pow_le_mono_r; lia). lia.
Qed.

Lemma shr_1_double (q : Z) :
  0 <= q ->
  shr_1 (Build_shr_record (2 * q) false false) = Build_shr_record q false false.
Proof. destruct q; intros; try lia; reflexivity. Qed.

Lemma iter_shr_exact (p : positive) :
  forall q, 0 <= q ->
            iter_pos shr_1 p (Build_shr_record (q * 2 ^ Zpos p) false false)
            = Build_shr_record q false false.
Proof.
  induction p as [p IH|p IH|]; intros q Hq; cbn [iter_pos].
  - replace (q * 2 ^ Zpos p~1) with (2 * ((q * 2 ^ Zpos p) * 2 ^ Zpos p)).
    + rewrite shr_1_double, IH, IH; auto.
      * apply Z.mul_nonneg_nonneg; [assumption|apply Z.pow_nonneg; lia].
      * apply Z.mul_nonneg_nonneg; [|apply Z.pow_nonneg; lia].
        apply Z.mul_nonneg_nonneg; [assumption|apply Z.pow_nonneg; lia].
    + replace (Zpos p~1) with (Zpos p + Zpos p + 1) by lia.
      rewrite !Z.pow_add_r by lia. change (2 ^ 1) with 2. ring.
  - replace (q * 2 ^ Zpos p~0) with ((q * 2 ^ Zpos p) * 2 ^ Zpos p).
    + rewrite IH, IH; auto.
      apply Z.mul_nonneg_nonneg; [assumption|apply Z.pow_nonneg; lia].
    + replace (Zpos p~0) with (Zpos p + Zpos p) by lia.
      rewrite !Z.pow_add_r by lia. ring.
  - change (2 ^ 1) with 2. rewrite Z.mul_comm. now apply shr_1_double.
Qed.

(** Rounding a mantissa whose low bits, below the exponent of its binade,
    are all zero loses nothing. *)
Lemma binary_round_aux_exact (s : bool) (m : positive) (e : Z) :
  let f := fexp prec emax (Zpos (digits2_pos m) + e) in
  Zpos (digits2_pos m) + e <= emax ->
  e <= f ->
  (2 ^ (f - e) | Zpos m) ->
  exists m',
    binary_round_aux prec emax s (Zpos m) e loc_Exact = S754_finite s m' f
    /\ Zpos m = Zpos m' * 2 ^ (f - e).
Proof.
  intros f Hmax Hef [q Hq].
  assert (Hfd : fexp prec emax (Zpos (digits2_pos m) + e) = f) by reflexivity.
  assert (Hle : f <= emax - prec).
  { unfold f, fexp, SpecFloat.emin, emax, prec in *. lia. }
  clearbody f.
  assert (Hp : 0 < 2 ^ (f - e)) by (apply Z.pow_pos_nonneg; lia).
  assert (Hq0 : 0 < q) by nia.
  destruct q as [|m'|]; try lia.
  assert (Hd : Zpos (digits2_pos m') = Zpos (digits2_pos m) - (f - e)).
  { apply digits2_pos_unique.
    pose proof (digits2_pos_bounds m) as [L U].
    assert (E1 : 2 ^ Zpos (digits2_pos m)
                 = 2 ^ (Zpos (digits2_pos m) - (f - e)) * 2 ^ (f - e)).
    { rewrite <- Z.pow_add_r; [f_equal; lia| |lia].
      destruct (Z.le_gt_cases 0 (Zpos (digits2_pos m) - (f - e))) as [|G];
        [assumption|exfalso].
      assert (2 ^ Zpos (digits2_pos m) <= 2 ^ (f - e))
        by (apply Z.pow_le_mono_r; lia).
      nia. }
    split; [|nia].
    destruct (Z.le_gt_cases 0 (Zpos (digits2_pos m) - (f - e) - 1)) as [G|G].
    - assert (E2 : 2 ^ (Zpos (digits2_pos m) - 1)
                   = 2 ^ (Zpos (digits2_pos m) - (f - e) - 1) * 2 ^ (f - e)).
      { rewrite <- Z.pow_add_r; [f_equal; lia|lia|lia]. }
      nia.
    - rewrite Z.pow_neg_r by lia. lia. }
  exists m'. split; [|lia].
  assert (Hf : fexp prec emax (Zpos (digits2_pos m') + f) = f).
  { rewrite Hd, <- Hfd. f_equal. lia. }
  unfold binary_round_aux, shr_fexp.
  cbn [Zdigits2 shr_record_of_loc]. rewrite Hfd.
  unfold shr at 1.
  destruct (f - e) as [|p|p] eqn:E; try lia.
  - assert (m' = m) by (rewrite Z.pow_0_r in Hq; lia). subst m'.
    assert (e = f) by lia. subst e.
    cbn [shr_m loc_of_shr_record round_nearest_even Zdigits2].
    rewrite Hfd, Z.sub_diag. cbn [shr shr_record_of_loc shr_m].
    apply Z.leb_le in Hle. now rewrite Hle.
  - rewrite Hq, iter_shr_exact by lia.
    cbn [shr_m loc_of_shr_record round_nearest_even Zdigits2].
    replace (e + Zpos p) with f by lia.
    rewrite Hf, Z.sub_diag. cbn [shr shr_record_of_loc shr_m].
    apply Z.leb_le in Hle. now rewrite Hle.
Qed.

Lemma binary_round_exact (s : bool) (m : positive) (e : Z) :
  emin <= e ->
  Zpos (digits2_pos m) + e <= emax ->
  (2 ^ (fexp prec emax (Zpos (digits2_pos m) + e) - emin)
   | Zpos m * 2 ^ (e - emin)) ->
  exists m' e',
    binary_round prec emax s m e = S754_finite s m' e'
    /\ Zpos m' * 2 ^ (e' - emin) = Zpos m * 2 ^ (e - emin).
Proof.
  intros He Hmax Hdiv.
  assert (Hf : emin <= fexp prec emax (Zpos (digits2_pos m) + e))
    by (unfold fexp; lia).
  unfold binary_round, shl_align.
  destruct (fexp prec emax (Zpos (digits2_pos m) + e) - e) as [|p|p] eqn:E.
  - destruct (binary_round_aux_exact s m e) as (m' & R & Q);
      [lia|lia|rewrite E; exists (Zpos m); simpl; lia|].
    exists m', (fexp prec emax (Zpos (digits2_pos m) + e)).
    split; [exact R|].
    rewrite E, Z.pow_0_r in Q.
    replace (fexp prec emax (Zpos (digits2_pos m) + e)) with e by lia.
    lia.
  - destruct (binary_round_aux_exact s m e) as (m' & R & Q); [lia|lia| |].
    + rewrite E. destruct Hdiv as [q Hq]. exists q.
      replace (fexp prec emax (Zpos (digits2_pos m) + e) - emin)
        with (Zpos p + (e - emin)) in Hq by lia.
      rewrite Z.pow_add_r, Z.mul_assoc in Hq by lia.
      apply Z.mul_cancel_r in Hq; [exact Hq|].
      apply Z.pow_nonzero; lia.
    + exists m', (fexp prec emax (Zpos (digits2_pos m) + e)).
      split; [exact R|].
      rewrite Q, E.
      replace (fexp prec emax (Zpos (digits2_pos m) + e) - emin)
        with (Zpos p + (e - emin)) by lia.
      rewrite Z.pow_add_r by lia. ring.
  - set (f := fexp prec emax (Zpos (digits2_pos m) + e)) in *.
    assert (Hz : Zpos (Pos.iter xO m p) = Zpos m * 2 ^ Zpos p)
      by apply pos_iter_xO.
    assert (Hd : Zpos (digits2_pos (Pos.iter xO m p))
                 = Zpos (digits2_pos m) + Zpos p).
    { apply digits2_pos_unique. rewrite Hz.
      pose proof (digits2_pos_bounds m) as [L U].
      replace (Zpos (digits2_pos m) + Zpos p - 1)
        with (Zpos (digits2_pos m) - 1 + Zpos p) by lia.
      rewrite !Z.pow_add_r by lia.
      assert (0 < 2 ^ Zpos p) by (apply Z.pow_pos_nonneg; lia).
      nia. }
    assert (Hf' : fexp prec emax (Zpos (digits2_pos (Pos.iter xO m p)) + f)
                  = f).
    { rewrite Hd. unfold f. f_equal. lia. }
    destruct (binary_round_aux_exact s (Pos.iter xO m p) f) as (m' & R & Q).
    + rewrite Hd. lia.
    + rewrite Hf'. lia.
    + rewrite Hf', Z.sub_diag. apply Z.divide_1_l.
    + rewrite Hf' in R, Q. rewrite Z.sub_diag, Z.pow_0_r in Q.
      exists m', f. split; [exact R|].
      replace (Zpos m') with (Zpos m * 2 ^ Zpos p) by lia.
      replace (e - emin) with (Zpos p + (f - emin)) by lia.
      rewrite Z.pow_add_r by lia. ring.
Qed.

(** A value [N * 2^u] with [|N| < 2^53] and [u] an exponent of the format is
    a number: normalising it is exact. *)
Lemma binary_normalize_exact (M e u N : Z) :
  emin <= e -> emin <= u -> u <= emax - prec ->
  M * 2 ^ (e - emin) = N * 2 ^ (u - emin) ->
  Z.abs N < 2 ^ prec ->
  SFscaled (binary_normalize prec emax M e false) = M * 2 ^ (e - emin)
  /\ match binary_normalize prec emax M e false with
     | S754_zero _ | S754_finite _ _ _ => True
     | _ => False
     end.
Proof.
  intros He Hu Hu' HM HN.
  assert (Pe : 0 < 2 ^ (e - emin)) by (apply Z.pow_pos_nonneg; lia).
  assert (Pu : 0 < 2 ^ (u - emin)) by (apply Z.pow_pos_nonneg; lia).
  assert (Pp : 0 < prec) by reflexivity.
  assert (R : forall s m, Zpos m * 2 ^ (e - emin) = Z.abs N * 2 ^ (u - emin) ->
              exists m' e',
                binary_round prec emax s m e = S754_finite s m' e'
                /\ Zpos m' * 2 ^ (e' - emin) = Zpos m * 2 ^ (e - emin)).
  { intros s m Hm.
    pose proof (digits2_pos_bounds m) as [L U].
    assert (Hde : Zpos (digits2_pos m) + e <= prec + u).
    { assert (G : 2 ^ (Zpos (digits2_pos m) - 1 + (e - emin))
                  < 2 ^ (prec + (u - emin))).
      { rewrite !Z.pow_add_r by lia.
        apply Z.le_lt_trans with (Zpos m * 2 ^ (e - emin)).
        - apply Z.mul_le_mono_nonneg_r; lia.
        - rewrite Hm. apply Z.mul_lt_mono_pos_r; lia. }
      apply Z.pow_lt_mono_r_iff in G; lia. }
    apply binary_round_exact; [lia|lia|].
    rewrite Hm.
    assert (Hfu : fexp prec emax (Zpos (digits2_pos m) + e) <= u)
      by (unfold fexp; lia).
    assert (Hfe : emin <= fexp prec emax (Zpos (digits2_pos m) + e))
      by (unfold fexp; lia).
    exists (Z.abs N * 2 ^ (u - fexp prec emax (Zpos (digits2_pos m) + e))).
    rewrite <- Z.mul_assoc, <- Z.pow_add_r by lia.
    do 2 f_equal. lia. }
  destruct M as [|m|m]; cbn [binary_normalize].
  - split; [reflexivity|exact I].
  - destruct (R false m) as (m' & e' & -> & Q).
    { rewrite HM. f_equal. nia. }
    split; [|exact I]. cbn [SFscaled cond_Zopp]. exact Q.
  - destruct (R true m) as (m' & e' & -> & Q).
    { replace (Zpos m * 2 ^ (e - emin)) with (- (Zneg m * 2 ^ (e - emin)))
        by lia.
      rewrite HM. assert (N < 0) by nia. nia. }
    split; [|exact I]. cbn [SFscaled cond_Zopp]. rewrite Q. lia.
Qed.

Lemma SFsub_exact (x y : spec_float) (u N : Z) :
  valid_binary x = true -> valid_binary y = true ->
  match x with S754_zero _ | S754_finite _ _ _ => True | _ => False end ->
  match y with S754_zero _ | S754_finite _ _ _ => True | _ => False end ->
  emin <= u -> u <= emax - prec ->
  SFscaled x - SFscaled y = N * 2 ^ (u - emin) ->
  Z.abs N < 2 ^ prec ->
  SFscaled (SFsub prec emax x y) = SFscaled x - SFscaled y
  /\ match SFsub prec emax x y with
     | S754_zero _ | S754_finite _ _ _ => True
     | _ => False
     end.
Proof.
  intros Vx Vy Fx Fy Hu Hu' HN HB.
  destruct x as [sx| | |sx mx ex]; try contradiction;
    destruct y as [sy| | |sy my ey]; try contradiction.
  - destruct sx, sy; cbn; split; auto.
  - cbn [SFsub SFscaled]. split; [|exact I].
    destruct sy; cbn [negb cond_Zopp]; lia.
  - cbn [SFsub SFscaled]. split; [lia|exact I].
  - cbn [SFsub].
    destruct (finite_valid_bounds sx mx ex Vx) as (Ex & _).
    destruct (finite_valid_bounds sy my ey Vy) as (Ey & _).
    set (ez := Z.min ex ey).
    rewrite (shl_align_fst mx ex ez), (shl_align_fst my ey ez)
      by (unfold ez; lia).
    assert (E : (cond_Zopp sx (Zpos mx * 2 ^ (ex - ez))
                 - cond_Zopp sy (Zpos my * 2 ^ (ey - ez))) * 2 ^ (ez - emin)
                = SFscaled (S754_finite sx mx ex)
                  - SFscaled (S754_finite sy my ey)).
    { cbn [SFscaled].
      replace (ex - emin) with ((ex - ez) + (ez - emin)) by lia.
      replace (ey - emin) with ((ey - ez) + (ez - emin)) by lia.
      rewrite !Z.pow_add_r by (unfold ez; lia).
      destruct sx, sy; cbn [cond_Zopp]; ring. }
    rewrite <- E.
    apply (binary_normalize_exact _ ez u N); try (unfold ez; lia).
    rewrite E. exact HN.
Qed.

Lemma isFinite_SF (x : num) :
  isFinite x = match Prim2SF x with
               | S754_zero _ | S754_finite _ _ _ => true
               | _ => false
               end.
Proof.
  unfold isFinite. fold (isNaN x). rewrite isNaN_SF.
  unfold PrimFloat.is_infinity. rewrite eqb_spec, abs_spec.
  change (Prim2SF infinity) with (S754_infinity false).
  destruct (Prim2SF x) as [s|s| |s m e]; try reflexivity; now destruct s.
Qed.

Lemma rank_finite (x : num) : isFinite x = true -> rank x = scaled x.
Proof.
  rewrite isFinite_SF. unfold rank, scaled.
  destruct (Prim2SF x); try discriminate; reflexivity.
Qed.

Lemma isFinite_not_nan (x : num) : isFinite x = true -> isNaN x = false.
Proof.
  rewrite isFinite_SF, isNaN_SF. now destruct (Prim2SF x).
Qed.

Lemma is_count_spec (x : num) :
  is_count x = true ->
  isFinite x = true
  /\ exists n, 0 <= n < 2 ^ 53 /\ scaled x = n * 2 ^ 1074.
Proof.
  unfold is_count. rewrite !andb_true_iff.
  intros [[[F L] U] D]. split; [exact F|].
  apply Z.leb_le in L. apply Z.ltb_lt in U. apply Z.eqb_eq in D.
  exists (scaled x / 2 ^ 1074).
  assert (P : 0 < 2 ^ 1074) by (apply Z.pow_pos_nonneg; lia).
  assert (E : scaled x = scaled x / 2 ^ 1074 * 2 ^ 1074).
  { rewrite Z.mul_comm. apply Z.div_exact; [lia|exact D]. }
  split; [|exact E].
  change (2 ^ 1127) with (2 ^ 53 * 2 ^ 1074) in U.
  split; [apply Z.div_pos; lia|].
  apply Z.div_lt_upper_bound; lia.
Qed.

Lemma is_count_zero : is_count fzero = true.
Proof. reflexivity. Qed.

(** The difference of two counts is exact. *)
Lemma sub_counts (a b : num) :
  is_count a = true -> is_count b = true ->
  isFinite (PrimFloat.sub a b) = true
  /\ scaled (PrimFloat.sub a b) = scaled a - scaled b.
Proof.
  intros Ha Hb.
  destruct (is_count_spec a Ha) as (Fa & na & Ba & Ea).
  destruct (is_count_spec b Hb) as (Fb & nb & Bb & Eb).
  rewrite isFinite_SF in *. unfold scaled in *. rewrite sub_spec.
  unfold SF64sub.
  destruct (SFsub_exact (Prim2SF a) (Prim2SF b) 0 (na - nb)) as [E F].
  - apply Prim2SF_valid.
  - apply Prim2SF_valid.
  - destruct (Prim2SF a); try discriminate; exact I.
  - destruct (Prim2SF b); try discriminate; exact I.
  - unfold SpecFloat.emin, prec, emax. lia.
  - unfold prec, emax. lia.
  - rewrite Ea, Eb. change (2 ^ (0 - emin)) with (2 ^ 1074). ring.
  - change (2 ^ prec) with (2 ^ 53). lia.
  - split; [|exact E].
    destruct (SFsub prec emax (Prim2SF a) (Prim2SF b));
      try contradiction; reflexivity.
Qed.

(** On counts the floored difference is the exact [max(0, a - b)]. *)
Lemma floored_difference_counts (a b : num) :
  is_count a = true -> is_count b = true ->
  isFinite (Math_max fzero (PrimFloat.sub a b)) = true
  /\ scaled (Math_max fzero (PrimFloat.sub a b))
     = Z.max 0 (scaled a - scaled b).
Proof.
  intros Ha Hb. destruct (sub_counts a b Ha Hb) as [F E].
  destruct (Math_max_spec fzero (PrimFloat.sub a b) isNaN_zero
              (isFinite_not_nan _ F)) as (_ & R & C).
  assert (F' : isFinite (Math_max fzero (PrimFloat.sub a b)) = true).
  { destruct C as [->| ->]; [reflexivity|exact F]. }
  split; [exact F'|].
  rewrite <- (rank_finite _ F'), R, rank_zero, (rank_finite _ F), E.
  reflexivity.
Qed.

Lemma not_gt0_scaled (v : num) :
  isFinite v = true -> gt v fzero = false -> scaled v <= 0.
Proof.
  intros F G. unfold gt in G.
  rewrite (ltb_rank _ _ isNaN_zero (isFinite_not_nan _ F)) in G.
  rewrite rank_zero, (rank_finite _ F) in G.
  apply Z.ltb_ge in G. exact G.
Qed.

Local Close Scope Z_scope.

Unset Implicit Arguments.

(* ================================================================== *)
(** * Properties of strings *)
(* ================================================================== *)

Lemma length_sapp (a b : string) :
  String.length (a ++ b) = String.length a + String.length b.
Proof. induction a as [|c a IH]; cbn; [reflexivity|now rewrite IH]. Qed.

Lemma sapp_assoc (a b c : string) : (a ++ b) ++ c = a ++ (b ++ c).
Proof. induction a as [|x a IH]; cbn; [reflexivity|now rewrite IH]. Qed.

Lemma sapp_nil_r (a : string) : a ++ "" = a.
Proof. induction a as [|x a IH]; cbn; [reflexivity|now rewrite IH]. Qed.

Lemma stake_app (a b : string) :
  stake (String.length (a ++ b) - String.length b) (a ++ b) = a.
Proof.
  rewrite length_sapp.
  replace (String.length a + String.length b - String.length b)
    with (String.length a) by lia.
  induction a as [|x a IH]; cbn.
  - destruct b; reflexivity.
  - now rewrite IH.
Qed.

Lemma split_on_nonempty (sep : ascii) (a : string) : split_on sep a <> [].
Proof.
  destruct a as [|c a]; cbn; [discriminate|].
  destruct (Ascii.eqb c sep); [discriminate|].
  destruct (split_on sep a); discriminate.
Qed.

Lemma split_on_app (sep : ascii) (a b : string) :
  split_on sep (a ++ String sep b) = (split_on sep a ++ split_on sep b)%list.
Proof.
  induction a as [|c a IH]; cbn.
  - now rewrite Ascii.eqb_refl.
  - destruct (Ascii.eqb c sep); [now rewrite IH|].
    rewrite IH. pose proof (split_on_nonempty sep a) as Hne.
    destruct (split_on sep a); [contradiction|reflexivity].
Qed.

(* ================================================================== *)
(** * Properties of the matcher *)
(* ================================================================== *)

Section MatcherFacts.
Variable len0 : nat.

  (** A greedy star over a class eats the longest run of the class when the
      continuation accepts what follows the run. *)
Lemma star_class_run (p : ascii -> bool) (k : cont) (res : mresult)
        (rest : string) (cs : caps) :
    head_is p rest = false -> k rest cs = Some res ->
    forall (xs : string) (n : nat),
      all_chars p xs = true -> String.length xs < n ->
      star_loop (rmatch len0 (Chr p)) k n (xs ++ rest) cs = Some res.
  Proof.
    intros Hhead Hk. induction xs as [|c xs IH]; intros n Hall Hn.
    - destruct n as [|n]; [cbn in Hn; lia|]. cbn.
      destruct rest as [|d rest]; [exact Hk|].
      cbn in Hhead. now rewrite Hhead.
    - destruct n as [|n]; [cbn in Hn; lia|].
      cbn in Hall. apply andb_prop in Hall as [Hc Hall].
      cbn. rewrite Hc.
      assert (L : Nat.ltb (String.length (xs ++ rest))
                          (S (String.length (xs ++ rest))) = true)
        by (apply Nat.ltb_lt; lia).
      cbn in L. rewrite L. rewrite IH; [reflexivity|assumption|cbn in Hn; lia].
  Qed.

Lemma rmatch_star_class (p : ascii -> bool) (k : cont) (res : mresult)
        (xs rest : string) (cs : caps) :
    all_chars p xs = true -> head_is p rest = false ->
    k rest cs = Some res ->
    rmatch len0 (Star (Chr p)) (xs ++ rest) cs k = Some res.
  Proof.
    intros Hall Hhead Hk. cbn [rmatch].
    apply star_class_run; try assumption.
    rewrite length_sapp. lia.
  Qed.

Lemma rmatch_plus_class (p : ascii -> bool) (k : cont) (res : mresult)
        (c : ascii) (xs rest : string) (cs : caps) :
    p c = true -> all_chars p xs = true -> head_is p rest = false ->
    k rest cs = Some res ->
    rmatch len0 (Plus (Chr p)) (String c xs ++ rest) cs k = Some res.
  Proof.
    intros Hc Hall Hhead Hk. unfold Plus. cbn [rmatch append]. rewrite Hc.
    now apply rmatch_star_class.
  Qed.

  (** The matcher only succeeds on a pair the pattern matches, and then the
      continuation accepted what was left. *)
Lemma star_loop_sound (a : regex)
        (IH : forall s cs k res,
            rmatch len0 a s cs k = Some res ->
            exists s' cs', matches len0 a s s' /\ k s' cs' = Some res)
        (k : cont) (res : mresult) :
    forall n s cs,
      star_loop (rmatch len0 a) k n s cs = Some res ->
      exists s' cs', matches len0 (Star a) s s' /\ k s' cs' = Some res.
  Proof.
    induction n as [|n IHn]; intros s cs H; cbn [star_loop] in H.
    - exists s, cs. split; [constructor|exact H].
    - destruct (rmatch len0 a s cs _) as [x|] eqn:E.
      + injection H as ->. apply IH in E as (s1 & cs1 & Hm & Hk).
        revert Hk.
        destruct (Nat.ltb (String.length s1) (String.length s)) eqn:L;
          intros Hk; [|discriminate].
        apply IHn in Hk as (s2 & cs2 & Hm2 & Hk2).
        exists s2, cs2. split; [|exact Hk2].
        eapply m_star_cons; eauto. now apply Nat.ltb_lt.
      + exists s, cs. split; [constructor|exact H].
  Qed.

Lemma rmatch_sound (r : regex) :
    forall s cs k res,
      rmatch len0 r s cs k = Some res ->
      exists s' cs', matches len0 r s s' /\ k s' cs' = Some res.
  Proof.
    induction r as [|p|a IHa b IHb|a IHa b IHb|a IHa|i a IHa| |];
      intros s cs k res H; cbn [rmatch] in H.
    - exists s, cs. split; [constructor|exact H].
    - destruct s as [|c s]; [discriminate|].
      destruct (p c) eqn:Hp; [|discriminate].
      exists s, cs. split; [now constructor|exact H].
    - apply IHa in H as (s1 & cs1 & Hm1 & H).
      apply IHb in H as (s2 & cs2 & Hm2 & H).
      exists s2, cs2. split; [econstructor; eauto|exact H].
    - destruct (rmatch len0 a s cs k) as [x|] eqn:E.
      + injection H as ->. apply IHa in E as (s1 & cs1 & Hm & Hk).
        exists s1, cs1. split; [now apply m_alt_l|exact Hk].
      + apply IHb in H as (s1 & cs1 & Hm & Hk).
        exists s1, cs1. split; [now apply m_alt_r|exact Hk].
    - eapply star_loop_sound; eauto.
    - apply IHa in H as (s1 & cs1 & Hm & Hk).
      eexists _, _. split; [constructor; exact Hm|exact Hk].
    - destruct (Nat.eqb (String.length s) len0) eqn:E; [|discriminate].
      exists s, cs. split; [constructor; now apply Nat.eqb_eq|exact H].
    - destruct s; [|discriminate].
      exists "", cs. split; [constructor|exact H].
  Qed.

  (** What is matched is a prefix of the subject. *)
Lemma matches_suffix (r : regex) (s s' : string) :
    matches len0 r s s' -> exists pre, s = pre ++ s'.
  Proof.
    induction 1.
    - now exists "".
    - now exists (str1 c).
    - destruct IHmatches1 as [p1 ->]. destruct IHmatches2 as [p2 ->].
      exists (p1 ++ p2). now rewrite sapp_assoc.
    - assumption.
    - assumption.
    - now exists "".
    - destruct IHmatches1 as [p1 ->]. destruct IHmatches2 as [p2 ->].
      exists (p1 ++ p2). now rewrite sapp_assoc.
    - assumption.
    - now exists "".
    - now exists "".
  Qed.

Lemma matches_length (r : regex) (s s' : string) :
    matches len0 r s s' -> String.length s' <= String.length s.
  Proof.
    intros H. apply matches_suffix in H as [pre ->].
    rewrite length_sapp. lia.
  Qed.

  (** A star over a class matches a run of the class. *)
Lemma matches_star_class (p : ascii -> bool) (s s' : string) :
    matches len0 (Star (Chr p)) s s' ->
    exists pre, s = pre ++ s' /\ all_chars p pre = true.
  Proof.
    intros H. remember (Star (Chr p)) as r eqn:Er.
    induction H; try discriminate.
    - now exists "".
    - injection Er as ->. specialize (IHmatches2 eq_refl).
      destruct IHmatches2 as (pre & -> & Hall).
      inversion H as [|q c s0 Hc| | | | | | | |]; subst.
      exists (String c pre). split; [reflexivity|].
      cbn. now rewrite Hc, Hall.
  Qed.

Lemma search_sound (r : regex) (s start rest : string) (cs : caps) :
    search len0 r s = Some (start, (rest, cs)) ->
    matches len0 r start rest /\ String.length start <= String.length s.
  Proof.
    induction s as [|c s IH]; cbn [search].
    - destruct (rmatch len0 r "" [] _) as [res|] eqn:E; [|discriminate].
      intros H. injection H as <- ->.
      apply rmatch_sound in E as (s1 & cs1 & Hm & Hk).
      injection Hk as -> ->. split; [assumption|lia].
    - destruct (rmatch len0 r (String c s) [] _) as [res|] eqn:E.
      + intros H. injection H as <- ->.
        apply rmatch_sound in E as (s1 & cs1 & Hm & Hk).
        injection Hk as -> ->. split; [assumption|lia].
      + intros H. apply IH in H as [Hm Hl]. split; [assumption|cbn; lia].
  Qed.

  (** The [exec] loop ends for every pattern that cannot match the empty
      string. *)
Lemma exec_loop_total (r : regex)
        (Hpos : forall s s', matches len0 r s s' ->
                             String.length s' < String.length s) :
    forall fuel s, String.length s < fuel ->
                   exists l, exec_loop len0 fuel r s = Some l.
  Proof.
    induction fuel as [|f IH]; intros s Hf; [lia|].
    cbn [exec_loop].
    destruct (search len0 r s) as [[start [rest cs]]|] eqn:E.
    - apply search_sound in E as [Hm Hl]. apply Hpos in Hm.
      destruct (IH rest) as [l ->]; [lia|]. now eexists.
    - now eexists.
  Qed.
End MatcherFacts.

(** Inversion of [matches] along the fixed part of a pattern. *)
Ltac inv_matches :=
  repeat match goal with
    | H : matches _ (Seq _ _) _ _ |- _ => inversion H; subst; clear H
    | H : matches _ (Group _ _) _ _ |- _ => inversion H; subst; clear H
    | H : matches _ (Chr _) _ _ |- _ => inversion H; subst; clear H
    | H : matches _ Emp _ _ |- _ => inversion H; subst; clear H
    | H : matches _ Bol _ _ |- _ => inversion H; subst; clear H
    | H : matches _ Eol _ _ |- _ => inversion H; subst; clear H
    end.

Lemma labelRegex_consumes (len0 : nat) (s s' : string) :
  matches len0 labelRegex s s' -> String.length s' < String.length s.
Proof.
  unfold labelRegex. cbn [seqs]. intros H. inv_matches.
  repeat match goal with
    | H : matches _ (Star _) _ _ |- _ => apply matches_length in H
    end.
  cbn [String.length] in *. lia.
Qed.

Lemma exec_all_labels_total (s : string) :
  exists l, exec_all labelRegex s = Some l.
Proof.
  unfold exec_all. apply exec_loop_total; [|lia].
  intros. eapply labelRegex_consumes; eauto.
Qed.

Lemma parse_labels_total (o : option string) :
  exists l, parse_labels o = Some l.
Proof.
  destruct o as [s|]; unfold parse_labels; [|now eexists].
  destruct (is_empty s); [now eexists|].
  destruct (exec_all_labels_total s) as [l ->]. now eexists.
Qed.

Lemma data_line_total (t : string) (m : Metrics) :
  exists m', data_line t m = Some m'.
Proof.
  unfold data_line.
  destruct (regex_match dataRegex t) as [cs|]; [|now eexists].
  destruct (get_cap 1 cs); [|now eexists].
  destruct (get_cap 3 cs); [|now eexists].
  destruct (parse_labels_total (get_cap 2 cs)) as [l ->]. now eexists.
Qed.

Lemma parse_lines_total (lines : list string) :
  forall m, exists m', parse_lines lines m = Some m'.
Proof.
  induction lines as [|l lines IH]; intros m; cbn [parse_lines].
  - now eexists.
  - destruct (is_empty (trim l) || startsWith "#" (trim l)); [apply IH|].
    destruct (data_line_total (trim l) m) as [m' ->]. apply IH.
Qed.

Lemma meta_line_total (t : string) (st : Metrics * Metadata) :
  exists st', meta_line t st = Some st'.
Proof.
  unfold meta_line. destruct st as [m md].
  destruct (regex_match helpRegex t) as [cs|].
  { destruct (get_cap 1 cs); [|now eexists].
    destruct (get_cap 2 cs); now eexists. }
  destruct (regex_match typeRegex t) as [cs|].
  { destruct (get_cap 1 cs); [|now eexists].
    destruct (get_cap 2 cs); now eexists. }
  destruct (startsWith "#" t); [now eexists|].
  destruct (data_line_total t m) as [m' ->]. now eexists.
Qed.

Lemma parse_lines_meta_total (lines : list string) :
  forall st, exists st', parse_lines_meta lines st = Some st'.
Proof.
  induction lines as [|l lines IH]; intros st; cbn [parse_lines_meta].
  - now eexists.
  - destruct (is_empty (trim l)); [apply IH|].
    destruct (meta_line_total (trim l) st) as [st' ->]. apply IH.
Qed.

(** ** Matching a data line with a label block *)

Lemma rmatch_alt_left (len0 : nat) (a b : regex) (s : string) (cs : caps)
      (k : cont) (res : mresult) :
  rmatch len0 a s cs k = Some res -> rmatch len0 (Alt a b) s cs k = Some res.
Proof. intros H. cbn [rmatch]. now rewrite H. Qed.

Lemma rmatch_alt_right (len0 : nat) (a b : regex) (s : string) (cs : caps)
      (k : cont) (res : option mresult) :
  rmatch len0 a s cs k = None -> rmatch len0 b s cs k = res ->
  rmatch len0 (Alt a b) s cs k = res.
Proof. intros H1 H2. cbn [rmatch]. now rewrite H1. Qed.

Lemma value_char_not_space (c : ascii) : value_char c = true -> is_space c = false.
Proof.
  destruct c as [b0 b1 b2 b3 b4 b5 b6 b7].
  destruct b0, b1, b2, b3, b4, b5, b6, b7; vm_compute; congruence.
Qed.

Lemma head_is_nonempty_all (p q : ascii -> bool) (s : string) :
  (forall c, p c = true -> q c = false) ->
  nonempty_all p s = true -> head_is q s = false.
Proof.
  intros Hpq. unfold nonempty_all. destruct s as [|c s]; [discriminate|].
  cbn. intros H. apply andb_prop in H as [Hc _]. now apply Hpq.
Qed.

Section CaptureLemmas.
Variable len0 : nat.

Lemma rmatch_chr (p : ascii -> bool) (c : ascii) (s : string) (cs : caps)
        (k : cont) :
    p c = true -> rmatch len0 (Chr p) (String c s) cs k = k s cs.
  Proof. intros H. cbn [rmatch]. now rewrite H. Qed.

Lemma rmatch_lit1 (c : ascii) (s : string) (cs : caps) (k : cont) :
    rmatch len0 (Lit (str1 c)) (String c s) cs k = k s cs.
  Proof.
    cbn [Lit str1 rmatch]. unfold is_char. now rewrite Ascii.eqb_refl.
  Qed.

Lemma rmatch_group_star (i : nat) (p : ascii -> bool) (k : cont)
        (res : mresult) (xs rest : string) (cs : caps) :
    all_chars p xs = true -> head_is p rest = false ->
    k rest ((i, xs) :: cs) = Some res ->
    rmatch len0 (Group i (Star (Chr p))) (xs ++ rest) cs k = Some res.
  Proof.
    intros Hall Hhead Hk. cbn [rmatch].
    apply (star_class_run len0); try assumption.
    - now rewrite stake_app.
    - rewrite length_sapp. lia.
  Qed.

Lemma rmatch_group_plus (i : nat) (p : ascii -> bool) (k : cont)
        (res : mresult) (xs rest : string) (cs : caps) :
    nonempty_all p xs = true -> head_is p rest = false ->
    k rest ((i, xs) :: cs) = Some res ->
    rmatch len0 (Group i (Plus (Chr p))) (xs ++ rest) cs k = Some res.
  Proof.
    intros Hall Hhead Hk. destruct xs as [|c xs]; [discriminate|].
    unfold nonempty_all in Hall. cbn [is_empty negb andb all_chars] in Hall.
    apply andb_prop in Hall as [Hc Hall].
    unfold Plus. cbn [rmatch append]. rewrite Hc.
    apply (star_class_run len0); try assumption.
    - change (String c (xs ++ rest)) with (String c xs ++ rest).
      now rewrite stake_app.
    - rewrite length_sapp. lia.
  Qed.

Lemma rmatch_plus (p : ascii -> bool) (k : cont)
        (res : mresult) (xs rest : string) (cs : caps) :
    nonempty_all p xs = true -> head_is p rest = false ->
    k rest cs = Some res ->
    rmatch len0 (Plus (Chr p)) (xs ++ rest) cs k = Some res.
  Proof.
    intros Hall Hhead Hk. destruct xs as [|c xs]; [discriminate|].
    unfold nonempty_all in Hall. cbn [is_empty negb andb all_chars] in Hall.
    apply andb_prop in Hall as [Hc Hall].
    now apply rmatch_plus_class.
  Qed.

Lemma rmatch_group_name (i : nat) (k : cont) (res : mresult)
        (name rest : string) (cs : caps) :
    valid_name name = true -> head_is name_char rest = false ->
    k rest ((i, name) :: cs) = Some res ->
    rmatch len0 (Group i metric_name_re) (name ++ rest) cs k = Some res.
  Proof.
    intros Hname Hhead Hk. destruct name as [|c name]; [discriminate|].
    cbn [valid_name] in Hname. apply andb_prop in Hname as [Hc Hall].
    unfold metric_name_re. cbn [rmatch append]. rewrite Hc.
    apply (star_class_run len0); try assumption.
    - change (String c (name ++ rest)) with (String c name ++ rest).
      now rewrite stake_app.
    - rewrite length_sapp. lia.
  Qed.
End CaptureLemmas.

Lemma regex_match_head (r : regex) (s rest : string) (cs : caps) :
  rmatch (String.length s) r s [] (fun s' cs' => Some (s', cs'))
  = Some (rest, cs) ->
  regex_match r s = Some cs.
Proof.
  intros E. unfold regex_match. destruct s; cbn [search]; now rewrite E.
Qed.

Lemma data_line_with_block (name content ws tok : string) :
  valid_name name = true ->
  all_chars not_rbrace content = true ->
  nonempty_all is_space ws = true ->
  nonempty_all value_char tok = true ->
  regex_match dataRegex (name ++ "{" ++ content ++ "}" ++ ws ++ tok)
  = Some [(3, tok); (2, content); (1, name)].
Proof.
  intros Hname Hcont Hws Htok.
  apply regex_match_head with (rest := "").
  set (len := String.length _).
  unfold dataRegex. cbn [seqs].
  change (rmatch len (Seq Bol ?r) ?s ?cs ?k)
    with (if Nat.eqb (String.length s) len then rmatch len r s cs k else None).
  unfold len. rewrite Nat.eqb_refl. fold len.
  change (rmatch len (Seq ?a ?b) ?s ?cs ?k)
    with (rmatch len a s cs (fun s' cs' => rmatch len b s' cs' k)).
  apply rmatch_group_name; [exact Hname|reflexivity|].
  change (rmatch len (Seq ?a ?b) ?s ?cs ?k)
    with (rmatch len a s cs (fun s' cs' => rmatch len b s' cs' k)).
  unfold Opt. apply rmatch_alt_left. cbn [seqs].
  change (rmatch len (Seq ?a ?b) ?s ?cs ?k)
    with (rmatch len a s cs (fun s' cs' => rmatch len b s' cs' k)).
  change ("{" ++ content ++ "}" ++ ws ++ tok)
    with (String "{" (content ++ "}" ++ ws ++ tok)).
  rewrite (rmatch_lit1 len "{").
  change (rmatch len (Seq ?a ?b) ?s ?cs ?k)
    with (rmatch len a s cs (fun s' cs' => rmatch len b s' cs' k)).
  apply rmatch_group_star; [exact Hcont|reflexivity|].
  change ("}" ++ ws ++ tok) with (String "}" (ws ++ tok)).
  rewrite (rmatch_lit1 len "}").
  change (rmatch len (Seq ?a ?b) ?s ?cs ?k)
    with (rmatch len a s cs (fun s' cs' => rmatch len b s' cs' k)).
  apply rmatch_plus;
    [exact Hws|exact (head_is_nonempty_all _ _ _ value_char_not_space Htok)|].
  change (rmatch len (Seq ?a ?b) ?s ?cs ?k)
    with (rmatch len a s cs (fun s' cs' => rmatch len b s' cs' k)).
  rewrite <- (sapp_nil_r tok) at 1.
  apply rmatch_group_plus; [exact Htok|reflexivity|].
  reflexivity.
Qed.

(** ** Lines the data pattern rejects *)

Lemma run_split_unique (p : ascii -> bool) :
  forall (a b : string) (x y : ascii) (s t : string),
    all_chars p a = true -> all_chars p b = true ->
    p x = false -> p y = false ->
    a ++ String x s = b ++ String y t ->
    a = b /\ x = y /\ s = t.
Proof.
  induction a as [|c a IH]; intros b x y s t Ha Hb Hx Hy E.
  - destruct b as [|d b]; cbn in E.
    + injection E as -> ->. auto.
    + injection E as -> _. cbn in Hb. rewrite Hx in Hb. discriminate.
  - destruct b as [|d b]; cbn in E.
    + injection E as -> _. cbn in Ha. rewrite Hy in Ha. discriminate.
    + injection E as -> E. cbn in Ha, Hb.
      apply andb_prop in Ha as [_ Ha]. apply andb_prop in Hb as [_ Hb].
      destruct (IH b x y s t Ha Hb Hx Hy E) as (-> & -> & ->). auto.
Qed.

Lemma all_chars_app (p : ascii -> bool) (a b : string) :
  all_chars p (a ++ b) = all_chars p a && all_chars p b.
Proof.
  induction a as [|c a IH]; cbn; [reflexivity|].
  now rewrite IH, andb_assoc.
Qed.

Lemma all_chars_weaken (p q : ascii -> bool) (s : string) :
  (forall c, p c = true -> q c = true) ->
  all_chars p s = true -> all_chars q s = true.
Proof.
  intros H. induction s as [|c s IH]; cbn; [reflexivity|].
  intros Hs. apply andb_prop in Hs as [Hc Hs].
  now rewrite (H _ Hc), IH.
Qed.

Lemma all_chars_has_char (p : ascii -> bool) (c : ascii) (s : string) :
  all_chars p s = true -> has_char c s = true -> p c = true.
Proof.
  induction s as [|d s IH]; cbn; [discriminate|].
  intros Hs Hc. apply andb_prop in Hs as [Hd Hs].
  apply orb_prop in Hc as [Hc|Hc]; [|now apply IH].
  apply Ascii.eqb_eq in Hc. now subst.
Qed.

Lemma search_suffix (len0 : nat) (r : regex) (s start rest : string)
      (cs : caps) :
  search len0 r s = Some (start, (rest, cs)) -> exists pre, s = pre ++ start.
Proof.
  induction s as [|c s IH]; cbn [search].
  - destruct (rmatch len0 r "" [] _); [|discriminate].
    intros H. injection H as <- _. now exists "".
  - destruct (rmatch len0 r (String c s) [] _).
    + intros H. injection H as <- _. now exists "".
    + intros H. apply IH in H as [pre ->]. now exists (String c pre).
Qed.


Lemma digit_is_value_char (c : ascii) : is_digit c = true -> value_char c = true.
Proof. intros H. unfold value_char. now rewrite H. Qed.

(** A pattern whose classes all lie within [q] only consumes characters of
    [q]. *)
Lemma matches_within (len0 : nat) (q : ascii -> bool) (r : regex)
      (s s' : string) :
  classes_within q r -> matches len0 r s s' ->
  exists pre, s = pre ++ s' /\ all_chars q pre = true.
Proof.
  intros Hr Hm. induction Hm; cbn [classes_within] in Hr.
  - now exists "".
  - exists (str1 c). split; [reflexivity|]. cbn. now rewrite (Hr c H).
  - destruct Hr as [Ha Hb].
    destruct (IHHm1 Ha) as (p1 & -> & H1).
    destruct (IHHm2 Hb) as (p2 & -> & H2).
    exists (p1 ++ p2). split; [now rewrite sapp_assoc|].
    now rewrite all_chars_app, H1, H2.
  - apply IHHm. tauto.
  - apply IHHm. tauto.
  - now exists "".
  - destruct (IHHm1 Hr) as (p1 & -> & H1).
    destruct (IHHm2 Hr) as (p2 & -> & H2).
    exists (p1 ++ p2). split; [now rewrite sapp_assoc|].
    now rewrite all_chars_app, H1, H2.
  - now apply IHHm.
  - now exists "".
  - now exists "".
Qed.

(** What follows the label block is made of white space and value
    characters only. *)
Lemma data_tail_chars (len0 : nat) (s : string) :
  matches len0 data_tail s "" ->
  all_chars (fun c => is_space c || value_char c) s = true.
Proof.
  intros H.
  apply (matches_within len0 (fun c => is_space c || value_char c)) in H.
  - destruct H as (pre & -> & H). now rewrite sapp_nil_r.
  - unfold data_tail, Plus, Opt. cbn [seqs classes_within].
    repeat split; trivial; intros c Hc; rewrite ?Hc, ?orb_true_r;
      try reflexivity;
      rewrite (digit_is_value_char c Hc); now rewrite orb_true_r.
Qed.

(** A line whose label block is closed before a double quote is rejected:
    the block ends at the first closing brace, and what follows must be white
    space and a value. *)
Lemma data_line_brace_then_quote (name content rest : string) :
  valid_name name = true ->
  all_chars not_rbrace content = true ->
  has_char dquote rest = true ->
  regex_match dataRegex (name ++ "{" ++ content ++ "}" ++ rest) = None.
Proof.
  intros Hname Hcont Hq.
  set (line := name ++ "{" ++ content ++ "}" ++ rest).
  destruct (regex_match dataRegex line) as [cs|] eqn:E; [exfalso|reflexivity].
  unfold regex_match in E.
  destruct (search _ dataRegex line) as [[start [left cs']]|] eqn:S;
    [|discriminate].
  destruct (search_suffix _ _ _ _ _ _ S) as [pre Epre].
  apply search_sound in S as [Hm _].
  change dataRegex
    with (Seq Bol (Seq (Group 1 metric_name_re)
            (Seq (Opt (seqs [Lit "{"; Group 2 (Star (Chr not_rbrace)); Lit "}"]))
               data_tail))) in Hm.
  inversion Hm as [| |a b s0 s1 s2 Hbol Hrest| | | | | | |]; subst a b s0 s2.
  inversion Hbol as [| | | | | | | |s0 Hlen|]; subst s0 s1. clear Hbol.
  assert (pre = "").
  { rewrite Epre, length_sapp in Hlen. destruct pre; [reflexivity|].
    cbn in Hlen. lia. }
  subst pre. cbn [append] in Epre. subst start. clear Hlen Hm.
  inversion Hrest as [| |a b s0 s1 s2 Hn Hrest2| | | | | | |]; subst a b s0 s2.
  clear Hrest.
  inversion Hrest2 as [| |a b s0 s3 s2 Hblk Htail| | | | | | |];
    subst a b s0 s2. clear Hrest2.
  assert (left = "").
  { unfold data_tail in Htail. cbn [seqs] in Htail. inv_matches. reflexivity. }
  subst left.
  assert (Hsp : head_is is_space s3 = true).
  { unfold data_tail, Plus in Htail. cbn [seqs] in Htail. inv_matches.
    assumption. }
  apply data_tail_chars in Htail.
  unfold metric_name_re in Hn. inv_matches.
  match goal with
  | H : matches _ (Star (Chr name_char)) _ _ |- _ =>
      apply matches_star_class in H as (n1 & En & Hn1)
  end.
  destruct name as [|c0 name']; [discriminate|].
  cbn [valid_name] in Hname. apply andb_prop in Hname as [_ Hname'].
  unfold line in *. cbn [append] in *.
  match goal with
  | H : String _ _ = String _ _ |- _ => injection H as -> El
  end.
  subst.
  unfold Opt in Hblk.
  inversion Hblk as [| | |a b s0 s2 Hl|a b s0 s2 Hr| | | | |]; subst.
  - cbn [seqs Lit] in Hl. inv_matches.
    match goal with
    | H : matches _ (Star (Chr not_rbrace)) _ _ |- _ =>
        apply matches_star_class in H as (blk & Ec & Hblk1)
    end.
    subst.
    repeat match goal with
      | H : is_char _ _ = true |- _ =>
          apply Ascii.eqb_eq in H; subst
      end.
    apply run_split_unique with (p := name_char) in El;
      [|assumption|assumption|reflexivity|reflexivity].
    destruct El as (_ & _ & El).
    apply run_split_unique with (p := not_rbrace) in El;
      [|assumption|assumption|reflexivity|reflexivity].
    destruct El as (_ & _ & ->).
    pose proof (all_chars_has_char _ _ _ Htail Hq) as Hbad.
    discriminate Hbad.
  - inv_matches.
    destruct s3 as [|w s3]; [discriminate|]. cbn [head_is] in Hsp.
    apply run_split_unique with (p := name_char) in El;
      [|assumption|assumption| |reflexivity].
    + destruct El as (_ & -> & _). discriminate Hsp.
    + revert Hsp. clear. destruct w as [b0 b1 b2 b3 b4 b5 b6 b7].
      destruct b0, b1, b2, b3, b4, b5, b6, b7; vm_compute; congruence.
Qed.

(* ================================================================== *)
(** * Properties of the parsers *)
(* ================================================================== *)

Lemma split_on_one_line (s : string) : one_line s -> split_on LF s = [s].
Proof.
  unfold one_line. induction s as [|c s IH]; cbn [all_chars split_on];
    [reflexivity|].
  intros H. apply andb_prop in H as [Hc Hs].
  apply negb_true_iff in Hc. rewrite Hc.
  now rewrite IH.
Qed.

Lemma data_line_unmatched (t : string) (m : Metrics) :
  regex_match dataRegex t = None -> data_line t m = Some m.
Proof. intros H. unfold data_line. now rewrite H. Qed.

Lemma parse_lines_skip (bad : string) (l2 : list string) :
  regex_match dataRegex (trim bad) = None ->
  forall l1 m,
    parse_lines (l1 ++ bad :: l2) m = parse_lines (l1 ++ l2) m.
Proof.
  intros Hbad. induction l1 as [|l l1 IH]; intros m; cbn [parse_lines app].
  - rewrite (data_line_unmatched _ m Hbad).
    now destruct (is_empty (trim bad) || startsWith "#" (trim bad)).
  - destruct (is_empty (trim l) || startsWith "#" (trim l)); [apply IH|].
    destruct (data_line (trim l) m); [apply IH|reflexivity].
Qed.


Lemma meta_line_unmatched (t : string) (st : Metrics * Metadata) :
  regex_match helpRegex t = None -> regex_match typeRegex t = None ->
  regex_match dataRegex t = None ->
  meta_line t st = Some st.
Proof.
  intros Hh Ht Hd. unfold meta_line. destruct st as [m md].
  rewrite Hh, Ht, (data_line_unmatched _ m Hd).
  now destruct (startsWith "#" t).
Qed.

Lemma parse_lines_meta_skip (bad : string) (l2 : list string) :
  regex_match helpRegex (trim bad) = None ->
  regex_match typeRegex (trim bad) = None ->
  regex_match dataRegex (trim bad) = None ->
  forall l1 st,
    parse_lines_meta (l1 ++ bad :: l2) st = parse_lines_meta (l1 ++ l2) st.
Proof.
  intros Hh Ht Hd. induction l1 as [|l l1 IH]; intros st;
    cbn [parse_lines_meta app].
  - rewrite (meta_line_unmatched _ st Hh Ht Hd).
    now destruct (is_empty (trim bad)).
  - destruct (is_empty (trim l)); [apply IH|].
    destruct (meta_line (trim l) st); [apply IH|reflexivity].
Qed.

Lemma lines_around (t1 bad t2 : string) :
  one_line bad ->
  split_on LF (t1 ++ String LF (bad ++ String LF t2))
  = (split_on LF t1 ++ bad :: split_on LF t2)%list.
Proof.
  intros H. rewrite !split_on_app. now rewrite (split_on_one_line _ H).
Qed.

(** C1: both parsers return for every text, and a line that does not match
    the data-line pattern, such as an unterminated label block, is skipped:
    the outcome is the one of the text without that line, so every other
    line still yields what it yields on its own.  For the parser with
    metadata the line must also be neither a HELP nor a TYPE line. *)
Theorem parser_total_skips_unparsable (t1 bad t2 : string)
  (Hline : one_line bad)
  (Hbad : regex_match dataRegex (trim bad) = None) :
  (forall text, exists m, parsePrometheusMetrics text = Some m)
  /\ (forall text, exists r, parsePrometheusMetricsWithMetadata text = Some r)
  /\ parsePrometheusMetrics (t1 ++ String LF (bad ++ String LF t2))
     = parsePrometheusMetrics (t1 ++ String LF t2)
  /\ parsePrometheusMetrics (bad ++ String LF t2) = parsePrometheusMetrics t2
  /\ parsePrometheusMetrics (t1 ++ String LF bad) = parsePrometheusMetrics t1
  /\ (regex_match helpRegex (trim bad) = None ->
      regex_match typeRegex (trim bad) = None ->
      parsePrometheusMetricsWithMetadata (t1 ++ String LF (bad ++ String LF t2))
      = parsePrometheusMetricsWithMetadata (t1 ++ String LF t2)).
Proof.
  unfold parsePrometheusMetrics, parsePrometheusMetricsWithMetadata.
  split; [intros text; apply parse_lines_total|].
  split; [intros text; apply parse_lines_meta_total|].
  split.
  { rewrite (lines_around t1 bad t2 Hline), split_on_app.
    now apply parse_lines_skip. }
  split.
  { rewrite split_on_app, (split_on_one_line _ Hline).
    now apply (parse_lines_skip bad (split_on LF t2) Hbad []). }
  split.
  { rewrite split_on_app, (split_on_one_line _ Hline).
    rewrite (parse_lines_skip bad [] Hbad). now rewrite app_nil_r. }
  intros Hh Ht.
  rewrite (lines_around t1 bad t2 Hline), split_on_app.
  now apply parse_lines_meta_skip.
Qed.

Lemma parser_total_skips_unparsable_witness :
  one_line "weird_metric{bad"
  /\ regex_match dataRegex (trim "weird_metric{bad") = None
  /\ parsePrometheusMetrics
       ("up 1" ++ String LF ("weird_metric{bad" ++ String LF "http_requests_total 7"))
     = parsePrometheusMetrics ("up 1" ++ String LF "http_requests_total 7")
  /\ parsePrometheusMetrics ("up 1" ++ String LF "http_requests_total 7")
     = Some [("up", [mkSample [] 1%float]);
             ("http_requests_total", [mkSample [] 7%float])].
Proof.
  assert (H1 : one_line "weird_metric{bad") by reflexivity.
  assert (H2 : regex_match dataRegex (trim "weird_metric{bad") = None)
    by (vm_compute; reflexivity).
  split; [exact H1|]. split; [exact H2|].
  split.
  - exact (proj1 (proj2 (proj2
      (parser_total_skips_unparsable "up 1" "weird_metric{bad"
         "http_requests_total 7" H1 H2)))).
  - vm_compute. reflexivity.
Defined.

(** ** Stored values *)

Lemma parse_value_not_nan (tok : string) : isNaN (parse_value tok) = false.
Proof.
  unfold parse_value.
  destruct (isNaN (parseFloat tok)) eqn:E; [|exact E].
  destruct (String.eqb tok "+Inf" || String.eqb tok "Inf"); [reflexivity|].
  destruct (String.eqb tok "-Inf"); reflexivity.
Qed.

Lemma parse_value_fallback (tok : string) :
  isNaN (parseFloat tok) = true -> parse_value tok = fallback_value tok.
Proof. intros H. unfold parse_value, fallback_value. now rewrite H. Qed.

Lemma obj_get_In {V : Type} (k : string) (v : V) (o : jsobj V) :
  obj_get k o = Some v -> In (k, v) o.
Proof.
  induction o as [|[k' v'] o IH]; cbn [obj_get]; [discriminate|].
  destruct (String.eqb k k') eqn:E.
  - intros H. injection H as ->. apply String.eqb_eq in E. subst. now left.
  - intros H. right. now apply IH.
Qed.

Lemma all_samples_get (P : Sample -> Prop) (m : Metrics) (name : string)
      (series : list Sample) (s : Sample) :
  all_samples P m -> metrics_get name m = Some series -> In s series -> P s.
Proof.
  intros Hm Hg Hin. apply obj_get_In in Hg.
  unfold all_samples in Hm. rewrite Forall_forall in Hm.
  specialize (Hm _ Hg). cbn in Hm. rewrite Forall_forall in Hm. now apply Hm.
Qed.

Lemma all_samples_push (P : Sample -> Prop) (name : string) (s : Sample)
      (m : Metrics) :
  all_samples P m -> P s -> all_samples P (metrics_push name s m).
Proof.
  unfold all_samples. intros Hm Hs.
  induction m as [|[n l] m IH]; cbn [metrics_push].
  - repeat constructor. exact Hs.
  - inversion Hm as [|e m' He Hm']; subst. cbn in He.
    destruct (String.eqb name n).
    + constructor; [|exact Hm']. cbn. apply Forall_app. split; [exact He|].
      now constructor.
    + constructor; [exact He|]. now apply IH.
Qed.

Lemma all_samples_weaken (P Q : Sample -> Prop) (m : Metrics) :
  (forall s, P s -> Q s) -> all_samples P m -> all_samples Q m.
Proof.
  intros H Hm. unfold all_samples in *.
  eapply Forall_impl; [|exact Hm]. intros e He.
  eapply Forall_impl; [|exact He]. exact H.
Qed.

Lemma data_line_samples (L : list string) (line : string) (m m' : Metrics) :
  In line L ->
  all_samples (from_data_line L) m ->
  data_line (trim line) m = Some m' ->
  all_samples (from_data_line L) m'.
Proof.
  intros Hin Hm. unfold data_line.
  destruct (regex_match dataRegex (trim line)) as [cs|] eqn:E.
  2: { intros H. now injection H as <-. }
  destruct (get_cap 1 cs) as [name|]; [|intros H; now injection H as <-].
  destruct (get_cap 3 cs) as [tok|] eqn:E3; [|intros H; now injection H as <-].
  destruct (parse_labels (get_cap 2 cs)) as [lbls|]; [|discriminate].
  intros H. injection H as <-.
  apply all_samples_push; [exact Hm|].
  exists line, cs, tok. cbn. auto.
Qed.

Lemma parse_lines_samples (L : list string) :
  forall lines m m',
    incl lines L ->
    all_samples (from_data_line L) m ->
    parse_lines lines m = Some m' ->
    all_samples (from_data_line L) m'.
Proof.
  induction lines as [|l lines IH]; intros m m' Hincl Hm; cbn [parse_lines].
  - intros H. now injection H as <-.
  - assert (Hl : In l L) by (apply Hincl; now left).
    assert (Hrest : incl lines L) by (intros x Hx; apply Hincl; now right).
    destruct (is_empty (trim l) || startsWith "#" (trim l));
      [now apply IH|].
    destruct (data_line (trim l) m) as [m1|] eqn:E; [|discriminate].
    apply IH; [exact Hrest|]. eapply data_line_samples; eauto.
Qed.

Lemma parse_lines_meta_samples (L : list string) :
  forall lines st st',
    incl lines L ->
    all_samples (from_data_line L) (fst st) ->
    parse_lines_meta lines st = Some st' ->
    all_samples (from_data_line L) (fst st').
Proof.
  induction lines as [|l lines IH]; intros st st' Hincl Hm;
    cbn [parse_lines_meta].
  - intros H. now injection H as <-.
  - assert (Hl : In l L) by (apply Hincl; now left).
    assert (Hrest : incl lines L) by (intros x Hx; apply Hincl; now right).
    destruct (is_empty (trim l)); [now apply IH|].
    destruct (meta_line (trim l) st) as [st1|] eqn:E; [|discriminate].
    apply IH; [exact Hrest|].
    unfold meta_line in E. destruct st as [m md]. cbn [fst] in Hm.
    destruct (regex_match helpRegex (trim l)) as [cs|].
    { destruct (get_cap 1 cs); [|now injection E as <-].
      destruct (get_cap 2 cs); now injection E as <-. }
    destruct (regex_match typeRegex (trim l)) as [cs|].
    { destruct (get_cap 1 cs); [|now injection E as <-].
      destruct (get_cap 2 cs); now injection E as <-. }
    destruct (startsWith "#" (trim l)); [now injection E as <-|].
    destruct (data_line (trim l) m) as [m1|] eqn:E1; [|discriminate].
    injection E as <-. cbn [fst]. eapply data_line_samples; eauto.
Qed.

(** ** The label block *)

(** C9 (amended): in a data line with a label block, the block runs from the
    first opening brace to the first closing brace after it.  Whatever stands
    between them, commas included, is captured unchanged and handed to the
    extraction of the key-value pairs, and the sample is recorded.  A closing
    brace inside a quoted label value ends the block there: what follows then
    still holds a double quote, the line matches nothing and no sample is
    recorded for it. *)
Theorem label_block_until_first_brace
  (name content ws tok rest : string) (m : Metrics)
  (Hname : valid_name name = true)
  (Hcont : all_chars not_rbrace content = true)
  (Hws : nonempty_all is_space ws = true)
  (Htok : nonempty_all value_char tok = true) :
  regex_match dataRegex (name ++ "{" ++ content ++ "}" ++ ws ++ tok)
  = Some [(3, tok); (2, content); (1, name)]
  /\ (exists lbls,
        parse_labels (Some content) = Some lbls
        /\ data_line (name ++ "{" ++ content ++ "}" ++ ws ++ tok) m
           = Some (metrics_push name (mkSample lbls (parse_value tok)) m))
  /\ (has_char dquote rest = true ->
      regex_match dataRegex (name ++ "{" ++ content ++ "}" ++ rest) = None
      /\ data_line (name ++ "{" ++ content ++ "}" ++ rest) m = Some m).
Proof.
  pose proof (data_line_with_block name content ws tok Hname Hcont Hws Htok)
    as E.
  split; [exact E|]. split.
  - destruct (parse_labels_total (Some content)) as [lbls Hl].
    exists lbls. split; [exact Hl|].
    unfold data_line. rewrite E. cbn [get_cap Nat.eqb]. now rewrite Hl.
  - intros Hq.
    pose proof (data_line_brace_then_quote name content rest Hname Hcont Hq)
      as E'.
    split; [exact E'|]. now apply data_line_unmatched.
Qed.

Lemma label_block_until_first_brace_witness :
  let content := "path=" ++ str1 dquote ++ "/a,b" ++ str1 dquote
                 ++ ",code=" ++ str1 dquote ++ "200" ++ str1 dquote in
  regex_match dataRegex ("hits{" ++ content ++ "} 3")
  = Some [(3, "3"); (2, content); (1, "hits")]
  /\ data_line ("hits{" ++ content ++ "} 3") []
     = Some [("hits", [mkSample [("path", "/a,b"); ("code", "200")] 3%float])].
Proof.
  intros content.
  destruct (label_block_until_first_brace "hits" content " " "3" "" []
              eq_refl eq_refl eq_refl eq_refl) as (E & (lbls & Hl & Hd) & _).
  split; [exact E|].
  change ("hits" ++ "{" ++ content ++ "}" ++ " " ++ "3")
    with ("hits{" ++ content ++ "} 3") in Hd.
  rewrite Hd.
  assert (El : parse_labels (Some content)
               = Some [("path", "/a,b"); ("code", "200")])
    by (vm_compute; reflexivity).
  rewrite El in Hl. injection Hl as <-. vm_compute. reflexivity.
Defined.

(** C9, the claim as it is written fails: a closing brace inside a quoted
    label value is not kept as label content; the line matches nothing and
    the sample is lost. *)
Lemma brace_in_quoted_value_not_retained :
  let line := "m{a=" ++ str1 dquote ++ "x}y" ++ str1 dquote ++ "} 1" in
  ~ (exists cs, regex_match dataRegex (trim line) = Some cs)
  /\ parsePrometheusMetrics line = Some [].
Proof.
  intros line. split.
  - intros [cs H]. vm_compute in H. discriminate H.
  - vm_compute. reflexivity.
Qed.

(** ** Round trip of a sample *)

(** C2, at the failing input: a label value made of a backslash followed by
    the letter n is written as backslash-backslash-n; the parser decodes the
    pair of backslashes first and then takes the backslash it has just
    produced, with the n, for the escape of a line feed.  The sample read
    back holds a line feed, not the original value. *)
Theorem roundtrip_backslash_n :
  let original := mkSample [("path", String backslash "n")] 1%float in
  let text := serialize_sample "m" original in
  text = "m{path=" ++ str1 dquote ++ String backslash (String backslash "n")
         ++ str1 dquote ++ "} 1"
  /\ parsePrometheusMetrics text
     = Some [("m", [mkSample [("path", str1 LF)] 1%float])]
  /\ parsePrometheusMetrics text <> Some [("m", [original])].
Proof.
  intros original text.
  assert (E : parsePrometheusMetrics text
              = Some [("m", [mkSample [("path", str1 LF)] 1%float])])
    by (vm_compute; reflexivity).
  split; [vm_compute; reflexivity|]. split; [exact E|].
  rewrite E. intros H. injection H as H. vm_compute in H. discriminate H.
Qed.
(* ================================================================== *)
(** * The decoding of label values *)
(* ================================================================== *)

Section ReplaceAll.
Variables a b : ascii.
Variable rep : string.

Lemma replaceAll2_skip (c : ascii) (s : string) :
  Ascii.eqb c a = false ->
  replaceAll2 a b rep (String c s) = String c (replaceAll2 a b rep s).
Proof.
  intros H. cbn [replaceAll2]. rewrite H. cbn [andb].
  now destruct s.
Qed.

Lemma replaceAll2_no_match (s : string) :
  head_is (is_char b) s = false ->
  replaceAll2 a b rep (String a s) = String a (replaceAll2 a b rep s).
Proof.
  intros H. cbn [replaceAll2]. destruct s as [|d s]; [reflexivity|].
  cbn [head_is] in H. unfold is_char in H. rewrite H, andb_false_r.
  reflexivity.
Qed.

Lemma replaceAll2_match (s : string) :
  replaceAll2 a b rep (String a (String b s)) = rep ++ replaceAll2 a b rep s.
Proof. cbn [replaceAll2]. now rewrite !Ascii.eqb_refl. Qed.
End ReplaceAll.

Lemma escape_head_not_quote (v : string) :
  head_is (is_char dquote) (escape_label_value v) = false.
Proof.
  destruct v as [|c v]; [reflexivity|]. cbn [escape_label_value].
  destruct (Ascii.eqb c backslash); [reflexivity|].
  destruct (Ascii.eqb c dquote) eqn:Q; [reflexivity|].
  destruct (Ascii.eqb c LF); [reflexivity|].
  cbn. unfold is_char. exact Q.
Qed.

(** The first pass restores the quotes and nothing else. *)
Lemma quotes_restored (v : string) :
  replaceAll2 backslash dquote (str1 dquote) (escape_label_value v)
  = escape_no_quote v.
Proof.
  induction v as [|c v IH]; [reflexivity|].
  cbn [escape_label_value escape_no_quote].
  destruct (Ascii.eqb c backslash) eqn:B.
  - apply Ascii.eqb_eq in B. subst c. cbn [append str1].
    rewrite replaceAll2_no_match by reflexivity.
    rewrite replaceAll2_no_match by apply escape_head_not_quote.
    now rewrite IH.
  - destruct (Ascii.eqb c dquote) eqn:Q.
    + apply Ascii.eqb_eq in Q. subst c. cbn [append str1].
      rewrite replaceAll2_match, IH.
      destruct (Ascii.eqb dquote LF) eqn:E; [discriminate E|reflexivity].
    + destruct (Ascii.eqb c LF) eqn:L.
      * cbn [append str1].
        rewrite replaceAll2_no_match by reflexivity.
        rewrite replaceAll2_skip by reflexivity.
        now rewrite IH.
      * cbn [append str1]. rewrite replaceAll2_skip by exact B.
        now rewrite IH.
Qed.

(** The second pass restores the backslashes and nothing else. *)
Lemma backslashes_restored (v : string) :
  replaceAll2 backslash backslash (str1 backslash) (escape_no_quote v)
  = escape_line_feed v.
Proof.
  induction v as [|c v IH]; [reflexivity|].
  cbn [escape_no_quote escape_line_feed].
  destruct (Ascii.eqb c backslash) eqn:B.
  - apply Ascii.eqb_eq in B. subst c. cbn [append str1].
    rewrite replaceAll2_match, IH.
    destruct (Ascii.eqb backslash LF) eqn:E; [discriminate E|reflexivity].
  - destruct (Ascii.eqb c LF) eqn:L.
    + cbn [append str1].
      rewrite replaceAll2_no_match by reflexivity.
      rewrite replaceAll2_skip by reflexivity.
      now rewrite IH.
    + cbn [append str1]. rewrite replaceAll2_skip by exact B.
      now rewrite IH.
Qed.

Lemma escape_line_feed_head (v : string) :
  head_is (is_char "n") (escape_line_feed v) = head_is (is_char "n") v.
Proof.
  destruct v as [|c v]; [reflexivity|]. cbn [escape_line_feed].
  destruct (Ascii.eqb c LF) eqn:L; [|reflexivity].
  apply Ascii.eqb_eq in L. subst c. reflexivity.
Qed.

(** The third pass restores the line feeds, and is right as long as no
    backslash of the value stands before a letter n. *)
Lemma line_feeds_restored (v : string) :
  has_backslash_n v = false ->
  replaceAll2 backslash "n" (str1 LF) (escape_line_feed v) = v.
Proof.
  induction v as [|c v IH]; [reflexivity|].
  cbn [has_backslash_n escape_line_feed]. rewrite orb_false_iff.
  intros [H1 H2].
  destruct (Ascii.eqb c LF) eqn:L.
  - apply Ascii.eqb_eq in L. subst c. cbn [append str1].
    rewrite replaceAll2_match, IH by exact H2. reflexivity.
  - cbn [append str1].
    destruct (Ascii.eqb c backslash) eqn:B.
    + apply Ascii.eqb_eq in B. subst c. cbn [andb] in H1.
      rewrite replaceAll2_no_match
        by (now rewrite escape_line_feed_head).
      now rewrite IH.
    + rewrite replaceAll2_skip by exact B. now rewrite IH.
Qed.

(** Decoding an escaped label value gives the value back when no backslash
    of the value stands before a letter n. *)
Lemma unescape_escape (v : string) :
  has_backslash_n v = false -> unescape (escape_label_value v) = v.
Proof.
  intros H. unfold unescape.
  rewrite quotes_restored, backslashes_restored.
  now apply line_feeds_restored.
Qed.

Lemma decoded_length (v : string) :
  String.length
    (replaceAll2 backslash "n" (str1 LF) (escape_line_feed v))
  <= String.length v
  /\ (has_backslash_n v = true ->
      String.length
        (replaceAll2 backslash "n" (str1 LF) (escape_line_feed v))
      < String.length v).
Proof.
  induction v as [|c v IH]; [split; [reflexivity|discriminate]|].
  destruct IH as [IH1 IH2].
  cbn [has_backslash_n escape_line_feed].
  destruct (Ascii.eqb c LF) eqn:L.
  - apply Ascii.eqb_eq in L. subst c. cbn [append str1].
    rewrite replaceAll2_match. cbn [append str1 String.length andb orb].
    split; [lia|]. intros H. apply IH2 in H. lia.
  - cbn [append str1].
    destruct (Ascii.eqb c backslash) eqn:B.
    + apply Ascii.eqb_eq in B. subst c. cbn [andb].
      destruct v as [|d v].
      * cbn. split; [lia|discriminate].
      * cbn [head_is]. unfold is_char at 1.
        destruct (Ascii.eqb d "n") eqn:N.
        -- apply Ascii.eqb_eq in N. subst d.
           cbn [escape_line_feed append str1 orb] in *.
           change (Ascii.eqb "n" LF) with false in *. cbv iota in *.
           cbn [append str1] in *.
           rewrite replaceAll2_match.
           rewrite replaceAll2_skip in IH1 by reflexivity.
           cbn [append str1 String.length] in *. split; [lia|]. intros _. lia.
        -- cbn [orb].
           rewrite replaceAll2_no_match.
           ++ cbn [String.length] in *. split; [lia|].
              intros H. apply IH2 in H. lia.
           ++ rewrite escape_line_feed_head. cbn [head_is].
              unfold is_char. exact N.
    + cbn [andb orb]. rewrite replaceAll2_skip by exact B.
      cbn [String.length]. split; [lia|]. intros H. apply IH2 in H. lia.
Qed.

(** Where a backslash of the value stands before a letter n, the decoding
    gives another, shorter text. *)
Lemma unescape_escape_differs (v : string) :
  has_backslash_n v = true -> unescape (escape_label_value v) <> v.
Proof.
  intros H E. unfold unescape in E.
  rewrite quotes_restored, backslashes_restored in E.
  destruct (decoded_length v) as [_ L]. specialize (L H).
  rewrite E in L. lia.
Qed.

(* ================================================================== *)
(** * Properties of metric discovery *)
(* ================================================================== *)

(** C7, at the failing input: the name of a bucket series that holds
    [_bucket] twice ends in [_bucket], and the base name the discovery
    returns is the name without the first [_bucket], not the name without its
    suffix: the code calls [replace], which removes the first occurrence. *)
Theorem discover_base_name_first_occurrence :
  let name := "s3_bucket_size_bucket" in
  let m := [(name, [mkSample [("le", "1")] 4%float])] in
  endsWith "_bucket" name = true
  /\ name = "s3_bucket_size" ++ "_bucket"
  /\ discoverDistributions m = mkDiscovered ["s3_size_bucket"] [] []
  /\ histograms (discoverDistributions m) <> ["s3_bucket_size"].
Proof.
  intros name m. split; [reflexivity|]. split; [reflexivity|].
  split; [reflexivity|]. intros H. discriminate H.
Qed.

(* ================================================================== *)
(** * Properties of objects and of sorting *)
(* ================================================================== *)

Section ObjectFacts.
Context {V : Type}.

Lemma obj_get_set_same (k : string) (v : V) (o : jsobj V) :
  obj_get k (obj_set k v o) = Some v.
Proof.
  induction o as [|[k' v'] o IH]; cbn [obj_set obj_get].
  - now rewrite String.eqb_refl.
  - destruct (String.eqb k k') eqn:E; cbn [obj_get].
    + now rewrite String.eqb_refl.
    + now rewrite E.
Qed.

Lemma obj_get_set_other (k k' : string) (v : V) (o : jsobj V) :
  k <> k' -> obj_get k (obj_set k' v o) = obj_get k o.
Proof.
  intros Hne. induction o as [|[k2 v2] o IH]; cbn [obj_set obj_get].
  - apply String.eqb_neq in Hne. now rewrite Hne.
  - destruct (String.eqb k' k2) eqn:E; cbn [obj_get].
    + apply String.eqb_eq in E. subst k2.
      apply String.eqb_neq in Hne. now rewrite Hne.
    + destruct (String.eqb k k2); [reflexivity|exact IH].
Qed.

Lemma obj_set_keys (k : string) (v : V) (o : jsobj V) :
  forall x, In x (map fst (obj_set k v o)) <-> x = k \/ In x (map fst o).
Proof.
  induction o as [|[k' v'] o IH]; intros x; cbn [obj_set map fst In].
  - intuition.
  - destruct (String.eqb k k') eqn:E; cbn [map fst In].
    + apply String.eqb_eq in E. subst k'. intuition.
    + rewrite IH. intuition.
Qed.

Lemma obj_set_nodup (k : string) (v : V) (o : jsobj V) :
  NoDup (map fst o) -> NoDup (map fst (obj_set k v o)).
Proof.
  induction o as [|[k' v'] o IH]; intros H; cbn [obj_set map fst].
  - repeat constructor. intros [].
  - inversion H as [|x l Hx Hl]; subst.
    destruct (String.eqb k k') eqn:E; cbn [map fst].
    + apply String.eqb_eq in E. subst k'. now constructor.
    + constructor; [|now apply IH].
      rewrite obj_set_keys. intros [->|Hin]; [|contradiction].
      now rewrite String.eqb_refl in E.
Qed.

Lemma obj_get_some_in_keys (k : string) (v : V) (o : jsobj V) :
  obj_get k o = Some v -> In k (map fst o).
Proof.
  intros H. apply obj_get_In in H. now apply (in_map fst) in H.
Qed.

Lemma obj_get_none (k : string) (o : jsobj V) :
  obj_get k o = None <-> ~ In k (map fst o).
Proof.
  induction o as [|[k' v'] o IH]; cbn [obj_get map fst In].
  - tauto.
  - destruct (String.eqb k k') eqn:E.
    + apply String.eqb_eq in E. subst. split; [discriminate|tauto].
    + apply String.eqb_neq in E. rewrite IH. intuition congruence.
Qed.

Lemma In_obj_get (k : string) (v : V) (o : jsobj V) :
  NoDup (map fst o) -> In (k, v) o -> obj_get k o = Some v.
Proof.
  induction o as [|[k' v'] o IH]; intros Hnd Hin; [destruct Hin|].
  cbn [map fst] in Hnd. inversion Hnd as [|x l Hx Hl]; subst.
  cbn [obj_get]. destruct Hin as [E|Hin].
  - injection E as -> ->. now rewrite String.eqb_refl.
  - destruct (String.eqb k k') eqn:E.
    + apply String.eqb_eq in E. subst k'.
      exfalso. apply Hx. now apply (in_map fst) in Hin.
    + now apply IH.
Qed.

Lemma insert_index_perm (e : string * V) (l : jsobj V) :
  Permutation (insert_index e l) (e :: l).
Proof.
  induction l as [|e' l IH]; cbn [insert_index]; [reflexivity|].
  destruct (Z.ltb _ _); [reflexivity|].
  rewrite IH. apply perm_swap.
Qed.

Lemma filter_partition_perm {A : Type} (p : A -> bool) (l : list A) :
  Permutation (filter p l ++ filter (fun x => negb (p x)) l) l.
Proof.
  induction l as [|x l IH]; cbn [filter]; [reflexivity|].
  destruct (p x); cbn [negb app].
  - now constructor.
  - rewrite <- Permutation_middle. now constructor.
Qed.

Lemma obj_entries_perm (o : jsobj V) : Permutation (obj_entries o) o.
Proof.
  unfold obj_entries.
  rewrite <- (filter_partition_perm (fun e => is_array_index (fst e)) o) at 3.
  apply Permutation_app_tail.
  induction (filter (fun e => is_array_index (fst e)) o) as [|e l IH];
    cbn [fold_right]; [reflexivity|].
  rewrite insert_index_perm. now constructor.
Qed.

Lemma obj_keys_in (o : jsobj V) (k : string) :
  In k (obj_keys o) <-> In k (map fst o).
Proof.
  unfold obj_keys. split; apply Permutation_in;
    [|symmetry]; apply Permutation_map, obj_entries_perm.
Qed.
End ObjectFacts.

Section SortFacts.
Context {A : Type}.
Variable after : A -> A -> bool.

Lemma insert_by_perm (x : A) (l : list A) :
  Permutation (insert_by after x l) (x :: l).
Proof.
  induction l as [|y l IH]; cbn [insert_by]; [reflexivity|].
  destruct (after x y); [|reflexivity].
  rewrite IH. apply perm_swap.
Qed.

Lemma sort_by_perm (l : list A) : Permutation (sort_by after l) l.
Proof.
  induction l as [|x l IH]; cbn [sort_by fold_right]; [reflexivity|].
  fold (sort_by after l). rewrite insert_by_perm. now constructor.
Qed.

Variable R : A -> A -> Prop.

Lemma insert_by_hdrel (x y : A) (l : list A) :
  HdRel R y l -> R y x -> HdRel R y (insert_by after x l).
Proof.
  intros Hl Hx. destruct l as [|z l]; cbn [insert_by]; [now constructor|].
  destruct (after x z); constructor; [|exact Hx].
  now inversion Hl.
Qed.

Lemma insert_by_sorted (x : A) (l : list A) :
  (forall y, In y l -> after x y = true -> R y x) ->
  (forall y, In y l -> after x y = false -> R x y) ->
  Sorted R l -> Sorted R (insert_by after x l).
Proof.
  intros H1 H2 Hs. induction l as [|y l IH]; cbn [insert_by].
  - repeat constructor.
  - inversion Hs as [|y' l' Hl Hy]; subst.
    destruct (after x y) eqn:E.
    + constructor.
      * apply IH; [intros; apply H1|intros; apply H2|]; auto with datatypes.
      * apply insert_by_hdrel; [exact Hy|].
        apply H1; auto with datatypes.
    + constructor; [exact Hs|]. constructor.
      apply H2; auto with datatypes.
Qed.

(** An insertion sort returns a sorted list as soon as [after] decides [R]
    on the elements of the list. *)
Lemma sort_by_sorted (l : list A) :
  (forall x y, In x l -> In y l -> after x y = true -> R y x) ->
  (forall x y, In x l -> In y l -> after x y = false -> R x y) ->
  Sorted R (sort_by after l).
Proof.
  induction l as [|x l IH]; intros H1 H2; cbn [sort_by fold_right].
  - constructor.
  - fold (sort_by after l).
    assert (Hin : forall y, In y (sort_by after l) -> In y l)
      by (intros y; apply Permutation_in, sort_by_perm).
    apply insert_by_sorted.
    + intros y Hy. apply H1; auto with datatypes.
    + intros y Hy. apply H2; auto with datatypes.
    + apply IH; intros; [apply H1|apply H2]; auto with datatypes.
Qed.
End SortFacts.

(** Sorting numbers or rows with a difference as comparator. *)
Lemma js_sort_perm {A : Type} (cmp : A -> A -> num) (l : list A) :
  Permutation (js_sort cmp l) l.
Proof. apply sort_by_perm. Qed.

Lemma js_sort_descending (rows : list (string * num)) :
  (forall r, In r rows -> isNaN (snd r) = false) ->
  descending (js_sort by_value_desc rows).
Proof.
  intros Hn. unfold descending, js_sort. apply sort_by_sorted.
  - intros x y Hx Hy H. cbv beta in H. unfold by_value_desc in H.
    destruct (sub_sign (snd y) (snd x) (Hn _ Hy) (Hn _ Hx)) as [E _].
    apply ltb_leb. rewrite <- E. exact H.
  - intros x y Hx Hy H. cbv beta in H. unfold by_value_desc in H.
    destruct (sub_sign (snd y) (snd x) (Hn _ Hy) (Hn _ Hx)) as [E _].
    apply not_ltb_leb; auto. rewrite <- E. exact H.
Qed.

(** Sorting by the difference of a key puts the keys in ascending order. *)
Lemma js_sort_by_key {A : Type} (f : A -> num) (l : list A) :
  (forall x, In x l -> isNaN (f x) = false) ->
  Sorted (fun a b => PrimFloat.leb (f a) (f b) = true)
         (js_sort (fun a b => PrimFloat.sub (f a) (f b)) l).
Proof.
  intros Hn. unfold js_sort. apply sort_by_sorted.
  - intros x y Hx Hy H. cbv beta in H.
    destruct (sub_sign (f x) (f y) (Hn _ Hx) (Hn _ Hy)) as [E _].
    apply ltb_leb. rewrite <- E. exact H.
  - intros x y Hx Hy H. cbv beta in H.
    destruct (sub_sign (f x) (f y) (Hn _ Hx) (Hn _ Hy)) as [E _].
    apply not_ltb_leb; auto. rewrite <- E. exact H.
Qed.

Lemma Sorted_map {A B : Type} (f : A -> B) (R : B -> B -> Prop) (l : list A) :
  Sorted (fun a b => R (f a) (f b)) l -> Sorted R (map f l).
Proof.
  induction 1 as [|x l Hs IH Hh]; cbn [map]; constructor; [exact IH|].
  destruct Hh; cbn [map]; now constructor.
Qed.

(** The columns set one after the other from a list of keys. *)
Lemma cols_get_other {V : Type} (f : string -> V) (keys : list string)
      (k : string) :
  ~ In k keys ->
  forall init,
    obj_get k (fold_left (fun row gKey => obj_set gKey (f gKey) row) keys init)
    = obj_get k init.
Proof.
  induction keys as [|x keys IH]; intros Hk init; cbn [fold_left];
    [reflexivity|].
  rewrite IH by (intros H; apply Hk; now right).
  apply obj_get_set_other. intros ->. apply Hk. now left.
Qed.

Lemma cols_get {V : Type} (f : string -> V) (keys : list string) (k : string) :
  In k keys ->
  forall init,
    obj_get k (fold_left (fun row gKey => obj_set gKey (f gKey) row) keys init)
    = Some (f k).
Proof.
  induction keys as [|x keys IH]; intros Hk init; [destruct Hk|].
  cbn [fold_left].
  destruct (in_dec string_dec k keys) as [Hin|Hout].
  - now apply IH.
  - destruct Hk as [->|Hk]; [|contradiction].
    rewrite cols_get_other by exact Hout. apply obj_get_set_same.
Qed.

(** Sets of strings. *)
Lemma set_add_in (x y : string) (l : list string) :
  In y (set_add x l) <-> In y l \/ y = x.
Proof.
  unfold set_add. destruct (existsb (String.eqb x) l) eqn:E.
  - split; [auto|]. intros [H| ->]; [exact H|].
    apply existsb_exists in E. destruct E as (z & Hz & Ez).
    apply String.eqb_eq in Ez. now subst.
  - rewrite in_app_iff. cbn [In]. intuition auto.
Qed.

Lemma set_add_nodup (x : string) (l : list string) :
  NoDup l -> NoDup (set_add x l).
Proof.
  intros H. unfold set_add. destruct (existsb (String.eqb x) l) eqn:E;
    [exact H|].
  apply (Permutation_NoDup (Permutation_cons_append l x)).
  constructor.
  - intros Hin.
    assert (T : existsb (String.eqb x) l = true).
    { apply existsb_exists. exists x. split; [exact Hin|].
      apply String.eqb_refl. }
    congruence.
  - exact H.
Qed.
(* ================================================================== *)
(** * Properties of the discovery *)
(* ================================================================== *)

Lemma str_ltb_asym (a b : string) :
  str_ltb a b = true -> str_ltb b a = false.
Proof.
  revert b. induction a as [|x a IH]; intros [|y b]; cbn [str_ltb];
    try discriminate; try reflexivity.
  destruct (N.ltb_spec (code x) (code y)) as [L|L].
  - intros _. destruct (N.ltb_spec (code y) (code x)); [lia|reflexivity].
  - destruct (N.ltb_spec (code y) (code x)) as [G|G]; [discriminate|].
    apply IH.
Qed.

(** [sort()] on strings returns the same strings in ascending order. *)
Lemma sort_strings_sorted (l : list string) :
  Sorted (fun a b => str_ltb b a = false) (sort_strings l).
Proof.
  unfold sort_strings. apply sort_by_sorted.
  - intros x y _ _ H. now apply str_ltb_asym.
  - intros x y _ _ H. exact H.
Qed.

Lemma sort_strings_perm (l : list string) : Permutation (sort_strings l) l.
Proof. apply sort_by_perm. Qed.

Ltac discover_case name series :=
  try solve [eauto 7 with datatypes];
  try solve [right; exists (name, series); cbn [fst snd];
             auto 6 with datatypes];
  try solve [cbn [fst snd] in *; first [congruence|auto 6]].

Lemma discover_fold (m : Metrics) :
  forall hs ss cs,
    NoDup hs -> NoDup ss -> NoDup cs ->
    let '(hs', ss', cs') := fold_left discover_step m (hs, ss, cs) in
    NoDup hs' /\ NoDup ss' /\ NoDup cs'
    /\ (forall b, In b hs'
                  <-> In b hs
                      \/ exists e, In e m /\ endsWith "_bucket" (fst e) = true
                                   /\ b = replace_first "_bucket" "" (fst e))
    /\ (forall n, In n ss'
                  <-> In n ss
                      \/ exists e, In e m /\ endsWith "_bucket" (fst e) = false
                                   /\ existsb has_quantile (snd e) = true
                                   /\ n = fst e)
    /\ (forall n, In n cs'
                  <-> In n cs
                      \/ exists e, In e m /\ endsWith "_bucket" (fst e) = false
                                   /\ existsb has_quantile (snd e) = false
                                   /\ n = fst e).
Proof.
  induction m as [|[name series] m IH]; intros hs ss cs Hh Hs Hc.
  - cbn [fold_left]. repeat split; auto; try tauto;
      intros [H|(e & [] & _)]; exact H.
  - cbn [fold_left]. unfold discover_step at 2.
    destruct (endsWith "_bucket" name) eqn:E;
      [|destruct (existsb has_quantile series) eqn:Q].
    + specialize (IH (set_add (replace_first "_bucket" "" name) hs) ss cs
                     (set_add_nodup _ _ Hh) Hs Hc).
      destruct (fold_left discover_step m _) as [[hs' ss'] cs'].
      destruct IH as (N1 & N2 & N3 & I1 & I2 & I3).
      split; [exact N1|]. split; [exact N2|]. split; [exact N3|].
      split; [|split].
      * intros b. rewrite I1, set_add_in. split.
        -- intros [[H| ->]|(e & He & H)]; discover_case name series.
        -- intros [H|(e & [<-|He] & H1 & H2)]; discover_case name series.
      * intros n. rewrite I2. split.
        -- intros [H|(e & He & H)]; discover_case name series.
        -- intros [H|(e & [<-|He] & H1 & H2)]; discover_case name series.
      * intros n. rewrite I3. split.
        -- intros [H|(e & He & H)]; discover_case name series.
        -- intros [H|(e & [<-|He] & H1 & H2)]; discover_case name series.
    + specialize (IH hs (set_add name ss) cs Hh (set_add_nodup _ _ Hs) Hc).
      destruct (fold_left discover_step m _) as [[hs' ss'] cs'].
      destruct IH as (N1 & N2 & N3 & I1 & I2 & I3).
      split; [exact N1|]. split; [exact N2|]. split; [exact N3|].
      split; [|split].
      * intros b. rewrite I1. split.
        -- intros [H|(e & He & H)]; discover_case name series.
        -- intros [H|(e & [<-|He] & H1 & H2)]; discover_case name series.
      * intros n. rewrite I2, set_add_in. split.
        -- intros [[H| ->]|(e & He & H)]; discover_case name series.
        -- intros [H|(e & [<-|He] & H1 & H2 & H3)];
             discover_case name series.
      * intros n. rewrite I3. split.
        -- intros [H|(e & He & H)]; discover_case name series.
        -- intros [H|(e & [<-|He] & H1 & H2 & H3)];
             discover_case name series.
    + specialize (IH hs ss (set_add name cs) Hh Hs (set_add_nodup _ _ Hc)).
      destruct (fold_left discover_step m _) as [[hs' ss'] cs'].
      destruct IH as (N1 & N2 & N3 & I1 & I2 & I3).
      split; [exact N1|]. split; [exact N2|]. split; [exact N3|].
      split; [|split].
      * intros b. rewrite I1. split.
        -- intros [H|(e & He & H)]; discover_case name series.
        -- intros [H|(e & [<-|He] & H1 & H2)]; discover_case name series.
      * intros n. rewrite I2. split.
        -- intros [H|(e & He & H)]; discover_case name series.
        -- intros [H|(e & [<-|He] & H1 & H2 & H3)];
             discover_case name series.
      * intros n. rewrite I3, set_add_in. split.
        -- intros [[H| ->]|(e & He & H)]; discover_case name series.
        -- intros [H|(e & [<-|He] & H1 & H2 & H3)];
             discover_case name series.
Qed.

(** What the discovery returns: three lists without duplicates, in
    ascending code-unit order.  A name ending in [_bucket] gives a histogram
    whose base name is the name without its first [_bucket]; another name is
    a summary when one of its samples has a [quantile] label and a counter
    otherwise. *)
Lemma discover_lists (m : Metrics) :
  let d := discoverDistributions m in
  (NoDup (histograms d) /\ NoDup (summaries d) /\ NoDup (counters d))
  /\ (Sorted (fun a b => str_ltb b a = false) (histograms d)
      /\ Sorted (fun a b => str_ltb b a = false) (summaries d)
      /\ Sorted (fun a b => str_ltb b a = false) (counters d))
  /\ (forall b, In b (histograms d)
                <-> exists e, In e m /\ endsWith "_bucket" (fst e) = true
                              /\ b = replace_first "_bucket" "" (fst e))
  /\ (forall n, In n (summaries d)
                <-> exists e, In e m /\ endsWith "_bucket" (fst e) = false
                              /\ existsb has_quantile (snd e) = true
                              /\ n = fst e)
  /\ (forall n, In n (counters d)
                <-> exists e, In e m /\ endsWith "_bucket" (fst e) = false
                              /\ existsb has_quantile (snd e) = false
                              /\ n = fst e).
Proof.
  unfold discoverDistributions.
  pose proof (discover_fold m [] [] [] (NoDup_nil _) (NoDup_nil _)
                (NoDup_nil _)) as H.
  destruct (fold_left discover_step m ([], [], [])) as [[hs ss] cs].
  destruct H as (N1 & N2 & N3 & I1 & I2 & I3).
  cbn [histograms summaries counters].
  split.
  { repeat split;
      (eapply Permutation_NoDup;
       [apply Permutation_sym, sort_strings_perm|assumption]). }
  split; [repeat split; apply sort_strings_sorted|].
  split; [|split].
  - intros b. split; intros H.
    + apply (Permutation_in _ (sort_strings_perm hs)) in H.
      apply I1 in H. destruct H as [[]|H]. exact H.
    + apply (Permutation_in _ (Permutation_sym (sort_strings_perm hs))).
      apply I1. now right.
  - intros n. split; intros H.
    + apply (Permutation_in _ (sort_strings_perm ss)) in H.
      apply I2 in H. destruct H as [[]|H]. exact H.
    + apply (Permutation_in _ (Permutation_sym (sort_strings_perm ss))).
      apply I2. now right.
  - intros n. split; intros H.
    + apply (Permutation_in _ (sort_strings_perm cs)) in H.
      apply I3 in H. destruct H as [[]|H]. exact H.
    + apply (Permutation_in _ (Permutation_sym (sort_strings_perm cs))).
      apply I3. now right.
Qed.

(** Removing the first [_bucket] strips the suffix when the name holds no
    other [_bucket]. *)
Lemma replace_first_suffix (pat base : string) :
  is_empty pat = false ->
  (forall k, k < String.length base ->
             startsWith pat (sdrop k (base ++ pat)) = false) ->
  replace_first pat "" (base ++ pat) = base.
Proof.
  intros Hp. induction base as [|c base IH]; intros H.
  - cbn [append]. destruct pat as [|a pat]; [discriminate Hp|].
    cbn [replace_first].
    assert (E : startsWith (String a pat) (String a pat) = true).
    { clear. induction (String a pat) as [|x s IHs]; [reflexivity|].
      cbn [startsWith]. now rewrite Ascii.eqb_refl, IHs. }
    rewrite E. cbn [append].
    clear. induction (String a pat) as [|x s IHs]; [reflexivity|].
    cbn [String.length sdrop]. exact IHs.
  - pose proof (H 0 ltac:(cbn; lia)) as H0. cbn [sdrop append] in H0.
    cbn [append replace_first]. rewrite H0. f_equal. apply IH.
    intros k Hk. apply (H (S k)). cbn [String.length]. lia.
Qed.

(* ================================================================== *)
(** * Properties of the totals per group *)
(* ================================================================== *)

Section Accumulation.
Variable op : num -> num -> num.
Variable key_of : Sample -> string.

Lemma upd_get (gk k : string) (v : num) (g : jsobj num) :
  obj_get k (upd op gk v g)
  = if String.eqb gk k then upd_step op (obj_get k g) v else obj_get k g.
Proof.
  unfold upd, upd_step. destruct (String.eqb gk k) eqn:E.
  - apply String.eqb_eq in E. subst. now rewrite obj_get_set_same.
  - apply String.eqb_neq in E. rewrite obj_get_set_other; congruence.
Qed.

Lemma upd_all_get (series : list Sample) :
  forall g k,
    obj_get k (upd_all op key_of series g)
    = fold_left (upd_step op) (values_of key_of k series) (obj_get k g).
Proof.
  unfold upd_all, values_of.
  induction series as [|s series IH]; intros g k;
    cbn [fold_left filter map]; [reflexivity|].
  rewrite IH, upd_get.
  destruct (String.eqb (key_of s) k); reflexivity.
Qed.

Lemma upd_all_nodup (series : list Sample) :
  forall g, NoDup (map fst g) -> NoDup (map fst (upd_all op key_of series g)).
Proof.
  unfold upd_all. induction series as [|s series IH]; intros g H;
    cbn [fold_left]; [exact H|].
  apply IH. unfold upd. now apply obj_set_nodup.
Qed.

Lemma upd_all_keys (series : list Sample) :
  forall g k,
    In k (map fst (upd_all op key_of series g))
    <-> In k (map fst g) \/ exists s, In s series /\ key_of s = k.
Proof.
  unfold upd_all. induction series as [|s series IH]; intros g k;
    cbn [fold_left].
  - split; [auto|]. intros [H|(s & [] & _)]. exact H.
  - rewrite IH. unfold upd. rewrite obj_set_keys. split.
    + intros [[->|H]|(s' & Hs & Hk)]; eauto with datatypes.
    + intros [H|(s' & [->|Hs] & Hk)]; eauto.
Qed.

Lemma upd_steps_some (vals : list num) :
  forall a, fold_left (upd_step op) vals (Some a)
            = Some (fold_left (fun acc v => op (orZero acc) v) vals a).
Proof.
  induction vals as [|v vals IH]; intros a; cbn [fold_left]; [reflexivity|].
  change (upd_step op (Some a) v) with (Some (op (orZero a) v)).
  apply IH.
Qed.

Lemma upd_steps_none (vals : list num) :
  fold_left (upd_step op) vals None
  = match vals with
    | [] => None
    | _ :: _ => Some (js_fold op vals)
    end.
Proof.
  destruct vals as [|v vals]; [reflexivity|].
  cbn [fold_left].
  change (upd_step op None v) with (Some (op (orZero fzero) v)).
  rewrite upd_steps_some. reflexivity.
Qed.

(** The entry of a key after the accumulation from an empty object: absent
    when no sample has the key, the accumulated value of its samples
    otherwise. *)
Lemma upd_all_total (series : list Sample) (k : string) :
  obj_get k (upd_all op key_of series [])
  = match values_of key_of k series with
    | [] => None
    | _ :: _ => Some (js_fold op (values_of key_of k series))
    end.
Proof. rewrite upd_all_get. cbn [obj_get]. apply upd_steps_none. Qed.
End Accumulation.

Lemma bump_all_nodup (key_of : Sample -> string) (series : list Sample)
      (g : jsobj num) :
  NoDup (map fst g) -> NoDup (map fst (bump_all key_of series g)).
Proof. apply (upd_all_nodup PrimFloat.add). Qed.

Lemma bump_all_keys (key_of : Sample -> string) (series : list Sample)
      (g : jsobj num) (k : string) :
  In k (map fst (bump_all key_of series g))
  <-> In k (map fst g) \/ exists s, In s series /\ key_of s = k.
Proof. apply (upd_all_keys PrimFloat.add). Qed.

Lemma bump_all_total (key_of : Sample -> string) (series : list Sample)
      (k : string) :
  obj_get k (bump_all key_of series [])
  = match values_of key_of k series with
    | [] => None
    | _ :: _ => Some (js_total (values_of key_of k series))
    end.
Proof. apply (upd_all_total PrimFloat.add). Qed.

Lemma values_of_nonempty (key_of : Sample -> string) (series : list Sample)
      (k : string) :
  values_of key_of k series <> [] <-> exists s, In s series /\ key_of s = k.
Proof.
  unfold values_of. split.
  - intros H. destruct (filter _ series) as [|s l] eqn:E; [now destruct H|].
    assert (Hin : In s (filter (fun s => String.eqb (key_of s) k) series))
      by (rewrite E; now left).
    apply filter_In in Hin as [Hin Hk]. apply String.eqb_eq in Hk. eauto.
  - intros (s & Hin & Hk) E.
    assert (H : In s (filter (fun s => String.eqb (key_of s) k) series)).
    { apply filter_In. split; [exact Hin|]. now apply String.eqb_eq. }
    destruct (filter _ series); [destruct H|discriminate E].
Qed.

(* ================================================================== *)
(** * Properties of the counter and gauge breakdown *)
(* ================================================================== *)

Lemma getGroupKey_none (lbls : jsobj string) : getGroupKey lbls None = "All".
Proof. reflexivity. Qed.

Lemma getGroupKey_label (lbls : jsobj string) (g : string) :
  is_empty g = false -> g <> "method + path" ->
  getGroupKey lbls (Some g) = label_or g lbls "Other".
Proof.
  intros He Hg. unfold getGroupKey. rewrite He.
  apply String.eqb_neq in Hg. now rewrite Hg.
Qed.

Lemma breakdown_rows (metrics : Metrics) (metricName : string)
      (groupBy : option string) (series : list Sample) :
  metrics_get metricName metrics = Some series ->
  Permutation
    (computeCounterBreakdown metrics metricName groupBy)
    (bump_all (fun s => getGroupKey (labels s) groupBy) series []).
Proof.
  intros H. unfold computeCounterBreakdown. rewrite H.
  rewrite js_sort_perm, obj_entries_perm. reflexivity.
Qed.

(** C8 (amended): the breakdown has one row per group key that occurs in the
    series; the value of a row is the total of the values of the samples with
    that key, accumulated in order as [(acc || 0) + value], which is their
    plain sum whenever no partial sum is NaN; the rows are in descending
    order of value whenever no total is NaN.  The key of a sample is [All]
    without grouping, the combination of its [method] and [path] labels for
    the grouping [method + path], and otherwise its value for the grouping
    label, or [Other] when that label is missing or empty.  The grouping
    label and the keys are no names that a plain object inherits. *)
Theorem counter_breakdown_totals (metrics : Metrics) (metricName : string)
  (groupBy : option string) (series : list Sample)
  (Hget : metrics_get metricName metrics = Some series)
  (Hown : own_grouping groupBy
          /\ own_keys (fun s => getGroupKey (labels s) groupBy) series) :
  let key := fun s => getGroupKey (labels s) groupBy in
  let rows := computeCounterBreakdown metrics metricName groupBy in
  NoDup (map fst rows)
  /\ (forall k v,
        In (k, v) rows
        <-> (exists s, In s series /\ key s = k)
            /\ v = js_total (values_of key k series))
  /\ (forall k, sums_defined (values_of key k series) ->
                js_total (values_of key k series)
                = plain_sum (values_of key k series))
  /\ ((forall r, In r rows -> isNaN (snd r) = false) -> descending rows)
  /\ (groupBy = None -> forall s, key s = "All")
  /\ (forall g, groupBy = Some g -> is_empty g = false ->
                g <> "method + path" ->
                forall s, key s = label_or g (labels s) "Other")
  /\ (groupBy = Some "method + path" ->
      forall s m p,
        obj_get "method" (labels s) = Some m -> is_empty m = false ->
        obj_get "path" (labels s) = Some p -> is_empty p = false ->
        key s = m ++ " " ++ p).
Proof.
  intros key rows.
  pose proof (breakdown_rows metrics metricName groupBy series Hget) as P.
  fold key in P. fold rows in P.
  assert (Hnd : NoDup (map fst (bump_all key series [])))
    by (apply bump_all_nodup; constructor).
  split.
  { eapply Permutation_NoDup; [|exact Hnd].
    symmetry. now apply Permutation_map. }
  split.
  { intros k v. split.
    - intros Hin. apply (Permutation_in _ P) in Hin.
      apply (In_obj_get _ _ _ Hnd) in Hin.
      rewrite bump_all_total in Hin.
      destruct (values_of key k series) eqn:E; [discriminate|].
      injection Hin as <-. split; [|reflexivity].
      apply values_of_nonempty. rewrite E. discriminate.
    - intros [Hk ->]. apply (Permutation_in _ (Permutation_sym P)).
      apply obj_get_In. rewrite bump_all_total.
      apply values_of_nonempty in Hk.
      destruct (values_of key k series); [now destruct Hk|reflexivity]. }
  split; [intros k; apply js_total_plain|].
  split.
  { intros Hn. unfold rows, computeCounterBreakdown. rewrite Hget.
    apply js_sort_descending. intros r Hr. apply Hn.
    unfold rows, computeCounterBreakdown. rewrite Hget.
    apply (Permutation_in _ (Permutation_sym (js_sort_perm _ _))). exact Hr. }
  split; [intros -> s; reflexivity|].
  split.
  { intros g -> He Hg s. unfold key. now apply getGroupKey_label. }
  intros -> s m p Hm Hme Hp Hpe. unfold key, getGroupKey, label_or.
  cbn [is_empty]. rewrite String.eqb_refl, Hm, Hp, Hme, Hpe. cbv iota.
  rewrite Hme, Hpe. reflexivity.
Qed.

Lemma counter_breakdown_totals_witness :
  let text := "http_requests_total{method=" ++ str1 dquote ++ "GET"
              ++ str1 dquote ++ "} 10" ++ str1 LF
              ++ "http_requests_total{method=" ++ str1 dquote ++ "POST"
              ++ str1 dquote ++ "} 5" in
  exists m,
    parsePrometheusMetrics text = Some m
    /\ computeCounterBreakdown m "http_requests_total" (Some "method")
       = [("GET", 10%float); ("POST", 5%float)]
    /\ descending (computeCounterBreakdown m "http_requests_total"
                     (Some "method")).
Proof.
  intros text.
  set (series := [mkSample [("method", "GET")] 10%float;
                  mkSample [("method", "POST")] 5%float]).
  exists [("http_requests_total", series)].
  split; [vm_compute; reflexivity|].
  split; [vm_compute; reflexivity|].
  assert (Ho : own_grouping (Some "method")
               /\ own_keys (fun s => getGroupKey (labels s) (Some "method"))
                    series).
  { split; [reflexivity|].
    intros s [<-|[<-|[]]]; reflexivity. }
  refine (proj1 (proj2 (proj2 (proj2
    (counter_breakdown_totals [("http_requests_total", series)]
       "http_requests_total" (Some "method") series eq_refl Ho)))) _).
  intros r Hr. vm_compute in Hr.
  destruct Hr as [<-|[<-|[]]]; reflexivity.
Defined.

(** C8, the claim as it is written fails: for the grouping [method + path]
    no sample has a label of that name, and the key is not [Other] but the
    combination of the two labels. *)
Lemma counter_breakdown_combined_key :
  let s := mkSample [("method", "GET"); ("path", "/x")] 1%float in
  obj_get "method + path" (labels s) = None
  /\ computeCounterBreakdown [("hits", [s])] "hits" (Some "method + path")
     = [("GET /x", 1%float)]
  /\ computeCounterBreakdown [("hits", [s])] "hits" (Some "method + path")
     <> [("Other", 1%float)].
Proof.
  intros s. split; [reflexivity|]. split; [vm_compute; reflexivity|].
  intros H. vm_compute in H. discriminate H.
Qed.

(* ================================================================== *)
(** * Properties of the summary widget *)
(* ================================================================== *)

Lemma grouped_not_ungrouped (g : string) (quantiles : list Sample)
      (ss cs : option (list Sample)) (a s c : num) (w : WidgetData) :
  widget_summary_grouped g quantiles ss cs a s c = Some w ->
  forall d a' s' c', w <> WSummary d a' s' c'.
Proof.
  unfold widget_summary_grouped, bar_of. intros H d a' s' c'.
  destruct quantiles as [|q qs].
  - destruct (obj_keys (group_avgs g ss cs)); [discriminate H|].
    injection H as <-. discriminate.
  - destruct (fold_left (quantile_step g) (q :: qs) ([], [])) as [groups allQ].
    destruct (filter _ _); destruct (obj_keys (group_avgs g ss cs));
      injection H as <-; discriminate.
Qed.

(** The last part of the summary branch: what is shown without grouping. *)
Lemma ungrouped_summary (quantiles : list Sample) (avg sum count : num)
      (data : list QRow) (a s c : num) :
  match quantiles with
  | _ :: _ =>
      WSummary
        (mkQRow "Avg" avg true
         :: map (fun e => mkQRow (fst e) (snd e) false)
              (js_sort by_percentile
                 (obj_entries (fold_left quantile_max_step quantiles []))))
        avg sum count
  | [] => WSingle avg
  end = WSummary data a s c ->
  a = avg
  /\ data = mkQRow "Avg" avg true
            :: map (fun e => mkQRow (fst e) (snd e) false)
                 (js_sort by_percentile
                    (obj_entries
                       (upd_all Math_max percentile_key quantiles []))).
Proof.
  destruct quantiles; [discriminate|].
  intros H. injection H as <- <- _ _. split; reflexivity.
Qed.

(** When the widget data is an ungrouped summary, it comes from the last
    part of the summary branch. *)
Lemma widget_summary_ungrouped (le_glyph : string) (metrics : Metrics)
      (metricName metricType : string) (config : Config)
      (data : list QRow) (avg sum count : num) :
  computeWidgetData le_glyph metrics metricName metricType config
  = WSummary data avg sum count ->
  exists series,
    metrics_get metricName metrics = Some series
    /\ data = mkQRow "Avg" avg true
              :: map (fun e => mkQRow (fst e) (snd e) false)
                   (js_sort by_percentile
                      (obj_entries
                         (upd_all Math_max percentile_key
                            (filter has_quantile series) []))).
Proof.
  unfold computeWidgetData.
  destruct (String.eqb metricType "histogram").
  { unfold widget_histogram.
    destruct (metrics_get (metricName ++ "_bucket") metrics); [|discriminate].
    destruct (fold_left _ _ _). discriminate. }
  destruct (String.eqb metricType "summary").
  2: { unfold widget_counter, bar_of.
       destruct (metrics_get metricName metrics); [|discriminate].
       destruct (widget_groupBy config); discriminate. }
  unfold widget_summary.
  destruct (metrics_get metricName metrics) as [series|] eqn:Es.
  - intros H. exists series. split; [reflexivity|].
    set (ss := metrics_get (metricName ++ "_sum") metrics) in *.
    set (cs := metrics_get (metricName ++ "_count") metrics) in *.
    destruct (widget_groupBy config) as [g|].
    + destruct (widget_summary_grouped g _ ss cs _ _ _) as [w|] eqn:Eg.
      * exfalso. subst w.
        now apply (grouped_not_ungrouped _ _ _ _ _ _ _ _ Eg data avg sum count).
      * apply ungrouped_summary in H as [-> ->]. reflexivity.
    + apply ungrouped_summary in H as [-> ->]. reflexivity.
  - set (ss := metrics_get (metricName ++ "_sum") metrics) in *.
    set (cs := metrics_get (metricName ++ "_count") metrics) in *.
    destruct ss, cs; try discriminate;
      (destruct (widget_groupBy config) as [g|];
       [destruct (widget_summary_grouped g _ _ _ _ _ _) as [w|] eqn:Eg;
        [intros ->; exfalso;
         now apply (grouped_not_ungrouped _ _ _ _ _ _ _ _ Eg data avg sum count)
        |discriminate]
       |discriminate]).
Qed.

(** C10 (amended): in an ungrouped summary the first row is [Avg]; after it
    comes one row per percentile key of the quantile samples, its value
    being the greatest of 0 and the values of the samples with that key (so
    never their sum nor their average, and never below 0); the rows are in
    ascending order of the number in their name whenever none of these is
    NaN. *)
Theorem ungrouped_summary_rows (le_glyph : string) (metrics : Metrics)
  (metricName metricType : string) (config : Config)
  (data : list QRow) (avg sum count : num)
  (H : computeWidgetData le_glyph metrics metricName metricType config
       = WSummary data avg sum count) :
  exists series rows,
    metrics_get metricName metrics = Some series
    /\ data = mkQRow "Avg" avg true :: rows
    /\ NoDup (map qname rows)
    /\ (forall r,
          In r rows
          <-> isAvg r = false
              /\ (exists q, In q (filter has_quantile series)
                            /\ percentile_key q = qname r)
              /\ qvalue r = js_max (values_of percentile_key (qname r)
                                      (filter has_quantile series)))
    /\ (forall k,
          Forall (fun v => isNaN v = false)
                 (values_of percentile_key k (filter has_quantile series)) ->
          is_max_with_zero
            (js_max (values_of percentile_key k (filter has_quantile series)))
            (values_of percentile_key k (filter has_quantile series)))
    /\ ((forall r, In r rows -> isNaN (percentile (qname r)) = false) ->
        ascending_percentiles rows).
Proof.
  apply widget_summary_ungrouped in H as (series & Hs & ->).
  set (quantiles := filter has_quantile series).
  set (groups := upd_all Math_max percentile_key quantiles []).
  set (entries := js_sort by_percentile (obj_entries groups)).
  set (mk := fun e : string * num => mkQRow (fst e) (snd e) false).
  exists series, (map mk entries).
  assert (P : Permutation entries groups).
  { unfold entries. rewrite js_sort_perm, obj_entries_perm. reflexivity. }
  assert (Hnd : NoDup (map fst groups))
    by (apply upd_all_nodup; constructor).
  assert (Hget : forall k v,
             In (k, v) entries
             <-> (exists q, In q quantiles /\ percentile_key q = k)
                 /\ v = js_max (values_of percentile_key k quantiles)).
  { intros k v. split.
    - intros Hin. apply (Permutation_in _ P) in Hin.
      apply (In_obj_get _ _ _ Hnd) in Hin. unfold groups in Hin.
      rewrite upd_all_total in Hin.
      destruct (values_of percentile_key k quantiles) eqn:E; [discriminate|].
      injection Hin as <-. split; [|reflexivity].
      apply values_of_nonempty. rewrite E. discriminate.
    - intros [Hk ->]. apply (Permutation_in _ (Permutation_sym P)).
      apply obj_get_In. unfold groups. rewrite upd_all_total.
      apply values_of_nonempty in Hk.
      destruct (values_of percentile_key k quantiles);
        [now destruct Hk|reflexivity]. }
  split; [exact Hs|]. split; [reflexivity|]. split.
  { rewrite map_map. cbn [mk qname].
    eapply Permutation_NoDup; [|exact Hnd].
    symmetry. now apply Permutation_map. }
  split.
  { intros r. rewrite in_map_iff. split.
    - intros ([k v] & <- & Hin). cbn [mk qname qvalue isAvg fst snd].
      apply Hget in Hin as [Hk Hv]. auto.
    - intros (Ha & Hk & Hv). exists (qname r, qvalue r).
      split; [destruct r; cbn in *; now subst|].
      apply Hget. split; assumption. }
  split; [intros k Hk; now apply js_max_is_max|].
  intros Hn. unfold ascending_percentiles. apply Sorted_map.
  apply (js_sort_by_key (fun e : string * num => percentile (fst e))).
  intros e He. apply (Hn (mk e)). apply in_map.
  unfold entries. apply (Permutation_in _ (Permutation_sym (js_sort_perm _ _))).
  exact He.
Qed.

Lemma ungrouped_summary_rows_witness :
  let m := [("rpc_seconds",
             [mkSample [("quantile", "0.9"); ("host", "a")] 4%float;
              mkSample [("quantile", "0.5"); ("host", "a")] 2%float;
              mkSample [("quantile", "0.9"); ("host", "b")] 7%float;
              mkSample [("quantile", "0.5"); ("host", "b")] 1%float])] in
  computeWidgetData ascii_le_glyph m "rpc_seconds" "summary" (mkConfig None)
  = WSummary [mkQRow "Avg" 0%float true; mkQRow "P50" 2%float false;
              mkQRow "P90" 7%float false] 0%float 0%float 0%float
  /\ ascending_percentiles [mkQRow "P50" 2%float false;
                            mkQRow "P90" 7%float false].
Proof.
  intros m.
  assert (E : computeWidgetData ascii_le_glyph m "rpc_seconds" "summary" (mkConfig None)
              = WSummary [mkQRow "Avg" 0%float true; mkQRow "P50" 2%float false;
                          mkQRow "P90" 7%float false] 0%float 0%float 0%float)
    by (vm_compute; reflexivity).
  split; [exact E|].
  destruct (ungrouped_summary_rows _ _ _ _ _ _ _ _ _ E)
    as (series & rows & _ & Hd & _ & _ & _ & Hs).
  injection Hd as <-. apply Hs.
  intros r [<-|[<-|[]]]; vm_compute; reflexivity.
Defined.

(** C10, the claim as it is written fails: two samples of quantile 0.5 with
    the values -1 and -2 are shown as 0, which is not the maximum -1 of the
    two values. *)
Lemma ungrouped_summary_negative_values :
  let m := [("delta",
             [mkSample [("quantile", "0.5")] (-1)%float;
              mkSample [("quantile", "0.5")] (-2)%float])] in
  computeWidgetData ascii_le_glyph m "delta" "summary" (mkConfig None)
  = WSummary [mkQRow "Avg" 0%float true; mkQRow "P50" 0%float false]
             0%float 0%float 0%float
  /\ Math_max (-1)%float (-2)%float = (-1)%float
  /\ PrimFloat.eqb 0%float (-1)%float = false.
Proof.
  intros m. split; [vm_compute; reflexivity|].
  split; vm_compute; reflexivity.
Qed.

(** ** The averages of a grouped summary *)

Lemma bump2_keys (gk k : string) (v : num) (groups : jsobj (jsobj num)) :
  forall x, In x (map fst (bump2 gk k v groups))
            <-> x = gk \/ In x (map fst groups).
Proof. intros x. unfold bump2. apply obj_set_keys. Qed.

Lemma quantile_groups_keys (g : string) (qs : list Sample) :
  forall groups allQ k,
    In k (map fst (fst (fold_left (quantile_step g) qs (groups, allQ))))
    <-> In k (map fst groups) \/ exists q, In q qs /\ summary_group g q = k.
Proof.
  induction qs as [|q qs IH]; intros groups allQ k; cbn [fold_left].
  - cbn [fst]. split; [auto|]. intros [H|(q & [] & _)]. exact H.
  - unfold quantile_step at 2. rewrite IH, bump2_keys. split.
    + intros [[->|H]|(q' & Hq & Hk)].
      * right. exists q. split; [now left|reflexivity].
      * now left.
      * right. exists q'. split; [now right|exact Hk].
    + intros [H|(q' & [->|Hq] & Hk)].
      * left. now right.
      * left. left. now rewrite <- Hk.
      * right. eauto.
Qed.

Lemma group_avgs_value (g : string) (ss cs : option (list Sample))
      (k : string) :
  optOrZero (obj_get k (group_avgs g ss cs)) = group_avg g ss cs k.
Proof.
  unfold group_avg, group_avgs.
  destruct ss as [ss|]; cbn [series_or_empty].
  2: { cbn [obj_get optOrZero]. destruct cs; symmetry; apply ratio_zero. }
  destruct cs as [cs|]; cbn [series_or_empty].
  2: { cbn [obj_get optOrZero values_of filter map]. reflexivity. }
  change (group_totals g ss) with (bump_all (summary_group g) ss []).
  change (group_totals g cs) with (bump_all (summary_group g) cs []).
  set (sums := bump_all (summary_group g) ss []).
  set (counts := bump_all (summary_group g) cs []).
  set (f := fun gKey => ratio (optOrZero (obj_get gKey sums))
                              (optOrZero (obj_get gKey counts))).
  assert (Ec : optOrZero (obj_get k counts)
               = orZero (js_total (values_of (summary_group g) k cs))).
  { unfold counts. rewrite bump_all_total.
    destruct (values_of (summary_group g) k cs); reflexivity. }
  destruct (in_dec string_dec k (obj_keys sums)) as [Hin|Hout].
  - rewrite (cols_get f _ _ Hin). cbn [optOrZero]. unfold f. rewrite Ec.
    assert (Es : optOrZero (obj_get k sums)
                 = orZero (js_total (values_of (summary_group g) k ss))).
    { unfold sums. rewrite bump_all_total.
      destruct (values_of (summary_group g) k ss); reflexivity. }
    rewrite Es. apply ratio_orZero.
  - rewrite (cols_get_other f _ _ Hout). cbn [obj_get optOrZero].
    assert (En : values_of (summary_group g) k ss = []).
    { rewrite obj_keys_in in Hout.
      assert (G : obj_get k sums = None) by now apply obj_get_none.
      unfold sums in G. rewrite bump_all_total in G.
      destruct (values_of (summary_group g) k ss); [reflexivity|discriminate]. }
    rewrite En. symmetry. apply ratio_zero.
Qed.

Lemma ungrouped_not_grouped (quantiles : list Sample) (avg sum count : num)
      (d : list Row) (ks : list string) (a s c : num) :
  match quantiles with
  | _ :: _ =>
      WSummary
        (mkQRow "Avg" avg true
         :: map (fun e => mkQRow (fst e) (snd e) false)
              (js_sort by_percentile
                 (obj_entries (fold_left quantile_max_step quantiles []))))
        avg sum count
  | [] => WSingle avg
  end <> WSummaryGrouped d ks a s c.
Proof. destruct quantiles; discriminate. Qed.

Lemma grouped_nil_not_grouped (g : string) (ss cs : option (list Sample))
      (a s c : num) (data : list Row) (keys : list string) (a' s' c' : num) :
  widget_summary_grouped g [] ss cs a s c
  <> Some (WSummaryGrouped data keys a' s' c').
Proof.
  unfold widget_summary_grouped, bar_of.
  destruct (obj_keys (group_avgs g ss cs)); discriminate.
Qed.

Lemma grouped_summary_shape (g : string) (quantiles : list Sample)
      (ss cs : option (list Sample)) (a s c : num)
      (data : list Row) (keys : list string) (a' s' c' : num) :
  widget_summary_grouped g quantiles ss cs a s c
  = Some (WSummaryGrouped data keys a' s' c') ->
  keys = obj_keys (fst (fold_left (quantile_step g) quantiles ([], [])))
  /\ exists rest, data = avg_row (group_avgs g ss cs) keys :: rest.
Proof.
  unfold widget_summary_grouped, bar_of.
  destruct quantiles as [|q qs].
  - destruct (obj_keys (group_avgs g ss cs)); discriminate.
  - destruct (fold_left (quantile_step g) (q :: qs) ([], [])) as [groups allQ].
    cbn [fst].
    destruct (filter _ _) as [|r rs] eqn:Ef;
      destruct (obj_keys (group_avgs g ss cs)); intros H;
      try discriminate H; injection H as <- <- _ _ _;
      (split; [reflexivity|eexists; reflexivity]).
Qed.

Lemma widget_summary_grouped_inv (le_glyph : string) (metrics : Metrics)
      (metricName metricType : string) (config : Config)
      (data : list Row) (keys : list string) (avg sum count : num) :
  computeWidgetData le_glyph metrics metricName metricType config
  = WSummaryGrouped data keys avg sum count ->
  exists g series rest,
    widget_groupBy config = Some g
    /\ metrics_get metricName metrics = Some series
    /\ keys = obj_keys (fst (fold_left (quantile_step g)
                               (filter has_quantile series) ([], [])))
    /\ data = avg_row (group_avgs g
                         (metrics_get (metricName ++ "_sum") metrics)
                         (metrics_get (metricName ++ "_count") metrics)) keys
              :: rest.
Proof.
  unfold computeWidgetData.
  destruct (String.eqb metricType "histogram").
  { unfold widget_histogram.
    destruct (metrics_get (metricName ++ "_bucket") metrics); [|discriminate].
    destruct (fold_left _ _ _). discriminate. }
  destruct (String.eqb metricType "summary").
  2: { unfold widget_counter, bar_of.
       destruct (metrics_get metricName metrics); [|discriminate].
       destruct (widget_groupBy config); discriminate. }
  unfold widget_summary.
  set (ss := metrics_get (metricName ++ "_sum") metrics) in *.
  set (cs := metrics_get (metricName ++ "_count") metrics) in *.
  destruct (metrics_get metricName metrics) as [series|] eqn:Es.
  - intros H.
    destruct (widget_groupBy config) as [g|];
      [|now apply ungrouped_not_grouped in H].
    destruct (widget_summary_grouped g _ ss cs _ _ _) as [w|] eqn:Eg;
      [|now apply ungrouped_not_grouped in H].
    subst w. apply grouped_summary_shape in Eg as (Hk & rest & Hd).
    exists g, series, rest. auto.
  - cbn [filter]. intros H. exfalso.
    destruct ss, cs; try discriminate H;
      (destruct (widget_groupBy config) as [g|]; [|discriminate H];
       destruct (widget_summary_grouped g [] _ _ _ _ _) as [w|] eqn:Eg;
       [|discriminate H]; subst w;
       now apply grouped_nil_not_grouped in Eg).
Qed.

(** C6 (amended): in a grouped summary the first row is [Avg] (its [name],
    unless a group is called [name] and takes that property), with one
    column per group of the quantile samples.  The value of a group is the
    total of the group in the [_sum] series divided by its total in the
    [_count] series when that count total is greater than 0, and 0 when the
    count total is 0, negative, NaN or missing; a quotient that is zero or
    NaN shows as 0.  The totals are the plain sums whenever no partial sum is
    NaN.  The grouping label, the groups and the quantile labels are no
    names that a plain object inherits. *)
Theorem grouped_summary_avg (le_glyph : string) (metrics : Metrics)
  (metricName metricType : string) (config : Config)
  (data : list Row) (keys : list string) (avg sum count : num)
  (Hown : forall g, widget_groupBy config = Some g ->
                    summary_own_names metrics metricName g)
  (H : computeWidgetData le_glyph metrics metricName metricType config
       = WSummaryGrouped data keys avg sum count) :
  exists g series row rest,
    let sums := series_or_empty (metrics_get (metricName ++ "_sum") metrics) in
    let counts :=
      series_or_empty (metrics_get (metricName ++ "_count") metrics) in
    let S := fun k => js_total (values_of (summary_group g) k sums) in
    let C := fun k => js_total (values_of (summary_group g) k counts) in
    widget_groupBy config = Some g
    /\ metrics_get metricName metrics = Some series
    /\ data = row :: rest
    /\ (~ In "name" keys -> row_str "name" row = Some "Avg")
    /\ (forall k, In k keys
                  <-> exists q, In q (filter has_quantile series)
                                /\ summary_group g q = k)
    /\ (forall k, In k keys ->
          exists v,
            row_num k row = Some v
            /\ (gt (C k) fzero = true -> v = orZero (PrimFloat.div (S k) (C k)))
            /\ (gt (C k) fzero = false -> v = fzero))
    /\ (forall k,
          (sums_defined (values_of (summary_group g) k sums) ->
           S k = plain_sum (values_of (summary_group g) k sums))
          /\ (sums_defined (values_of (summary_group g) k counts) ->
              C k = plain_sum (values_of (summary_group g) k counts))).
Proof.
  apply widget_summary_grouped_inv in H
    as (g & series & rest & Hg & Hs & Hk & Hd).
  exists g, series,
    (avg_row (group_avgs g (metrics_get (metricName ++ "_sum") metrics)
                (metrics_get (metricName ++ "_count") metrics)) keys), rest.
  cbv zeta.
  split; [exact Hg|]. split; [exact Hs|]. split; [exact Hd|].
  split.
  { intros Hn. unfold avg_row, row_str.
    rewrite (cols_get_other (fun gKey => VNum (optOrZero (obj_get gKey _)))
               keys "name" Hn).
    reflexivity. }
  split.
  { intros k. rewrite Hk, obj_keys_in, quantile_groups_keys. cbn [map In].
    tauto. }
  split.
  { intros k Hin. eexists. split.
    - unfold avg_row, row_num.
      rewrite (cols_get (fun gKey => VNum (optOrZero (obj_get gKey _)))
                 keys k Hin).
      rewrite group_avgs_value. reflexivity.
    - unfold group_avg, ratio. split; intros ->; reflexivity. }
  intros k. split; apply js_total_plain.
Qed.

Lemma grouped_summary_avg_witness :
  let m := [("rpc_seconds",
             [mkSample [("quantile", "0.5"); ("host", "a")] 2%float;
              mkSample [("quantile", "0.5"); ("host", "b")] 3%float]);
            ("rpc_seconds_sum",
             [mkSample [("host", "a")] 10%float;
              mkSample [("host", "b")] 9%float]);
            ("rpc_seconds_count",
             [mkSample [("host", "a")] 4%float;
              mkSample [("host", "b")] 0%float])] in
  computeWidgetData ascii_le_glyph m "rpc_seconds" "summary" (mkConfig (Some "host"))
  = WSummaryGrouped
      [[("name", VStr "Avg"); ("a", VNum 2.5%float); ("b", VNum 0%float)];
       [("name", VStr "P50"); ("a", VNum 2%float); ("b", VNum 3%float)]]
      ["a"; "b"] 4.75%float 19%float 4%float
  /\ PrimFloat.div 10%float 4%float = 2.5%float.
Proof.
  intros m.
  assert (E : computeWidgetData ascii_le_glyph m "rpc_seconds" "summary"
                (mkConfig (Some "host"))
              = WSummaryGrouped
                  [[("name", VStr "Avg"); ("a", VNum 2.5%float); ("b", VNum 0%float)];
                   [("name", VStr "P50"); ("a", VNum 2%float); ("b", VNum 3%float)]]
                  ["a"; "b"] 4.75%float 19%float 4%float)
    by (vm_compute; reflexivity).
  split; [exact E|].
  assert (Ho : forall g, widget_groupBy (mkConfig (Some "host")) = Some g ->
                         summary_own_names m "rpc_seconds" g).
  { intros g [= <-]. split; [reflexivity|].
    repeat split; intros s Hs; vm_compute in Hs;
      repeat (destruct Hs as [<-|Hs]; [reflexivity|]); destruct Hs. }
  destruct (grouped_summary_avg _ _ _ _ _ _ _ _ _ _ Ho E)
    as (g & series & row & rest & Hg & _ & Hd & _ & _ & Hv & _).
  injection Hg as <-. injection Hd as <- _.
  destruct (Hv "a" (or_introl eq_refl)) as (v & Hget & Hpos & _).
  injection Hget as <-.
  specialize (Hpos ltac:(vm_compute; reflexivity)).
  vm_compute in Hpos. vm_compute. exact (eq_sym Hpos).
Defined.

(** C6, the claim as it is written fails: with a count of -1 and a sum of 5
    the average shown for the group is 0, not the quotient -5, although the
    count is not 0. *)
Lemma grouped_summary_negative_count :
  let m := [("lag",
             [mkSample [("quantile", "0.5"); ("host", "a")] 2%float]);
            ("lag_sum", [mkSample [("host", "a")] 5%float]);
            ("lag_count", [mkSample [("host", "a")] (-1)%float])] in
  computeWidgetData ascii_le_glyph m "lag" "summary" (mkConfig (Some "host"))
  = WSummaryGrouped
      [[("name", VStr "Avg"); ("a", VNum 0%float)];
       [("name", VStr "P50"); ("a", VNum 2%float)]]
      ["a"] 0%float 5%float (-1)%float
  /\ PrimFloat.div 5%float (-1)%float = (-5)%float
  /\ PrimFloat.eqb 0%float (-5)%float = false
  /\ PrimFloat.eqb (-1)%float 0%float = false.
Proof.
  intros m. split; [vm_compute; reflexivity|].
  repeat split; vm_compute; reflexivity.
Qed.
(* ================================================================== *)
(** * Properties of the bucket chart *)
(* ================================================================== *)

Lemma cell_cell_opt (groups : jsobj (jsobj num)) (g k : string) :
  cell groups g k = optOrZero (cell_opt groups g k).
Proof. unfold cell, cell_opt. now destruct (obj_get g groups). Qed.

Lemma cell_opt_bump2 (gk k : string) (v : num) (groups : jsobj (jsobj num))
      (g l : string) :
  cell_opt (bump2 gk k v groups) g l
  = if String.eqb k l && String.eqb gk g
    then upd_step PrimFloat.add (cell_opt groups g l) v
    else cell_opt groups g l.
Proof.
  unfold cell_opt, bump2.
  destruct (String.eqb gk g) eqn:Eg.
  - apply String.eqb_eq in Eg. subst gk. rewrite obj_get_set_same.
    destruct (String.eqb k l) eqn:Ek; cbn [andb].
    + apply String.eqb_eq in Ek. subst k. rewrite obj_get_set_same.
      unfold upd_step. now destruct (obj_get g groups).
    + apply String.eqb_neq in Ek. rewrite obj_get_set_other by congruence.
      now destruct (obj_get g groups).
  - rewrite andb_false_r. apply String.eqb_neq in Eg.
    rewrite obj_get_set_other by congruence. reflexivity.
Qed.

Section BucketAccumulation.
Variable key_of : jsobj string -> string.

Lemma hist_step_le (acc : jsobj (jsobj num) * list string) (s : Sample) :
  hist_step key_of acc s
  = match le_of s with
    | Some le => (bump2 (key_of (labels s)) le (value s) (fst acc),
                  set_add le (snd acc))
    | None => acc
    end.
Proof.
  unfold hist_step, le_of. destruct acc as [groups allLe].
  destruct (obj_get "le" (labels s)) as [le|]; [|reflexivity].
  now destruct (is_empty le).
Qed.

Lemma hist_fold_cell (series : list Sample) (g l : string) :
  forall acc,
    cell_opt (fst (fold_left (hist_step key_of) series acc)) g l
    = fold_left (upd_step PrimFloat.add) (bucket_values key_of g l series)
        (cell_opt (fst acc) g l).
Proof.
  unfold bucket_values.
  induction series as [|s series IH]; intros acc;
    cbn [fold_left filter map]; [reflexivity|].
  rewrite IH, hist_step_le.
  destruct (le_of s) as [le|]; [|reflexivity].
  cbn [fst]. rewrite cell_opt_bump2.
  destruct (String.eqb le l && String.eqb (key_of (labels s)) g);
    reflexivity.
Qed.

(** The cell of a group at a bound holds the total of its bucket samples. *)
Lemma hist_fold_total (series : list Sample) (g l : string) :
  cell (fst (fold_left (hist_step key_of) series ([], []))) g l
  = orZero (js_total (bucket_values key_of g l series)).
Proof.
  rewrite cell_cell_opt, hist_fold_cell. cbn [fst cell_opt obj_get].
  rewrite upd_steps_none.
  destruct (bucket_values key_of g l series); [|reflexivity].
  cbn [optOrZero js_total fold_left]. now rewrite orZero_zero.
Qed.

Lemma hist_fold_keys (series : list Sample) (g : string) :
  forall acc,
    In g (map fst (fst (fold_left (hist_step key_of) series acc)))
    <-> In g (map fst (fst acc))
        \/ exists s l, In s series /\ le_of s = Some l
                       /\ key_of (labels s) = g.
Proof.
  induction series as [|s series IH]; intros acc; cbn [fold_left].
  - split; [auto|]. intros [H|(s & l & [] & _)]. exact H.
  - rewrite IH, hist_step_le. destruct (le_of s) as [le|] eqn:E.
    + cbn [fst]. unfold bump2. rewrite obj_set_keys. split.
      * intros [[->|H]|(s' & l & Hs & Hl & Hk)]; eauto 7 with datatypes.
      * intros [H|(s' & l & [->|Hs] & Hl & Hk)]; eauto 7.
    + split.
      * intros [H|(s' & l & Hs & Hl & Hk)]; eauto 7 with datatypes.
      * intros [H|(s' & l & [->|Hs] & Hl & Hk)]; eauto 7. congruence.
Qed.

Lemma hist_fold_keys_nodup (series : list Sample) :
  forall acc,
    NoDup (map fst (fst acc)) ->
    NoDup (map fst (fst (fold_left (hist_step key_of) series acc))).
Proof.
  induction series as [|s series IH]; intros acc H; cbn [fold_left];
    [exact H|].
  apply IH. rewrite hist_step_le. destruct (le_of s); [|exact H].
  cbn [fst]. unfold bump2. now apply obj_set_nodup.
Qed.

Lemma hist_fold_les (series : list Sample) :
  forall acc,
    NoDup (snd acc) ->
    NoDup (snd (fold_left (hist_step key_of) series acc))
    /\ forall l,
        In l (snd (fold_left (hist_step key_of) series acc))
        <-> In l (snd acc) \/ exists s, In s series /\ le_of s = Some l.
Proof.
  induction series as [|s series IH]; intros acc H; cbn [fold_left].
  - split; [exact H|]. intros l. split; [auto|].
    intros [Hl|(s & [] & _)]. exact Hl.
  - rewrite hist_step_le. destruct (le_of s) as [le|] eqn:E.
    + destruct (IH (bump2 (key_of (labels s)) le (value s) (fst acc),
                    set_add le (snd acc))) as [N I].
      { cbn [snd]. now apply set_add_nodup. }
      split; [exact N|]. intros l. rewrite I. cbn [snd].
      rewrite set_add_in. split.
      * intros [[Hl| ->]|(s' & Hs & Hl)]; eauto with datatypes.
      * intros [Hl|(s' & [->|Hs] & Hl)]; eauto.
        left. right. congruence.
    + destruct (IH acc H) as [N I]. split; [exact N|].
      intros l. rewrite I. split.
      * intros [Hl|(s' & Hs & Hl)]; eauto with datatypes.
      * intros [Hl|(s' & [->|Hs] & Hl)]; eauto. congruence.
Qed.
End BucketAccumulation.

Lemma canonical_le_spec (l : string) :
  canonical_le l = true ->
  leStr (leNum l) = l
  /\ isNaN (leNum l) = false
  /\ (isFinite (leNum l) = true \/ leNum l = Infinity).
Proof.
  unfold canonical_le. rewrite andb_true_iff, orb_true_iff.
  intros [E [F|I]].
  - apply String.eqb_eq in E. auto using isFinite_not_nan.
  - apply String.eqb_eq in E. apply String.eqb_eq in I. subst l.
    split; [exact E|]. split; [reflexivity|]. right. reflexivity.
Qed.

Lemma leb_infinity (x : num) :
  PrimFloat.leb Infinity x = true -> x = Infinity.
Proof.
  rewrite leb_spec. change (Prim2SF Infinity) with (S754_infinity false).
  intros H. apply Prim2SF_inj.
  change (Prim2SF Infinity) with (S754_infinity false).
  destruct (Prim2SF x) as [s|s| |s m e]; try discriminate H;
    destruct s; try discriminate H; reflexivity.
Qed.

Lemma isFinite_infinity : isFinite Infinity = false.
Proof. reflexivity. Qed.

Lemma NoDup_map_on {A B : Type} (f : A -> B) (l : list A) :
  NoDup l ->
  (forall x y, In x l -> In y l -> f x = f y -> x = y) ->
  NoDup (map f l).
Proof.
  induction 1 as [|x l Hx Hl IH]; intros Hf; cbn [map]; constructor.
  - intros Hin. apply in_map_iff in Hin. destruct Hin as (y & Hy & Hin).
    assert (y = x) by (apply Hf; auto with datatypes). now subst.
  - apply IH. intros; apply Hf; auto with datatypes.
Qed.

Lemma Sorted_adjacent {A : Type} (R : A -> A -> Prop) (l : list A) :
  Sorted R l ->
  forall i a b, nth_error l i = Some a -> nth_error l (S i) = Some b -> R a b.
Proof.
  induction 1 as [|x l Hs IH Hh]; intros i a b Ha Hb.
  - destruct i; discriminate Ha.
  - destruct i as [|i].
    + cbn in Ha, Hb. injection Ha as <-.
      destruct Hh as [|y l Hy]; [discriminate Hb|].
      cbn in Hb. injection Hb as <-. exact Hy.
    + exact (IH i a b Ha Hb).
Qed.

(** The bounds of the chart: the distinct numbers of the labels, ascending,
    the infinite one last. *)
Lemma sorted_le_facts (allLe : list string) :
  NoDup allLe ->
  (forall l, In l allLe -> canonical_le l = true) ->
  (forall x, In x (sorted_le allLe) <-> exists l, In l allLe /\ leNum l = x)
  /\ NoDup (sorted_le allLe)
  /\ Sorted (fun a b => PrimFloat.leb a b = true) (sorted_le allLe)
  /\ (forall i, nth_error (sorted_le allLe) i = Some Infinity ->
                S i = List.length (sorted_le allLe)).
Proof.
  intros Hnd Hc.
  assert (Hp : Permutation (sorted_le allLe) (map leNum allLe))
    by apply js_sort_perm.
  assert (Hin : forall x, In x (sorted_le allLe)
                          <-> exists l, In l allLe /\ leNum l = x).
  { intros x. split.
    - intros H. apply (Permutation_in _ Hp) in H.
      apply in_map_iff in H. destruct H as (l & E & H). eauto.
    - intros (l & H & E). apply (Permutation_in _ (Permutation_sym Hp)).
      apply in_map_iff. eauto. }
  assert (Hn : NoDup (sorted_le allLe)).
  { apply (Permutation_NoDup (Permutation_sym Hp)).
    apply NoDup_map_on; [exact Hnd|].
    intros x y Hx Hy E.
    destruct (canonical_le_spec x (Hc x Hx)) as (Ex & _).
    destruct (canonical_le_spec y (Hc y Hy)) as (Ey & _).
    congruence. }
  assert (Hs : Sorted (fun a b => PrimFloat.leb a b = true)
                      (sorted_le allLe)).
  { apply (js_sort_by_key (fun x => x)).
    intros x Hx. apply in_map_iff in Hx. destruct Hx as (l & <- & Hl).
    now destruct (canonical_le_spec l (Hc l Hl)) as (_ & N & _). }
  repeat split; try assumption; try apply Hin.
  intros i Hi.
  assert (Li : i < List.length (sorted_le allLe))
    by (apply nth_error_Some; congruence).
  destruct (Nat.eq_dec (S i) (List.length (sorted_le allLe))) as [|Hne];
    [assumption|exfalso].
  assert (Lj : S i < List.length (sorted_le allLe)) by lia.
  destruct (nth_error (sorted_le allLe) (S i)) as [b|] eqn:Hb;
    [|apply nth_error_None in Hb; lia].
  pose proof (Sorted_adjacent _ _ Hs i _ _ Hi Hb) as Hle.
  apply leb_infinity in Hle. subst b.
  rewrite NoDup_nth_error in Hn.
  specialize (Hn i (S i) Li). rewrite Hi, Hb in Hn.
  specialize (Hn eq_refl). lia.
Qed.

Lemma mapi_from_seq {A B : Type} (f : A -> nat -> B) (d : A) (l : list A) :
  forall k, mapi_from f k l
            = map (fun i => f (nth i l d) (k + i)) (seq 0 (List.length l)).
Proof.
  induction l as [|x l IH]; intros k; cbn [mapi_from List.length seq map];
    [reflexivity|].
  rewrite Nat.add_0_r. f_equal.
  rewrite IH, <- seq_shift, map_map.
  apply map_ext. intros i. cbn [nth]. f_equal. lia.
Qed.

Lemma mapi_seq {A B : Type} (f : A -> nat -> B) (d : A) (l : list A) :
  mapi f l = map (fun i => f (nth i l d) i) (seq 0 (List.length l)).
Proof. unfold mapi. now rewrite (mapi_from_seq f d). Qed.

Lemma exclusive_cols_get (groups : jsobj (jsobj num)) (leStrs : list string)
      (idx : nat) (g : string) (row : Row) :
  In g (obj_keys groups) ->
  obj_get g (exclusive_cols groups leStrs idx row)
  = Some (VNum (exclusive groups leStrs idx g)).
Proof.
  intros H. unfold exclusive_cols.
  exact (cols_get (fun gk => VNum (exclusive groups leStrs idx gk)) _ _ H row).
Qed.

Lemma exclusive_cols_other (groups : jsobj (jsobj num))
      (leStrs : list string) (idx : nat) (g : string) (row : Row) :
  ~ In g (obj_keys groups) ->
  obj_get g (exclusive_cols groups leStrs idx row) = obj_get g row.
Proof.
  intros H. unfold exclusive_cols.
  exact (cols_get_other (fun gk => VNum (exclusive groups leStrs idx gk))
           _ _ H row).
Qed.

Lemma nth_map_leStr (les : list num) (i : nat) :
  i < List.length les ->
  nth i (map leStr les) "" = leStr (nth i les fzero).
Proof.
  intros H. rewrite (nth_indep _ "" (leStr fzero)) by now rewrite length_map.
  apply map_nth.
Qed.

(** The value the chart computes is the floored difference of the
    cumulative values. *)
Lemma exclusive_is_exclusive_value (groupBy : option string)
      (series : list Sample) (les : list num) (i : nat) (g : string) :
  i < List.length les ->
  exclusive
    (fst (fold_left (hist_step (fun l => getGroupKey l groupBy)) series
            ([], [])))
    (map leStr les) i g
  = exclusive_value groupBy series les g i.
Proof.
  intros H. unfold exclusive, exclusive_value, cumulative.
  rewrite nth_map_leStr, hist_fold_total by exact H.
  destruct i as [|j]; [reflexivity|].
  rewrite nth_map_leStr, hist_fold_total by lia. reflexivity.
Qed.

(** Sums over the rows of a chart. *)
Lemma filter_map_comm {A B : Type} (f : A -> B) (p : B -> bool) (l : list A) :
  filter p (map f l) = map f (filter (fun x => p (f x)) l).
Proof.
  induction l as [|x l IH]; cbn [map filter]; [reflexivity|].
  destruct (p (f x)); cbn [map]; now rewrite IH.
Qed.

Lemma sum_app (l1 l2 : list Z) :
  fold_right Z.add 0%Z (l1 ++ l2)
  = (fold_right Z.add 0%Z l1 + fold_right Z.add 0%Z l2)%Z.
Proof.
  induction l1 as [|x l1 IH]; cbn [app fold_right]; [reflexivity|].
  rewrite IH. lia.
Qed.

Lemma sum_filter_zero {A : Type} (F : A -> Z) (p q : A -> bool) (l : list A) :
  (forall x, In x l -> p x = false -> F x = 0%Z) ->
  fold_right Z.add 0%Z (map F (filter q (filter p l)))
  = fold_right Z.add 0%Z (map F (filter q l)).
Proof.
  induction l as [|x l IH]; intros H; cbn [filter]; [reflexivity|].
  assert (IH' := IH (fun y Hy => H y (or_intror Hy))).
  destruct (p x) eqn:P; cbn [filter].
  - destruct (q x); cbn [map fold_right]; now rewrite IH'.
  - rewrite IH'. destruct (q x); cbn [map fold_right]; [|reflexivity].
    rewrite (H x (or_introl eq_refl) P). lia.
Qed.

Lemma filter_all {A : Type} (p : A -> bool) (l : list A) :
  (forall x, In x l -> p x = true) -> filter p l = l.
Proof.
  induction l as [|x l IH]; intros H; cbn [filter]; [reflexivity|].
  rewrite (H x (or_introl eq_refl)), IH; [reflexivity|].
  intros y Hy. apply H. now right.
Qed.

Lemma telescope (c C : nat -> Z) (K : nat) :
  (forall i, i < K ->
             C i = (c i - match i with O => 0 | S j => c j end)%Z) ->
  fold_right Z.add 0%Z (map C (seq 0 K))
  = match K with O => 0%Z | S j => c j end.
Proof.
  induction K as [|K IH]; intros H; [reflexivity|].
  rewrite seq_S, map_app, sum_app, IH by (intros; apply H; lia).
  cbn [Nat.add map fold_right]. rewrite (H K) by lia.
  destruct K; lia.
Qed.

Lemma chain_le (c : nat -> Z) (K : nat) :
  (forall i, S i < K -> (c i <= c (S i))%Z) ->
  forall j i, i <= j -> j < K -> (c i <= c j)%Z.
Proof.
  intros H. induction j as [|j IH]; intros i Hi Hj.
  - replace i with 0 by lia. lia.
  - destruct (Nat.eq_dec i (S j)) as [->|Hne]; [lia|].
    apply Z.le_trans with (c j); [apply IH; lia|apply H; lia].
Qed.

(** The bounds with a finite number come first. *)
Lemma finite_prefix (les : list num) :
  (forall x, In x les -> isFinite x = true \/ x = Infinity) ->
  (forall i, nth_error les i = Some Infinity -> S i = List.length les) ->
  exists K,
    K <= List.length les
    /\ filter (fun i => isFinite (nth i les fzero)) (seq 0 (List.length les))
       = seq 0 K
    /\ (forall i, i < K -> isFinite (nth i les fzero) = true)
    /\ (forall i, i < List.length les ->
                  isFinite (nth i les fzero) = true -> i < K).
Proof.
  intros Hc Hlast.
  assert (Hf : forall i, S i < List.length les ->
                         isFinite (nth i les fzero) = true).
  { intros i Hi.
    destruct (Hc (nth i les fzero)) as [F|E]; [apply nth_In; lia|exact F|].
    assert (S i = List.length les); [|lia].
    apply Hlast. rewrite <- E. apply nth_error_nth'. lia. }
  destruct (List.length les) as [|n] eqn:En.
  - exists 0. repeat split; auto; intros; lia.
  - rewrite seq_S, filter_app. cbn [Nat.add filter].
    rewrite filter_all
      by (intros i Hi; apply in_seq in Hi; apply Hf; lia).
    destruct (isFinite (nth n les fzero)) eqn:F.
    + exists (S n). rewrite seq_S. repeat split; auto.
      intros i Hi. destruct (Nat.eq_dec i n) as [->|]; [exact F|].
      apply Hf. lia.
    + exists n. rewrite app_nil_r. repeat split; auto.
      * intros i Hi. apply Hf. lia.
      * intros i Hi Fi. destruct (Nat.eq_dec i n) as [->|]; [congruence|lia].
Qed.

(** The exact sum of floored differences over the finite bounds, when the
    cumulative values [c] do not decrease: what is left is the cumulative
    value of the largest finite bound. *)
Lemma finite_sum_telescopes (les : list num) (c C : nat -> Z)
      (pos : nat -> bool) (j : nat) :
  (forall x, In x les -> isFinite x = true \/ x = Infinity) ->
  (forall i, nth_error les i = Some Infinity -> S i = List.length les) ->
  (forall i, i < List.length les ->
             C i = Z.max 0 (c i - match i with O => 0 | S k => c k end)%Z) ->
  (forall i, i < List.length les -> (0 <= c i)%Z) ->
  (forall i, S i < List.length les -> (c i <= c (S i))%Z) ->
  (forall i, i < List.length les -> pos i = false -> (C i <= 0)%Z) ->
  j < List.length les ->
  isFinite (nth j les fzero) = true ->
  (forall i, i < List.length les -> isFinite (nth i les fzero) = true ->
             (c i <= c j)%Z) ->
  fold_right Z.add 0%Z
    (map C (filter (fun i => isFinite (nth i les fzero))
              (filter pos (seq 0 (List.length les)))))
  = c j.
Proof.
  intros Hc Hlast HC H0 Hmono Hpos Hj Fj Hmax.
  rewrite sum_filter_zero.
  2:{ intros i Hi P. apply in_seq in Hi.
      specialize (Hpos i ltac:(lia) P). rewrite HC in * by lia. lia. }
  destruct (finite_prefix les Hc Hlast) as (K & HK & -> & Hfin & Hinv).
  rewrite (telescope c).
  2:{ intros i Hi. rewrite HC by lia.
      destruct i as [|k]; [specialize (H0 0 ltac:(lia)); lia|].
      specialize (Hmono k ltac:(lia)). lia. }
  specialize (Hinv j Hj Fj).
  destruct K as [|k]; [lia|].
  apply Z.le_antisymm.
  - apply Hmax; [lia|apply Hfin; lia].
  - apply (chain_le c (S k)); [|lia|lia].
    intros i Hi. apply Hmono. lia.
Qed.

Lemma hist_rows_seq (first_prefix unit : string) (with_index : bool)
      (groups : jsobj (jsobj num)) (les : list num) :
  hist_rows first_prefix unit with_index groups les
  = map (fun i =>
           exclusive_cols groups (map leStr les) i
             ([("range",
                VStr (range_label first_prefix unit (map leStr les)
                        (nth i les fzero) i));
               ("le", VNum (nth i les fzero))]
              ++ (if with_index then [("sortIndex", VNum (num_of_index i))]
                  else []))%list)
        (seq 0 (List.length les)).
Proof.
  unfold hist_rows.
  exact (mapi_seq
           (fun leVal idx =>
              exclusive_cols groups (map leStr les) idx
                ([("range",
                   VStr (range_label first_prefix unit (map leStr les)
                           leVal idx));
                  ("le", VNum leVal)]
                 ++ (if with_index then [("sortIndex", VNum (num_of_index idx))]
                     else []))%list)
           fzero les).
Qed.

Lemma nth_error_map_seq {B : Type} (R : nat -> B) (n i : nat) (r : B) :
  nth_error (map R (seq 0 n)) i = Some r -> i < n /\ r = R i.
Proof.
  intros H.
  assert (Li : i < n).
  { assert (L : i < List.length (map R (seq 0 n)))
      by (apply nth_error_Some; congruence).
    now rewrite length_map, length_seq in L. }
  split; [exact Li|].
  rewrite (nth_error_nth' _ (R 0)) in H
    by (now rewrite length_map, length_seq).
  injection H as <-. now rewrite (map_nth R), seq_nth.
Qed.

(** C4, as the code has it: for canonical bound labels the chart sorts the
    distinct bounds ascending with +Infinity last, gives every group at
    index i the value max(0, cumulative(i) - cumulative(i-1)) with
    cumulative(-1) = 0, keeps the rows with a column above 0, and never
    shows a negative value.  When the cumulative values of a group are
    counts that do not decrease as the bound grows, the exact sum of its
    values over the rows with a finite bound is the cumulative count at the
    largest finite bound.  A row is one object: a group called [le] or
    [sortIndex] takes the place of that field.  The grouping label and the
    groups are no names that a plain object inherits. *)
Theorem histogram_exclusive_reconstruction (metrics : Metrics)
        (baseName : string) (groupBy : option string) (series : list Sample)
        (data : list Row) (keys : list string) :
  metrics_get (baseName ++ "_bucket") metrics = Some series ->
  (forall l, le_label series l -> canonical_le l = true) ->
  bucket_own_names groupBy series ->
  computeHistogramData metrics baseName groupBy = (data, keys) ->
  exists (sortedLe : list num) (rows : list Row),
    (forall x, In x sortedLe <-> exists l, le_label series l /\ leNum l = x)
    /\ NoDup sortedLe
    /\ Sorted (fun a b => PrimFloat.leb a b = true) sortedLe
    /\ (forall i, nth_error sortedLe i = Some Infinity ->
                  S i = List.length sortedLe)
    /\ (forall g, In g keys <-> group_key groupBy series g)
    /\ List.length rows = List.length sortedLe
    /\ (forall i r,
           nth_error rows i = Some r ->
           exists x,
             nth_error sortedLe i = Some x
             /\ (~ In "le" keys -> row_num "le" r = Some x)
             /\ (~ In "sortIndex" keys ->
                 row_num "sortIndex" r = Some (num_of_index i))
             /\ forall g, In g keys ->
                          row_num g r
                          = Some (exclusive_value groupBy series sortedLe g i))
    /\ data = filter (positive_row keys) rows
    /\ (forall r g v, In r data -> In g keys -> row_num g r = Some v ->
                      lt v fzero = false)
    /\ (forall g lmax,
           In g keys -> ~ In "le" keys ->
           monotone_counts groupBy series g ->
           largest_finite_le series lmax ->
           finite_rows_sum g data
           = scaled (cumulative groupBy series g lmax)).
Proof.
  intros Hget Hcanon _ Hres.
  unfold computeHistogramData in Hres. rewrite Hget in Hres.
  destruct (fold_left (hist_step (fun l => getGroupKey l groupBy)) series
              ([], [])) as [groups allLe] eqn:F.
  injection Hres as <- <-.
  assert (Eg : groups
               = fst (fold_left (hist_step (fun l => getGroupKey l groupBy))
                        series ([], []))) by now rewrite F.
  assert (El : allLe
               = snd (fold_left (hist_step (fun l => getGroupKey l groupBy))
                        series ([], []))) by now rewrite F.
  destruct (hist_fold_les (fun l => getGroupKey l groupBy) series ([], [])
              (NoDup_nil _)) as [Hnd Hin].
  rewrite <- El in Hnd, Hin. cbn [snd In] in Hin.
  assert (Hlab : forall l, In l allLe <-> le_label series l).
  { intros l. rewrite Hin. unfold le_label. tauto. }
  destruct (sorted_le_facts allLe Hnd (fun l H => Hcanon l (proj1 (Hlab l) H)))
    as (Hx & Hn & Hs & Hlast).
  assert (Hx' : forall x, In x (sorted_le allLe)
                          <-> exists l, le_label series l /\ leNum l = x).
  { intros x. rewrite Hx. split; intros (l & H & E); exists l;
      (split; [now apply Hlab|exact E]). }
  clear Hx. set (les := sorted_le allLe) in *.
  assert (Hkeys : forall g, In g (obj_keys groups)
                            <-> group_key groupBy series g).
  { intros g. rewrite obj_keys_in, Eg, hist_fold_keys. cbn [fst map In].
    unfold group_key. tauto. }
  assert (Hbound : forall i, i < List.length les ->
             le_label series (leStr (nth i les fzero))
             /\ leNum (leStr (nth i les fzero)) = nth i les fzero
             /\ isNaN (nth i les fzero) = false
             /\ (isFinite (nth i les fzero) = true
                 \/ nth i les fzero = Infinity)).
  { intros i Hi.
    destruct (proj1 (Hx' (nth i les fzero)) (nth_In _ _ Hi)) as (l & Hl & E).
    destruct (canonical_le_spec l (Hcanon l Hl)) as (E1 & E2 & E3).
    rewrite <- E, E1. auto. }
  rewrite hist_rows_seq. cbn [app].
  set (R := fun i : nat =>
              exclusive_cols groups (map leStr les) i
                [("range",
                  VStr (range_label "< " "s" (map leStr les)
                          (nth i les fzero) i));
                 ("le", VNum (nth i les fzero));
                 ("sortIndex", VNum (num_of_index i))]).
  assert (Hcol : forall i g, i < List.length les -> In g (obj_keys groups) ->
             row_num g (R i)
             = Some (exclusive_value groupBy series les g i)).
  { intros i g Hi Hg. unfold R, row_num.
    rewrite exclusive_cols_get by exact Hg.
    rewrite Eg. now rewrite exclusive_is_exclusive_value. }
  assert (Hle : ~ In "le" (obj_keys groups) ->
                forall i, row_num "le" (R i) = Some (nth i les fzero)).
  { intros Hk i. unfold R, row_num.
    rewrite exclusive_cols_other by exact Hk. reflexivity. }
  exists les, (map R (seq 0 (List.length les))).
  split; [exact Hx'|]. split; [exact Hn|]. split; [exact Hs|].
  split; [exact Hlast|]. split; [exact Hkeys|].
  split; [now rewrite length_map, length_seq|].
  split.
  { intros i r Hr. apply nth_error_map_seq in Hr. destruct Hr as [Hi ->].
    exists (nth i les fzero).
    split; [now apply nth_error_nth'|].
    split; [intros Hk; now apply Hle|].
    split; [|intros g Hg; now apply Hcol].
    intros Hk. unfold R, row_num.
    rewrite exclusive_cols_other by exact Hk. reflexivity. }
  split; [reflexivity|].
  split.
  { intros r g v Hr Hg Hv. apply filter_In in Hr. destruct Hr as [Hr _].
    apply in_map_iff in Hr. destruct Hr as (i & <- & Hi).
    apply in_seq in Hi.
    rewrite Hcol in Hv by (auto; lia). injection Hv as <-.
    apply Math_max_zero_not_neg. }
  intros g lmax Hg Hnle [Hcount Hmono] (Hl & Hf & Hmax).
  destruct (canonical_le_spec lmax (Hcanon lmax Hl)) as (Elmax & _).
  destruct (In_nth les (leNum lmax) fzero) as (j & Hj & Ej).
  { apply Hx'. eauto. }
  set (c := fun i => scaled (cumulative groupBy series g
                               (leStr (nth i les fzero)))).
  assert (Ecj : scaled (cumulative groupBy series g lmax) = c j).
  { unfold c. now rewrite Ej, Elmax. }
  rewrite Ecj. unfold finite_rows_sum.
  rewrite !filter_map_comm, map_map.
  rewrite (filter_ext (fun i => finite_le (R i))
             (fun i => isFinite (nth i les fzero)))
    by (intros i; unfold finite_le; now rewrite Hle).
  assert (Hcnt : forall i, i < List.length les ->
             is_count (cumulative groupBy series g
                         (leStr (nth i les fzero))) = true).
  { intros i Hi. apply Hcount. now apply Hbound. }
  assert (Hval : forall i, i < List.length les ->
             isFinite (exclusive_value groupBy series les g i) = true
             /\ column g (R i)
                = Z.max 0 (c i - match i with O => 0 | S k => c k end)%Z).
  { intros i Hi. unfold column. rewrite Hcol by assumption.
    unfold exclusive_value, c.
    destruct i as [|k].
    - destruct (floored_difference_counts _ fzero (Hcnt 0 Hi) is_count_zero)
        as [Fv Ev].
      split; [exact Fv|]. rewrite Ev. reflexivity.
    - destruct (floored_difference_counts _ _ (Hcnt (S k) Hi)
                  (Hcnt k ltac:(lia))) as [Fv Ev].
      split; [exact Fv|exact Ev]. }
  assert (Hord : forall a b,
             is_count a = true -> is_count b = true ->
             PrimFloat.leb a b = true -> (scaled a <= scaled b)%Z).
  { intros a b Ha Hb L.
    destruct (is_count_spec a Ha) as [Fa _].
    destruct (is_count_spec b Hb) as [Fb _].
    rewrite (leb_rank _ _ (isFinite_not_nan _ Fa) (isFinite_not_nan _ Fb))
      in L.
    rewrite (rank_finite _ Fa), (rank_finite _ Fb) in L.
    now apply Z.leb_le. }
  apply (finite_sum_telescopes les c (fun i => column g (R i))
           (fun i => positive_row (obj_keys groups) (R i)) j).
  - intros x Hx. destruct (In_nth les x fzero Hx) as (i & Hi & <-).
    now apply Hbound.
  - exact Hlast.
  - intros i Hi. now apply Hval.
  - intros i Hi. unfold c.
    destruct (is_count_spec _ (Hcnt i Hi)) as (_ & n & Bn & ->).
    apply Z.mul_nonneg_nonneg; [lia|apply Z.pow_nonneg; lia].
  - intros i Hi. unfold c.
    apply Hord; [apply Hcnt; lia|apply Hcnt; lia|].
    apply Hmono; [apply Hbound; lia|apply Hbound; lia|].
    destruct (Hbound i ltac:(lia)) as (_ & -> & _).
    destruct (Hbound (S i) Hi) as (_ & -> & _).
    apply (Sorted_adjacent _ _ Hs i); apply nth_error_nth'; lia.
  - intros i Hi P.
    destruct (Hval i Hi) as [Fv Ev].
    unfold positive_row in P.
    assert (G : col_gt0 (R i) g = false).
    { destruct (col_gt0 (R i) g) eqn:G; [|reflexivity].
      assert (T : existsb (col_gt0 (R i)) (obj_keys groups) = true)
        by (apply existsb_exists; eauto).
      congruence. }
    unfold col_gt0 in G. unfold column.
    rewrite Hcol in * by assumption.
    now apply not_gt0_scaled.
  - exact Hj.
  - now rewrite Ej.
  - intros i Hi Fi. unfold c. rewrite Ej, Elmax.
    apply Hord; [now apply Hcnt|now apply Hcount|].
    apply Hmono; [now apply Hbound|exact Hl|].
    destruct (Hbound i Hi) as (Hli & Eli & _).
    apply Hmax; [exact Hli|]. now rewrite Eli.
Qed.

Lemma histogram_exclusive_reconstruction_witness :
  let series := [mkSample [("le", "0.25")] 5%float;
                 mkSample [("le", "0.5")] 9%float;
                 mkSample [("le", "+Inf")] 10%float] in
  let m := [("d_bucket", series)] in
  (forall l, le_label series l -> canonical_le l = true)
  /\ bucket_own_names None series
  /\ monotone_counts None series "All"
  /\ largest_finite_le series "0.5"
  /\ cumulative None series "All" "0.5" = 9%float
  /\ map (fun r => (row_num "le" r, row_num "All" r))
         (fst (computeHistogramData m "d" None))
     = [(Some 0.25%float, Some 5%float); (Some 0.5%float, Some 4%float);
        (Some Infinity, Some 1%float)]
  /\ finite_rows_sum "All" (fst (computeHistogramData m "d" None))
     = scaled (cumulative None series "All" "0.5").
Proof.
  intros series m.
  assert (L : forall l, le_label series l ->
                        l = "0.25" \/ l = "0.5" \/ l = "+Inf").
  { intros l (s & Hs & Hl).
    destruct Hs as [<-|[<-|[<-|[]]]]; vm_compute in Hl; injection Hl as <-;
      auto. }
  assert (Hc : forall l, le_label series l -> canonical_le l = true).
  { intros l Hl. destruct (L l Hl) as [->|[->| ->]]; vm_compute; reflexivity. }
  assert (Hm : monotone_counts None series "All").
  { split.
    - intros l Hl.
      destruct (L l Hl) as [->|[->| ->]]; vm_compute; reflexivity.
    - intros l1 l2 H1 H2.
      destruct (L l1 H1) as [->|[->| ->]];
        destruct (L l2 H2) as [->|[->| ->]]; vm_compute; auto. }
  assert (Hl : largest_finite_le series "0.5").
  { split; [exists (mkSample [("le", "0.5")] 9%float); split;
            [right; left; reflexivity|reflexivity]|].
    split; [vm_compute; reflexivity|].
    intros l H. destruct (L l H) as [->|[->| ->]]; vm_compute; auto. }
  assert (Ho : bucket_own_names None series).
  { split; [exact I|]. intros g (s & l & _ & _ & <-). reflexivity. }
  split; [exact Hc|]. split; [exact Ho|]. split; [exact Hm|].
  split; [exact Hl|].
  split; [vm_compute; reflexivity|]. split; [vm_compute; reflexivity|].
  destruct (histogram_exclusive_reconstruction m "d" None series
              (fst (computeHistogramData m "d" None))
              (snd (computeHistogramData m "d" None))
              eq_refl Hc Ho (surjective_pairing _))
    as (sortedLe & rows & _ & _ & _ & _ & _ & _ & _ & _ & _ & Hsum).
  apply Hsum; [left; reflexivity| |exact Hm|exact Hl].
  intros [H|[]]. discriminate H.
Defined.

(** C4, the claim as it is written fails: when a cumulative value drops
    (5 up to 0.25, then 3 up to 0.5) the floor at 0 discards the drop, the row
    of the bound 0.5 disappears, and the values of the rows with a finite
    bound sum to 5, not to the cumulative value 3 of the largest finite
    bound. *)
Lemma exclusive_sum_non_monotone :
  let series := [mkSample [("le", "0.25")] 5%float;
                 mkSample [("le", "0.5")] 3%float] in
  let m := [("d_bucket", series)] in
  computeHistogramData m "d" None
  = ([[("range", VStr "< 0.25s"); ("le", VNum 0.25%float);
       ("sortIndex", VNum 0%float); ("All", VNum 5%float)]], ["All"])
  /\ largest_finite_le series "0.5"
  /\ cumulative None series "All" "0.5" = 3%float
  /\ finite_rows_sum "All" (fst (computeHistogramData m "d" None))
     = scaled 5%float
  /\ scaled 5%float <> scaled 3%float.
Proof.
  intros series m.
  split; [vm_compute; reflexivity|].
  split.
  { split; [exists (mkSample [("le", "0.5")] 3%float); split;
            [right; left; reflexivity|reflexivity]|].
    split; [vm_compute; reflexivity|].
    intros l (s & Hs & Hl) _.
    destruct Hs as [<-|[<-|[]]]; vm_compute in Hl; injection Hl as <-;
      vm_compute; reflexivity. }
  split; [vm_compute; reflexivity|].
  split; [vm_compute; reflexivity|].
  intros E. apply (f_equal (fun z => Z.eqb z (scaled 3%float))) in E.
  vm_compute in E. discriminate E.
Qed.

(** A bound label that is not canonical is lost: the label 1.0 is read as
    the number 1 and looked up again under its text 1, which no sample has,
    so its row vanishes and the next row takes its value as well. *)
Lemma non_canonical_bound_is_lost :
  let series := [mkSample [("le", "1.0")] 5%float;
                 mkSample [("le", "2.5")] 9%float] in
  canonical_le "1.0" = false
  /\ computeHistogramData [("d_bucket", series)] "d" None
     = ([[("range", VStr "1-2.5s"); ("le", VNum 2.5%float);
          ("sortIndex", VNum 1%float); ("All", VNum 9%float)]], ["All"]).
Proof. split; vm_compute; reflexivity. Qed.

(* ================================================================== *)
(** * Properties of the snapshot history *)
(* ================================================================== *)

Section HistoryFacts.
Context {A : Type}.

Lemma slice_last_length (n : nat) (l : list A) :
    List.length (slice_last n l) = Nat.min n (List.length l).
  Proof. unfold slice_last. rewrite length_skipn. lia. Qed.

Lemma slice_last_short (n : nat) (l : list A) :
    List.length l <= n -> slice_last n l = l.
  Proof.
    intros H. unfold slice_last.
    replace (List.length l - n) with 0 by lia. reflexivity.
  Qed.

Lemma slice_last_snoc_full (n : nat) (l : list A) (x : A) :
    List.length l = S n -> slice_last (S n) (l ++ [x]) = (tl l ++ [x])%list.
  Proof.
    intros H. unfold slice_last. rewrite length_app. cbn [List.length].
    replace (List.length l + 1 - S n) with 1 by lia.
    destruct l; [discriminate|reflexivity].
  Qed.
End HistoryFacts.

Lemma fetch_append_length (h : History) (s : Snapshot) :
  List.length (fetch_append h s) <= 60.
Proof.
  unfold fetch_append.
  destruct (Nat.ltb 60 (List.length (h ++ [s]))) eqn:E.
  - rewrite slice_last_length. lia.
  - apply Nat.ltb_ge in E. exact E.
Qed.

Lemma manual_append_length (h : History) (s : Snapshot) :
  List.length (manual_append h s) <= 60.
Proof. unfold manual_append. rewrite slice_last_length. lia. Qed.

Lemma reachable_bounded (h : History) : reachable h -> List.length h <= 60.
Proof.
  induction 1; cbn [List.length].
  - lia.
  - apply fetch_append_length.
  - apply manual_append_length.
Qed.

Lemma fetch_append_below (h : History) (s : Snapshot) :
  List.length h < 60 -> fetch_append h s = (h ++ [s])%list.
Proof.
  intros H. unfold fetch_append.
  destruct (Nat.ltb 60 (List.length (h ++ [s]))) eqn:E; [|reflexivity].
  apply Nat.ltb_lt in E. rewrite length_app in E. cbn in E. lia.
Qed.

Lemma fetch_append_full (h : History) (s : Snapshot) :
  List.length h = 60 -> fetch_append h s = (tl h ++ [s])%list.
Proof.
  intros H. unfold fetch_append.
  destruct (Nat.ltb 60 (List.length (h ++ [s]))) eqn:E.
  - now apply slice_last_snoc_full.
  - apply Nat.ltb_ge in E. rewrite length_app in E. cbn in E. lia.
Qed.

Lemma manual_append_below (h : History) (s : Snapshot) :
  List.length h < 60 -> manual_append h s = (h ++ [s])%list.
Proof.
  intros H. unfold manual_append. apply slice_last_short.
  rewrite length_app. cbn. lia.
Qed.

Lemma manual_append_full (h : History) (s : Snapshot) :
  List.length h = 60 -> manual_append h s = (tl h ++ [s])%list.
Proof. intros H. unfold manual_append. now apply slice_last_snoc_full. Qed.

Lemma reachable_repeat (s : Snapshot) (n : nat) :
  n <= 60 -> reachable (repeat s n).
Proof.
  induction n as [|n IH]; intros Hn.
  - constructor.
  - assert (E : repeat s (S n) = fetch_append (repeat s n) s).
    { rewrite fetch_append_below by (rewrite repeat_length; lia).
      now rewrite <- repeat_cons. }
    rewrite E. constructor. apply IH. lia.
Qed.

(** C5: every history the two updaters can produce from the empty one holds
    at most 60 snapshots; an append (from a polling fetch or from a manual
    parse) to a history of 60 drops exactly the oldest snapshot and keeps the
    other 59 and the new one in order, and an append to a shorter history
    keeps every snapshot and adds the new one at the end. *)
Theorem history_capacity (h : History) (s : Snapshot) (Hr : reachable h) :
  List.length h <= 60
  /\ List.length (fetch_append h s) <= 60
  /\ List.length (manual_append h s) <= 60
  /\ (List.length h = 60 ->
      fetch_append h s = (tl h ++ [s])%list
      /\ manual_append h s = (tl h ++ [s])%list)
  /\ (List.length h < 60 ->
      fetch_append h s = (h ++ [s])%list
      /\ manual_append h s = (h ++ [s])%list).
Proof.
  split; [now apply reachable_bounded|].
  split; [apply fetch_append_length|].
  split; [apply manual_append_length|].
  split; intros H; split;
    auto using fetch_append_full, manual_append_full,
               fetch_append_below, manual_append_below.
Qed.

Lemma history_capacity_witness :
  let old := mkSnapshot 1 [] in
  let new := mkSnapshot 2 [] in
  reachable (repeat old 60)
  /\ fetch_append (repeat old 60) new = (repeat old 59 ++ [new])%list
  /\ manual_append (repeat old 60) new = (repeat old 59 ++ [new])%list.
Proof.
  intros old new.
  assert (Hr : reachable (repeat old 60)) by (apply reachable_repeat; lia).
  split; [exact Hr|].
  destruct (history_capacity _ new Hr) as (_ & _ & _ & Hfull & _).
  apply Hfull. reflexivity.
Defined.
(* ================================================================== *)
(** * Captures of the line patterns *)
(* ================================================================== *)

Unset Implicit Arguments.

Section CaptureFacts.
Variable len0 : nat.

Lemma star_loop_csound (a : regex)
      (IH : forall s cs k res,
          rmatch len0 a s cs k = Some res ->
          exists s' cs', cmatches len0 a s cs s' cs' /\ k s' cs' = Some res)
      (k : cont) (res : mresult) :
  forall n s cs,
    star_loop (rmatch len0 a) k n s cs = Some res ->
    exists s' cs', cmatches len0 (Star a) s cs s' cs' /\ k s' cs' = Some res.
Proof.
  induction n as [|n IHn]; intros s cs H; cbn [star_loop] in H.
  - exists s, cs. split; [constructor|exact H].
  - destruct (rmatch len0 a s cs _) as [x|] eqn:E.
    + injection H as ->. apply IH in E as (s1 & cs1 & Hm & Hk).
      revert Hk.
      destruct (Nat.ltb (String.length s1) (String.length s)) eqn:L;
        intros Hk; [|discriminate].
      apply IHn in Hk as (s2 & cs2 & Hm2 & Hk2).
      exists s2, cs2. split; [|exact Hk2].
      eapply cm_star_cons; eauto. now apply Nat.ltb_lt.
    + exists s, cs. split; [constructor|exact H].
Qed.

(** The matcher succeeds only on what the pattern matches, with the captures
    the pattern makes. *)
Lemma rmatch_csound (r : regex) :
  forall s cs k res,
    rmatch len0 r s cs k = Some res ->
    exists s' cs', cmatches len0 r s cs s' cs' /\ k s' cs' = Some res.
Proof.
  induction r as [|p|a IHa b IHb|a IHa b IHb|a IHa|i a IHa| |];
    intros s cs k res H; cbn [rmatch] in H.
  - exists s, cs. split; [constructor|exact H].
  - destruct s as [|c s]; [discriminate|].
    destruct (p c) eqn:Hp; [|discriminate].
    exists s, cs. split; [now constructor|exact H].
  - apply IHa in H as (s1 & cs1 & Hm1 & H).
    apply IHb in H as (s2 & cs2 & Hm2 & H).
    exists s2, cs2. split; [econstructor; eauto|exact H].
  - destruct (rmatch len0 a s cs k) as [x|] eqn:E.
    + injection H as ->. apply IHa in E as (s1 & cs1 & Hm & Hk).
      exists s1, cs1. split; [now apply cm_alt_l|exact Hk].
    + apply IHb in H as (s1 & cs1 & Hm & Hk).
      exists s1, cs1. split; [now apply cm_alt_r|exact Hk].
  - eapply star_loop_csound; eauto.
  - apply IHa in H as (s1 & cs1 & Hm & Hk).
    eexists _, _. split; [constructor; exact Hm|exact Hk].
  - destruct (Nat.eqb (String.length s) len0) eqn:E; [|discriminate].
    exists s, cs. split; [constructor; now apply Nat.eqb_eq|exact H].
  - destruct s; [|discriminate].
    exists "", cs. split; [constructor|exact H].
Qed.

Lemma cmatches_matches (r : regex) (s s' : string) (cs cs' : caps) :
  cmatches len0 r s cs s' cs' -> matches len0 r s s'.
Proof.
  induction 1;
    [ constructor | now constructor | econstructor; eassumption
    | now apply m_alt_l | now apply m_alt_r | constructor
    | eapply m_star_cons; eassumption | now constructor
    | now constructor | constructor ].
Qed.

Lemma search_csound (r : regex) (s start rest : string) (cs : caps) :
  search len0 r s = Some (start, (rest, cs)) ->
  cmatches len0 r start [] rest cs
  /\ exists pre, s = pre ++ start.
Proof.
  induction s as [|c s IH]; cbn [search].
  - destruct (rmatch len0 r "" [] _) as [res|] eqn:E; [|discriminate].
    intros H. injection H as <- ->.
    apply rmatch_csound in E as (s1 & cs1 & Hm & Hk).
    injection Hk as -> ->. split; [assumption|now exists ""].
  - destruct (rmatch len0 r (String c s) [] _) as [res|] eqn:E.
    + intros H. injection H as <- ->.
      apply rmatch_csound in E as (s1 & cs1 & Hm & Hk).
      injection Hk as -> ->. split; [assumption|now exists ""].
    + intros H. apply IH in H as [Hm [pre ->]].
      split; [assumption|]. now exists (String c pre).
Qed.
End CaptureFacts.

(** The text a group records is the text its body has matched. *)
Lemma stake_matched (pre s' : string) :
  stake (String.length (pre ++ s') - String.length s') (pre ++ s') = pre.
Proof.
  rewrite length_sapp.
  replace (String.length pre + String.length s' - String.length s')
    with (String.length pre) by lia.
  induction pre as [|c pre IH]; cbn [String.length stake append].
  - reflexivity.
  - now rewrite IH.
Qed.

(** A pattern anchored at the start matches at the start only. *)
Lemma regex_match_anchored (r : regex) (s : string) (cs : caps) :
  regex_match (Seq Bol r) s = Some cs ->
  exists rest, cmatches (String.length s) r s [] rest cs.
Proof.
  unfold regex_match.
  destruct (search (String.length s) (Seq Bol r) s)
    as [[start [rest cs']]|] eqn:E; [|discriminate].
  intros H. injection H as ->.
  apply search_csound in E as [Hm [pre ->]].
  inversion Hm as [| |a b s0 cs0 s1 cs1 s2 cs2 H1 H2| | | | | | |]; subst.
  inversion H1 as [| | | | | | | |s0 cs0 Hl|]; subst.
  rewrite length_sapp in Hl.
  destruct pre as [|c pre]; [|cbn [String.length] in Hl; lia].
  exists rest. exact H2.
Qed.
(* ================================================================== *)
(** * Properties of a parsed snapshot *)
(* ================================================================== *)

Lemma cmatches_no_groups (len0 : nat) (r : regex) (s s' : string)
      (cs cs' : caps) :
  cmatches len0 r s cs s' cs' -> no_groups r = true -> cs' = cs.
Proof.
  induction 1; cbn [no_groups]; intros Hn;
    try apply andb_prop in Hn as [Ha Hb];
    try reflexivity; try discriminate; auto.
  - rewrite IHcmatches2, IHcmatches1; auto.
  - rewrite IHcmatches2, IHcmatches1; auto.
Qed.

Lemma cmatches_group (len0 : nat) (i : nat) (a : regex) (s s' : string)
      (cs cs' : caps) :
  cmatches len0 (Group i a) s cs s' cs' ->
  exists pre cs1,
    s = pre ++ s' /\ cs' = (i, pre) :: cs1 /\ cmatches len0 a s cs s' cs1.
Proof.
  intros H. inversion H as [| | | | | | |i0 a0 s0 cs0 s1 cs1 Hm| |]; subst.
  destruct (matches_suffix len0 a s s' (cmatches_matches len0 _ _ _ _ _ Hm))
    as [pre ->].
  exists pre, cs1. rewrite stake_matched. auto.
Qed.

Lemma matches_plus_class (len0 : nat) (p : ascii -> bool) (s s' : string) :
  matches len0 (Plus (Chr p)) s s' ->
  exists pre, s = pre ++ s' /\ nonempty_all p pre = true.
Proof.
  unfold Plus. intros H.
  inversion H as [| |a b s0 s1 s2 H1 H2| | | | | | |]; subst.
  inversion H1 as [|q c s0 Hc| | | | | | | |]; subst.
  apply matches_star_class in H2 as (pre & -> & Hall).
  exists (String c pre). split; [reflexivity|].
  unfold nonempty_all. cbn. now rewrite Hc, Hall.
Qed.

Lemma matches_metric_name (len0 : nat) (s s' : string) :
  matches len0 metric_name_re s s' ->
  exists pre, s = pre ++ s' /\ valid_name pre = true.
Proof.
  unfold metric_name_re. intros H.
  inversion H as [| |a b s0 s1 s2 H1 H2| | | | | | |]; subst.
  inversion H1 as [|q c s0 Hc| | | | | | | |]; subst.
  apply matches_star_class in H2 as (pre & -> & Hall).
  exists (String c pre). split; [reflexivity|].
  cbn. now rewrite Hc, Hall.
Qed.

Lemma sapp_inj_r (a b s : string) : a ++ s = b ++ s -> a = b.
Proof.
  revert b. induction a as [|x a IH]; intros [|y b] H; cbn [append] in H.
  - reflexivity.
  - exfalso. apply (f_equal String.length) in H.
    cbn [String.length] in H. rewrite length_sapp in H. lia.
  - exfalso. apply (f_equal String.length) in H.
    cbn [String.length] in H. rewrite length_sapp in H. lia.
  - injection H as -> H. f_equal. now apply IH.
Qed.

(** The text a group over a metric name records is a metric name. *)
Lemma cmatches_name_group (len0 i : nat) (s s' : string) (cs cs' : caps) :
  cmatches len0 (Group i metric_name_re) s cs s' cs' ->
  exists name, s = name ++ s' /\ cs' = (i, name) :: cs
               /\ valid_name name = true.
Proof.
  intros H. apply cmatches_group in H as (pre & cs1 & -> & -> & Hm).
  assert (cs1 = cs) by (eapply cmatches_no_groups; eauto). subst cs1.
  apply cmatches_matches, matches_metric_name in Hm as (name & E & V).
  apply sapp_inj_r in E. subst name. eauto.
Qed.

Lemma cmatches_plus_group (len0 i : nat) (p : ascii -> bool) (s s' : string)
      (cs cs' : caps) :
  cmatches len0 (Group i (Plus (Chr p))) s cs s' cs' ->
  exists t, s = t ++ s' /\ cs' = (i, t) :: cs /\ nonempty_all p t = true.
Proof.
  intros H. apply cmatches_group in H as (pre & cs1 & -> & -> & Hm).
  assert (cs1 = cs) by (eapply cmatches_no_groups; eauto). subst cs1.
  apply cmatches_matches, matches_plus_class in Hm as (t & E & V).
  apply sapp_inj_r in E. subst t. eauto.
Qed.

Lemma cmatches_star_group (len0 i : nat) (p : ascii -> bool) (s s' : string)
      (cs cs' : caps) :
  cmatches len0 (Group i (Star (Chr p))) s cs s' cs' ->
  exists t, s = t ++ s' /\ cs' = (i, t) :: cs /\ all_chars p t = true.
Proof.
  intros H. apply cmatches_group in H as (pre & cs1 & -> & -> & Hm).
  assert (cs1 = cs) by (eapply cmatches_no_groups; eauto). subst cs1.
  apply cmatches_matches, matches_star_class in Hm as (t & E & V).
  apply sapp_inj_r in E. subst t. eauto.
Qed.

Ltac inv_cseq :=
  repeat match goal with
    | H : cmatches _ (Seq _ _) _ _ _ _ |- _ => inversion H; subst; clear H
    | H : cmatches _ Emp _ _ _ _ |- _ => inversion H; subst; clear H
    | H : cmatches _ Eol _ _ _ _ |- _ => inversion H; subst; clear H
    end.

(** What a matching data line captures: a metric name in group 1, a value
    token in group 3, and in group 2, when it is there, a text without a
    closing brace.  The line does not start with the comment sign. *)
Lemma data_line_captures (t : string) (cs : caps) :
  regex_match dataRegex t = Some cs ->
  exists name tok,
    get_cap 1 cs = Some name /\ valid_name name = true
    /\ get_cap 3 cs = Some tok /\ nonempty_all value_char tok = true
    /\ startsWith name t = true.
Proof.
  unfold dataRegex. cbn [seqs]. intros H.
  apply regex_match_anchored in H as [rest H].
  inversion H as [| |a b s0 cs0 s1 cs1 s2 cs2 H1 H2| | | | | | |]; subst;
    clear H.
  apply cmatches_name_group in H1 as (name & -> & -> & Vn).
  inversion H2 as [| |a b s0 cs0 s3 cs3 s4 cs4 H3 H4| | | | | | |]; subst;
    clear H2.
  assert (Hc3 : get_cap 1 cs3 = Some name
                /\ forall j, 2 < j -> get_cap j cs3 = None).
  { unfold Opt in H3.
    inversion H3 as [| | |a b s0 cs0 s5 cs5 H5|a b s0 cs0 s5 cs5 H5| | | | |];
      subst; clear H3.
    - inv_cseq.
      match goal with
      | G : cmatches _ (Group 2 _) _ _ _ _ |- _ =>
          apply cmatches_star_group in G as (c & -> & -> & _)
      end.
      repeat match goal with
        | G : cmatches _ (Chr _) _ _ _ _ |- _ => inversion G; subst; clear G
        end.
      split; [reflexivity|].
      intros j Hj. cbn [get_cap].
      destruct j as [|[|[|j]]]; try lia. reflexivity.
    - inversion H5; subst. split; [reflexivity|].
      intros j Hj. cbn [get_cap].
      destruct j as [|[|[|j]]]; try lia. reflexivity. }
  destruct Hc3 as [Hc1 Hhi].
  inversion H4 as [| |a b s0 cs0 s5 cs5 s6 cs6 H5 H6| | | | | | |]; subst;
    clear H4.
  assert (cs5 = cs3) by (eapply cmatches_no_groups; eauto). subst cs5.
  inversion H6 as [| |a b s0 cs0 s7 cs7 s8 cs8 H7 H8| | | | | | |]; subst;
    clear H6.
  apply cmatches_plus_group in H7 as (tok & -> & -> & Vt).
  inversion H8 as [| |a b s0 cs0 s9 cs9 s10 cs10 H9 H10| | | | | | |]; subst;
    clear H8.
  inversion H10; subst; clear H10.
  assert (Hfin : get_cap 1 cs = Some name /\ get_cap 3 cs = Some tok).
  { unfold Opt in H9.
    inversion H9 as [| | |a b s0 cs0 s11 cs11 H11|a b s0 cs0 s11 cs11 H11| | | | |];
      subst; clear H9.
    - inv_cseq.
      match goal with
      | G : cmatches _ (Group 4 _) _ _ _ _ |- _ =>
          apply cmatches_plus_group in G as (ts & -> & -> & _)
      end.
      match goal with
      | G : cmatches _ (Plus _) _ ?c _ ?c' |- _ =>
          assert (c' = c) by (eapply cmatches_no_groups; eauto); subst
      end.
      cbn [get_cap Nat.eqb]. auto.
    - inversion H11; subst. cbn [get_cap Nat.eqb]. auto. }
  destruct Hfin as [F1 F3].
  exists name, tok. repeat split; auto.
  clear. induction name as [|c name IH]; [reflexivity|].
  cbn [append startsWith]. now rewrite Ascii.eqb_refl, IH.
Qed.

Lemma matches_Lit (len0 : nat) (w s s' : string) :
  matches len0 (Lit w) s s' -> s = w ++ s'.
Proof.
  revert s. induction w as [|c w IH]; intros s H; cbn [Lit] in H.
  - inversion H; subst. reflexivity.
  - inversion H as [| |a b s0 s1 s2 H1 H2| | | | | | |]; subst.
    inversion H1 as [|q d s0 Hd| | | | | | | |]; subst.
    unfold is_char in Hd. apply Ascii.eqb_eq in Hd. subst d.
    cbn [append]. f_equal. now apply IH.
Qed.

Lemma matches_LitI (len0 : nat) (w s s' : string) :
  matches len0 (LitI w) s s' ->
  exists pre, s = pre ++ s' /\ toLowerCase pre = toLowerCase w.
Proof.
  revert s. induction w as [|c w IH]; intros s H; cbn [LitI] in H.
  - inversion H; subst. now exists "".
  - inversion H as [| |a b s0 s1 s2 H1 H2| | | | | | |]; subst.
    inversion H1 as [|q d s0 Hd| | | | | | | |]; subst.
    apply Ascii.eqb_eq in Hd.
    apply IH in H2 as (pre & -> & E).
    exists (String d pre). split; [reflexivity|].
    cbn [toLowerCase]. now rewrite Hd, E.
Qed.

Lemma matches_alt_inv (len0 : nat) (a b : regex) (s s' : string) :
  matches len0 (Alt a b) s s' -> matches len0 a s s' \/ matches len0 b s s'.
Proof. intros H. inversion H; subst; auto. Qed.

Ltac caps_same H :=
  match type of H with
  | cmatches _ _ _ ?c _ ?c' =>
      let E := fresh "E" in
      assert (E : c' = c)
        by (eapply cmatches_no_groups; [exact H|reflexivity]);
      try subst c'
  end.

(** What a HELP line captures, and that it starts with the comment sign. *)
Lemma help_line_captures (t : string) (cs : caps) :
  regex_match helpRegex t = Some cs ->
  exists name h,
    get_cap 1 cs = Some name /\ valid_name name = true
    /\ get_cap 2 cs = Some h /\ startsWith "#" t = true.
Proof.
  unfold helpRegex. cbn [seqs]. intros H.
  apply regex_match_anchored in H as [rest H].
  inversion H as [| |a b s0 cs0 s1 cs1 s2 cs2 H1 H2| | | | | | |]; subst;
    clear H.
  caps_same H1.
  apply cmatches_matches in H1. apply (matches_Lit _ "#") in H1. subst t.
  inversion H2 as [| |a b s0 cs0 s3 cs3 s4 cs4 H3 H4| | | | | | |]; subst;
    clear H2.
  caps_same H3.
  inversion H4 as [| |a b s0 cs0 s5 cs5 s6 cs6 H5 H6| | | | | | |]; subst;
    clear H4.
  caps_same H5.
  inversion H6 as [| |a b s0 cs0 s7 cs7 s8 cs8 H7 H8| | | | | | |]; subst;
    clear H6.
  caps_same H7.
  inversion H8 as [| |a b s0 cs0 s9 cs9 s10 cs10 H9 H10| | | | | | |]; subst;
    clear H8.
  apply cmatches_name_group in H9 as (name & -> & -> & Vn).
  inversion H10 as [| |a b s0 cs0 s11 cs11 s12 cs12 H11 H12| | | | | | |];
    subst; clear H10.
  caps_same H11.
  inversion H12 as [| |a b s0 cs0 s13 cs13 s14 cs14 H13 H14| | | | | | |];
    subst; clear H12.
  apply cmatches_star_group in H13 as (h & -> & -> & _).
  inversion H14; subst.
  exists name, h. repeat split; auto.
Qed.

(** What a TYPE line captures: the type is one of the five, in any case. *)
Lemma type_line_captures (t : string) (cs : caps) :
  regex_match typeRegex t = Some cs ->
  exists name ty,
    get_cap 1 cs = Some name /\ valid_name name = true
    /\ get_cap 2 cs = Some ty /\ In (toLowerCase ty) metric_types
    /\ startsWith "#" t = true.
Proof.
  unfold typeRegex. cbn [seqs]. intros H.
  apply regex_match_anchored in H as [rest H].
  inversion H as [| |a b s0 cs0 s1 cs1 s2 cs2 H1 H2| | | | | | |]; subst;
    clear H.
  caps_same H1.
  apply cmatches_matches in H1. apply (matches_Lit _ "#") in H1. subst t.
  inversion H2 as [| |a b s0 cs0 s3 cs3 s4 cs4 H3 H4| | | | | | |]; subst;
    clear H2.
  caps_same H3.
  inversion H4 as [| |a b s0 cs0 s5 cs5 s6 cs6 H5 H6| | | | | | |]; subst;
    clear H4.
  caps_same H5.
  inversion H6 as [| |a b s0 cs0 s7 cs7 s8 cs8 H7 H8| | | | | | |]; subst;
    clear H6.
  caps_same H7.
  inversion H8 as [| |a b s0 cs0 s9 cs9 s10 cs10 H9 H10| | | | | | |]; subst;
    clear H8.
  apply cmatches_name_group in H9 as (name & -> & -> & Vn).
  inversion H10 as [| |a b s0 cs0 s11 cs11 s12 cs12 H11 H12| | | | | | |];
    subst; clear H10.
  caps_same H11.
  inversion H12 as [| |a b s0 cs0 s13 cs13 s14 cs14 H13 H14| | | | | | |];
    subst; clear H12.
  apply cmatches_group in H13 as (ty & cs1 & -> & -> & Hm).
  caps_same Hm.
  inversion H14; subst.
  exists name, ty. repeat split; auto.
  apply cmatches_matches in Hm. unfold metric_types.
  match type of Hm with
  | matches ?l _ ?a ?b =>
      change (matches l
                (Alt (LitI "counter")
                   (Alt (LitI "gauge")
                      (Alt (LitI "histogram")
                         (Alt (LitI "summary") (LitI "untyped"))))) a b)
        in Hm
  end.
  repeat (apply matches_alt_inv in Hm as [Hm|Hm]);
    apply matches_LitI in Hm as (pre & E & L);
    apply sapp_inj_r in E; subst pre; rewrite L; cbn; auto 6.
Qed.

Lemma matches_label_name (len0 : nat) (s s' : string) :
  matches len0 (Seq (Chr label_start) (Star (Chr label_char))) s s' ->
  exists pre, s = pre ++ s' /\ valid_label_name pre = true.
Proof.
  intros H.
  inversion H as [| |a b s0 s1 s2 H1 H2| | | | | | |]; subst.
  inversion H1 as [|q c s0 Hc| | | | | | | |]; subst.
  apply matches_star_class in H2 as (pre & -> & Hall).
  exists (String c pre). split; [reflexivity|].
  cbn. now rewrite Hc, Hall.
Qed.

(** What a match of the label pattern captures: a label name and a value. *)
Lemma label_captures (len0 : nat) (start rest : string) (cs : caps) :
  cmatches len0 labelRegex start [] rest cs ->
  exists k v, cs = [(2, v); (1, k)] /\ valid_label_name k = true.
Proof.
  unfold labelRegex. cbn [seqs]. intros H.
  inversion H as [| |a b s0 cs0 s1 cs1 s2 cs2 H1 H2| | | | | | |]; subst;
    clear H.
  apply cmatches_group in H1 as (k & c1 & -> & -> & Hm).
  caps_same Hm.
  apply cmatches_matches, matches_label_name in Hm as (k' & E & V).
  apply sapp_inj_r in E. subst k'.
  inversion H2 as [| |a b s0 cs0 s3 cs3 s4 cs4 H3 H4| | | | | | |]; subst;
    clear H2.
  caps_same H3.
  inversion H4 as [| |a b s0 cs0 s5 cs5 s6 cs6 H5 H6| | | | | | |]; subst;
    clear H4.
  caps_same H5.
  inversion H6 as [| |a b s0 cs0 s7 cs7 s8 cs8 H7 H8| | | | | | |]; subst;
    clear H6.
  apply cmatches_group in H7 as (v & c2 & -> & -> & Hv).
  caps_same Hv.
  caps_same H8.
  eauto.
Qed.

Lemma exec_loop_captures (len0 : nat) (r : regex) :
  forall fuel s l,
    exec_loop len0 fuel r s = Some l ->
    Forall (fun cs => exists start rest, cmatches len0 r start [] rest cs) l.
Proof.
  induction fuel as [|f IH]; intros s l H; cbn [exec_loop] in H;
    [discriminate|].
  destruct (search len0 r s) as [[start [rest cs]]|] eqn:E.
  - destruct (exec_loop len0 f r rest) as [l'|] eqn:E'; [|discriminate].
    injection H as <-. constructor; [|eapply IH; eauto].
    apply search_csound in E as [Hm _]. eauto.
  - injection H as <-. constructor.
Qed.

Lemma obj_set_in {V : Type} (k : string) (v : V) (o : jsobj V)
      (e : string * V) :
  In e (obj_set k v o) -> e = (k, v) \/ In e o.
Proof.
  induction o as [|[k' v'] o IH]; cbn [obj_set].
  - intros [<-|[]]. now left.
  - destruct (String.eqb k k').
    + intros [<-|H]; [now left|right; now right].
    + intros [<-|H]; [right; now left|].
      destruct (IH H); [now left|right; now right].
Qed.

Lemma add_labels_well_formed (ms : list caps) :
  Forall (fun cs => exists start rest,
              cmatches (String.length start) labelRegex start [] rest cs
              \/ exists len0, cmatches len0 labelRegex start [] rest cs) ms ->
  forall lbls,
    NoDup (map fst lbls) ->
    Forall (fun kv : string * string => valid_label_name (fst kv) = true)
           lbls ->
    let out := fold_left add_label ms lbls in
    NoDup (map fst out)
    /\ Forall (fun kv : string * string => valid_label_name (fst kv) = true)
              out.
Proof.
  induction 1 as [|cs ms (start & rest & Hc) _ IH]; intros lbls Hn Hv.
  - now split.
  - cbn [fold_left].
    assert (Hl : exists k v, cs = [(2, v); (1, k)]
                             /\ valid_label_name k = true).
    { destruct Hc as [Hc|[len0 Hc]]; eapply label_captures; eauto. }
    destruct Hl as (k & v & -> & Vk).
    assert (E : add_label lbls [(2, v); (1, k)]
                = if String.eqb k "__proto__" then lbls
                  else obj_set k (unescape v) lbls) by reflexivity.
    rewrite E. destruct (String.eqb k "__proto__"); [now apply IH|].
    apply IH.
    + now apply obj_set_nodup.
    + apply Forall_forall. intros e He.
      apply obj_set_in in He as [->|He]; [exact Vk|].
      rewrite Forall_forall in Hv. now apply Hv.
Qed.

Lemma parse_labels_well_formed (o : option string) (lbls : jsobj string) :
  parse_labels o = Some lbls ->
  NoDup (map fst lbls)
  /\ Forall (fun kv : string * string => valid_label_name (fst kv) = true)
            lbls.
Proof.
  unfold parse_labels. destruct o as [s|].
  2:{ intros H. injection H as <-. split; constructor. }
  destruct (is_empty s).
  { intros H. injection H as <-. split; constructor. }
  unfold exec_all.
  destruct (exec_loop (String.length s) (S (String.length s)) labelRegex s)
    as [ms|] eqn:E; [|discriminate].
  intros H. injection H as <-.
  apply exec_loop_captures in E.
  apply add_labels_well_formed; [|constructor|constructor].
  eapply Forall_impl; [|exact E].
  intros cs (start & rest & Hc). exists start, rest. right. eauto.
Qed.

Lemma metrics_push_keys (name : string) (s : Sample) (m : Metrics)
      (x : string) :
  In x (map fst (metrics_push name s m)) <-> x = name \/ In x (map fst m).
Proof.
  induction m as [|[n l] m IH]; cbn [metrics_push map In fst].
  - intuition auto.
  - destruct (String.eqb name n) eqn:E; cbn [map In fst].
    + apply String.eqb_eq in E. subst n. intuition auto.
    + rewrite IH. intuition auto.
Qed.

Lemma metrics_push_well_formed (name : string) (s : Sample) (m : Metrics) :
  valid_name name = true -> well_formed_sample s ->
  well_formed_snapshot m -> well_formed_snapshot (metrics_push name s m).
Proof.
  intros Vn Ws [Hn Hf]. induction m as [|[n l] m IH]; cbn [metrics_push].
  - split; [repeat constructor; intros []|].
    constructor; [|constructor]. cbn [fst snd].
    split; [exact Vn|]. split; [discriminate|]. now constructor.
  - inversion Hn as [|n' ks Hnot Hn']; subst.
    inversion Hf as [|e es (V & Ne & Wl) Hf']; subst. cbn [fst snd] in *.
    destruct (String.eqb name n) eqn:E.
    + split; [exact Hn|]. constructor; [|exact Hf']. cbn [fst snd].
      split; [exact V|]. split.
      * intros C. apply app_eq_nil in C as [_ C]. discriminate C.
      * apply Forall_app. split; [exact Wl|now constructor].
    + destruct (IH Hn' Hf') as [Hn2 Hf2]. split.
      * cbn [map fst]. constructor; [|exact Hn2].
        rewrite metrics_push_keys. intros [->|H]; [|contradiction].
        rewrite String.eqb_refl in E. discriminate E.
      * constructor; [|exact Hf2]. cbn [fst snd]. auto.
Qed.

Lemma data_line_well_formed (t : string) (m m' : Metrics) :
  well_formed_snapshot m -> data_line t m = Some m' ->
  well_formed_snapshot m'.
Proof.
  intros W. unfold data_line.
  destruct (regex_match dataRegex t) as [cs|] eqn:E.
  2:{ intros H. now injection H as <-. }
  apply data_line_captures in E as (name & tok & -> & Vn & -> & _).
  destruct (parse_labels (get_cap 2 cs)) as [lbls|] eqn:El; [|discriminate].
  intros H. injection H as <-.
  apply metrics_push_well_formed; auto.
  now apply parse_labels_well_formed in El.
Qed.

Lemma parse_lines_well_formed (lines : list string) :
  forall m m',
    well_formed_snapshot m -> parse_lines lines m = Some m' ->
    well_formed_snapshot m'.
Proof.
  induction lines as [|l lines IH]; intros m m' W; cbn [parse_lines].
  - intros H. now injection H as <-.
  - destruct (is_empty (trim l) || startsWith "#" (trim l)); [now apply IH|].
    destruct (data_line (trim l) m) as [m1|] eqn:E; [|discriminate].
    apply IH. eapply data_line_well_formed; eauto.
Qed.

(** The two parsers read the same samples: on every text the parser with
    metadata returns the snapshot the plain parser returns. *)
Lemma parse_lines_agree (lines : list string) :
  forall m md,
    option_map fst (parse_lines_meta lines (m, md)) = parse_lines lines m.
Proof.
  induction lines as [|l lines IH]; intros m md;
    cbn [parse_lines_meta parse_lines]; [reflexivity|].
  destruct (is_empty (trim l)); cbn [orb]; [apply IH|].
  unfold meta_line.
  destruct (regex_match helpRegex (trim l)) as [cs|] eqn:Eh.
  { apply help_line_captures in Eh as (name & h & -> & _ & -> & ->).
    apply IH. }
  destruct (regex_match typeRegex (trim l)) as [cs|] eqn:Et.
  { apply type_line_captures in Et as (name & ty & -> & _ & -> & _ & ->).
    apply IH. }
  destruct (startsWith "#" (trim l)); [apply IH|].
  destruct (data_line (trim l) m) as [m1|]; [apply IH|reflexivity].
Qed.

Theorem parsers_agree (text : string) :
  option_map fst (parsePrometheusMetricsWithMetadata text)
  = parsePrometheusMetrics text.
Proof. apply parse_lines_agree. Qed.

(** In every parsed snapshot the metric names are well formed and distinct,
    every metric has a sample, and the label names of every sample are well
    formed and distinct. *)
Theorem parsed_snapshot_well_formed (text : string) :
  exists m,
    parsePrometheusMetrics text = Some m /\ well_formed_snapshot m.
Proof.
  destruct (parse_lines_total (split_on LF text) []) as [m Hm].
  exists m. split; [exact Hm|].
  eapply parse_lines_well_formed; [|exact Hm].
  split; constructor.
Qed.

Lemma meta_update_keys (name : string) (f : Meta -> Meta) (md : Metadata)
      (x : string) :
  In x (map fst (meta_update name f md)) <-> x = name \/ In x (map fst md).
Proof.
  induction md as [|[n e] md IH]; cbn [meta_update map In fst].
  - intuition auto.
  - destruct (String.eqb name n) eqn:E; cbn [map In fst].
    + apply String.eqb_eq in E. subst n. intuition auto.
    + rewrite IH. intuition auto.
Qed.

Lemma meta_update_well_formed (name : string) (f : Meta -> Meta)
      (md : Metadata) :
  valid_name name = true ->
  (forall e, In (mtype e) metric_types -> In (mtype (f e)) metric_types) ->
  well_formed_metadata md -> well_formed_metadata (meta_update name f md).
Proof.
  intros Vn Hf [Hn Ht]. induction md as [|[n e] md IH]; cbn [meta_update].
  - split; [repeat constructor; intros []|].
    constructor; [|constructor]. cbn [fst snd]. split; [exact Vn|].
    apply Hf. cbn. auto 6.
  - inversion Hn as [|n' ks Hnot Hn']; subst.
    inversion Ht as [|x xs (V & T) Ht']; subst. cbn [fst snd] in *.
    destruct (String.eqb name n) eqn:E.
    + split; [exact Hn|]. constructor; [|exact Ht']. cbn [fst snd]. auto.
    + destruct (IH Hn' Ht') as [Hn2 Ht2]. split.
      * cbn [map fst]. constructor; [|exact Hn2].
        rewrite meta_update_keys. intros [->|H]; [|contradiction].
        rewrite String.eqb_refl in E. discriminate E.
      * constructor; [|exact Ht2]. cbn [fst snd]. auto.
Qed.

Lemma meta_line_well_formed (t : string) (st st' : Metrics * Metadata) :
  well_formed_metadata (snd st) -> meta_line t st = Some st' ->
  well_formed_metadata (snd st').
Proof.
  destruct st as [m md]. cbn [snd]. intros W. unfold meta_line.
  destruct (regex_match helpRegex t) as [cs|] eqn:Eh.
  { apply help_line_captures in Eh as (name & h & -> & Vn & -> & _).
    intros H. injection H as <-. cbn [snd].
    apply meta_update_well_formed; auto. }
  destruct (regex_match typeRegex t) as [cs|] eqn:Et.
  { apply type_line_captures in Et as (name & ty & -> & Vn & -> & Hty & _).
    intros H. injection H as <-. cbn [snd].
    apply meta_update_well_formed; auto. }
  destruct (startsWith "#" t).
  { intros H. now injection H as <-. }
  destruct (data_line t m); [|discriminate].
  intros H. now injection H as <-.
Qed.

Lemma parse_lines_meta_well_formed (lines : list string) :
  forall st st',
    well_formed_metadata (snd st) -> parse_lines_meta lines st = Some st' ->
    well_formed_metadata (snd st').
Proof.
  induction lines as [|l lines IH]; intros st st' W;
    cbn [parse_lines_meta].
  - intros H. now injection H as <-.
  - destruct (is_empty (trim l)); [now apply IH|].
    destruct (meta_line (trim l) st) as [st1|] eqn:E; [|discriminate].
    apply IH. eapply meta_line_well_formed; eauto.
Qed.

(** The parser with metadata returns, on every text, a well-formed snapshot
    and a metadata catalog whose names are well formed and distinct and
    whose types are among counter, gauge, histogram, summary and untyped, in
    lower case whatever the case of the TYPE line. *)
Theorem parsed_metadata_well_formed (text : string) :
  exists m md,
    parsePrometheusMetricsWithMetadata text = Some (m, md)
    /\ well_formed_snapshot m /\ well_formed_metadata md.
Proof.
  destruct (parse_lines_meta_total (split_on LF text) ([], []))
    as [[m md] H].
  exists m, md. split; [exact H|]. split.
  - assert (A : parse_lines (split_on LF text) [] = Some m).
    { rewrite <- parse_lines_agree with (md := []).
      unfold Metrics, Metadata in *. now rewrite H. }
    eapply parse_lines_well_formed; [|exact A]. split; constructor.
  - change md with (snd (m, md)).
    eapply parse_lines_meta_well_formed; [|exact H]. split; constructor.
Qed.

(* ================================================================== *)
(** * The value stored for a data line *)
(* ================================================================== *)

(** A line that matches the data pattern is neither empty nor a comment. *)
Lemma data_line_not_comment (t : string) (cs : caps) :
  regex_match dataRegex t = Some cs ->
  is_empty t = false /\ startsWith "#" t = false.
Proof.
  intros H.
  apply data_line_captures in H as (name & tok & _ & Vn & _ & _ & Hs).
  destruct name as [|c name]; [discriminate Vn|].
  destruct t as [|d t]; [discriminate Hs|].
  cbn [startsWith] in Hs. apply andb_true_iff in Hs as [Hc _].
  apply Ascii.eqb_eq in Hc. subst d.
  cbn [valid_name] in Vn. apply andb_true_iff in Vn as [Vc _].
  split; [reflexivity|]. cbn [startsWith].
  destruct (Ascii.eqb "#" c) eqn:E; [|reflexivity].
  apply Ascii.eqb_eq in E. subst c. discriminate Vc.
Qed.

(** A sample that is pushed is stored, and what is stored stays. *)
Lemma metrics_push_stored (name : string) (s : Sample) (m : Metrics) :
  stored name s (metrics_push name s m).
Proof.
  unfold stored, metrics_get.
  induction m as [|[n l] m IH]; cbn [metrics_push obj_get].
  - rewrite String.eqb_refl. exists [s]. split; [reflexivity|now left].
  - destruct (String.eqb name n) eqn:E; cbn [obj_get]; rewrite E.
    + exists (l ++ [s])%list. split; [reflexivity|].
      apply in_app_iff. right. now left.
    + exact IH.
Qed.

Lemma metrics_push_keeps (name : string) (s : Sample) (m : Metrics)
      (n : string) (s0 : Sample) :
  stored n s0 m -> stored n s0 (metrics_push name s m).
Proof.
  unfold stored, metrics_get.
  induction m as [|[n' l] m IH]; cbn [metrics_push obj_get].
  - intros (series & H & _). discriminate H.
  - intros (series & H & Hin).
    destruct (String.eqb name n') eqn:E; cbn [obj_get].
    + destruct (String.eqb n n') eqn:E'.
      * injection H as <-. exists (l ++ [s])%list. split; [reflexivity|].
        apply in_app_iff. now left.
      * exists series. auto.
    + destruct (String.eqb n n') eqn:E'.
      * exists series. auto.
      * apply IH. exists series. auto.
Qed.

Lemma data_line_keeps (t : string) (m m' : Metrics) (n : string)
      (s0 : Sample) :
  data_line t m = Some m' -> stored n s0 m -> stored n s0 m'.
Proof.
  unfold data_line.
  destruct (regex_match dataRegex t) as [cs|]; [|now intros [= <-]].
  destruct (get_cap 1 cs) as [name|]; [|now intros [= <-]].
  destruct (get_cap 3 cs) as [tok|]; [|now intros [= <-]].
  destruct (parse_labels (get_cap 2 cs)) as [lbls|]; [|discriminate].
  intros [= <-]. apply metrics_push_keeps.
Qed.

Lemma parse_lines_keeps (lines : list string) (n : string) (s0 : Sample) :
  forall m m',
    parse_lines lines m = Some m' -> stored n s0 m -> stored n s0 m'.
Proof.
  induction lines as [|l lines IH]; intros m m'; cbn [parse_lines].
  - now intros [= <-].
  - destruct (is_empty (trim l) || startsWith "#" (trim l)); [apply IH|].
    destruct (data_line (trim l) m) as [m1|] eqn:E; [|discriminate].
    intros H Hs. apply (IH _ _ H).
    exact (data_line_keeps _ _ _ _ _ E Hs).
Qed.

(** The sample of a data line is stored in what the lines from it on
    give. *)
Lemma parse_lines_stores (line : string) (cs : caps) (name tok : string)
      (lbls : jsobj string) (l1 l2 : list string) (m m' : Metrics) :
  regex_match dataRegex (trim line) = Some cs ->
  get_cap 1 cs = Some name -> get_cap 3 cs = Some tok ->
  parse_labels (get_cap 2 cs) = Some lbls ->
  parse_lines (l1 ++ line :: l2) m = Some m' ->
  stored name (mkSample lbls (parse_value tok)) m'.
Proof.
  intros Hm H1 H3 Hl. revert m.
  induction l1 as [|l l1 IH]; intros m; cbn [app parse_lines].
  - destruct (data_line_not_comment _ _ Hm) as [-> ->]. cbn [orb].
    unfold data_line. rewrite Hm, H1, H3, Hl.
    intros H. apply (parse_lines_keeps _ _ _ _ _ H).
    apply metrics_push_stored.
  - destruct (is_empty (trim l) || startsWith "#" (trim l)); [apply IH|].
    destruct (data_line (trim l) m) as [m1|]; [apply IH|discriminate].
Qed.

(** C3: both parsers return, and for every data line of the text, that is
    every line that matches the data pattern, they store under the name of
    the line a sample with the labels of the line whose value is read from
    the value token: the number [parseFloat] gives, and when [parseFloat]
    rejects the token, positive infinity for [+Inf] and [Inf], negative
    infinity for [-Inf] and 0 for anything else.  The tokens [+Inf], [Inf],
    [-Inf] and [NaN] are rejected by [parseFloat], so they are stored as
    infinity, infinity, minus infinity and 0.  Nothing else is stored: every
    sample of the snapshot holds the value so read from the token of a data
    line, and no value is NaN. *)
Theorem stored_value_fallback (text line : string) (cs : caps) (tok : string)
  (Hline : In line (split_on LF text))
  (Hmatch : regex_match dataRegex (trim line) = Some cs)
  (Htok : get_cap 3 cs = Some tok) :
  exists m md name lbls,
    parsePrometheusMetrics text = Some m
    /\ parsePrometheusMetricsWithMetadata text = Some (m, md)
    /\ get_cap 1 cs = Some name
    /\ parse_labels (get_cap 2 cs) = Some lbls
    /\ stored name (mkSample lbls (parse_value tok)) m
    /\ (isNaN (parseFloat tok) = false -> parse_value tok = parseFloat tok)
    /\ (isNaN (parseFloat tok) = true -> parse_value tok = fallback_value tok)
    /\ (forall n s, stored n s m ->
          isNaN (value s) = false
          /\ from_data_line (split_on LF text) s)
    /\ (isNaN (parseFloat "+Inf") = true /\ parse_value "+Inf" = Infinity)
    /\ (isNaN (parseFloat "Inf") = true /\ parse_value "Inf" = Infinity)
    /\ (isNaN (parseFloat "-Inf") = true /\ parse_value "-Inf" = negInfinity)
    /\ (isNaN (parseFloat "NaN") = true /\ parse_value "NaN" = fzero).
Proof.
  destruct (parse_lines_total (split_on LF text) []) as [m Hm].
  destruct (parse_lines_meta_total (split_on LF text) ([], []))
    as [[m0 md] Hmd].
  assert (E0 : m0 = m).
  { pose proof (parse_lines_agree (split_on LF text) [] []) as A.
    unfold Metrics, Metadata in *. rewrite Hmd, Hm in A.
    cbn [option_map fst] in A. now injection A. }
  subst m0.
  destruct (data_line_captures _ _ Hmatch)
    as (name & tok' & H1 & _ & H3 & _ & _).
  destruct (parse_labels_total (get_cap 2 cs)) as [lbls Hl].
  exists m, md, name, lbls.
  split; [exact Hm|]. split; [exact Hmd|]. split; [exact H1|].
  split; [exact Hl|]. split.
  { apply in_split in Hline as (l1 & l2 & E).
    unfold parsePrometheusMetrics in Hm. rewrite E in Hm.
    exact (parse_lines_stores line cs name tok lbls l1 l2 [] m Hmatch H1 Htok
             Hl Hm). }
  split.
  { intros Hn. unfold parse_value. now rewrite Hn. }
  split; [apply parse_value_fallback|].
  split.
  { intros n s (series & Hget & Hin).
    assert (Hall : all_samples (from_data_line (split_on LF text)) m).
    { eapply parse_lines_samples; [apply incl_refl| |exact Hm]. constructor. }
    pose proof (all_samples_get _ _ _ _ _ Hall Hget Hin) as F.
    split; [|exact F].
    destruct F as (line' & cs' & tok0 & _ & _ & _ & Hv).
    rewrite Hv. apply parse_value_not_nan. }
  repeat split; vm_compute; reflexivity.
Qed.

(** An instance: the line of Example 5, between two other lines. *)
Lemma stored_value_fallback_witness :
  let line := "go_memstats_alloc_bytes NaN" in
  let text := "up 1" ++ str1 LF ++ line ++ str1 LF ++ "up 2" in
  parsePrometheusMetrics text
  = Some [("up", [mkSample [] 1%float; mkSample [] 2%float]);
          ("go_memstats_alloc_bytes", [mkSample [] fzero])]
  /\ parse_value "NaN" = fzero
  /\ exists m md name lbls,
       parsePrometheusMetrics text = Some m
       /\ parsePrometheusMetricsWithMetadata text = Some (m, md)
       /\ get_cap 1 [(3, "NaN"); (1, "go_memstats_alloc_bytes")] = Some name
       /\ parse_labels (get_cap 2 [(3, "NaN"); (1, "go_memstats_alloc_bytes")])
          = Some lbls
       /\ stored name (mkSample lbls (parse_value "NaN")) m.
Proof.
  intros line text. split; [vm_compute; reflexivity|].
  split; [vm_compute; reflexivity|].
  destruct (stored_value_fallback text line
              [(3, "NaN"); (1, "go_memstats_alloc_bytes")] "NaN")
    as (m & md & name & lbls & H1 & H2 & H3 & H4 & H5 & _).
  - vm_compute. right. left. reflexivity.
  - vm_compute. reflexivity.
  - reflexivity.
  - exists m, md, name, lbls. auto.
Defined.

(* ================================================================== *)
(** * The rate distribution *)
(* ================================================================== *)

(** The keys of [getBuckets] are [le] labels of selected samples. *)
Lemma getBuckets_keys (metricName : string) (filterFn : Sample -> bool)
      (metrics : Metrics) (le : string) :
  In le (obj_keys (getBuckets metricName filterFn metrics)) ->
  selected_le metricName filterFn metrics le.
Proof.
  unfold getBuckets, selected_le. rewrite obj_keys_in.
  destruct (metrics_get metricName metrics) as [series|]; [|intros []].
  intros H. exists series.
  cut (In le (map fst (@nil (string * num)))
       \/ exists s, In s (filter filterFn series) /\ le_of s = Some le).
  { intros [[]|(s & Hs & Hl)]. apply filter_In in Hs as [Hs Hf].
    exists s. auto. }
  revert H. generalize (@nil (string * num)).
  induction (filter filterFn series) as [|s l IH]; intros acc H;
    cbn [fold_left] in H.
  - now left.
  - apply IH in H. destruct H as [H|(s' & Hs' & Hl)].
    + unfold le_of.
      destruct (obj_get "le" (labels s)) as [l0|] eqn:E; [|now left].
      destruct (is_empty l0) eqn:E0; [now left|].
      unfold bump in H. apply obj_set_keys in H as [->|H]; [|now left].
      right. exists s. split; [now left|]. unfold le_of. now rewrite E, E0.
    + right. exists s'. split; [now right|exact Hl].
Qed.

(** Every entry of [mapi f l] is [f] at an element of [l]. *)
Lemma in_mapi_from {A B : Type} (f : A -> nat -> B) (l : list A) (i : nat)
      (y : B) :
  In y (mapi_from f i l) -> exists x j, In x l /\ y = f x j.
Proof.
  revert i. induction l as [|x l IH]; intros i; cbn [mapi_from In].
  - intros [].
  - intros [<-|H]; [exists x, i; auto|].
    destruct (IH _ H) as (x' & j & Hx & ->). exists x', j. auto.
Qed.

(** A number above another one is not NaN. *)
Lemma gt_not_nan (a b : num) : gt a b = true -> isNaN a = false.
Proof.
  unfold gt. rewrite ltb_spec. intros H. apply isNaN_spec. intros E.
  rewrite E in H. unfold SFltb, SFcompare in H.
  now destruct (Prim2SF b) as [| | |? ? ?].
Qed.

Lemma num_le_trans (a b c : num) : num_le a b -> num_le b c -> num_le a c.
Proof.
  intros (Ha & Hb & H1) (_ & Hc & H2). repeat split; auto.
  rewrite leb_rank in * by assumption. apply Z.leb_le in H1, H2.
  apply Z.leb_le. lia.
Qed.

Lemma StronglySorted_filter {A : Type} (R : A -> A -> Prop) (p : A -> bool)
      (l : list A) :
  StronglySorted R l -> StronglySorted R (filter p l).
Proof.
  induction 1 as [|x l Hl IH Hx]; cbn [filter]; [constructor|].
  destruct (p x); [|exact IH]. constructor; [exact IH|].
  apply Forall_forall. intros y Hy. apply filter_In in Hy as [Hy _].
  revert y Hy. now apply Forall_forall.
Qed.

Lemma StronglySorted_map_on {A B : Type} (f : A -> B) (R : B -> B -> Prop)
      (l : list A) :
  StronglySorted (fun a b => R (f a) (f b)) l -> StronglySorted R (map f l).
Proof.
  induction 1 as [|x l Hl IH Hx]; cbn [map]; constructor; [exact IH|].
  apply Forall_forall. intros y Hy. apply in_map_iff in Hy as (z & <- & Hz).
  revert z Hz. now apply Forall_forall.
Qed.

(** The sorted [rates] are in ascending order of [le] when no [le] is NaN. *)
Lemma rates_sorted (rates : list RateEntry) :
  (forall e, In e rates -> isNaN (rate_le e) = false) ->
  StronglySorted (fun a b => num_le (rate_le a) (rate_le b))
    (js_sort (fun a b => PrimFloat.sub (rate_le a) (rate_le b)) rates).
Proof.
  intros Hn. apply Sorted_StronglySorted.
  { intros a b c. apply num_le_trans. }
  pose proof (js_sort_by_key rate_le rates Hn) as Hs.
  assert (Hin : forall e,
             In e (js_sort (fun a b => PrimFloat.sub (rate_le a) (rate_le b))
                     rates) -> isNaN (rate_le e) = false).
  { intros e He. apply Hn. revert He. apply Permutation_in, js_sort_perm. }
  revert Hs Hin.
  generalize (js_sort (fun a b => PrimFloat.sub (rate_le a) (rate_le b)) rates).
  induction 1 as [|x l Hl IH Hx]; intros Hin; constructor.
  - apply IH. intros e He. apply Hin. now right.
  - destruct Hx as [|y l Hxy]; constructor.
    repeat split; [apply Hin; now left|apply Hin; right; now left|exact Hxy].
Qed.

(** [mapi] keeps an order that only looks at a key the rows inherit. *)
Lemma mapi_from_sorted {A B : Type} (R : num -> num -> Prop) (ka : A -> num)
      (kb : B -> num) (f : A -> nat -> B) (l : list A) (i : nat) :
  (forall x j, kb (f x j) = ka x) ->
  StronglySorted (fun a b => R (ka a) (ka b)) l ->
  StronglySorted (fun a b => R (kb a) (kb b)) (mapi_from f i l).
Proof.
  intros Hf Hs. revert i.
  induction Hs as [|x l Hl IH Hx]; intros i; cbn [mapi_from];
    constructor; [apply IH|].
  apply Forall_forall. intros y Hy.
  apply in_mapi_from in Hy as (x' & j & Hx' & ->). rewrite !Hf.
  revert x' Hx'. now apply Forall_forall.
Qed.

(** Rate distribution, the rows: a row exists only when both snapshots are
    there and the elapsed time is not zero or less; its bound is the number
    of the [le] label of a selected sample of the current snapshot and is
    not Infinity, and its count is a number above 0.001. *)
Theorem rate_distribution_rows (currMetrics prevMetrics : option Metrics)
        (metricName : string) (filterFn : Sample -> bool) (timeDiff : num)
        (r : RateRow) :
  In r (computeRateDistribution currMetrics prevMetrics metricName filterFn
          timeDiff) ->
  exists curr prev le,
    currMetrics = Some curr /\ prevMetrics = Some prev
    /\ PrimFloat.leb timeDiff fzero = false
    /\ selected_le metricName filterFn curr le
    /\ rr_le r = leNum le
    /\ num_eq (rr_le r) Infinity = false
    /\ isNaN (rr_count r) = false
    /\ PrimFloat.ltb rate_threshold (rr_count r) = true.
Proof.
  unfold computeRateDistribution.
  destruct currMetrics as [curr|]; [|intros []].
  destruct prevMetrics as [prev|]; [|intros []].
  destruct (PrimFloat.leb timeDiff fzero) eqn:Ht; [intros []|].
  cbv zeta. intros H. apply filter_In in H as [H Hf].
  apply andb_true_iff in Hf as [Hi Hc]. apply negb_true_iff in Hi.
  apply in_mapi_from in H as (e & j & He & ->).
  apply (Permutation_in _ (js_sort_perm _ _)) in He.
  unfold rate_entries in He. apply in_map_iff in He as (le & <- & Hle).
  apply getBuckets_keys in Hle.
  exists curr, prev, le. cbn [rate_row rr_le rate_le] in *.
  repeat split; auto. now apply gt_not_nan in Hc.
Qed.

(** An instance: a bucket that went from 100 to 140 in 2 seconds. *)
Lemma rate_distribution_rows_witness :
  let curr := [("m", [mkSample [("path", "/write"); ("le", "0.5")] 140%float;
                      mkSample [("path", "/write"); ("le", "+Inf")] 150%float])] in
  let prev := [("m", [mkSample [("path", "/write"); ("le", "0.5")] 100%float;
                      mkSample [("path", "/write"); ("le", "+Inf")] 105%float])] in
  computeRateDistribution (Some curr) (Some prev) "m" (fun _ => true) 2%float
  = [mkRateRow "< 0.5s" 20%float 0.5%float]
  /\ exists c p le,
       Some curr = Some c /\ Some prev = Some p
       /\ PrimFloat.leb 2%float fzero = false
       /\ selected_le "m" (fun _ => true) c le
       /\ rr_le (mkRateRow "< 0.5s" 20%float 0.5%float) = leNum le
       /\ num_eq (rr_le (mkRateRow "< 0.5s" 20%float 0.5%float)) Infinity
          = false
       /\ isNaN (rr_count (mkRateRow "< 0.5s" 20%float 0.5%float)) = false
       /\ PrimFloat.ltb rate_threshold
            (rr_count (mkRateRow "< 0.5s" 20%float 0.5%float)) = true.
Proof.
  intros curr prev. split; [vm_compute; reflexivity|].
  apply (rate_distribution_rows (Some curr) (Some prev) "m" (fun _ => true)
           2%float).
  vm_compute. left. reflexivity.
Defined.

(** Rate distribution, the order: when the [le] label of every selected
    sample of the current snapshot reads as a number, the rows come in
    ascending order of their bound. *)
Theorem rate_distribution_ascending (currMetrics prevMetrics : option Metrics)
        (metricName : string) (filterFn : Sample -> bool) (timeDiff : num) :
  (forall curr le, currMetrics = Some curr ->
                   selected_le metricName filterFn curr le ->
                   isNaN (leNum le) = false) ->
  StronglySorted num_le
    (map rr_le (computeRateDistribution currMetrics prevMetrics metricName
                  filterFn timeDiff)).
Proof.
  intros Hn. unfold computeRateDistribution.
  destruct currMetrics as [curr|]; [|constructor].
  destruct prevMetrics as [prev|]; [|constructor].
  destruct (PrimFloat.leb timeDiff fzero); [constructor|]. cbv zeta.
  apply StronglySorted_map_on, StronglySorted_filter.
  apply (mapi_from_sorted num_le rate_le rr_le); [reflexivity|].
  apply rates_sorted. intros e He. unfold rate_entries in He.
  apply in_map_iff in He as (le & <- & Hle). cbn [rate_le].
  apply (Hn curr le eq_refl). now apply getBuckets_keys.
Qed.

(** An instance with three buckets given out of order. *)
Lemma rate_distribution_ascending_witness :
  let curr := [("m", [mkSample [("le", "+Inf")] 90%float;
                      mkSample [("le", "0.5")] 60%float;
                      mkSample [("le", "0.25")] 20%float])] in
  let prev := [("m", [mkSample [("le", "+Inf")] 0%float;
                      mkSample [("le", "0.5")] 0%float;
                      mkSample [("le", "0.25")] 0%float])] in
  map rr_le (computeRateDistribution (Some curr) (Some prev) "m"
               (fun _ => true) 2%float)
  = [0.25%float; 0.5%float]
  /\ StronglySorted num_le
       (map rr_le (computeRateDistribution (Some curr) (Some prev) "m"
                     (fun _ => true) 2%float)).
Proof.
  intros curr prev. split; [vm_compute; reflexivity|].
  apply rate_distribution_ascending.
  intros c le [= <-] (series & s & Hg & Hs & _ & Hl).
  vm_compute in Hg. injection Hg as <-.
  destruct Hs as [<-|[<-|[<-|[]]]]; vm_compute in Hl; injection Hl as <-;
    vm_compute; reflexivity.
Defined.

(* ================================================================== *)
(** * The summary chart of the overview *)
(* ================================================================== *)

Lemma has_char_app (c : ascii) (a b : string) :
  has_char c (a ++ b) = has_char c a || has_char c b.
Proof.
  induction a as [|d a IH]; cbn [append has_char]; [reflexivity|].
  rewrite IH. now rewrite orb_assoc.
Qed.

(** A series name is [Global] or has a colon in it. *)
Lemma summary_key_shape (lbls : jsobj string) :
  summary_key lbls = "Global" \/ has_char ":" (summary_key lbls) = true.
Proof.
  unfold summary_key.
  destruct (map _ (obj_entries (filter _ (obj_entries lbls))))
    as [|p parts] eqn:E; [now left|right].
  destruct (obj_entries (filter _ (obj_entries lbls))) as [|[k v] es];
    [discriminate|].
  cbn [map fst snd] in E. injection E as <- _.
  assert (H : has_char ":" (k ++ ": " ++ v) = true).
  { rewrite has_char_app. cbn [append has_char]. cbn.
    now rewrite orb_true_r. }
  destruct parts; cbn [join]; [exact H|].
  rewrite has_char_app. apply orb_true_iff. left. exact H.
Qed.

Lemma summary_key_not_name (lbls : jsobj string) : summary_key lbls <> "name".
Proof.
  destruct (summary_key_shape lbls) as [E|E]; rewrite E || (intros F;
    rewrite F in E); discriminate.
Qed.

(** What one round of the loop does to a cell other than [max]. *)
Lemma cell_opt_summary_step (groups : jsobj (jsobj num)) (allQ : list string)
      (s : Sample) (k q : string) :
  q <> "max" ->
  (forall g, obj_get k groups = Some g -> obj_get q g = cell_opt groups k q) ->
  cell_opt (fst (summary_step (groups, allQ) s)) k q
  = if String.eqb (summary_key (labels s)) k && String.eqb (quantile_of s) q
    then Some (value s) else cell_opt groups k q.
Proof.
  intros Hq _. unfold summary_step. cbn [fst]. unfold cell_opt at 1.
  destruct (String.eqb (summary_key (labels s)) k) eqn:Ek; cbn [andb].
  - apply String.eqb_eq in Ek. subst k. rewrite obj_get_set_same.
    set (g0 := match obj_get _ groups with Some g => g | None => _ end).
    assert (H0 : obj_get q g0 = cell_opt groups (summary_key (labels s)) q).
    { unfold g0, cell_opt. destruct (obj_get _ groups); [reflexivity|].
      cbn [obj_get]. apply String.eqb_neq in Hq. now rewrite Hq. }
    assert (H1 : obj_get q (obj_set (quantile_of s) (value s) g0)
                 = if String.eqb (quantile_of s) q then Some (value s)
                   else cell_opt groups (summary_key (labels s)) q).
    { destruct (String.eqb (quantile_of s) q) eqn:Eq.
      - apply String.eqb_eq in Eq. subst q. apply obj_get_set_same.
      - apply String.eqb_neq in Eq.
        rewrite obj_get_set_other by congruence. exact H0. }
    destruct (gt _ _); [|exact H1].
    rewrite obj_get_set_other by exact Hq. exact H1.
  - apply String.eqb_neq in Ek. rewrite obj_get_set_other by congruence.
    reflexivity.
Qed.

Section SummaryAccumulation.
Variables (k q : string).
Hypothesis Hq : q <> "max".

Lemma summary_fold_cell (l : list Sample) :
  forall acc,
    cell_opt (fst (fold_left summary_step l acc)) k q
    = fold_left (last_step k q) l (cell_opt (fst acc) k q).
Proof.
  induction l as [|s l IH]; intros [groups allQ]; cbn [fold_left];
    [reflexivity|].
  rewrite IH. f_equal. unfold last_step.
  apply cell_opt_summary_step; [exact Hq|]. intros g Hg.
  unfold cell_opt. now rewrite Hg.
Qed.

Lemma pick_filter (series : list Sample) :
  forall acc,
    fold_left (last_step k q) (filter has_quantile series) acc
    = fold_left (fun acc s =>
                   if has_quantile s
                      && String.eqb (summary_key (labels s)) k
                      && String.eqb (quantile_of s) q
                   then Some (value s) else acc) series acc.
Proof.
  induction series as [|s l IH]; intros acc; cbn [filter fold_left];
    [reflexivity|].
  destruct (has_quantile s); cbn [andb fold_left]; apply IH.
Qed.
End SummaryAccumulation.

(** The names of the series and the set of quantiles after the loop. *)
Lemma summary_fold_keys (l : list Sample) :
  forall acc x,
    In x (map fst (fst (fold_left summary_step l acc)))
    <-> In x (map fst (fst acc))
        \/ exists s, In s l /\ summary_key (labels s) = x.
Proof.
  induction l as [|s l IH]; intros [groups allQ] x; cbn [fold_left].
  - split; [auto|]. intros [H|(s & [] & _)]. exact H.
  - rewrite IH. unfold summary_step at 1. cbn [fst]. rewrite obj_set_keys.
    cbn [In]. split.
    + intros [[->|H]|(s' & Hs' & E)]; eauto.
    + intros [H|(s' & [<-|Hs'] & E)]; eauto.
Qed.

Lemma summary_fold_nodup (l : list Sample) :
  forall acc,
    NoDup (map fst (fst acc)) ->
    NoDup (map fst (fst (fold_left summary_step l acc))).
Proof.
  induction l as [|s l IH]; intros [groups allQ] H; cbn [fold_left];
    [exact H|].
  apply IH. unfold summary_step. cbn [fst]. now apply obj_set_nodup.
Qed.

Lemma summary_fold_quantiles (l : list Sample) :
  forall acc,
    NoDup (snd acc) ->
    NoDup (snd (fold_left summary_step l acc))
    /\ forall x, In x (snd (fold_left summary_step l acc))
                 <-> In x (snd acc) \/ exists s, In s l /\ quantile_of s = x.
Proof.
  induction l as [|s l IH]; intros [groups allQ] H; cbn [fold_left].
  - split; [exact H|]. intros x. split; [auto|].
    intros [Hx|(s & [] & _)]. exact Hx.
  - destruct (IH (summary_step (groups, allQ) s)) as [N I].
    { unfold summary_step. cbn [snd]. now apply set_add_nodup. }
    split; [exact N|]. intros x. rewrite I. unfold summary_step at 1.
    cbn [snd]. rewrite set_add_in. cbn [In]. split.
    + intros [[Hx| ->]|(s' & Hs' & E)]; eauto.
    + intros [Hx|(s' & [<-|Hs'] & E)]; eauto.
Qed.

Lemma firstn_in {A : Type} (n : nat) (l : list A) (x : A) :
  In x (firstn n l) -> In x l.
Proof.
  revert n. induction l as [|y l IH]; intros [|n]; cbn [firstn In]; auto.
  - intros [].
  - intros [H|H]; eauto.
Qed.

Lemma firstn_in_map {A B : Type} (f : A -> B) (n : nat) (l : list A) (y : B) :
  In y (map f (firstn n l)) -> In y (map f l).
Proof.
  intros H. apply in_map_iff in H as (x & <- & Hx). apply in_map.
  revert Hx. apply firstn_in.
Qed.

Lemma firstn_nodup {A : Type} (n : nat) (l : list A) :
  NoDup l -> NoDup (firstn n l).
Proof.
  revert n. induction l as [|x l IH]; intros [|n] H; cbn [firstn];
    try constructor.
  - inversion H; subst. intros Hin. apply firstn_in in Hin. contradiction.
  - inversion H; subst. now apply IH.
Qed.

Lemma has_quantile_label (s : Sample) :
  has_quantile s = true ->
  obj_get "quantile" (labels s) = Some (quantile_of s).
Proof.
  unfold has_quantile, quantile_of.
  now destruct (obj_get "quantile" (labels s)).
Qed.

(** The facts about [groups], [allQuantiles] and [topSeries] the two
    theorems below share. *)
Lemma summary_parts (series : list Sample) :
  let st := fold_left summary_step (filter has_quantile series) ([], []) in
  let topSeries :=
    map fst (firstn 5 (js_sort by_max_desc (obj_entries (fst st)))) in
  (List.length topSeries <= 5)%nat
  /\ NoDup topSeries
  /\ (forall k, In k topSeries -> series_name series k)
  /\ NoDup (snd st)
  /\ (forall q, In q (snd st) <-> quantile_label series q).
Proof.
  intros st topSeries.
  assert (Hk : forall k, In k topSeries -> In k (map fst (fst st))).
  { intros k Hk. unfold topSeries in Hk. apply firstn_in_map in Hk.
    revert Hk. apply Permutation_in, Permutation_map.
    rewrite js_sort_perm. apply obj_entries_perm. }
  repeat split.
  - unfold topSeries. rewrite length_map. apply firstn_le_length.
  - unfold topSeries. rewrite <- firstn_map. apply firstn_nodup.
    apply (Permutation_NoDup (l := map fst (fst st))).
    + symmetry. apply Permutation_map. rewrite js_sort_perm.
      apply obj_entries_perm.
    + apply summary_fold_nodup. constructor.
  - intros k Hin. apply Hk in Hin. unfold st in Hin.
    apply summary_fold_keys in Hin as [[]|(s & Hs & E)].
    apply filter_In in Hs as [Hs Hq]. exists s. auto.
  - apply summary_fold_quantiles. constructor.
  - intros [[]|(s & Hs & E)]%summary_fold_quantiles; [|constructor].
    apply filter_In in Hs as [Hs Hq]. exists s. split; [exact Hs|].
    rewrite <- E. now apply has_quantile_label.
  - intros (s & Hs & E). apply summary_fold_quantiles; [constructor|].
    right. exists s. split.
    + apply filter_In. split; [exact Hs|]. unfold has_quantile.
      now rewrite E.
    + unfold quantile_of. now rewrite E.
Qed.

(** Summary chart, the series: at most five, all different, each the
    series name of a sample with a quantile, and none is called [name]. *)
Theorem summary_data_keys (metrics : Metrics) (name : string)
        (series : list Sample) :
  metrics_get name metrics = Some series ->
  let keys := snd (computeSummaryData metrics name) in
  (List.length keys <= 5)%nat
  /\ NoDup keys
  /\ (forall k, In k keys -> series_name series k)
  /\ ~ In "name" keys.
Proof.
  intros Hg. unfold computeSummaryData. rewrite Hg.
  destruct (summary_parts series) as (H1 & H2 & H3 & _).
  destruct (fold_left summary_step (filter has_quantile series) ([], []))
    as [groups allQ] eqn:E.
  cbn [fst snd] in *. cbv zeta. cbn [snd].
  repeat split; auto.
  intros Hin. apply H3 in Hin as (s & _ & _ & E').
  now apply summary_key_not_name in E'.
Qed.

(** An instance: two series of the same summary. *)
Lemma summary_data_keys_witness :
  let series :=
    [mkSample [("path", "/a"); ("quantile", "0.5")] 2%float;
     mkSample [("path", "/a"); ("quantile", "0.9")] 5%float;
     mkSample [("quantile", "0.5")] 1%float] in
  snd (computeSummaryData [("m", series)] "m") = ["path: /a"; "Global"]
  /\ let keys := snd (computeSummaryData [("m", series)] "m") in
     (List.length keys <= 5)%nat
     /\ NoDup keys
     /\ (forall k, In k keys -> series_name series k)
     /\ ~ In "name" keys.
Proof.
  intros series. split; [vm_compute; reflexivity|].
  apply (summary_data_keys [("m", series)] "m" series). reflexivity.
Defined.

(** Summary chart, the rows: one row per quantile label of the series, each
    label once, in ascending order when the labels read as numbers; a row is
    named after its quantile and, for a quantile that is neither [max] nor a
    name that a plain object inherits, holds for each series the value of
    the last sample of that series and quantile, or 0 when there is none or
    when that value is 0 or NaN. *)
Theorem summary_data_rows (metrics : Metrics) (name : string)
        (series : list Sample) :
  metrics_get name metrics = Some series ->
  exists qs,
    NoDup qs
    /\ (forall q, In q qs <-> quantile_label series q)
    /\ ((forall q, quantile_label series q -> isNaN (parseFloat q) = false) ->
        Sorted (fun a b => PrimFloat.leb (parseFloat a) (parseFloat b) = true)
          qs)
    /\ Forall2 (fun q row =>
                  row_str "name" row = Some (pct_key q)
                  /\ forall k,
                       In k (snd (computeSummaryData metrics name)) ->
                       q <> "max" -> own_name q = true ->
                       row_num k row
                       = Some (optOrZero (last_value k q series)))
         qs (fst (computeSummaryData metrics name)).
Proof.
  intros Hg. unfold computeSummaryData. rewrite Hg.
  destruct (summary_parts series) as (_ & H2 & H3 & H4 & H5).
  pose proof (fun k q Hq =>
                summary_fold_cell k q Hq (filter has_quantile series) ([], []))
    as Hc.
  destruct (fold_left summary_step (filter has_quantile series) ([], []))
    as [groups allQ] eqn:E.
  cbn [fst snd] in *. cbv zeta. cbn [fst snd].
  set (topSeries := map fst (firstn 5 _)) in *.
  exists (js_sort by_quantile allQ).
  assert (P : Permutation (js_sort by_quantile allQ) allQ)
    by apply js_sort_perm.
  repeat split.
  - apply (Permutation_NoDup (Permutation_sym P)). exact H4.
  - intros Hin. apply H5. revert Hin. now apply Permutation_in.
  - intros Hin. apply H5 in Hin. revert Hin.
    apply Permutation_in. now symmetry.
  - intros Hn. apply (js_sort_by_key parseFloat).
    intros q Hq. apply Hn. now apply H5.
  - generalize (js_sort by_quantile allQ). intros qs.
    induction qs as [|q qs IH]; cbn [map]; constructor; [|exact IH].
    split.
    + unfold row_str, quantile_row. rewrite cols_get_other; [reflexivity|].
      intros Hin. apply H3 in Hin as (s & _ & _ & E').
      now apply summary_key_not_name in E'.
    + intros k Hk Hq _. unfold row_num, quantile_row.
      rewrite (cols_get (fun gKey => VNum (cell groups gKey q))) by exact Hk.
      rewrite cell_cell_opt, (Hc k q Hq). cbn [cell_opt obj_get].
      rewrite pick_filter. reflexivity.
Qed.

(** An instance: the second sample of a series and quantile replaces the
    first. *)
Lemma summary_data_rows_witness :
  let series :=
    [mkSample [("path", "/a"); ("quantile", "0.9")] 5%float;
     mkSample [("path", "/a"); ("quantile", "0.5")] 2%float;
     mkSample [("path", "/a"); ("quantile", "0.5")] 3%float] in
  fst (computeSummaryData [("m", series)] "m")
  = [[("name", VStr "P50"); ("path: /a", VNum 3%float)];
     [("name", VStr "P90"); ("path: /a", VNum 5%float)]]
  /\ exists qs,
       NoDup qs
       /\ (forall q, In q qs <-> quantile_label series q)
       /\ ((forall q, quantile_label series q ->
                      isNaN (parseFloat q) = false) ->
           Sorted
             (fun a b => PrimFloat.leb (parseFloat a) (parseFloat b) = true)
             qs)
       /\ Forall2 (fun q row =>
                     row_str "name" row = Some (pct_key q)
                     /\ forall k,
                          In k (snd (computeSummaryData [("m", series)] "m")) ->
                          q <> "max" -> own_name q = true ->
                          row_num k row
                          = Some (optOrZero (last_value k q series)))
            qs (fst (computeSummaryData [("m", series)] "m")).
Proof.
  intros series. split; [vm_compute; reflexivity|].
  apply (summary_data_rows [("m", series)] "m" series). reflexivity.
Defined.

(** ** The five series kept *)

Lemma Sorted_strong_on {A : Type} (R : A -> A -> Prop) (P : A -> Prop)
      (l : list A) :
  (forall a b c, P a -> P b -> P c -> R a b -> R b c -> R a c) ->
  Forall P l -> Sorted R l -> StronglySorted R l.
Proof.
  intros Ht Hp Hs. induction Hs as [|x l Hl IH Hx]; constructor.
  - apply IH. now inversion Hp.
  - inversion Hp as [|x0 l0 Px Pl]; subst. specialize (IH Pl).
    clear Hl Hp. revert x Px Hx.
    induction IH as [|y l Sl IHl Hy]; intros x Px Hx; constructor.
    + now inversion Hx.
    + inversion Hx as [|y0 l0 Rxy]; subst.
      inversion Pl as [|y0 l0 Py Pl']; subst.
      apply Forall_forall. intros z Hz.
      apply (Ht x y z); auto.
      * revert z Hz. now apply Forall_forall.
      * revert z Hz. now apply Forall_forall.
Qed.

(** In a sorted list an element of the first [n] precedes every other
    one. *)
Lemma firstn_precedes {A : Type} (R : A -> A -> Prop) (n : nat) (l : list A)
      (x y : A) :
  StronglySorted R l ->
  In x (firstn n l) -> In y l -> ~ In y (firstn n l) -> R x y.
Proof.
  intros Hs. revert n. induction Hs as [|z l Hl IH Hz]; intros [|n];
    cbn [firstn In]; try tauto.
  intros [Ex|Hx] [Ey|Hy] Hn; try tauto.
  - subst z. rewrite Forall_forall in Hz. now apply Hz.
  - apply (IH n); tauto.
Qed.

Lemma leb_trans (a b c : num) :
  isNaN a = false -> isNaN b = false -> isNaN c = false ->
  PrimFloat.leb a b = true -> PrimFloat.leb b c = true ->
  PrimFloat.leb a c = true.
Proof.
  intros Ha Hb Hc. rewrite !leb_rank by assumption.
  rewrite !Z.leb_le. lia.
Qed.

(** Sorting by the difference of a key, the other way round. *)
Lemma js_sort_by_key_desc {A : Type} (f : A -> num) (l : list A) :
  (forall x, In x l -> isNaN (f x) = false) ->
  StronglySorted (fun a b => PrimFloat.leb (f b) (f a) = true)
    (js_sort (fun a b => PrimFloat.sub (f b) (f a)) l).
Proof.
  intros Hn.
  apply (Sorted_strong_on _ (fun x => isNaN (f x) = false)).
  - intros a b c Ha Hb Hc H1 H2. now apply (leb_trans _ (f b)).
  - apply Forall_forall. intros x Hx. apply Hn. revert Hx.
    apply Permutation_in, js_sort_perm.
  - unfold js_sort. apply sort_by_sorted.
    + intros x y Hx Hy H. cbv beta in H.
      destruct (sub_sign (f y) (f x) (Hn _ Hy) (Hn _ Hx)) as [E _].
      apply ltb_leb. rewrite <- E. exact H.
    + intros x y Hx Hy H. cbv beta in H.
      destruct (sub_sign (f y) (f x) (Hn _ Hy) (Hn _ Hx)) as [E _].
      apply not_ltb_leb; auto. rewrite <- E. exact H.
Qed.

Lemma max_step_not_nan (k : string) (l : list Sample) :
  forall m, isNaN m = false -> isNaN (fold_left (max_step k) l m) = false.
Proof.
  induction l as [|s l IH]; intros m Hm; cbn [fold_left]; [exact Hm|].
  apply IH. unfold max_step.
  destruct (String.eqb _ k); cbn [andb]; [|exact Hm].
  destruct (gt (value s) m) eqn:G; [|exact Hm]. now apply gt_not_nan in G.
Qed.

Lemma max_step_filter (k : string) (series : list Sample) :
  forall m,
    fold_left (max_step k) (filter has_quantile series) m
    = fold_left (fun m s =>
                   if has_quantile s
                      && String.eqb (summary_key (labels s)) k
                      && gt (value s) m
                   then value s else m) series m.
Proof.
  induction series as [|s l IH]; intros m; cbn [filter fold_left];
    [reflexivity|].
  destruct (has_quantile s); cbn [andb fold_left]; apply IH.
Qed.

Lemma summary_step_max (k : string) (groups : jsobj (jsobj num))
      (allQ : list string) (s : Sample) (m : num) :
  quantile_of s <> "max" ->
  max_known k groups m ->
  max_known k (fst (summary_step (groups, allQ) s)) (max_step k m s).
Proof.
  intros Hq [H1 H2]. unfold summary_step, max_step. cbn [fst].
  destruct (String.eqb (summary_key (labels s)) k) eqn:Ek; cbn [andb].
  - apply String.eqb_eq in Ek. subst k. split.
    2:{ rewrite obj_get_set_same. discriminate. }
    rewrite obj_get_set_same. intros g [= <-].
    set (g0 := match obj_get _ groups with Some g => g | None => _ end).
    assert (H0 : obj_get "max" g0 = Some m).
    { unfold g0. destruct (obj_get _ groups) as [g|] eqn:E.
      - now apply H1.
      - now rewrite H2. }
    assert (H3 : max_of (obj_set (quantile_of s) (value s) g0) = m).
    { unfold max_of. rewrite obj_get_set_other by congruence.
      now rewrite H0. }
    rewrite H3. destruct (gt (value s) m).
    + apply obj_get_set_same.
    + rewrite obj_get_set_other by congruence. exact H0.
  - apply String.eqb_neq in Ek. unfold max_known.
    rewrite obj_get_set_other by congruence. now split.
Qed.

Lemma summary_fold_max (k : string) (l : list Sample) :
  (forall s, In s l -> quantile_of s <> "max") ->
  forall acc m,
    max_known k (fst acc) m ->
    max_known k (fst (fold_left summary_step l acc))
      (fold_left (max_step k) l m).
Proof.
  induction l as [|s l IH]; intros Hq [groups allQ] m H; cbn [fold_left];
    [exact H|].
  apply IH; [intros; apply Hq; now right|].
  apply summary_step_max; [apply Hq; now left|exact H].
Qed.

(** Summary chart, the series kept: when no quantile is labelled [max], a
    series that is left out has no greater maximum than a series that is
    kept. *)
Theorem summary_data_top (metrics : Metrics) (name : string)
        (series : list Sample) (k k' : string) :
  metrics_get name metrics = Some series ->
  (forall s, In s series -> obj_get "quantile" (labels s) <> Some "max") ->
  In k (snd (computeSummaryData metrics name)) ->
  series_name series k' ->
  ~ In k' (snd (computeSummaryData metrics name)) ->
  PrimFloat.leb (series_max k' series) (series_max k series) = true.
Proof.
  intros Hg Hq. unfold computeSummaryData. rewrite Hg.
  assert (Hq' : forall s, In s (filter has_quantile series) ->
                          quantile_of s <> "max").
  { intros s Hs. apply filter_In in Hs as [Hs Hh].
    apply has_quantile_label in Hh. intros E. rewrite E in Hh.
    now apply Hq in Hh. }
  assert (Hm : forall x,
             max_known x
               (fst (fold_left summary_step (filter has_quantile series)
                       ([], [])))
               (series_max x series)).
  { intros x. unfold series_max. rewrite <- max_step_filter.
    apply (summary_fold_max x _ Hq' ([], []) fzero). split.
    - intros g [=].
    - reflexivity. }
  pose proof (summary_fold_keys (filter has_quantile series) ([], [])) as Hk.
  pose proof (summary_fold_nodup (filter has_quantile series) ([], [])
                (NoDup_nil _)) as Hnd.
  destruct (fold_left summary_step (filter has_quantile series) ([], []))
    as [groups allQ].
  cbn [fst snd] in *. cbv zeta. cbn [snd].
  set (sorted := js_sort by_max_desc (obj_entries groups)).
  assert (P : Permutation sorted groups).
  { unfold sorted. rewrite js_sort_perm. apply obj_entries_perm. }
  assert (Hmax : forall e, In e groups ->
                           max_of (snd e) = series_max (fst e) series).
  { intros [x g] He. cbn [fst snd]. unfold max_of.
    destruct (Hm x) as [H1 _]. rewrite (H1 g); [reflexivity|].
    now apply In_obj_get. }
  assert (Hnan : forall x, isNaN (series_max x series) = false).
  { intros x. unfold series_max. rewrite <- max_step_filter.
    apply max_step_not_nan. reflexivity. }
  assert (Hs : StronglySorted
                 (fun a b => PrimFloat.leb (max_of (snd b)) (max_of (snd a))
                             = true) sorted).
  { apply (js_sort_by_key_desc (fun e => max_of (snd e))).
    intros e He. rewrite Hmax; [apply Hnan|].
    revert He. apply Permutation_in, obj_entries_perm. }
  intros Hin (s & Hs' & Hh & Ek') Hout.
  apply in_map_iff in Hin as ([x g] & Ex & Hin). cbn [fst] in Ex. subst x.
  assert (Hin' : In k' (map fst groups)).
  { apply Hk. right. exists s. split; [|exact Ek'].
    apply filter_In. auto. }
  apply in_map_iff in Hin' as ([x g'] & Ex & Hin'). cbn [fst] in Ex. subst x.
  assert (Hg' : In (k', g') sorted).
  { revert Hin'. apply Permutation_in. now symmetry. }
  pose proof (firstn_precedes _ 5 sorted (k, g) (k', g') Hs Hin Hg') as Hr.
  cbn [snd] in Hr.
  assert (Hin2 : In (k, g) groups).
  { apply firstn_in in Hin. revert Hin. now apply Permutation_in. }
  pose proof (Hmax (k, g) Hin2) as M1. pose proof (Hmax (k', g') Hin') as M2.
  cbn [fst snd] in M1, M2. rewrite <- M1, <- M2.
  apply Hr. intros F. apply Hout. apply in_map_iff.
  exists (k', g'). auto.
Qed.

(** An instance: six series, the one with the smallest value is left out. *)
Lemma summary_data_top_witness :
  let series :=
    [mkSample [("path", "/a"); ("quantile", "0.5")] 1%float;
     mkSample [("path", "/b"); ("quantile", "0.5")] 2%float;
     mkSample [("path", "/c"); ("quantile", "0.5")] 3%float;
     mkSample [("path", "/d"); ("quantile", "0.5")] 4%float;
     mkSample [("path", "/e"); ("quantile", "0.5")] 5%float;
     mkSample [("path", "/f"); ("quantile", "0.5")] 6%float] in
  snd (computeSummaryData [("m", series)] "m")
  = ["path: /f"; "path: /e"; "path: /d"; "path: /c"; "path: /b"]
  /\ PrimFloat.leb (series_max "path: /a" series)
       (series_max "path: /b" series) = true.
Proof.
  intros series. split; [vm_compute; reflexivity|].
  apply (summary_data_top [("m", series)] "m" series).
  - reflexivity.
  - intros s Hs.
    repeat (destruct Hs as [<-|Hs]; [cbn; discriminate|]). destruct Hs.
  - vm_compute. tauto.
  - exists (mkSample [("path", "/a"); ("quantile", "0.5")] 1%float).
    split; [now left|]. split; vm_compute; reflexivity.
  - vm_compute. intros H.
    repeat (destruct H as [H|H]; [discriminate|]). destruct H.
Defined.

(* ================================================================== *)
(** * The catalog of metrics *)
(* ================================================================== *)

(** ** The labels of an entry *)

Lemma label_fold_spec (keys : list string) :
  forall acc,
    NoDup acc ->
    NoDup (fold_left (fun labelSet k =>
                        if negb (String.eqb k "le")
                           && negb (String.eqb k "quantile")
                        then set_add k labelSet else labelSet)
             keys acc)
    /\ forall x,
         In x (fold_left (fun labelSet k =>
                            if negb (String.eqb k "le")
                               && negb (String.eqb k "quantile")
                            then set_add k labelSet else labelSet)
                 keys acc)
         <-> In x acc \/ (In x keys /\ x <> "le" /\ x <> "quantile").
Proof.
  induction keys as [|k keys IH]; intros acc Hn; cbn [fold_left].
  - split; [exact Hn|]. intros x. cbn [In]. tauto.
  - destruct (String.eqb k "le") eqn:E1; cbn [negb andb].
    { apply String.eqb_eq in E1. subst k.
      destruct (IH acc Hn) as [N I]. split; [exact N|].
      intros x. rewrite I. cbn [In]. split; [tauto|].
      intros [H|([<-|H] & H1 & H2)]; tauto || congruence. }
    destruct (String.eqb k "quantile") eqn:E2; cbn [negb].
    { apply String.eqb_eq in E2. subst k.
      destruct (IH acc Hn) as [N I]. split; [exact N|].
      intros x. rewrite I. cbn [In]. split; [tauto|].
      intros [H|([<-|H] & H1 & H2)]; tauto || congruence. }
    apply String.eqb_neq in E1, E2.
    destruct (IH (set_add k acc) (set_add_nodup k acc Hn)) as [N I].
    split; [exact N|]. intros x. rewrite I, set_add_in. cbn [In].
    split.
    + intros [[H| ->]|H]; tauto.
    + intros [H|([<-|H] & H1 & H2)]; tauto.
Qed.

Lemma catalog_labels_spec (series : list Sample) :
  NoDup (catalog_labels series)
  /\ forall k, In k (catalog_labels series)
               <-> label_name_of series k /\ k <> "le" /\ k <> "quantile".
Proof.
  unfold catalog_labels, label_name_of.
  cut (forall acc,
          NoDup acc ->
          NoDup (fold_left
                   (fun labelSet s =>
                      fold_left (fun labelSet k =>
                                   if negb (String.eqb k "le")
                                      && negb (String.eqb k "quantile")
                                   then set_add k labelSet else labelSet)
                        (obj_keys (labels s)) labelSet) series acc)
          /\ forall k,
               In k (fold_left
                       (fun labelSet s =>
                          fold_left (fun labelSet k =>
                                       if negb (String.eqb k "le")
                                          && negb (String.eqb k "quantile")
                                       then set_add k labelSet else labelSet)
                            (obj_keys (labels s)) labelSet) series acc)
               <-> In k acc
                   \/ ((exists s, In s series /\ In k (obj_keys (labels s)))
                       /\ k <> "le" /\ k <> "quantile")).
  { intros H. destruct (H [] (NoDup_nil _)) as [N I]. split; [exact N|].
    intros k. rewrite I. cbn [In]. tauto. }
  induction series as [|s series IH]; intros acc Hn; cbn [fold_left].
  - split; [exact Hn|]. intros k. split; [tauto|].
    intros [H|((s & [] & _) & _)]. exact H.
  - destruct (label_fold_spec (obj_keys (labels s)) acc Hn) as [N I].
    destruct (IH _ N) as [N' I']. split; [exact N'|].
    intros k. rewrite I', I. cbn [In]. split.
    + intros [[H|(H & H1 & H2)]|((s' & Hs' & Hk) & H1 & H2)]; eauto 8.
    + intros [H|((s' & [<-|Hs'] & Hk) & H1 & H2)]; eauto 8.
Qed.

(** ** The map from prefix to entries *)

(** The names of the entries of the map. *)
Lemma catalog_push_in (p : string) (it : CatalogItem) (c : Catalog)
      (p' : string) (it' : CatalogItem) :
  in_catalog (catalog_push p it c) p' it'
  <-> in_catalog c p' it' \/ (p' = p /\ it' = it).
Proof.
  unfold in_catalog. induction c as [|[q items] c IH]; cbn [catalog_push].
  - split.
    + intros (l & [[= <- <-]|[]] & [<-|[]]). now right.
    + intros [(l & [] & _)|[-> ->]]. exists [it]. split; now left.
  - destruct (String.eqb p q) eqn:E.
    + apply String.eqb_eq in E. subst q. split.
      * intros (l & [[= <- <-]|Hl] & Hi).
        -- apply in_app_iff in Hi as [Hi|[<-|[]]]; [left|now right].
           exists items. split; [now left|exact Hi].
        -- left. exists l. split; [now right|exact Hi].
      * intros [(l & [[= <- <-]|Hl] & Hi)|[-> ->]].
        -- exists (items ++ [it])%list. split; [now left|].
           apply in_app_iff. now left.
        -- exists l. split; [now right|exact Hi].
        -- exists (items ++ [it])%list. split; [now left|].
           apply in_app_iff. right. now left.
    + split.
      * intros (l & [[= <- <-]|Hl] & Hi).
        -- left. exists items. split; [now left|exact Hi].
        -- destruct (proj1 IH (ex_intro _ l (conj Hl Hi)))
             as [(l' & Hl' & Hi')|H]; [left|now right].
           exists l'. split; [now right|exact Hi'].
      * intros [(l & [[= <- <-]|Hl] & Hi)|H].
        -- exists items. split; [now left|exact Hi].
        -- destruct (proj2 IH (or_introl (ex_intro _ l (conj Hl Hi))))
             as (l' & Hl' & Hi').
           exists l'. split; [now right|exact Hi'].
        -- destruct (proj2 IH (or_intror H)) as (l' & Hl' & Hi').
           exists l'. split; [now right|exact Hi'].
Qed.

Lemma catalog_push_keys (p : string) (it : CatalogItem) (c : Catalog) :
  forall x, In x (map fst (catalog_push p it c)) <-> x = p \/ In x (map fst c).
Proof.
  induction c as [|[q items] c IH]; intros x; cbn [catalog_push map fst In].
  - intuition.
  - destruct (String.eqb p q) eqn:E; cbn [map fst In].
    + apply String.eqb_eq in E. subst q. intuition.
    + rewrite IH. intuition.
Qed.

Lemma catalog_push_nodup (p : string) (it : CatalogItem) (c : Catalog) :
  NoDup (map fst c) -> NoDup (map fst (catalog_push p it c)).
Proof.
  induction c as [|[q items] c IH]; intros H; cbn [catalog_push map fst].
  - repeat constructor. intros [].
  - inversion H as [|x l Hx Hl]; subst.
    destruct (String.eqb p q) eqn:E; cbn [map fst].
    + now constructor.
    + constructor; [|now apply IH].
      rewrite catalog_push_keys. intros [->|Hin]; [|contradiction].
      now rewrite String.eqb_refl in E.
Qed.

Lemma catalog_push_names (p : string) (it : CatalogItem) (c : Catalog) :
  Permutation (raw_names (catalog_push p it c)) (ci_name it :: raw_names c).
Proof.
  unfold raw_names.
  induction c as [|[q items] c IH]; cbn [catalog_push flat_map map snd app].
  - reflexivity.
  - destruct (String.eqb p q); cbn [flat_map map snd].
    + rewrite map_app. cbn [map]. rewrite <- app_assoc. cbn [app].
      symmetry. apply Permutation_middle.
    + rewrite IH. symmetry. apply Permutation_middle.
Qed.

Lemma catalog_push_nonempty (p : string) (it : CatalogItem) (c : Catalog) :
  Forall (fun e => snd e <> []) c ->
  Forall (fun e => snd e <> []) (catalog_push p it c).
Proof.
  induction 1 as [|[q items] c Hq Hc IH]; cbn [catalog_push].
  - repeat constructor. discriminate.
  - destruct (String.eqb p q); constructor; auto. cbn [snd].
    now destruct items.
Qed.

(** ** The loop over the names *)

Section CatalogLoop.
Variables (metadata : Metadata) (metrics : Metrics).

Lemma existsb_eqb_in (x : string) (l : list string) :
  existsb (String.eqb x) l = true <-> In x l.
Proof.
  rewrite existsb_exists. split.
  - intros (y & Hy & E). apply String.eqb_eq in E. now subst.
  - intros H. exists x. split; [exact H|apply String.eqb_refl].
Qed.

Lemma catalog_step_inv (st : Catalog * list string)
      (entry : string * list Sample) :
  In (fst entry) (map fst metrics) ->
  catalog_inv metadata metrics st ->
  catalog_inv metadata metrics (catalog_step metadata metrics st entry).
Proof.
  intros Hin (I1 & I2 & I3 & I4 & I5). destruct st as [c names].
  unfold catalog_step. cbn [fst snd] in *.
  destruct (existsb _ names) eqn:E.
  { unfold catalog_inv. cbn [fst snd]. auto. }
  assert (Hn : ~ In (catalog_base_name metadata (fst entry)) names).
  { intros H. apply existsb_eqb_in in H. congruence. }
  unfold catalog_inv. cbn [fst snd].
  split; [|split; [|split; [|split]]].
  - now apply set_add_nodup.
  - rewrite catalog_push_names. unfold set_add. rewrite E.
    cbn [catalog_item ci_name]. rewrite <- Permutation_cons_append.
    now constructor.
  - now apply catalog_push_nodup.
  - now apply catalog_push_nonempty.
  - intros p it H.
    apply catalog_push_in in H as [H|[-> ->]]; [now apply I5|].
    split; [|reflexivity]. exists (fst entry). auto.
Qed.

Lemma catalog_fold_inv (l : list (string * list Sample)) :
  (forall e, In e l -> In (fst e) (map fst metrics)) ->
  forall st,
    catalog_inv metadata metrics st ->
    catalog_inv metadata metrics
      (fold_left (catalog_step metadata metrics) l st).
Proof.
  induction l as [|e l IH]; intros Hl st H; cbn [fold_left]; [exact H|].
  apply IH; [intros; apply Hl; now right|].
  apply catalog_step_inv; [apply Hl; now left|exact H].
Qed.

(** The set of names only grows, and takes the base name of each name. *)
Lemma catalog_step_names (st : Catalog * list string)
      (entry : string * list Sample) (x : string) :
  In x (snd (catalog_step metadata metrics st entry))
  <-> In x (snd st) \/ x = catalog_base_name metadata (fst entry).
Proof.
  destruct st as [c names]. unfold catalog_step. cbn [snd].
  destruct (existsb _ names) eqn:E; cbn [snd].
  - apply existsb_eqb_in in E. split; [auto|]. intros [H| ->]; auto.
  - apply set_add_in.
Qed.

Lemma catalog_fold_names (l : list (string * list Sample)) :
  forall st x,
    In x (snd (fold_left (catalog_step metadata metrics) l st))
    <-> In x (snd st)
        \/ exists e, In e l /\ x = catalog_base_name metadata (fst e).
Proof.
  induction l as [|e l IH]; intros st x; cbn [fold_left].
  - split; [auto|]. intros [H|(e & [] & _)]. exact H.
  - rewrite IH, catalog_step_names. cbn [In]. split.
    + intros [[H|H]|(e' & He' & H)]; eauto.
    + intros [H|(e' & [<-|He'] & H)]; eauto.
Qed.
End CatalogLoop.

(** ** The sorted catalog *)

Lemma flat_map_perm_pointwise {A B : Type} (f g : A -> list B) (l : list A) :
  (forall x, Permutation (f x) (g x)) ->
  Permutation (flat_map f l) (flat_map g l).
Proof.
  intros H. induction l as [|x l IH]; cbn [flat_map]; [constructor|].
  now apply Permutation_app.
Qed.

Section SortedCatalog.
Variable localeCompare : string -> string -> num.
Variables (metadata : Metadata) (metrics : Metrics).

(** The groups of the result against the map the loop leaves. *)
Lemma catalog_result :
  let c := fst (fold_left (catalog_step metadata metrics) metrics ([], [])) in
  let result := buildMetricsCatalog localeCompare metadata metrics in
  Permutation (catalog_names result) (raw_names c)
  /\ Permutation (map group_prefix result) (map fst c)
  /\ (forall g, In g result ->
        exists items, In (group_prefix g, items) c
                      /\ Permutation (group_metrics g) items)
  /\ (forall p it, in_catalog c p it ->
        exists g, In g result /\ group_prefix g = p
                  /\ In it (group_metrics g)).
Proof.
  intros c result. unfold result, buildMetricsCatalog. subst c.
  destruct (fold_left (catalog_step metadata metrics) metrics ([], []))
    as [c names]. cbn [fst].
  set (G := fun e : string * list CatalogItem => mkCatalogGroup _ _).
  split; [|split; [|split]].
  - unfold catalog_names, raw_names.
    rewrite (Permutation_flat_map _ (js_sort_perm _ (map G c))).
    rewrite flat_map_concat_map, map_map, <- flat_map_concat_map.
    apply flat_map_perm_pointwise. intros [p items]. unfold G.
    cbn [group_metrics fst snd]. apply Permutation_map, js_sort_perm.
  - rewrite (Permutation_map group_prefix (js_sort_perm _ (map G c))).
    rewrite map_map. reflexivity.
  - intros g Hg. apply (Permutation_in _ (js_sort_perm _ _)) in Hg.
    apply in_map_iff in Hg as ([p items] & <- & He).
    exists items. split; [exact He|]. apply js_sort_perm.
  - intros p it (items & Hi & Hit).
    exists (G (p, items)). split; [|split; [reflexivity|]].
    + apply (Permutation_in _ (Permutation_sym (js_sort_perm _ _))).
      now apply in_map.
    + unfold G. cbn [group_metrics snd].
      apply (Permutation_in _ (Permutation_sym (js_sort_perm _ _))).
      exact Hit.
Qed.

Lemma catalog_loop_inv :
  catalog_inv metadata metrics
    (fold_left (catalog_step metadata metrics) metrics ([], [])).
Proof.
  apply catalog_fold_inv.
  - intros e He. now apply in_map.
  - unfold catalog_inv. cbn [fst snd].
    split; [|split; [|split; [|split]]];
      [constructor|constructor|constructor|constructor|].
    intros p it (items & [] & _).
Qed.
End SortedCatalog.

(** No name comes twice in the catalog. *)
Lemma catalog_nodup_names (localeCompare : string -> string -> num)
      (metadata : Metadata) (metrics : Metrics) :
  NoDup (catalog_names (buildMetricsCatalog localeCompare metadata metrics)).
Proof.
  destruct (catalog_result localeCompare metadata metrics) as (P1 & _).
  destruct (catalog_loop_inv metadata metrics) as (I1 & I2 & _).
  apply (Permutation_NoDup (Permutation_sym P1)).
  apply (Permutation_NoDup (Permutation_sym I2)). exact I1.
Qed.

(** Catalog, no name twice: over the whole catalog every entry has a name of
    its own, every group has a prefix of its own, and no group is empty. *)
Theorem catalog_names_unique (localeCompare : string -> string -> num)
        (metadata : Metadata) (metrics : Metrics) :
  let result := buildMetricsCatalog localeCompare metadata metrics in
  NoDup (catalog_names result)
  /\ NoDup (map group_prefix result)
  /\ Forall (fun g => group_metrics g <> []) result.
Proof.
  intros result.
  destruct (catalog_result localeCompare metadata metrics)
    as (P1 & P2 & P3 & _).
  destruct (catalog_loop_inv metadata metrics) as (I1 & I2 & I3 & I4 & _).
  fold result in P1, P2, P3. repeat split.
  - apply catalog_nodup_names.
  - apply (Permutation_NoDup (Permutation_sym P2)). exact I3.
  - apply Forall_forall. intros g Hg.
    destruct (P3 g Hg) as (items & Hi & Hp).
    rewrite Forall_forall in I4. specialize (I4 _ Hi). cbn [snd] in I4.
    intros E. rewrite E in Hp. apply Permutation_nil in Hp. contradiction.
Qed.

(** The base name of every name of the snapshot names an entry. *)
Lemma catalog_has_base (localeCompare : string -> string -> num)
      (metadata : Metadata) (metrics : Metrics) (name : string)
      (series : list Sample) :
  In (name, series) metrics ->
  exists g it,
    In g (buildMetricsCatalog localeCompare metadata metrics)
    /\ In it (group_metrics g)
    /\ ci_name it = catalog_base_name metadata name.
Proof.
  intros Hin.
  destruct (catalog_result localeCompare metadata metrics)
    as (_ & _ & _ & P4).
  destruct (catalog_loop_inv metadata metrics) as (_ & I2 & _).
  assert (Hn : In (catalog_base_name metadata name)
                 (snd (fold_left (catalog_step metadata metrics) metrics
                         ([], [])))).
  { apply catalog_fold_names. right. exists (name, series). auto. }
  apply (Permutation_in _ (Permutation_sym I2)) in Hn.
  unfold raw_names in Hn. apply in_flat_map in Hn as ([p items] & He & Hn).
  cbn [snd] in Hn. apply in_map_iff in Hn as (it & En & Hit).
  destruct (P4 p it) as (g & Hg & _ & Hgi).
  { exists items. auto. }
  exists g, it. auto.
Qed.

(** Catalog, every metric is there: each name of the snapshot has its base
    name as the name of an entry. *)
Theorem catalog_covers (localeCompare : string -> string -> num)
        (metadata : Metadata) (metrics : Metrics) (name : string)
        (series : list Sample) :
  In (name, series) metrics ->
  exists g it,
    In g (buildMetricsCatalog localeCompare metadata metrics)
    /\ In it (group_metrics g)
    /\ ci_name it = catalog_base_name metadata name.
Proof. apply catalog_has_base. Qed.

(** An instance: the buckets and the sum of a histogram share an entry. *)
Lemma catalog_covers_witness :
  let metadata := [("http_req", mkMeta "Requests" "histogram")] in
  let metrics :=
    [("http_req_bucket", [mkSample [("le", "1"); ("path", "/a")] 2%float]);
     ("http_req_sum", [mkSample [("path", "/a")] 3%float]);
     ("up", [mkSample [] 1%float])] in
  buildMetricsCatalog code_unit_compare metadata metrics
  = [mkCatalogGroup "http_req"
       [mkCatalogItem "http_req" "Requests" "histogram" ["path"]];
     mkCatalogGroup "up" [mkCatalogItem "up" "" "untyped" []]]
  /\ exists g it,
       In g (buildMetricsCatalog code_unit_compare metadata metrics)
       /\ In it (group_metrics g)
       /\ ci_name it = catalog_base_name metadata "http_req_sum".
Proof.
  intros metadata metrics. split; [vm_compute; reflexivity|].
  apply (catalog_covers code_unit_compare metadata metrics "http_req_sum"
           [mkSample [("path", "/a")] 3%float]).
  right. left. reflexivity.
Defined.

(** Catalog, the entries: an entry is the one made for a name of the
    snapshot; it lies under the prefix of its own name, and its labels are
    the label names of its series other than [le] and [quantile], each
    once. *)
Theorem catalog_entries (localeCompare : string -> string -> num)
        (metadata : Metadata) (metrics : Metrics) (g : CatalogGroup)
        (it : CatalogItem) :
  In g (buildMetricsCatalog localeCompare metadata metrics) ->
  In it (group_metrics g) ->
  (exists name, In name (map fst metrics)
                /\ it = catalog_item metadata metrics name)
  /\ group_prefix g = catalog_prefix (ci_name it)
  /\ NoDup (ci_labels it)
  /\ forall k, In k (ci_labels it)
               <-> label_name_of (catalog_series metrics (ci_name it)) k
                   /\ k <> "le" /\ k <> "quantile".
Proof.
  intros Hg Hit.
  destruct (catalog_result localeCompare metadata metrics)
    as (_ & _ & P3 & _).
  destruct (catalog_loop_inv metadata metrics) as (_ & _ & _ & _ & I5).
  destruct (P3 g Hg) as (items & Hi & Hp).
  destruct (I5 (group_prefix g) it) as [(name & Hn & E) Hpre].
  { exists items. split; [exact Hi|]. revert Hit. now apply Permutation_in. }
  split; [eauto|]. split; [exact Hpre|]. subst it.
  cbn [catalog_item ci_labels ci_name]. apply catalog_labels_spec.
Qed.

(** An instance: the entry of a histogram given by its buckets alone. *)
Lemma catalog_entries_witness :
  let metrics :=
    [("go_gc_duration_bucket",
      [mkSample [("le", "1"); ("path", "/a")] 2%float;
       mkSample [("le", "+Inf"); ("path", "/a"); ("zone", "x")] 2%float])] in
  let it := mkCatalogItem "go_gc_duration" "" "histogram" ["path"; "zone"] in
  let g := mkCatalogGroup "go_gc" [it] in
  buildMetricsCatalog code_unit_compare [] metrics = [g]
  /\ (exists name, In name (map fst metrics)
                   /\ it = catalog_item [] metrics name)
  /\ group_prefix g = catalog_prefix (ci_name it)
  /\ NoDup (ci_labels it)
  /\ forall k, In k (ci_labels it)
               <-> label_name_of (catalog_series metrics (ci_name it)) k
                   /\ k <> "le" /\ k <> "quantile".
Proof.
  intros metrics it g. split; [vm_compute; reflexivity|].
  apply (catalog_entries code_unit_compare [] metrics g it).
  - vm_compute. now left.
  - now left.
Defined.

(** Catalog and discovery: every histogram that the discovery lists has an
    entry of its name in the catalog, whatever the metadata. *)
Theorem discovered_histograms_in_catalog
        (localeCompare : string -> string -> num) (metadata : Metadata)
        (metrics : Metrics) (b : string) :
  In b (histograms (discoverDistributions metrics)) ->
  exists g it,
    In g (buildMetricsCatalog localeCompare metadata metrics)
    /\ In it (group_metrics g)
    /\ ci_name it = b.
Proof.
  unfold discoverDistributions.
  pose proof (discover_fold metrics [] [] [] (NoDup_nil _) (NoDup_nil _)
                (NoDup_nil _)) as H.
  destruct (fold_left discover_step metrics ([], [], [])) as [[hs ss] cs].
  destruct H as (_ & _ & _ & Hh & _). cbn [histograms].
  intros Hin. apply (Permutation_in _ (sort_strings_perm hs)) in Hin.
  apply Hh in Hin as [[]|([name series] & He & Hb & ->)]. cbn [fst] in *.
  destruct (catalog_has_base localeCompare metadata metrics name series He)
    as (g & it & Hg & Hit & En).
  exists g, it. split; [exact Hg|]. split; [exact Hit|].
  rewrite En. unfold catalog_base_name. now rewrite Hb.
Qed.

(** An instance: the histogram of the request durations. *)
Lemma discovered_histograms_in_catalog_witness :
  let metrics :=
    [("req_seconds_bucket", [mkSample [("le", "1")] 2%float]);
     ("req_seconds_count", [mkSample [] 2%float])] in
  histograms (discoverDistributions metrics) = ["req_seconds"]
  /\ exists g it,
       In g (buildMetricsCatalog code_unit_compare [] metrics)
       /\ In it (group_metrics g)
       /\ ci_name it = "req_seconds".
Proof.
  intros metrics. split; [vm_compute; reflexivity|].
  apply (discovered_histograms_in_catalog code_unit_compare [] metrics).
  vm_compute. now left.
Defined.

(** ** The entry a widget shows *)

Lemma find_by_name (items : list CatalogItem) (it : CatalogItem) :
  NoDup (map ci_name items) -> In it items ->
  find (fun m => String.eqb (ci_name m) (ci_name it)) items = Some it.
Proof.
  induction items as [|x items IH]; intros Hn Hin; [destruct Hin|].
  destruct Hin as [<-|Hin]; cbn [find].
  - now rewrite String.eqb_refl.
  - cbn [map] in Hn. inversion Hn as [|n l Hx Hl]; subst.
    destruct (String.eqb (ci_name x) (ci_name it)) eqn:E; [|now apply IH].
    apply String.eqb_eq in E. exfalso. apply Hx. rewrite E.
    now apply in_map.
Qed.

Lemma find_absent (items : list CatalogItem) (name : string) :
  ~ In name (map ci_name items) ->
  find (fun m => String.eqb (ci_name m) name) items = None.
Proof.
  induction items as [|x items IH]; intros Hn; cbn [find]; [reflexivity|].
  cbn [map In] in Hn.
  destruct (String.eqb (ci_name x) name) eqn:E.
  - apply String.eqb_eq in E. tauto.
  - apply IH. tauto.
Qed.

Lemma NoDup_app_inv {A : Type} (l1 l2 : list A) :
  NoDup (l1 ++ l2) ->
  NoDup l1 /\ NoDup l2 /\ forall x, In x l1 -> ~ In x l2.
Proof.
  induction l1 as [|a l1 IH]; cbn [app]; intros H.
  - repeat split; [constructor|exact H|intros x []].
  - inversion H as [|x l Ha Hl]; subst. destruct (IH Hl) as (N1 & N2 & D).
    repeat split; [constructor; [|exact N1]|exact N2|].
    + intros Hin. apply Ha. apply in_app_iff. now left.
    + intros x [<-|Hx]; [|now apply D].
      intros Hin. apply Ha. apply in_app_iff. now right.
Qed.

(** In a catalog without a repeated name, the search by name finds the
    entry itself. *)
Lemma find_entry_unique (catalog : list CatalogGroup) (g : CatalogGroup)
      (it : CatalogItem) :
  NoDup (catalog_names catalog) ->
  In g catalog -> In it (group_metrics g) ->
  find_entry catalog (ci_name it) = Some it.
Proof.
  induction catalog as [|g0 catalog IH]; intros Hn Hg Hit; [destruct Hg|].
  unfold catalog_names in Hn. cbn [flat_map] in Hn.
  apply NoDup_app_inv in Hn as (N1 & N2 & D). cbn [find_entry].
  destruct Hg as [->|Hg].
  - now rewrite find_by_name.
  - rewrite find_absent; [now apply IH|].
    intros Hin. apply (D _ Hin). apply in_flat_map. exists g.
    split; [exact Hg|now apply in_map].
Qed.

(** Catalog and widget: for the name of an entry of the catalog,
    [metricMeta] is that entry, so the widget is drawn with the type the
    catalog shows. *)
Theorem metric_meta_of_entry (localeCompare : string -> string -> num)
        (metadata : Metadata) (metrics : Metrics) (g : CatalogGroup)
        (it : CatalogItem) :
  In g (buildMetricsCatalog localeCompare metadata metrics) ->
  In it (group_metrics g) ->
  metricMeta (buildMetricsCatalog localeCompare metadata metrics) metadata
    (ci_name it)
  = MetaEntry it.
Proof.
  intros Hg Hit. unfold metricMeta.
  rewrite (find_entry_unique _ g it); [reflexivity| |exact Hg|exact Hit].
  apply catalog_nodup_names.
Qed.

(** An instance: a summary that the metadata does not know. *)
Lemma metric_meta_of_entry_witness :
  let metrics :=
    [("rpc_seconds", [mkSample [("quantile", "0.5")] 2%float]);
     ("rpc_seconds_sum", [mkSample [] 9%float])] in
  let it := mkCatalogItem "rpc_seconds" "" "summary" [] in
  buildMetricsCatalog code_unit_compare [] metrics
  = [mkCatalogGroup "rpc"
       [it; mkCatalogItem "rpc_seconds_sum" "" "untyped" []]]
  /\ metricMeta (buildMetricsCatalog code_unit_compare [] metrics) []
       (ci_name it)
     = MetaEntry it.
Proof.
  intros metrics it. split; [vm_compute; reflexivity|].
  apply (metric_meta_of_entry code_unit_compare [] metrics
           (mkCatalogGroup "rpc"
              [it; mkCatalogItem "rpc_seconds_sum" "" "untyped" []]) it).
  - vm_compute. now left.
  - now left.
Defined.

(* ================================================================== *)
(** * Placing a new widget on the grid *)
(* ================================================================== *)

Local Open Scope Z_scope.

Lemma zrange_in (lo hi v : Z) : In v (zrange lo hi) <-> lo <= v < hi.
Proof.
  unfold zrange. rewrite in_map_iff. split.
  - intros (i & <- & Hi). apply in_seq in Hi. lia.
  - intros H. exists (Z.to_nat (v - lo)). split; [lia|].
    apply in_seq. lia.
Qed.

Lemma cell_has_in (c : Z * Z) (occupied : list (Z * Z)) :
  cell_has c occupied = true <-> In c occupied.
Proof.
  unfold cell_has. rewrite existsb_exists. split.
  - intros ([a b] & Hin & E). destruct c as [a' b']. unfold cell_eqb in E.
    cbn [fst snd] in E. apply andb_true_iff in E as [E1 E2].
    apply Z.eqb_eq in E1, E2. now subst.
  - intros H. exists c. split; [exact H|]. unfold cell_eqb.
    now rewrite !Z.eqb_refl.
Qed.

Lemma cell_add_in (c d : Z * Z) (occupied : list (Z * Z)) :
  In d (cell_add c occupied) <-> In d occupied \/ d = c.
Proof.
  unfold cell_add. destruct (cell_has c occupied) eqn:E.
  - apply cell_has_in in E. split; [auto|]. intros [H| ->]; auto.
  - rewrite in_app_iff. cbn [In]. intuition auto.
Qed.

Lemma row_cells_in (row : Z) (colsl : list Z) (d : Z * Z) :
  forall occupied,
    In d (fold_left (fun occupied col => cell_add (col, row) occupied)
            colsl occupied)
    <-> In d occupied \/ (In (fst d) colsl /\ snd d = row).
Proof.
  induction colsl as [|c l IH]; intros occupied; cbn [fold_left In].
  - tauto.
  - rewrite IH, cell_add_in. destruct d as [a b]. cbn [fst snd]. split.
    + intros [[H|[= -> ->]]|H]; tauto.
    + intros [H|[[->|H] <-]]; tauto.
Qed.

Lemma item_cells_in (colsl rows : list Z) (d : Z * Z) :
  forall occupied,
    In d (fold_left (fun occupied row =>
                       fold_left (fun occupied col =>
                                    cell_add (col, row) occupied)
                         colsl occupied)
            rows occupied)
    <-> In d occupied \/ (In (fst d) colsl /\ In (snd d) rows).
Proof.
  induction rows as [|r l IH]; intros occupied; cbn [fold_left In].
  - tauto.
  - rewrite IH, row_cells_in. split.
    + intros [[H|[H <-]]|H]; tauto.
    + intros [H|[H [<-|H']]]; tauto.
Qed.

(** The occupied cells are the cells of the items. *)
Lemma occupied_spec (items : list LayoutItem) (col row : Z) :
  In (col, row) (getOccupiedCells items)
  <-> exists item, In item items /\ covers item col row.
Proof.
  unfold getOccupiedCells.
  cut (forall occupied,
          In (col, row)
            (fold_left (fun occupied item =>
               fold_left (fun occupied row =>
                 fold_left (fun occupied col => cell_add (col, row) occupied)
                   (zrange (item_x item) (item_x item + item_w item))
                   occupied)
                 (zrange (item_y item) (item_y item + item_h item)) occupied)
               items occupied)
          <-> In (col, row) occupied
              \/ exists item, In item items /\ covers item col row).
  { intros H. rewrite H. cbn [In]. tauto. }
  induction items as [|it items IH]; intros occupied; cbn [fold_left].
  - split; [auto|]. intros [H|(it & [] & _)]. exact H.
  - rewrite IH, item_cells_in. cbn [fst snd In]. rewrite !zrange_in.
    unfold covers. split.
    + intros [[H|H]|(it' & Hin & Hc)]; [now left| |right; eauto].
      right. exists it. auto.
    + intros [H|(it' & [<-|Hin] & Hc)]; [now left; left|now left; right|].
      right. eauto.
Qed.

(** [canPlace] says the widget fits the columns and shares no cell. *)
Lemma canPlace_spec (items : list LayoutItem) (x y w h : Z) :
  canPlace x y w h (getOccupiedCells items) = true
  <-> x + w <= cols /\ ~ overlaps items x y w h.
Proof.
  unfold canPlace. destruct (Z.gtb_spec (x + w) cols) as [G|G].
  { split; [discriminate|]. intros [H _]. lia. }
  rewrite forallb_forall. split.
  - intros H. split; [exact G|].
    intros (it & col & row & Hin & Hc & Hx & Hy).
    specialize (H row (proj2 (zrange_in _ _ _) Hy)).
    rewrite forallb_forall in H.
    specialize (H col (proj2 (zrange_in _ _ _) Hx)).
    apply negb_true_iff in H.
    assert (T : cell_has (col, row) (getOccupiedCells items) = true).
    { apply cell_has_in, occupied_spec. eauto. }
    congruence.
  - intros [_ H] row Hr. apply forallb_forall. intros col Hc.
    apply negb_true_iff. destruct (cell_has _ _) eqn:E; [|reflexivity].
    exfalso. apply H. apply cell_has_in, occupied_spec in E as (it & Hin & Hv).
    apply zrange_in in Hr, Hc. exists it, col, row. auto.
Qed.

(** No item reaches the row [maxY]. *)
Lemma layout_maxY_bound (items : list LayoutItem) :
  0 <= layout_maxY items
  /\ forall item, In item items -> item_y item + item_h item <= layout_maxY items.
Proof.
  unfold layout_maxY.
  cut (forall m, m <= fold_left (fun max item =>
                                   Z.max max (item_y item + item_h item))
                        items m
                 /\ forall item, In item items ->
                      item_y item + item_h item
                      <= fold_left (fun max item =>
                                      Z.max max (item_y item + item_h item))
                           items m).
  { intros H. destruct (H 0) as [H0 H1]. auto. }
  induction items as [|it items IH]; intros m; cbn [fold_left].
  - split; [lia|intros ? []].
  - destruct (IH (Z.max m (item_y it + item_h it))) as [H0 H1]. split; [lia|].
    intros item [<-|Hin]; [lia|auto].
Qed.

Lemma scan_order_in (w h maxY x y : Z) :
  In (x, y) (scan_order w h maxY)
  <-> 0 <= x <= cols - w /\ 0 <= y <= maxY + h.
Proof.
  unfold scan_order. rewrite in_flat_map. split.
  - intros (y' & Hy & Hin). apply in_map_iff in Hin as (x' & [= <- <-] & Hx).
    apply zrange_in in Hy, Hx. lia.
  - intros [Hx Hy]. exists y. split; [apply zrange_in; lia|].
    apply in_map_iff. exists x. split; [reflexivity|apply zrange_in; lia].
Qed.

Lemma forallb_false_exists {A : Type} (f : A -> bool) (l : list A) :
  forallb f l = false -> exists x, In x l /\ f x = false.
Proof.
  induction l as [|x l IH]; cbn [forallb]; [discriminate|].
  destruct (f x) eqn:E; cbn [andb].
  - intros H. destruct (IH H) as (y & Hy & Fy). exists y. split; [now right|].
    exact Fy.
  - intros _. exists x. split; [now left|exact E].
Qed.

(** A position that fits the columns and is refused shares a cell. *)
Lemma canPlace_false (items : list LayoutItem) (x y w h : Z) :
  x + w <= cols ->
  canPlace x y w h (getOccupiedCells items) = false ->
  overlaps items x y w h.
Proof.
  intros Hw. unfold canPlace. destruct (Z.gtb_spec (x + w) cols) as [G|G];
    [lia|].
  intros H. apply forallb_false_exists in H as (row & Hr & H).
  apply forallb_false_exists in H as (col & Hc & H).
  apply negb_false_iff, cell_has_in, occupied_spec in H as (it & Hin & Hv).
  apply zrange_in in Hr, Hc. exists it, col, row. auto.
Qed.

Lemma seq_sorted (f : nat -> Z) (a n : nat) :
  (forall i j, (i < j)%nat -> f i < f j) ->
  StronglySorted Z.lt (map f (seq a n)).
Proof.
  intros Hf. revert a. induction n as [|n IH]; intros a; cbn [seq map];
    constructor; [apply IH|].
  apply Forall_forall. intros v Hv. apply in_map_iff in Hv as (j & <- & Hj).
  apply in_seq in Hj. apply Hf. lia.
Qed.

Lemma zrange_sorted (lo hi : Z) : StronglySorted Z.lt (zrange lo hi).
Proof. unfold zrange. apply seq_sorted. intros i j H. lia. Qed.

(** [find] on a sorted list returns the least element that passes. *)
Lemma find_least (f : Z -> bool) (l : list Z) (v : Z) :
  StronglySorted Z.lt l ->
  find f l = Some v ->
  In v l /\ f v = true /\ forall u, In u l -> u < v -> f u = false.
Proof.
  induction 1 as [|x l Hl IH Hx]; cbn [find]; [discriminate|].
  destruct (f x) eqn:E.
  - intros [= <-]. repeat split; [now left|exact E|].
    intros u [<-|Hu] Hlt; [lia|]. rewrite Forall_forall in Hx.
    specialize (Hx u Hu). lia.
  - intros H. destruct (IH H) as (Hin & Hf & Hmin).
    repeat split; [now right|exact Hf|].
    intros u [<-|Hu] Hlt; [exact E|now apply Hmin].
Qed.

(** The scan by rows, then by columns, stops at the first position that
    passes. *)
Lemma scan_first (f : Z * Z -> bool) (xs rows : list Z) (x y : Z) :
  StronglySorted Z.lt xs -> StronglySorted Z.lt rows ->
  find f (flat_map (fun y => map (fun x => (x, y)) xs) rows) = Some (x, y) ->
  In x xs /\ In y rows /\ f (x, y) = true
  /\ forall x' y', In x' xs -> In y' rows ->
                   y' < y \/ (y' = y /\ x' < x) -> f (x', y') = false.
Proof.
  intros Sx Sr. induction Sr as [|r rows Hl IH Hr]; cbn [flat_map find];
    [discriminate|].
  assert (Hrow : forall r0, find f (map (fun x => (x, r0)) xs)
                            = option_map (fun x => (x, r0))
                                (find (fun x => f (x, r0)) xs)).
  { intros r0. clear. induction xs as [|a xs IHx]; cbn [map find option_map];
      [reflexivity|]. destruct (f (a, r0)); [reflexivity|exact IHx]. }
  assert (Happ : forall (l1 l2 : list (Z * Z)),
             find f (l1 ++ l2)
             = match find f l1 with Some p => Some p | None => find f l2 end).
  { clear. induction l1 as [|a l1 IHl]; intros l2; cbn [app find];
      [reflexivity|]. destruct (f a); [reflexivity|apply IHl]. }
  rewrite (Happ (map (fun x0 => (x0, r)) xs)), (Hrow r).
  destruct (find (fun x0 => f (x0, r)) xs) as [v|] eqn:F; cbn [option_map].
  - intros [= <- <-].
    destruct (find_least _ xs v Sx F) as (Hin & Hf & Hmin).
    repeat split; [exact Hin|now left|exact Hf|].
    rewrite Forall_forall in Hr.
    intros x' y' Hx' [<-|Hy'] [Hlt|[E Hlt]];
      try (specialize (Hr _ Hy')); try lia.
    now apply Hmin.
  - intros H. destruct (IH H) as (Hin & Hy & Hf & Hmin).
    repeat split; [exact Hin|now right|exact Hf|].
    intros x' y' Hx' [<-|Hy'] Hlt.
    + apply (find_none _ _ F x' Hx').
    + now apply Hmin.
Qed.

(** Grid, the new widget is clear of the others: whatever the layout and
    the size asked for, the position found shares no cell with an item and
    its row is not negative. *)
Theorem position_is_free (items : list LayoutItem) (w h : Z) :
  ~ overlaps items (fst (findPosition items w h))
      (snd (findPosition items w h)) w h
  /\ 0 <= snd (findPosition items w h).
Proof.
  unfold findPosition.
  destruct (layout_maxY_bound items) as [M0 M1].
  destruct (find _ (scan_order w h (layout_maxY items))) as [[x y]|] eqn:F;
    cbn [fst snd].
  - apply find_some in F as [Hin Hc]. cbn [fst snd] in Hc.
    apply canPlace_spec in Hc as [Hw Hn]. apply scan_order_in in Hin.
    split; [exact Hn|lia].
  - split; [|exact M0].
    intros (it & col & row & Hin & [Hx Hy] & _ & Hr).
    specialize (M1 it Hin). lia.
Qed.

(** An instance: a widget of 4 by 2 beside one that fills the first eight
    columns. *)
Lemma position_is_free_witness :
  let items := [mkLayoutItem 0 0 8 2] in
  findPosition items 4 2 = (8, 0)
  /\ ~ overlaps items (fst (findPosition items 4 2))
         (snd (findPosition items 4 2)) 4 2
  /\ 0 <= snd (findPosition items 4 2).
Proof.
  intros items. split; [vm_compute; reflexivity|].
  apply (position_is_free items 4 2).
Defined.

(** Grid, the first free place: for a width from 0 to 12 and a height that
    is not negative, the position found fits the 12 columns, and every
    position before it, scanning row by row and left to right, shares a cell
    with an item. *)
Theorem position_is_first (items : list LayoutItem) (w h : Z) :
  0 <= w <= cols -> 0 <= h ->
  let x := fst (findPosition items w h) in
  let y := snd (findPosition items w h) in
  0 <= x /\ x + w <= cols
  /\ forall x' y',
       0 <= x' -> x' + w <= cols -> 0 <= y' ->
       y' < y \/ (y' = y /\ x' < x) ->
       overlaps items x' y' w h.
Proof.
  intros Hw Hh. unfold findPosition.
  destruct (layout_maxY_bound items) as [M0 M1].
  destruct (find _ (scan_order w h (layout_maxY items))) as [[x y]|] eqn:F;
    cbn [fst snd].
  - unfold scan_order in F.
    apply scan_first in F as (Hx & Hy & Hf & Hmin);
      [|apply zrange_sorted|apply zrange_sorted].
    cbn [fst snd] in Hf. apply canPlace_spec in Hf as [Hfit _].
    apply zrange_in in Hx, Hy.
    split; [lia|]. split; [exact Hfit|].
    intros x' y' Hx' Hw' Hy' Hlt.
    apply canPlace_false; [exact Hw'|].
    apply (Hmin x' y'); [apply zrange_in; lia|apply zrange_in; lia|exact Hlt].
  - exfalso.
    assert (Hin : In (0, layout_maxY items)
                    (scan_order w h (layout_maxY items))).
    { apply scan_order_in. lia. }
    pose proof (find_none _ _ F _ Hin) as Hc. cbn [fst snd] in Hc.
    assert (T : canPlace 0 (layout_maxY items) w h (getOccupiedCells items)
                = true).
    { apply canPlace_spec. split; [lia|].
      intros (it & col & row & Hi & [_ Hy] & _ & Hr).
      specialize (M1 it Hi). lia. }
    congruence.
Qed.

(** An instance: the first row is full, the widget goes to the next free
    row. *)
Lemma position_is_first_witness :
  let items := [mkLayoutItem 0 0 6 2; mkLayoutItem 6 0 6 1] in
  findPosition items 4 2 = (6, 1)
  /\ let x := fst (findPosition items 4 2) in
     let y := snd (findPosition items 4 2) in
     0 <= x /\ x + 4 <= cols
     /\ forall x' y',
          0 <= x' -> x' + 4 <= cols -> 0 <= y' ->
          y' < y \/ (y' = y /\ x' < x) ->
          overlaps items x' y' 4 2.
Proof.
  intros items. split; [vm_compute; reflexivity|].
  apply (position_is_first items 4 2); vm_compute; intuition discriminate.
Defined.

Local Close Scope Z_scope.

(* ================================================================== *)
(** * More on the widget data *)
(* ================================================================== *)

(** Widget, the empty state: the widget is empty exactly when the series it
    reads are missing: the buckets for a histogram; the quantiles, the sum
    and the count, all three, for a summary; the metric itself otherwise. *)
Theorem widget_empty_iff (le_glyph : string) (metrics : Metrics)
        (metricName metricType : string) (config : Config) :
  computeWidgetData le_glyph metrics metricName metricType config = WEmpty
  <-> if String.eqb metricType "histogram"
      then metrics_get (metricName ++ "_bucket") metrics = None
      else if String.eqb metricType "summary"
           then metrics_get metricName metrics = None
                /\ metrics_get (metricName ++ "_sum") metrics = None
                /\ metrics_get (metricName ++ "_count") metrics = None
           else metrics_get metricName metrics = None.
Proof.
  unfold computeWidgetData.
  destruct (String.eqb metricType "histogram").
  { unfold widget_histogram.
    destruct (metrics_get (metricName ++ "_bucket") metrics) as [series|];
      [|tauto].
    destruct (fold_left (hist_step _) series ([], [])) as [groups allLe].
    split; discriminate. }
  destruct (String.eqb metricType "summary").
  { unfold widget_summary.
    assert (B : forall g, bar_of g <> WEmpty) by (intros g; discriminate).
    assert (G : forall g qs ss cs a s c w,
               widget_summary_grouped g qs ss cs a s c = Some w ->
               w <> WEmpty).
    { intros g qs ss cs a s c w. unfold widget_summary_grouped.
      destruct qs as [|q qs].
      - destruct (obj_keys _); [discriminate|]. intros [= <-]. apply B.
      - destruct (fold_left (quantile_step g) (q :: qs) ([], []))
          as [groups allQ].
        destruct (filter _ _); [destruct (obj_keys (group_avgs _ _ _))|];
          intros [= <-]; discriminate || apply B. }
    destruct (metrics_get metricName metrics) as [series|];
      destruct (metrics_get (metricName ++ "_sum") metrics) as [ss|];
      destruct (metrics_get (metricName ++ "_count") metrics) as [cs|];
      cbv zeta; try tauto;
      (split; [intros H; exfalso|intros (H1 & H2 & H3); discriminate]);
      (destruct (widget_groupBy config) as [g|];
       [destruct (widget_summary_grouped _ _ _ _ _ _ _) as [w|] eqn:E;
        [subst w; now apply G in E|]|]);
      first [discriminate
            |match type of H with
             | match ?qs with _ => _ end = _ => destruct qs; discriminate
             end]. }
  unfold widget_counter.
  destruct (metrics_get metricName metrics) as [series|]; [|tauto].
  destruct (widget_groupBy config); split; discriminate.
Qed.

(** Widget, the counter bars: grouped by a label other than
    [method + path], the bars of a counter or gauge widget are the rows of
    the counter breakdown for that label. *)
Theorem widget_counter_is_breakdown (le_glyph : string) (metrics : Metrics)
        (metricName metricType : string) (config : Config) (g : string)
        (series : list Sample) :
  String.eqb metricType "histogram" = false ->
  String.eqb metricType "summary" = false ->
  widget_groupBy config = Some g ->
  g <> "method + path" ->
  metrics_get metricName metrics = Some series ->
  computeWidgetData le_glyph metrics metricName metricType config
  = WBar (computeCounterBreakdown metrics metricName (Some g)).
Proof.
  intros H1 H2 Hg Hmp Hs. unfold computeWidgetData. rewrite H1, H2, Hg.
  unfold widget_counter, computeCounterBreakdown. rewrite Hs.
  unfold bar_of, group_totals. do 3 f_equal.
  assert (Hne : is_empty g = false).
  { unfold widget_groupBy in Hg. destruct (groupBy config) as [g0|];
      [|discriminate].
    destruct (is_empty g0) eqn:E; cbn [orb] in Hg; [discriminate|].
    destruct (String.eqb g0 "none"); [discriminate|]. now injection Hg as <-. }
  apply String.eqb_neq in Hmp. clear Hs.
  generalize (@nil (string * num)).
  induction series as [|s l IH]; intros acc; cbn [fold_left]; [reflexivity|].
  rewrite IH. unfold getGroupKey. now rewrite Hne, Hmp.
Qed.

(** An instance: requests grouped by method. *)
Lemma widget_counter_is_breakdown_witness :
  let series := [mkSample [("method", "GET")] 10%float;
                 mkSample [("method", "POST")] 5%float;
                 mkSample [] 7%float] in
  let metrics := [("http_requests_total", series)] in
  computeCounterBreakdown metrics "http_requests_total" (Some "method")
  = [("GET", 10%float); ("Other", 7%float); ("POST", 5%float)]
  /\ computeWidgetData ascii_le_glyph metrics "http_requests_total" "counter"
       (mkConfig (Some "method"))
     = WBar (computeCounterBreakdown metrics "http_requests_total"
               (Some "method")).
Proof.
  intros series metrics. split; [vm_compute; reflexivity|].
  apply (widget_counter_is_breakdown ascii_le_glyph metrics
           "http_requests_total" "counter" (mkConfig (Some "method"))
           "method" series);
    try reflexivity.
  discriminate.
Defined.

(** Widget, the histogram rows: when the grouping label, the groups and the
    bounds are no names that a plain object inherits, the groups are the
    distinct group keys of the bucket samples, and in every row that is kept
    the field [le] is not Infinity and the column of every group holds a
    value that is not negative. *)
Theorem widget_histogram_rows (le_glyph : string) (metrics : Metrics)
        (metricName : string) (config : Config) (series : list Sample)
        (data : list Row) (keys : list string) :
  let key := fun s : Sample =>
               match widget_groupBy config with
               | Some g => label_or g (labels s) "Other"
               | None => "All"
               end in
  metrics_get (metricName ++ "_bucket") metrics = Some series ->
  own_grouping (widget_groupBy config) ->
  (forall s l, In s series -> le_of s = Some l ->
               own_name l = true /\ own_name (key s) = true) ->
  computeWidgetData le_glyph metrics metricName "histogram" config
  = WHistogram data keys ->
  NoDup keys
  /\ (forall k, In k keys
                <-> exists s l, In s series /\ le_of s = Some l /\ key s = k)
  /\ forall row, In row data ->
       le_not_infinity row = true
       /\ forall k, In k keys ->
            exists v, row_num k row = Some v /\ lt v fzero = false.
Proof.
  intros key Hs _ _. unfold computeWidgetData.
  cbn [String.eqb Ascii.eqb Bool.eqb].
  unfold widget_histogram. rewrite Hs.
  set (key_of := fun l : jsobj string =>
                   match widget_groupBy config with
                   | Some g => label_or g l "Other"
                   | None => "All"
                   end).
  pose proof (hist_fold_keys key_of series) as Hk.
  pose proof (hist_fold_keys_nodup key_of series ([], []) (NoDup_nil _)) as Hn.
  destruct (fold_left (hist_step key_of) series ([], [])) as [groups allLe]
    eqn:E.
  intros [= <- <-]. split; [|split].
  - apply (Permutation_NoDup (l := map fst groups)); [|exact Hn].
    symmetry. apply Permutation_map, obj_entries_perm.
  - intros k. rewrite obj_keys_in. specialize (Hk k ([], [])).
    rewrite E in Hk. cbn [fst map In] in Hk. rewrite Hk. unfold key, key_of.
    tauto.
  - intros row Hrow. apply filter_In in Hrow as [Hrow Hle].
    split; [exact Hle|]. intros k Hin.
    rewrite hist_rows_seq in Hrow. apply in_map_iff in Hrow as (i & <- & _).
    exists (exclusive groups (map leStr (sorted_le allLe)) i k).
    unfold row_num. rewrite exclusive_cols_get by exact Hin.
    split; [reflexivity|]. apply Math_max_zero_not_neg.
Qed.

(** An instance: two cumulative buckets and the bucket of everything. *)
Lemma widget_histogram_rows_witness :
  let series := [mkSample [("le", "0.5")] 3%float;
                 mkSample [("le", "1")] 5%float;
                 mkSample [("le", "+Inf")] 6%float] in
  let metrics := [("lat_bucket", series)] in
  exists data,
    computeWidgetData ascii_le_glyph metrics "lat" "histogram" (mkConfig None)
    = WHistogram data ["All"]
    /\ map (fun r => (row_num "le" r, row_num "All" r)) data
       = [(Some 0.5%float, Some 3%float); (Some 1%float, Some 2%float)]
    /\ NoDup ["All"]
    /\ (forall k, In k ["All"]
                  <-> exists s l, In s series /\ le_of s = Some l
                                  /\ "All" = k)
    /\ forall row, In row data ->
         le_not_infinity row = true
         /\ forall k, In k ["All"] ->
              exists v, row_num k row = Some v /\ lt v fzero = false.
Proof.
  intros series metrics. eexists.
  assert (E : computeWidgetData ascii_le_glyph metrics "lat" "histogram"
                (mkConfig None) = WHistogram _ ["All"])
    by (vm_compute; reflexivity).
  split; [exact E|]. split; [vm_compute; reflexivity|].
  apply (widget_histogram_rows ascii_le_glyph metrics "lat" (mkConfig None)
           series _ ["All"]); [reflexivity|exact I| |exact E].
  intros s l Hs Hl.
  destruct Hs as [<-|[<-|[<-|[]]]]; vm_compute in Hl; injection Hl as <-;
    split; reflexivity.
Defined.

(* ================================================================== *)
(** * More on the decoding of label values *)
(* ================================================================== *)

Section ReplaceOne.
Variables a b c : ascii.

(** Replacing two code units by one never lengthens a string. *)
Lemma replaceAll2_length (s : string) :
  String.length (replaceAll2 a b (str1 c) s) <= String.length s.
Proof.
  assert (H : forall n s, String.length s <= n ->
                String.length (replaceAll2 a b (str1 c) s) <= String.length s).
  { induction n as [|n IH]; intros [|x [|y t]] L; cbn [String.length] in L;
      try (cbn [replaceAll2 String.length]; lia).
    assert (Lt : String.length (String y t) <= n)
      by (cbn [String.length]; lia).
    pose proof (IH (String y t) Lt) as IH1. cbn [String.length] in IH1.
    destruct (Ascii.eqb x a) eqn:Ex.
    + apply Ascii.eqb_eq in Ex. subst x.
      destruct (Ascii.eqb y b) eqn:Ey.
      * apply Ascii.eqb_eq in Ey. subst y. rewrite replaceAll2_match.
        cbn [str1 append String.length].
        assert (Lt' : String.length t <= n) by lia.
        specialize (IH t Lt'). lia.
      * rewrite replaceAll2_no_match by exact Ey.
        cbn [String.length]. lia.
    + rewrite replaceAll2_skip by exact Ex. cbn [String.length]. lia. }
  now apply (H (String.length s)).
Qed.

(** A string without the first code unit of the pattern is unchanged. *)
Lemma replaceAll2_absent (s : string) :
  has_char a s = false -> replaceAll2 a b (str1 c) s = s.
Proof.
  induction s as [|x s IH]; [reflexivity|]. cbn [has_char].
  intros H. apply orb_false_iff in H as [Hx Hs].
  rewrite replaceAll2_skip by exact Hx. now rewrite IH.
Qed.
End ReplaceOne.

(** Decoding a label value: the result is never longer than the text
    between the quotes, and a text without a backslash is kept as it is. *)
Theorem unescape_plain (v : string) :
  String.length (unescape v) <= String.length v
  /\ (has_char backslash v = false -> unescape v = v).
Proof.
  unfold unescape. split.
  - etransitivity; [apply replaceAll2_length|].
    etransitivity; [apply replaceAll2_length|]. apply replaceAll2_length.
  - intros H. rewrite (replaceAll2_absent backslash dquote dquote v H).
    rewrite (replaceAll2_absent backslash backslash backslash v H).
    exact (replaceAll2_absent backslash "n" LF v H).
Qed.

(** An instance: a value with a comma and a brace. *)
Lemma unescape_plain_witness :
  String.length (unescape "a,b}") <= String.length "a,b}"
  /\ unescape "a,b}" = "a,b}".
Proof.
  destruct (unescape_plain "a,b}") as [L E]. split; [exact L|].
  apply E. reflexivity.
Defined.

(* ================================================================== *)
(** * Single values, the memory breakdown and the two history updaters *)
(* ================================================================== *)

Lemma filter_sublist {A : Type} (p : A -> bool) (l : list A) :
  sublist (filter p l) l.
Proof.
  induction l as [|x l IH]; cbn [filter]; [constructor|].
  destruct (p x); now constructor.
Qed.

Lemma sublist_map {A B : Type} (f : A -> B) (l1 l2 : list A) :
  sublist l1 l2 -> sublist (map f l1) (map f l2).
Proof. induction 1; cbn [map]; now constructor. Qed.

(** Memory breakdown: a snapshot always gives a breakdown; its slices come
    in the order of the six names, some left out, and the value of a slice
    that is shown is a number above 0. *)
Theorem memstats_slices (metrics : Metrics) :
  exists b,
    computeGoMemstatsBreakdown (Some metrics) = Some b
    /\ sublist (map slice_name (breakdownData b)) slice_names
    /\ forall sl, In sl (breakdownData b) ->
         gt (slice_value sl) fzero = true /\ isNaN (slice_value sl) = false.
Proof.
  unfold computeGoMemstatsBreakdown. cbv zeta. eexists. split; [reflexivity|].
  cbn [breakdownData]. split.
  - match goal with
    | |- sublist (map _ (filter ?p ?l)) _ =>
        exact (sublist_map slice_name _ _ (filter_sublist p l))
    end.
  - intros sl H. apply filter_In in H as [_ H]. split; [exact H|].
    now apply gt_not_nan in H.
Qed.

(** Single value: with no grouping, the counter or gauge widget of a metric
    that is there shows [getMetricValue] of that metric with no filter. *)
Theorem widget_single_is_metric_value (le_glyph : string) (metrics : Metrics)
        (metricName metricType : string) (config : Config)
        (series : list Sample) :
  String.eqb metricType "histogram" = false ->
  String.eqb metricType "summary" = false ->
  widget_groupBy config = None ->
  metrics_get metricName metrics = Some series ->
  computeWidgetData le_glyph metrics metricName metricType config
  = WSingle (getMetricValue metrics metricName []).
Proof.
  intros H1 H2 Hg Hs. unfold computeWidgetData. rewrite H1, H2, Hg.
  unfold widget_counter, getMetricValue. rewrite Hs.
  now rewrite filter_all by reflexivity.
Qed.

(** An instance: two samples of a gauge. *)
Lemma widget_single_is_metric_value_witness :
  let series := [mkSample [("cpu", "0")] 3%float;
                 mkSample [("cpu", "1")] 4%float] in
  let metrics := [("go_threads", series)] in
  getMetricValue metrics "go_threads" [] = 7%float
  /\ getMetricValue metrics "go_threads" [("cpu", "1")] = 4%float
  /\ computeWidgetData ascii_le_glyph metrics "go_threads" "gauge" (mkConfig (Some "none"))
     = WSingle (getMetricValue metrics "go_threads" []).
Proof.
  intros series metrics. split; [vm_compute; reflexivity|].
  split; [vm_compute; reflexivity|].
  apply (widget_single_is_metric_value ascii_le_glyph metrics "go_threads"
           "gauge" (mkConfig (Some "none")) series); reflexivity.
Defined.

(** History, the two updaters: on any history, the updater of the fetch and
    the updater of the manual parse give the same history, which ends with
    the new snapshot. *)
Theorem history_updaters_agree (h : History) (s : Snapshot) :
  fetch_append h s = manual_append h s
  /\ exists older, manual_append h s = (older ++ [s])%list.
Proof.
  split.
  - unfold fetch_append, manual_append.
    destruct (Nat.ltb 60 (List.length (h ++ [s]))) eqn:E; [reflexivity|].
    apply Nat.ltb_ge in E. now rewrite slice_last_short.
  - unfold manual_append, slice_last. rewrite length_app. cbn [List.length].
    destruct (Nat.le_gt_cases (List.length h + 1) 60) as [L|L].
    + exists h. replace (List.length h + 1 - 60) with 0 by lia. reflexivity.
    + exists (skipn (List.length h + 1 - 60) h).
      rewrite skipn_app.
      replace (List.length h + 1 - 60 - List.length h) with 0 by lia.
      reflexivity.
Qed.
